(** * pdfme designer front end (src/main.ts): a shallow embedding

    The program is browser glue around a template designer widget: it keeps
    a JSON template document in the widget, mirrors it to local storage,
    imports and exports it as JSON text, edits its padding, and on demand
    expands the first page of a snapshot into a paginated multi-page
    document together with a map of field values.

    The embedding has three layers.
    - JSON text: the tree type [json], the serializer behind
      [JSON.stringify] and the parser behind [JSON.parse].
    - The JavaScript object store: values, heap cells, and an error/state
      monad [M] in which the handlers of main.ts are written.
    - The application state [app] and one function per event handler. *)

From Stdlib Require Import ZArith NArith Ascii String List Lia.
From stdpp Require Import base list strings numbers gmap.
From iris.proofmode Require Import proofmode.
From iris.base_logic.lib Require Import gen_heap.

#[local] Set Warnings "-register-all,-rewrite-rw".

#[local] Open Scope list_scope.


(** ** Numbers

    A finite number is a decimal [dmant / 10 ^ dscale].  Sums of the
    literals that main.ts uses (277, 21, 214, 215, 10, 12.4, ...) are
    computed exactly; on these values binary64 arithmetic prints the same
    decimals.  The normal form has no trailing zero after the point. *)

Record dec := Dec { dmant : Z; dscale : nat }.

Definition dec_canon (d : dec) : bool :=
  match dscale d with
  | O => true
  | S _ => negb (dmant d mod 10 =? 0)%Z
  end.

Fixpoint dec_norm (m : Z) (k : nat) : dec :=
  match k with
  | O => Dec m 0
  | S k' => if (m mod 10 =? 0)%Z then dec_norm (m / 10)%Z k' else Dec m k
  end.

Definition dec_of_Z (z : Z) : dec := Dec z 0.

Definition dec_add (a b : dec) : dec :=
  let k := Nat.max (dscale a) (dscale b) in
  dec_norm (dmant a * 10 ^ Z.of_nat (k - dscale a)
            + dmant b * 10 ^ Z.of_nat (k - dscale b))%Z k.

(** A JavaScript number: finite, [NaN] or an infinity. *)
Inductive number :=
  | Fin (d : dec)
  | NaN
  | Inf (neg : bool).

(** ** Decimal digits *)

Definition digit_char (d : N) : ascii := ascii_of_N (48 + d).

Definition is_digit (c : ascii) : bool :=
  ((48 <=? N_of_ascii c) && (N_of_ascii c <=? 57))%N.

Definition digit_val (c : ascii) : N := (N_of_ascii c - 48)%N.

Fixpoint pr_digits (fuel : nat) (n : N) (tl : list ascii) : list ascii :=
  let tl' := digit_char (n mod 10) :: tl in
  match fuel with
  | O => tl'
  | S f => if (n <? 10)%N then tl' else pr_digits f (n / 10) tl'
  end.

(** The decimal numeral of [n], consed onto [tl]. *)
Definition pr_N (n : N) (tl : list ascii) : list ascii :=
  pr_digits (S (N.to_nat (N.log2 n))) n tl.

(** Exactly [w] digits of [n], least significant last. *)
Fixpoint pr_fixed (w : nat) (n : N) (tl : list ascii) : list ascii :=
  match w with
  | O => tl
  | S w' => pr_fixed w' (n / 10) (digit_char (n mod 10) :: tl)
  end.

Definition pr_dec (d : dec) (tl : list ascii) : list ascii :=
  let m := Z.abs_N (dmant d) in
  let p := (10 ^ N.of_nat (dscale d))%N in
  let frac :=
    match dscale d with
    | O => tl
    | S _ => "."%char :: pr_fixed (dscale d) (m mod p) tl
    end in
  let body := pr_N (m / p) frac in
  if (dmant d <? 0)%Z then "-"%char :: body else body.

(** Reads a maximal run of digits: accumulated value, number of digits
    read, and the rest. *)
Fixpoint scan_digits (acc : N) (cnt : nat) (s : list ascii)
  : N * nat * list ascii :=
  match s with
  | c :: r =>
      if is_digit c then scan_digits (10 * acc + digit_val c)%N (S cnt) r
      else (acc, cnt, s)
  | [] => (acc, cnt, s)
  end.

(** ** JSON number tokens: [-]? int frac? exp? *)

Definition parse_int (s : list ascii) : option (N * list ascii) :=
  match s with
  | c :: r =>
      if Ascii.eqb c "0" then Some (0%N, r)
      else if is_digit c then
        let '(v, _, r') := scan_digits (digit_val c) 1 r in Some (v, r')
      else None
  | [] => None
  end.

Definition parse_frac (s : list ascii) : option (N * nat * list ascii) :=
  match s with
  | "."%char :: r =>
      match scan_digits 0 0 r with
      | (_, O, _) => None
      | (v, k, r') => Some (v, k, r')
      end
  | _ => Some (0%N, O, s)
  end.

Definition parse_exp_digits (neg : bool) (s : list ascii)
  : option (Z * list ascii) :=
  match scan_digits 0 0 s with
  | (_, O, _) => None
  | (v, _, r) => Some (if neg then (- Z.of_N v)%Z else Z.of_N v, r)
  end.

Definition parse_exp (s : list ascii) : option (Z * list ascii) :=
  match s with
  | c :: r =>
      if Ascii.eqb c "e" || Ascii.eqb c "E" then
        match r with
        | "+"%char :: r' => parse_exp_digits false r'
        | "-"%char :: r' => parse_exp_digits true r'
        | _ => parse_exp_digits false r
        end
      else Some (0%Z, s)
  | [] => Some (0%Z, s)
  end.

(** The decimal [(-1)^neg * m * 10^(e - k)], in normal form. *)
Definition dec_of_parts (neg : bool) (m : N) (k : nat) (e : Z) : dec :=
  let z := if neg then (- Z.of_N m)%Z else Z.of_N m in
  if (Z.of_nat k <=? e)%Z
  then dec_norm (z * 10 ^ (e - Z.of_nat k))%Z 0
  else dec_norm z (Z.to_nat (Z.of_nat k - e)).

Definition strip_minus (s : list ascii) : bool * list ascii :=
  match s with
  | "-"%char :: r => (true, r)
  | _ => (false, s)
  end.

Definition parse_number (s : list ascii) : option (dec * list ascii) :=
  let '(neg, s1) := strip_minus s in
  match parse_int s1 with
  | None => None
  | Some (i, s2) =>
    match parse_frac s2 with
    | None => None
    | Some (f, k, s3) =>
      match parse_exp s3 with
      | None => None
      | Some (e, s4) =>
          Some (dec_of_parts neg (i * 10 ^ N.of_nat k + f) k e, s4)
      end
    end
  end.

(** ** JSON trees

    Objects are association lists in enumeration order.  Characters are
    the 8-bit code units of Rocq strings; a [\u] escape above [00ff] lies
    outside this model and is rejected by the parser. *)

Inductive json :=
  | JNull
  | JBool (b : bool)
  | JNum (d : dec)
  | JStr (s : string)
  | JArr (l : list json)
  | JObj (l : list (string * json)).

(** Association lists with the update of a JavaScript object: an existing
    key keeps its place, a new key goes last. *)
Fixpoint alookup {A} (k : string) (l : list (string * A)) : option A :=
  match l with
  | [] => None
  | (k', x) :: r => if String.eqb k k' then Some x else alookup k r
  end.

Fixpoint aset {A} (k : string) (x : A) (l : list (string * A))
  : list (string * A) :=
  match l with
  | [] => [(k, x)]
  | (k', y) :: r =>
      if String.eqb k k' then (k', x) :: r else (k', y) :: aset k x r
  end.

(** ** The serializer of [JSON.stringify]

    Every printer takes the text that follows and conses onto it.  [gap]
    is the indentation unit ([0]: the compact form of [JSON.stringify(x)];
    [2]: the form of [JSON.stringify(x, null, 2)]), [lvl] the nesting
    depth. *)

Definition hex_char (n : N) : ascii :=
  if (n <? 10)%N then ascii_of_N (48 + n) else ascii_of_N (87 + n).

Definition pr_char (c : ascii) (tl : list ascii) : list ascii :=
  match c with
  | "034"%char => "092"%char :: "034"%char :: tl
  | "092"%char => "092"%char :: "092"%char :: tl
  | "008"%char => "092"%char :: "b"%char :: tl
  | "009"%char => "092"%char :: "t"%char :: tl
  | "010"%char => "092"%char :: "n"%char :: tl
  | "012"%char => "092"%char :: "f"%char :: tl
  | "013"%char => "092"%char :: "r"%char :: tl
  | _ =>
      let n := N_of_ascii c in
      if (n <? 32)%N then
        "092"%char :: "u"%char :: "0"%char :: "0"%char
          :: hex_char (n / 16) :: hex_char (n mod 16) :: tl
      else c :: tl
  end.

Fixpoint pr_chars (s : string) (tl : list ascii) : list ascii :=
  match s with
  | EmptyString => tl
  | String c s' => pr_char c (pr_chars s' tl)
  end.

Definition pr_string (s : string) (tl : list ascii) : list ascii :=
  "034"%char :: pr_chars s ("034"%char :: tl).

Definition pr_newline (gap lvl : nat) (tl : list ascii) : list ascii :=
  match gap with
  | O => tl
  | S _ => "010"%char :: (replicate (gap * lvl) " "%char ++ tl)
  end.

Definition pr_colon (gap : nat) (tl : list ascii) : list ascii :=
  match gap with
  | O => ":"%char :: tl
  | S _ => ":"%char :: " "%char :: tl
  end.

Fixpoint pr_value (gap lvl : nat) (t : json) (tl : list ascii) {struct t}
  : list ascii :=
  match t with
  | JNull => "n"%char :: "u"%char :: "l"%char :: "l"%char :: tl
  | JBool true => "t"%char :: "r"%char :: "u"%char :: "e"%char :: tl
  | JBool false =>
      "f"%char :: "a"%char :: "l"%char :: "s"%char :: "e"%char :: tl
  | JNum d => pr_dec d tl
  | JStr s => pr_string s tl
  | JArr [] => "["%char :: "]"%char :: tl
  | JArr (x :: xs) =>
      "["%char :: pr_newline gap (S lvl) (pr_value gap (S lvl) x
        ((fix elems (ys : list json) : list ascii :=
            match ys with
            | [] => pr_newline gap lvl ("]"%char :: tl)
            | y :: ys' =>
                ","%char :: pr_newline gap (S lvl)
                  (pr_value gap (S lvl) y (elems ys'))
            end) xs))
  | JObj [] => "{"%char :: "}"%char :: tl
  | JObj ((k, x) :: fs) =>
      "{"%char :: pr_newline gap (S lvl) (pr_string k (pr_colon gap
        (pr_value gap (S lvl) x
          ((fix members (gs : list (string * json)) : list ascii :=
              match gs with
              | [] => pr_newline gap lvl ("}"%char :: tl)
              | (k', y) :: gs' =>
                  ","%char :: pr_newline gap (S lvl) (pr_string k'
                    (pr_colon gap (pr_value gap (S lvl) y (members gs'))))
              end) fs))))
  end.

(** The tail of an array after its first element, and of an object after
    its first member, as functions of their own. *)
Fixpoint pr_elems (gap lvl : nat) (ys : list json) (tl : list ascii)
  : list ascii :=
  match ys with
  | [] => pr_newline gap lvl ("]"%char :: tl)
  | y :: ys' =>
      ","%char :: pr_newline gap (S lvl)
        (pr_value gap (S lvl) y (pr_elems gap lvl ys' tl))
  end.

Fixpoint pr_members (gap lvl : nat) (gs : list (string * json))
  (tl : list ascii) : list ascii :=
  match gs with
  | [] => pr_newline gap lvl ("}"%char :: tl)
  | (k, y) :: gs' =>
      ","%char :: pr_newline gap (S lvl) (pr_string k
        (pr_colon gap (pr_value gap (S lvl) y (pr_members gap lvl gs' tl))))
  end.

Definition stringify (gap : nat) (t : json) : string :=
  string_of_list_ascii (pr_value gap 0 t []).

(** ** The parser of [JSON.parse] *)

Definition is_ws (c : ascii) : bool :=
  match c with
  | " "%char | "009"%char | "010"%char | "013"%char => true
  | _ => false
  end.

Fixpoint skip_ws (s : list ascii) : list ascii :=
  match s with
  | c :: r => if is_ws c then skip_ws r else s
  | [] => []
  end.

Definition hex_val (c : ascii) : option N :=
  let n := N_of_ascii c in
  if ((48 <=? n) && (n <=? 57))%N then Some (n - 48)%N
  else if ((97 <=? n) && (n <=? 102))%N then Some (n - 87)%N
  else if ((65 <=? n) && (n <=? 70))%N then Some (n - 55)%N
  else None.

Definition hex4 (a b c d : ascii) : option N :=
  match hex_val a, hex_val b, hex_val c, hex_val d with
  | Some x, Some y, Some z, Some w =>
      Some (((x * 16 + y) * 16 + z) * 16 + w)%N
  | _, _, _, _ => None
  end.

Definition simple_escape (e : ascii) : option ascii :=
  match e with
  | "034"%char => Some "034"%char
  | "092"%char => Some "092"%char
  | "/"%char => Some "/"%char
  | "b"%char => Some "008"%char
  | "f"%char => Some "012"%char
  | "n"%char => Some "010"%char
  | "r"%char => Some "013"%char
  | "t"%char => Some "009"%char
  | _ => None
  end.

Definition cons_char (c : ascii) (p : option (string * list ascii))
  : option (string * list ascii) :=
  match p with
  | Some (s, r) => Some (String c s, r)
  | None => None
  end.

(** The characters of a string literal, after its opening quote. *)
Fixpoint parse_chars (s : list ascii) : option (string * list ascii) :=
  match s with
  | [] => None
  | c :: r =>
      match c with
      | "034"%char => Some (EmptyString, r)
      | "092"%char =>
          match r with
          | [] => None
          | e :: r' =>
              match simple_escape e with
              | Some x => cons_char x (parse_chars r')
              | None =>
                  match e, r' with
                  | "u"%char, h1 :: h2 :: h3 :: h4 :: r'' =>
                      match hex4 h1 h2 h3 h4 with
                      | Some code =>
                          if (code <? 256)%N
                          then cons_char (ascii_of_N code) (parse_chars r'')
                          else None
                      | None => None
                      end
                  | _, _ => None
                  end
              end
          end
      | _ => if (N_of_ascii c <? 32)%N then None
             else cons_char c (parse_chars r)
      end
  end.

Fixpoint strip_prefix (w s : list ascii) : option (list ascii) :=
  match w, s with
  | [], _ => Some s
  | a :: w', b :: s' => if Ascii.eqb a b then strip_prefix w' s' else None
  | _ :: _, [] => None
  end.

Definition expect (w : list ascii) (s : list ascii) (t : json)
  : option (json * list ascii) :=
  match strip_prefix w s with
  | Some r => Some (t, r)
  | None => None
  end.

(** After white space, the closing bracket [close] if it comes next. *)
Definition peek_close (close : ascii) (s : list ascii)
  : option (list ascii) :=
  match skip_ws s with
  | c :: r => if Ascii.eqb c close then Some r else None
  | [] => None
  end.

(** What follows a member or an element: a comma, or [close]. *)
Inductive separator := SepComma | SepClose.

Definition parse_sep (close : ascii) (s : list ascii)
  : option (separator * list ascii) :=
  match skip_ws s with
  | c :: r =>
      if Ascii.eqb c ","%char then Some (SepComma, r)
      else if Ascii.eqb c close then Some (SepClose, r)
      else None
  | [] => None
  end.

(** The quoted key of a member and the colon after it. *)
Definition parse_key (s : list ascii) : option (string * list ascii) :=
  match skip_ws s with
  | "034"%char :: r =>
      match parse_chars r with
      | Some (k, r1) =>
          match skip_ws r1 with
          | ":"%char :: r2 => Some (k, r2)
          | _ => None
          end
      | None => None
      end
  | _ => None
  end.

Fixpoint parse_value (n : nat) (s : list ascii) {struct n}
  : option (json * list ascii) :=
  match n with
  | O => None
  | S n' =>
      match skip_ws s with
      | [] => None
      | c :: r =>
          match c with
          | "{"%char =>
              match peek_close "}"%char r with
              | Some r' => Some (JObj [], r')
              | None => parse_members n' [] r
              end
          | "["%char =>
              match peek_close "]"%char r with
              | Some r' => Some (JArr [], r')
              | None => parse_elems n' [] r
              end
          | "034"%char =>
              match parse_chars r with
              | Some (str, r') => Some (JStr str, r')
              | None => None
              end
          | "t"%char => expect ["r"; "u"; "e"]%char r (JBool true)
          | "f"%char => expect ["a"; "l"; "s"; "e"]%char r (JBool false)
          | "n"%char => expect ["u"; "l"; "l"]%char r JNull
          | _ =>
              match parse_number (c :: r) with
              | Some (d, r') => Some (JNum d, r')
              | None => None
              end
          end
      end
  end
with parse_elems (n : nat) (acc : list json) (s : list ascii) {struct n}
  : option (json * list ascii) :=
  match n with
  | O => None
  | S n' =>
      match parse_value n' s with
      | None => None
      | Some (v, r) =>
          match parse_sep "]"%char r with
          | Some (SepComma, r') => parse_elems n' (acc ++ [v]) r'
          | Some (SepClose, r') => Some (JArr (acc ++ [v]), r')
          | None => None
          end
      end
  end
with parse_members (n : nat) (acc : list (string * json)) (s : list ascii)
  {struct n} : option (json * list ascii) :=
  match n with
  | O => None
  | S n' =>
      match parse_key s with
      | None => None
      | Some (k, r) =>
          match parse_value n' r with
          | None => None
          | Some (v, r') =>
              match parse_sep "}"%char r' with
              | Some (SepComma, r'') => parse_members n' (aset k v acc) r''
              | Some (SepClose, r'') => Some (JObj (aset k v acc), r'')
              | None => None
              end
          end
      end
  end.

(** [JSON.parse]: one value, then only white space.  [None] is the
    [SyntaxError]. *)
Definition parse (text : string) : option json :=
  let s := list_ascii_of_string text in
  match parse_value (length s) s with
  | Some (t, r) =>
      match skip_ws r with
      | [] => Some t
      | _ :: _ => None
      end
  | None => None
  end.

(** ** Well-formed trees

    The trees that [parse] returns: numbers in normal form, and no key
    twice in one object. *)

Fixpoint wf_json (t : json) : bool :=
  match t with
  | JNum d => dec_canon d
  | JArr l => forallb wf_json l
  | JObj l =>
      bool_decide (NoDup (map fst l)) && forallb (fun p => wf_json (snd p)) l
  | _ => true
  end.

(** Number of nodes, counting one more for every element and member. *)
Fixpoint json_size (t : json) : nat :=
  match t with
  | JArr l => S (list_sum (map (fun x => S (json_size x)) l))
  | JObj l => S (list_sum (map (fun p => S (json_size (snd p))) l))
  | _ => 1
  end.

(** Text positions used to state the round trip: [follow tl] holds of the
    text after a printed value (end of text, or a comma, a closing bracket
    or a line break); [head_ok c] of the first character of a printed
    value. *)
Definition follow (tl : list ascii) : bool :=
  match tl with
  | [] => true
  | c :: _ =>
      match c with
      | ","%char | "]"%char | "}"%char | "010"%char => true
      | _ => false
      end
  end.

Definition head_ok (c : ascii) : bool :=
  match c with
  | "n"%char | "t"%char | "f"%char | "034"%char | "["%char | "{"%char
  | "-"%char => true
  | _ => is_digit c
  end.

(** Nesting depth: the longest chain of arrays and objects. *)
Fixpoint json_depth (t : json) : nat :=
  match t with
  | JArr l => S (max_list (map json_depth l))
  | JObj l => S (max_list (map (fun p => json_depth (snd p)) l))
  | _ => 0
  end.

(** Parsing the printed form of [t], followed by [tl], returns [t] and
    leaves [tl]. *)
Definition roundtrips (t : json) : Prop :=
  forall gap lvl n tl,
    json_size t <= n -> wf_json t = true -> follow tl = true ->
    parse_value n (pr_value gap lvl t tl) = Some (t, tl).

(** * The JavaScript object store

    Objects and arrays live in heap cells and are handled through
    references, so that two names for one object see each other's
    writes.  A cell is never freed; a fresh cell gets the next address. *)

Definition loc := nat.

Inductive value :=
  | VUndef
  | VNull
  | VBool (b : bool)
  | VNum (n : number)
  | VStr (s : string)
  | VRef (l : loc).

Inductive cell :=
  | CObj (props : list (string * value))
  | CArr (elems : list value).

Definition heap := list cell.

Inductive exn := TypeError | SyntaxError.

Inductive result (A : Type) :=
  | Ok (a : A)
  | Throw (e : exn).
Arguments Ok {A} a.
Arguments Throw {A} e.

(** Computations that read and write the heap and may throw.  The heap
    is returned also when they throw: what was written stays written. *)
Definition M (A : Type) : Type := heap -> heap * result A.

#[global] Instance M_ret : MRet M := fun A a h => (h, Ok a).

#[global] Instance M_bind : MBind M := fun A B f m h =>
  match m h with
  | (h', Ok a) => f a h'
  | (h', Throw e) => (h', Throw e)
  end.

Definition throw {A} (e : exn) : M A := fun h => (h, Throw e).

Definition load (l : loc) : M cell := fun h =>
  match h !! l with
  | Some c => (h, Ok c)
  | None => (h, Throw TypeError)
  end.

Definition store (l : loc) (c : cell) : M unit := fun h =>
  (<[l := c]> h, Ok tt).

Definition alloc (c : cell) : M loc := fun h => (h ++ [c], Ok (length h)).

(** [f i x] for every element [x] at position [i], left to right. *)
Fixpoint mapM_ix {A B} (f : nat -> A -> M B) (i : nat) (l : list A)
  : M (list B) :=
  match l with
  | [] => mret []
  | x :: r => y ← f i x; ys ← mapM_ix f (S i) r; mret (y :: ys)
  end.

Fixpoint iterM {A} (f : A -> M unit) (l : list A) : M unit :=
  match l with
  | [] => mret tt
  | x :: r => _ ← f x; iterM f r
  end.

(** ** Strings of numbers *)

Definition nat_to_string (n : nat) : string :=
  string_of_list_ascii (pr_N (N.of_nat n) []).

(** Number of decimal digits of [n]. *)
Definition digits10 (n : N) : nat := length (pr_N n []).

Fixpoint strip_zeros (s : list ascii) : list ascii :=
  match s with
  | [] => []
  | c :: r =>
      match strip_zeros r with
      | [] => if Ascii.eqb c "0" then [] else [c]
      | r' => c :: r'
      end
  end.

(** [Number::toString]: plain digits while the decimal point lies
    between six places before and twenty-one places behind the first
    digit, and the exponent form otherwise. *)
Definition number_to_string (n : number) : string :=
  match n with
  | Fin d0 =>
      let d := dec_norm (dmant d0) (dscale d0) in
      let m := Z.abs_N (dmant d) in
      let pt := (Z.of_nat (digits10 m) - Z.of_nat (dscale d))%Z in
      if ((-6 <? pt) && (pt <=? 21))%Z
      then string_of_list_ascii (pr_dec d [])
      else
        let e := (pt - 1)%Z in
        let mant :=
          match strip_zeros (pr_N m []) with
          | c :: (_ :: _) as r => c :: "."%char :: r
          | ds => ds
          end in
        string_of_list_ascii
          ((if (dmant d <? 0)%Z then ["-"%char] else [])
           ++ mant
           ++ "e"%char :: (if (e <? 0)%Z then "-"%char else "+"%char)
              :: pr_N (Z.abs_N e) [])
  | NaN => "NaN"
  | Inf false => "Infinity"
  | Inf true => "-Infinity"
  end.

(** The index that a property key denotes, if it is the decimal numeral
    of one. *)
Definition index_of_key (k : string) : option nat :=
  match parse_int (list_ascii_of_string k) with
  | Some (n, []) => Some (N.to_nat n)
  | _ => None
  end.

(** ** Binary64

    A number of JavaScript is a binary64 number.  [parseFloat] returns
    the one nearest to the decimal that it reads, the even one of two
    equally near, and an infinity beyond the largest.  The model keeps a
    finite number as the decimal that [Number::toString] prints for it:
    the shortest that reads back as the same binary64 number. *)

(** [num / den] rounded to the nearest integer, a tie to the even one. *)
Definition round_div (num den : Z) : Z :=
  let q := (num / den)%Z in
  let r := (num mod den)%Z in
  if (2 * r <? den)%Z then q
  else if (den <? 2 * r)%Z then (q + 1)%Z
  else if Z.even q then q else (q + 1)%Z.

(** The integer part of the logarithm of [num / den] to the base 2 and
    to the base 10, for positive [num] and [den]. *)
Definition log2_ratio (num den : Z) : Z :=
  let b := (Z.log2 num - Z.log2 den)%Z in
  if (0 <=? b)%Z
  then (if (den * 2 ^ b <=? num)%Z then b else b - 1)%Z
  else (if (den <=? num * 2 ^ (- b))%Z then b else b - 1)%Z.

Definition log10_ratio (num den : Z) : Z :=
  let p := (Z.of_nat (digits10 (Z.to_N num))
            - Z.of_nat (digits10 (Z.to_N den)))%Z in
  if (0 <=? p)%Z
  then (if (den * 10 ^ p <=? num)%Z then p else p - 1)%Z
  else (if (den <=? num * 10 ^ (- p))%Z then p else p - 1)%Z.

(** A finite binary64 number that is not negative is [q * 2^-1074] for
    an integer [q] below [2^2098]; the numbers from [2^-1022] on carry 53
    significant bits. *)
Definition binary64_of_ratio (num den : Z) : option Z :=
  let b := log2_ratio num den in
  let ex := Z.max (b - 52) (-1074) in
  let m := if (0 <=? ex)%Z then round_div num (den * 2 ^ ex)
           else round_div (num * 2 ^ (- ex)) den in
  let q := (m * 2 ^ (ex + 1074))%Z in
  if (2 ^ 2098 <=? q)%Z then None else Some q.

(** The binary64 number nearest to [m * 10^e]; [None] is the overflow
    to infinity. *)
Definition binary64_of_decimal (m : N) (e : Z) : option Z :=
  if (m =? 0)%N then Some 0%Z
  else
    let top := (Z.of_nat (digits10 m) + e)%Z in
    if (310 <? top)%Z then None
    else if (top <? -330)%Z then Some 0%Z
    else if (0 <=? e)%Z then binary64_of_ratio (Z.of_N m * 10 ^ e) 1
    else binary64_of_ratio (Z.of_N m) (10 ^ (- e)).

(** The decimal that [Number::toString] prints for the binary64 number
    [q * 2^-1074]: with as few digits as read back as the same number
    and, of those, the nearest, the even one of two equally near. *)
Fixpoint shortest_from (fuel : nat) (k : Z) (q tnum tden p : Z) : N * Z :=
  let ue := (p - k + 1)%Z in
  let num := if (0 <=? ue)%Z then tnum else (tnum * 10 ^ (- ue))%Z in
  let den := if (0 <=? ue)%Z then (tden * 10 ^ ue)%Z else tden in
  let lo := (num / den)%Z in
  let r := (num mod den)%Z in
  let hi := (lo + 1)%Z in
  let lo_ok := bool_decide (binary64_of_decimal (Z.to_N lo) ue = Some q) in
  let hi_ok := bool_decide (binary64_of_decimal (Z.to_N hi) ue = Some q) in
  let lo_first :=
    (2 * r <? den)%Z || ((2 * r =? den)%Z && Z.even lo) in
  if lo_ok && (lo_first || negb hi_ok) then (Z.to_N lo, ue)
  else if hi_ok then (Z.to_N hi, ue)
  else match fuel with
       | O => (Z.to_N lo, ue)
       | S f => shortest_from f (k + 1) q tnum tden p
       end.

(** [q * 2^-1074] in lower terms. *)
Definition binary64_ratio (q : Z) : Z * Z :=
  let t := Z.min 1074 (Z.log2 (Z.land q (- q))) in
  (q / 2 ^ t, 2 ^ (1074 - t))%Z.

Definition shortest_decimal (q : Z) : N * Z :=
  if (q =? 0)%Z then (0%N, 0%Z)
  else
    let '(tnum, tden) := binary64_ratio q in
    shortest_from 17 1 q tnum tden (log10_ratio tnum tden).

(** The white space that [parseFloat] skips, among the 8-bit code
    units. *)
Definition is_str_ws (c : ascii) : bool :=
  match c with
  | " "%char | "009"%char | "010"%char | "011"%char | "012"%char
  | "013"%char | "160"%char => true
  | _ => false
  end.

Fixpoint skip_str_ws (s : list ascii) : list ascii :=
  match s with
  | c :: r => if is_str_ws c then skip_str_ws r else s
  | [] => []
  end.

(** [parseFloat]: the longest decimal literal after leading white
    space, as a binary64 number. *)
Definition parseFloat (s : string) : number :=
  let s0 := skip_str_ws (list_ascii_of_string s) in
  let '(neg, s1) :=
    match s0 with
    | "-"%char :: r => (true, r)
    | "+"%char :: r => (false, r)
    | _ => (false, s0)
    end in
  match strip_prefix (list_ascii_of_string "Infinity") s1 with
  | Some _ => Inf neg
  | None =>
      let '(i, ci, s2) := scan_digits 0 0 s1 in
      let '(f, cf, s3) :=
        match s2 with
        | "."%char :: r => scan_digits 0 0 r
        | _ => (0%N, O, s2)
        end in
      match ci + cf with
      | O => NaN
      | S _ =>
          let e := match parse_exp s3 with
                   | Some (e, _) => e
                   | None => 0%Z
                   end in
          match binary64_of_decimal (i * 10 ^ N.of_nat cf + f)
                  (e - Z.of_nat cf) with
          | Some q =>
              let '(m, ue) := shortest_decimal q in
              Fin (dec_of_parts neg m 0 ue)
          | None => Inf neg
          end
      end
  end.

(** ** What [JSON.stringify] sees

    [to_json strict n h v] reads the tree below [v] with [n] levels of
    fuel.  With [strict = false] it applies the conversions of
    [JSON.stringify]: a member whose value is [undefined] is left out, an
    [undefined] element and a number that is not finite become [null].
    With [strict = true] it returns a tree only when none of these
    occurs, numbers are in normal form and no object holds a key twice:
    the value then is exactly that JSON tree.  [None] also when the fuel
    runs out, as it does on a cyclic structure. *)

Definition num_json (strict : bool) (n : number) : option json :=
  match n with
  | Fin d =>
      if strict then (if dec_canon d then Some (JNum d) else None)
      else Some (JNum (dec_norm (dmant d) (dscale d)))
  | _ => if strict then None else Some JNull
  end.

Fixpoint elems_json (f : value -> option json) (strict : bool)
  (vs : list value) : option (list json) :=
  match vs with
  | [] => Some []
  | v :: r =>
      let here :=
        match v with
        | VUndef => if strict then None else Some JNull
        | _ => f v
        end in
      match here, elems_json f strict r with
      | Some t, Some ts => Some (t :: ts)
      | _, _ => None
      end
  end.

Fixpoint members_json (f : value -> option json) (strict : bool)
  (ps : list (string * value)) : option (list (string * json)) :=
  match ps with
  | [] => Some []
  | (k, v) :: r =>
      match v with
      | VUndef => if strict then None else members_json f strict r
      | _ =>
          match f v, members_json f strict r with
          | Some t, Some ts => Some ((k, t) :: ts)
          | _, _ => None
          end
      end
  end.

Fixpoint to_json (strict : bool) (n : nat) (h : heap) (v : value)
  : option json :=
  match v with
  | VUndef => None
  | VNull => Some JNull
  | VBool b => Some (JBool b)
  | VNum x => num_json strict x
  | VStr s => Some (JStr s)
  | VRef l =>
      match n with
      | O => None
      | S n' =>
          match h !! l with
          | Some (CArr vs) =>
              match elems_json (to_json strict n' h) strict vs with
              | Some ts => Some (JArr ts)
              | None => None
              end
          | Some (CObj ps) =>
              if strict && negb (bool_decide (NoDup (map fst ps))) then None
              else
                match members_json (to_json strict n' h) strict ps with
                | Some ts => Some (JObj ts)
                | None => None
                end
          | None => None
          end
      end
  end.

(** The JSON tree that a value is, if it is one.  No path in a heap
    without cycles is longer than the heap. *)
Definition json_of (h : heap) (v : value) : option json :=
  to_json true (S (length h)) h v.

(** [JSON.stringify(v)] ([gap = 0]) and [JSON.stringify(v, null, 2)]
    ([gap = 2]).  For [undefined] JavaScript returns [undefined]; every
    caller in main.ts uses the result as a string, so the model returns
    the text that conversion gives.  A cyclic structure is a
    [TypeError]. *)
Definition JSON_stringify (gap : nat) (v : value) : M string := fun h =>
  match v with
  | VUndef => (h, Ok "undefined"%string)
  | _ =>
      match to_json false (S (length h)) h v with
      | Some t => (h, Ok (stringify gap t))
      | None => (h, Throw TypeError)
      end
  end.

(** Fresh cells for a tree, children first. *)
Fixpoint alloc_tree (t : json) : M value :=
  match t with
  | JNull => mret VNull
  | JBool b => mret (VBool b)
  | JNum d => mret (VNum (Fin d))
  | JStr s => mret (VStr s)
  | JArr l =>
      vs ← (fix go (l : list json) : M (list value) :=
              match l with
              | [] => mret []
              | x :: r => v ← alloc_tree x; vs ← go r; mret (v :: vs)
              end) l;
      a ← alloc (CArr vs);
      mret (VRef a)
  | JObj l =>
      ps ← (fix go (l : list (string * json)) : M (list (string * value)) :=
              match l with
              | [] => mret []
              | (k, x) :: r => v ← alloc_tree x; ps ← go r; mret ((k, v) :: ps)
              end) l;
      a ← alloc (CObj ps);
      mret (VRef a)
  end.

(** The two loops of [alloc_tree], as functions of their own. *)
Fixpoint alloc_elems (l : list json) : M (list value) :=
  match l with
  | [] => mret []
  | x :: r => v ← alloc_tree x; vs ← alloc_elems r; mret (v :: vs)
  end.

Fixpoint alloc_members (l : list (string * json))
  : M (list (string * value)) :=
  match l with
  | [] => mret []
  | (k, x) :: r => v ← alloc_tree x; ps ← alloc_members r; mret ((k, v) :: ps)
  end.

(** [JSON.parse(text)]: a tree of fresh objects, or a [SyntaxError]. *)
Definition JSON_parse (text : string) : M value :=
  match parse text with
  | Some t => alloc_tree t
  | None => throw SyntaxError
  end.

(** ** Property access *)

Definition num_of_nat (n : nat) : value := VNum (Fin (dec_of_Z (Z.of_nat n))).

Definition array_prop (es : list value) (k : string) : value :=
  if String.eqb k "length" then num_of_nat (length es)
  else match index_of_key k with
       | Some i => default VUndef (es !! i)
       | None => VUndef
       end.

Definition string_at (s : string) (i : nat) : value :=
  match String.get i s with
  | Some c => VStr (String c EmptyString)
  | None => VUndef
  end.

(** [v.k] and [v[k]] for a property name [k]. *)
Definition get_prop (v : value) (k : string) : M value :=
  match v with
  | VUndef | VNull => throw TypeError
  | VRef l =>
      c ← load l;
      match c with
      | CObj ps => mret (default VUndef (alookup k ps))
      | CArr es => mret (array_prop es k)
      end
  | VStr s =>
      if String.eqb k "length" then mret (num_of_nat (String.length s))
      else match index_of_key k with
           | Some i => mret (string_at s i)
           | None => mret VUndef
           end
  | _ => mret VUndef
  end.

(** [v[i]] for an index [i]. *)
Definition get_index (v : value) (i : nat) : M value :=
  match v with
  | VUndef | VNull => throw TypeError
  | VRef l =>
      c ← load l;
      match c with
      | CObj ps => mret (default VUndef (alookup (nat_to_string i) ps))
      | CArr es => mret (default VUndef (es !! i))
      end
  | VStr s => mret (string_at s i)
  | _ => mret VUndef
  end.

(** [v.k = x].  main.ts is module code, hence strict: a write to a
    property of a primitive throws.  A named property on an array is
    outside this model (arrays carry indexed elements only); the model
    throws there too. *)
Definition set_prop (v : value) (k : string) (x : value) : M unit :=
  match v with
  | VRef l =>
      c ← load l;
      match c with
      | CObj ps => store l (CObj (aset k x ps))
      | CArr _ => throw TypeError
      end
  | _ => throw TypeError
  end.

(** Writing index [i] of an array: in range it replaces, past the end it
    extends, leaving [undefined] in between. *)
Definition list_set (i : nat) (x : value) (es : list value) : list value :=
  if i <? length es then <[i := x]> es
  else es ++ replicate (i - length es) VUndef ++ [x].

(** [v[i] = x]. *)
Definition set_index (v : value) (i : nat) (x : value) : M unit :=
  match v with
  | VRef l =>
      c ← load l;
      match c with
      | CObj ps => store l (CObj (aset (nat_to_string i) x ps))
      | CArr es => store l (CArr (list_set i x es))
      end
  | _ => throw TypeError
  end.

(** [arr.length] of an array. *)
Definition array_length (v : value) : M nat :=
  match v with
  | VRef l =>
      c ← load l;
      match c with
      | CArr es => mret (length es)
      | CObj _ => throw TypeError
      end
  | _ => throw TypeError
  end.

(** [arr.splice(0, n)]: removes the first [n] elements from [arr] and
    returns them in a new array. *)
Definition splice (v : value) (n : nat) : M value :=
  match v with
  | VRef l =>
      c ← load l;
      match c with
      | CArr es =>
          _ ← store l (CArr (drop n es));
          a ← alloc (CArr (take n es));
          mret (VRef a)
      | CObj _ => throw TypeError
      end
  | _ => throw TypeError
  end.

(** [arr.map((el, i) => f(el, i))]. *)
Definition array_map (f : nat -> value -> M value) (v : value) : M value :=
  match v with
  | VRef l =>
      c ← load l;
      match c with
      | CArr es =>
          rs ← mapM_ix f 0 es;
          a ← alloc (CArr rs);
          mret (VRef a)
      | CObj _ => throw TypeError
      end
  | _ => throw TypeError
  end.

Fixpoint string_entries (i : nat) (s : string) : list (string * value) :=
  match s with
  | EmptyString => []
  | String c r =>
      (nat_to_string i, VStr (String c EmptyString)) :: string_entries (S i) r
  end.

(** [v === s] for a string [s]. *)
Definition strict_eq_str (v : value) (s : string) : bool :=
  match v with
  | VStr s' => String.eqb s' s
  | _ => false
  end.

(** [Object.entries(v)]. *)
Definition object_entries (v : value) : M (list (string * value)) :=
  match v with
  | VUndef | VNull => throw TypeError
  | VRef l =>
      c ← load l;
      match c with
      | CObj ps => mret ps
      | CArr es => mret (imap (fun i x => (nat_to_string i, x)) es)
      end
  | VStr s => mret (string_entries 0 s)
  | _ => mret []
  end.

(** ** Conversions

    [truthy v]: what a condition makes of [v]. *)
Definition truthy (v : value) : bool :=
  match v with
  | VUndef | VNull => false
  | VBool b => b
  | VNum (Fin d) => negb (dmant d =? 0)%Z
  | VNum NaN => false
  | VNum (Inf _) => true
  | VStr s => negb (String.eqb s "")
  | VRef _ => true
  end.

(** The elements of an array joined by commas. *)
Fixpoint join_texts (xs : list (option string)) : option string :=
  match xs with
  | [] => Some ""%string
  | [x] => x
  | x :: r =>
      match x, join_texts r with
      | Some a, Some b => Some (a +:+ "," +:+ b)%string
      | _, _ => None
      end
  end.

(** The text of [v.toString()], with [n] levels of fuel; [None] is a
    [TypeError].  An object gives the text of [Object.prototype.toString],
    unless it has a member [toString] of its own, which is no function;
    an array joins the texts of its elements, the empty text for
    [undefined] and [null]. *)
Fixpoint text_of (n : nat) (h : heap) (v : value) : option string :=
  match v with
  | VUndef | VNull => None
  | VBool b => Some (if b then "true" else "false")%string
  | VNum x => Some (number_to_string x)
  | VStr s => Some s
  | VRef l =>
      match n with
      | O => None
      | S n' =>
          match h !! l with
          | Some (CObj ps) =>
              match alookup "toString" ps with
              | Some _ => None
              | None => Some "[object Object]"%string
              end
          | Some (CArr es) =>
              join_texts
                (map (fun e => match e with
                               | VUndef | VNull => Some ""%string
                               | _ => text_of n' h e
                               end) es)
          | None => None
          end
      end
  end.

(** [v.toString()] *)
Definition toString (v : value) : M string := fun h =>
  match text_of (S (length h)) h v with
  | Some s => (h, Ok s)
  | None => (h, Throw TypeError)
  end.

(** * The application (main.ts)

    The designer widget, the PDF generator, the DOM and the file system
    are outside the program.  Of the widget the model keeps what main.ts
    uses: it holds the current document ([getTemplate]) and a call can
    replace it ([updateTemplate]).  A call of the generator is recorded
    with its arguments. *)

Record app := App {
  app_heap : heap;
  designer_template : value;
  localStorage : gmap string string;
  autosave_checked : bool;
  console : list string;
  generated : list (value * value);
  saved_files : list string
}.

Definition with_heap (h : heap) (st : app) : app :=
  App h (designer_template st) (localStorage st) (autosave_checked st)
      (console st) (generated st) (saved_files st).

(** [designer.updateTemplate(v)] *)
Definition designer_updateTemplate (v : value) (st : app) : app :=
  App (app_heap st) v (localStorage st) (autosave_checked st)
      (console st) (generated st) (saved_files st).

Definition with_localStorage (ls : gmap string string) (st : app) : app :=
  App (app_heap st) (designer_template st) ls (autosave_checked st)
      (console st) (generated st) (saved_files st).

Definition with_autosave (b : bool) (st : app) : app :=
  App (app_heap st) (designer_template st) (localStorage st) b
      (console st) (generated st) (saved_files st).

(** [console.error(msg, ...)] *)
Definition console_error (msg : string) (st : app) : app :=
  App (app_heap st) (designer_template st) (localStorage st)
      (autosave_checked st) (console st ++ [msg]) (generated st)
      (saved_files st).

(** [generate({template, inputs: [inputs], ...})] *)
Definition call_generate (template inputs : value) (st : app) : app :=
  App (app_heap st) (designer_template st) (localStorage st)
      (autosave_checked st) (console st)
      (generated st ++ [(template, inputs)]) (saved_files st).

Definition write_file (text : string) (st : app) : app :=
  App (app_heap st) (designer_template st) (localStorage st)
      (autosave_checked st) (console st) (generated st)
      (saved_files st ++ [text]).

Definition run {A} (m : M A) (st : app) : app * result A :=
  let '(h, r) := m (app_heap st) in (with_heap h st, r).

(** ** Helpers of main.ts *)

(** [JSON.stringify(designer.getTemplate(), null, 2)] *)
Definition getTemplateJSONString (st : app) : M string :=
  JSON_stringify 2 (designer_template st).

(** [JSON.parse(getTemplateJSONString())] *)
Definition getTemplateJSON (st : app) : M value :=
  text ← getTemplateJSONString st; JSON_parse text.

(** [JSON.parse(JSON.stringify(obj))] *)
Definition copyOBJ (obj : value) : M value :=
  text ← JSON_stringify 0 obj; JSON_parse text.

Definition saveTemplate (st : app) : app * result unit :=
  match run (getTemplateJSONString st) st with
  | (st', Ok text) =>
      (with_localStorage (<["template"%string := text]> (localStorage st')) st',
       Ok tt)
  | (st', Throw e) => (st', Throw e)
  end.

(** [els[i].position.y = y] *)
Definition set_y (el : value) (y : dec) : M unit :=
  pos ← get_prop el "position"; set_prop pos "y" (VNum (Fin y)).

Definition el_at (els : list value) (i : nat) : value := nth i els VUndef.

Definition plus (fromY : dec) (z : Z) : dec := dec_add fromY (dec_of_Z z).

Definition setFooterPositions (fromY : dec) (footerElements : list value)
  : M unit :=
  _ ← set_y (el_at footerElements 0) fromY;
  _ ← set_y (el_at footerElements 1) (plus fromY 16);
  _ ← set_y (el_at footerElements 2) (plus fromY 14);
  set_y (el_at footerElements 3) (plus fromY 25).

Definition setHeaderPositions (fromY : dec) (headerElements : list value)
  : M unit :=
  _ ← set_y (el_at headerElements 0) fromY;
  _ ← set_y (el_at headerElements 1) (plus fromY 10);
  _ ← set_y (el_at headerElements 2) (dec_add fromY (Dec 124 1));
  _ ← set_y (el_at headerElements 3) (plus fromY 5);
  _ ← set_y (el_at headerElements 4) (plus fromY 33);
  _ ← set_y (el_at headerElements 5) (plus fromY 35);
  _ ← set_y (el_at headerElements 6) (plus fromY 41);
  _ ← set_y (el_at headerElements 7) (plus fromY 55);
  _ ← set_y (el_at headerElements 8) (plus fromY 59);
  _ ← set_y (el_at headerElements 9) (plus fromY 59);
  set_y (el_at headerElements 10) (plus fromY 67).

(** ** Upload, download, save, autosave *)

(** [reader.onload] of the upload handler, on the text of the file. *)
Definition upload_onload (text : string) (st : app) : app * result unit :=
  if String.eqb text "" then (st, Ok tt)
  else
    match run (JSON_parse text) st with
    | (st', Ok json) => (designer_updateTemplate json st', Ok tt)
    | (st', Throw _) => (console_error "JSON Parsing Error:" st', Ok tt)
    end.

Definition upload_onerror (st : app) : app * result unit :=
  (console_error "File reading error:" st, Ok tt).

(** The click handler of the download button; [write_ok] tells whether
    the platform wrote the file. *)
Definition download_click (write_ok : bool) (st : app) : app * result unit :=
  match run (getTemplateJSONString st) st with
  | (st', Ok json) =>
      if write_ok then (write_file json st', Ok tt)
      else (console_error "File save error:" st', Ok tt)
  | (st', Throw _) => (console_error "File save error:" st', Ok tt)
  end.

Definition save_click (st : app) : app * result unit := saveTemplate st.

(** [!!window.localStorage.getItem("autosave")] *)
Definition autosave_initial (ls : gmap string string) : bool :=
  match ls !! "autosave"%string with
  | Some s => negb (String.eqb s "")
  | None => false
  end.

(** The change handler of the autosave checkbox, after the user has set
    it to [checked]. *)
Definition autosave_change (checked : bool) (st : app) : app * result unit :=
  let st1 := with_autosave checked st in
  if autosave_checked st1
  then (with_localStorage
          (<["autosave"%string := "true"%string]> (localStorage st1)) st1,
        Ok tt)
  else (with_localStorage (delete "autosave"%string (localStorage st1)) st1,
        Ok tt).

(** The callback given to [designer.onChangeTemplate]. *)
Definition onChangeTemplate (st : app) : app * result unit :=
  if autosave_checked st then saveTemplate st else (st, Ok tt).

(** The texts that the four padding inputs get when the page loads:
    the components of [template.basePdf.padding], or [0] when the
    document has no padding.  [template] is the value that the designer
    was created with. *)
Definition padding_inputs_init (template : value) : M (list string) :=
  basePdf ← get_prop template "basePdf";
  paddings ← get_prop basePdf "padding";
  if truthy paddings then
    mapM_ix (fun i (_ : string) => p ← get_index paddings i; toString p) 0
      [ "padding-top"; "padding-right"; "padding-bottom";
        "padding-left" ]%string
  else mret [ "0"; "0"; "0"; "0" ]%string.

(** Loading the page: the saved template, or the blank one, goes to the
    designer; the checkbox mirrors the store; the padding inputs get
    their texts.  The texts go to the DOM, which the model does not
    hold; an error in computing them ends the start of the page, after
    the handlers of the buttons and of the checkbox were installed,
    before those of the padding inputs and the change callback are.
    [BLANK_PDF] is the constant of that name in the pdfme library. *)
Definition startup (BLANK_PDF : json) (ls : gmap string string)
  : app * result unit :=
  let st0 := App [] VUndef ls false [] [] [] in
  let template : M value :=
    match ls !! "template"%string with
    | Some savedTemplate =>
        if String.eqb savedTemplate "" then
          alloc_tree (JObj [("basePdf"%string, BLANK_PDF);
                            ("schemas"%string, JArr [])])
        else JSON_parse savedTemplate
    | None =>
        alloc_tree (JObj [("basePdf"%string, BLANK_PDF);
                          ("schemas"%string, JArr [])])
    end in
  match run template st0 with
  | (st1, Ok v) =>
      let st2 :=
        with_autosave (autosave_initial ls) (designer_updateTemplate v st1) in
      match run (padding_inputs_init v) st2 with
      | (st3, Ok _) => (st3, Ok tt)
      | (st3, Throw e) => (st3, Throw e)
      end
  | (st1, Throw e) => (st1, Throw e)
  end.

(** ** The padding inputs

    [i] is the position of the input in [top, right, bottom, left]. *)
Definition padding_change (i : nat) (input_value : string) (st : app)
  : app * result unit :=
  let body : M value :=
    template ← getTemplateJSON st;
    basePdf ← get_prop template "basePdf";
    padding ← get_prop basePdf "padding";
    _ ← set_index padding i (VNum (parseFloat input_value));
    mret template in
  match run body st with
  | (st', Ok template) => (designer_updateTemplate template st', Ok tt)
  | (st', Throw e) => (st', Throw e)
  end.

(** ** The generate button *)

Definition nl : string := String "010"%char EmptyString.

Definition row : list string :=
  [ ("24 May, 2024" +:+ nl +:+ "202401:13:37 PM")%string;
    "Payment link"%string;
    ("1.09 USD" +:+ nl +:+ "1.11 USDT")%string;
    "-"%string;
    "1.59 USD"%string ].

Definition PAGE_1_TABLE_ROWS_MAX : nat := 4.
Definition PAGE_2_TABLE_ROWS_MAX : nat := 7.

Definition header_keys : list string :=
  [ "header_rect"; "logo"; "header_rect_hr"; "lunu_address"; "header_title";
    "period_title"; "period"; "table_header_rect"; "table_header_title";
    "table_period"; "table" ]%string.

Definition footer_keys : list string :=
  [ "footer_el_1"; "footer_el_2"; "footer_el_3"; "pages" ]%string.

(** [`page_${pageN}_${part}_${i}`] *)
Definition page_key (pageN : nat) (part : string) (i : nat) : string :=
  ("page_" +:+ nat_to_string pageN +:+ "_" +:+ part +:+ "_"
   +:+ nat_to_string i)%string.

(** [`Page ${n} of ${total}`] *)
Definition page_label (n total : nat) : string :=
  ("Page " +:+ nat_to_string n +:+ " of " +:+ nat_to_string total)%string.

(** [Math.ceil(a / b)] on lengths. *)
Definition ceil_div (a b : nat) : nat := (a + (b - 1)) / b.

(** [new Array(rows).fill(row).map((el, i) => ...)] *)
Definition make_tableData (rows : nat) : M value :=
  r ← alloc (CArr (map VStr row));
  filled ← alloc (CArr (replicate rows (VRef r)));
  array_map (fun i el =>
      copy ← copyOBJ el;
      _ ← set_index copy 3 (VStr (nat_to_string i));
      mret copy)
    (VRef filled).

(** [templateJSON.schemas[pageI][key] = x] *)
Definition set_page_field (templateJSON : value) (pageI : nat) (key : string)
  (x : value) : M unit :=
  schemas ← get_prop templateJSON "schemas";
  page ← get_index schemas pageI;
  set_prop page key x.

(** One turn of the loop over the additional pages. *)
Definition add_page (templateJSON schema inputs tableData : value)
  (headerElements footerElements : list value) (pagesLength pageI : nat)
  : M unit :=
  nextTableData ← splice tableData PAGE_2_TABLE_ROWS_MAX;
  let pageN := pageI + 1 in
  schemas ← get_prop templateJSON "schemas";
  o ← alloc (CObj []);
  _ ← set_index schemas pageI (VRef o);
  nextHeaderElements ← mapM_ix (fun i el =>
      copy ← copyOBJ el;
      _ ← set_page_field templateJSON pageI
            (page_key pageN "header_el" (i + 1)) copy;
      mret copy) 0 headerElements;
  nextFooterElements ← mapM_ix (fun i el =>
      copy ← copyOBJ el;
      _ ← set_page_field templateJSON pageI
            (page_key pageN "footer_el" (i + 1)) copy;
      mret copy) 0 footerElements;
  _ ← mapM_ix (fun i (_ : unit) =>
      fld ← get_prop schema ("field" +:+ nat_to_string (28 + i));
      hr ← copyOBJ fld;
      _ ← set_y hr (dec_of_Z 90);
      _ ← set_page_field templateJSON pageI
            (page_key pageN "table_hr" (i + 1)) hr;
      mret hr) 0 (replicate (115 - 28) tt);
  text ← JSON_stringify 0 nextTableData;
  _ ← set_prop inputs
        (page_key pageN "header_el" (length nextHeaderElements)) (VStr text);
  period ← get_prop schema "period";
  period_content ← get_prop period "content";
  _ ← set_prop inputs (page_key pageN "header_el" 7) period_content;
  table_period ← get_prop schema "table_period";
  table_period_content ← get_prop table_period "content";
  _ ← set_prop inputs (page_key pageN "header_el" 10) table_period_content;
  _ ← set_prop inputs
        (page_key pageN "footer_el" (length nextFooterElements))
        (VStr (page_label pageN (pagesLength + 1)));
  _ ← setHeaderPositions (dec_of_Z 10) nextHeaderElements;
  setFooterPositions (dec_of_Z 215) nextFooterElements.

(** The handler from the snapshot's first page to the end of the
    [if]/[else] on the table length.  [rows] is the length of the sample
    table, 35 in main.ts.  Returns [schema] and [inputs]. *)
Definition fill_pages (rows : nat) (templateJSON : value)
  : M (value * value) :=
  schemas ← get_prop templateJSON "schemas";
  schema ← get_index schemas 0;
  i ← alloc (CObj []);
  let inputs := VRef i in
  tableData ← make_tableData rows;
  headerElements ← mapM_ix (fun _ k => get_prop schema k) 0 header_keys;
  footerElements ← mapM_ix (fun _ k => get_prop schema k) 0 footer_keys;
  len ← array_length tableData;
  _ ← (if PAGE_1_TABLE_ROWS_MAX <? len then
         first ← splice tableData PAGE_1_TABLE_ROWS_MAX;
         text ← JSON_stringify 0 first;
         _ ← set_prop inputs "table" (VStr text);
         _ ← setFooterPositions
               (dec_of_Z (277 - 21 * (Z.of_nat PAGE_1_TABLE_ROWS_MAX - 1)))
               footerElements;
         len' ← array_length tableData;
         let pagesLength := ceil_div len' PAGE_2_TABLE_ROWS_MAX in
         _ ← iterM (add_page templateJSON schema inputs tableData
                      headerElements footerElements pagesLength)
               (seq 1 pagesLength);
         pages ← get_prop schema "pages";
         let label := VStr (page_label 1 (pagesLength + 1)) in
         _ ← set_prop inputs "pages" label;
         set_prop pages "content" label
       else
         text ← JSON_stringify 0 tableData;
         _ ← set_prop inputs "table" (VStr text);
         _ ← setFooterPositions
               (dec_of_Z (277 - 21 * (Z.of_nat len - 1))) footerElements;
         set_prop inputs "pages" (VStr "Page 1 of 1"));
  mret (schema, inputs).

(** The loop over [Object.entries(schema)]: every field of type ["text"]
    gives its content to [inputs] under its own key. *)
Definition copy_text_fields (schema inputs : value) : M unit :=
  entries ← object_entries schema;
  iterM (fun '(key, el) =>
      type ← get_prop el "type";
      if strict_eq_str type "text" then
        content ← get_prop el "content";
        set_prop inputs key content
      else mret tt) entries.

(** The pagination routine: the snapshot of the designer's document,
    expanded page by page.  Returns [templateJSON], [schema] and
    [inputs]. *)
Definition paginate (rows : nat) (st : app) : M (value * value * value) :=
  text ← getTemplateJSONString st;
  templateJSON ← JSON_parse text;
  '(schema, inputs) ← fill_pages rows templateJSON;
  mret (templateJSON, schema, inputs).

(** The body of the [try] block up to the call of the generator:
    the page-expanded snapshot and the value map. *)
Definition generate_fill (rows : nat) (st : app) : M (value * value) :=
  '(templateJSON, schema, inputs) ← paginate rows st;
  _ ← copy_text_fields schema inputs;
  mret (templateJSON, inputs).

Definition generate_click_rows (rows : nat) (st : app) : app * result unit :=
  match run (generate_fill rows st) st with
  | (st', Ok (templateJSON, inputs)) =>
      (call_generate templateJSON inputs st', Ok tt)
  | (st', Throw _) => (console_error "PFD generation error:" st', Ok tt)
  end.

(** The click handler of the generate button. *)
Definition generate_click (st : app) : app * result unit :=
  generate_click_rows 35 st.

(** * A sample template

    One page with the fields that the generate handler names: the eleven
    header elements, the four footer elements and [field28] to
    [field114]. *)

Definition num (z : Z) : json := JNum (dec_of_Z z).

Definition sample_field (type content : string) (x y : Z) : json :=
  JObj [ ("type"%string, JStr type);
         ("content"%string, JStr content);
         ("position"%string, JObj [("x"%string, num x); ("y"%string, num y)]);
         ("width"%string, num 45);
         ("height"%string, JNum (Dec 105 1)) ].

(** The members of the page; [label] is the text of the page-count
    label in the template. *)
Definition sample_fields_with (label : string) : list (string * json) :=
  [ ("header_rect", sample_field "rectangle" "" 0 0);
    ("logo", sample_field "image" "" 10 10);
    ("header_rect_hr", sample_field "line" "" 0 22);
    ("lunu_address", sample_field "text" "Lunu Solutions GmbH" 120 5);
    ("header_title", sample_field "text" "Transactions report" 10 43);
    ("period_title", sample_field "text" "Period" 10 45);
    ("period", sample_field "text" "01.05.2024 - 31.05.2024" 30 51);
    ("table_header_rect", sample_field "rectangle" "" 10 65);
    ("table_header_title", sample_field "text" "Transactions" 12 69);
    ("table_period", sample_field "text" "May 2024" 150 69);
    ("table", sample_field "table" "[]" 10 77);
    ("footer_el_1", sample_field "line" "" 10 277);
    ("footer_el_2", sample_field "text" "lunu.io" 10 293);
    ("footer_el_3", sample_field "text" "support" 100 291);
    ("pages", sample_field "text" label 180 290) ]%string
  ++ map (fun i => (("field" +:+ nat_to_string i)%string,
                    sample_field "line" "" 10 (Z.of_nat (3 * i))))
         (seq 28 87).

Definition template_with (fs : list (string * json)) : json :=
  JObj [ ("schemas"%string, JArr [JObj fs]);
         ("basePdf"%string,
          JObj [ ("width"%string, num 210);
                 ("height"%string, num 297);
                 ("padding"%string, JArr [num 0; num 5; num 0; num 5]) ]) ].

(** The page loaded with the template [t] in the store. *)
Definition app_with (t : json) : app :=
  fst (startup JNull {[ "template"%string := stringify 2 t ]}).

Definition sample_fields : list (string * json) :=
  sample_fields_with "Page 1 of 1".

Definition sample_page : json := JObj sample_fields.

Definition sample_template : json := template_with sample_fields.

Definition sample_store : gmap string string :=
  {[ "template"%string := stringify 2 sample_template ]}.

Definition sample_app : app := app_with sample_template.




(** * Ownership of heap cells

    The handlers are verified in separation logic: [l ↦ c] owns the cell
    at [l]; [wps m Φ] says that [m] returns, without throwing, a result
    that satisfies [Φ]; [is_tree t v] owns the cells of a value [v] that
    is the well-formed tree [t] and shares no cell between two of its
    positions. *)

Definition heap_map (h : heap) : gmap loc cell := map_seq 0 h.

Definition heapΣ : gFunctors := #[gen_heapΣ loc cell].

Section ownership.
Context `{!gen_heapGS loc cell Σ}.

Definition cell_at (l : loc) (c : cell) : iProp Σ :=
  pointsto l (DfracOwn 1) c.

Definition wp {A} (m : M A) (Φ : result A -> iProp Σ) : iProp Σ :=
  ∀ h, gen_heap_interp (heap_map h) ==∗
       gen_heap_interp (heap_map (m h).1) ∗ Φ (m h).2.

Definition wps {A} (m : M A) (Φ : A -> iProp Σ) : iProp Σ :=
  wp m (fun r => ∃ a, ⌜r = Ok a⌝ ∗ Φ a)%I.

Fixpoint is_tree (t : json) (v : value) {struct t} : iProp Σ :=
  match t with
  | JNull => ⌜v = VNull⌝
  | JBool b => ⌜v = VBool b⌝
  | JNum d => ⌜v = VNum (Fin d) ∧ dec_canon d = true⌝
  | JStr s => ⌜v = VStr s⌝
  | JArr ts =>
      ∃ l vs, ⌜v = VRef l⌝ ∗ cell_at l (CArr vs) ∗
        (fix go (ts : list json) (vs : list value) : iProp Σ :=
           match ts, vs with
           | [], [] => True
           | t :: ts', v :: vs' => is_tree t v ∗ go ts' vs'
           | _, _ => False
           end) ts vs
  | JObj fs =>
      ∃ l ps, ⌜v = VRef l ∧ NoDup (map fst fs)⌝ ∗ cell_at l (CObj ps) ∗
        (fix go (fs : list (string * json)) (ps : list (string * value))
           : iProp Σ :=
           match fs, ps with
           | [], [] => True
           | (k, t) :: fs', (k', v) :: ps' =>
               ⌜k = k'⌝ ∗ is_tree t v ∗ go fs' ps'
           | _, _ => False
           end) fs ps
  end%I.

(** The elements of an array, and the members of an object, each with
    its tree. *)
Definition are_trees (ts : list json) (vs : list value) : iProp Σ :=
  ([∗ list] t; v ∈ ts; vs, is_tree t v)%I.

Definition are_fields (fs : list (string * json))
  (ps : list (string * value)) : iProp Σ :=
  ([∗ list] f; p ∈ fs; ps, ⌜f.1 = p.1⌝ ∗ is_tree f.2 p.2)%I.
End ownership.

Notation "l ↦ c" := (cell_at l c) (at level 20) : bi_scope.

(** * Documents, and what the handlers are expected to produce *)

(** The designer's current document is the JSON tree [t]. *)
Definition doc_json (st : app) (t : json) : Prop :=
  json_of (app_heap st) (designer_template st) = Some t.

(** Every cell of [h] is still in [h'], with the same content. *)
Definition cells_kept (h h' : heap) : Prop :=
  forall l c, h !! l = Some c -> h' !! l = Some c.

(** [t.basePdf.padding], the padding tuple of a document. *)
Definition padding_of (t : json) : option (list json) :=
  match t with
  | JObj fs =>
      match alookup "basePdf" fs with
      | Some (JObj bfs) =>
          match alookup "padding" bfs with
          | Some (JArr ps) => Some ps
          | _ => None
          end
      | _ => None
      end
  | _ => None
  end.

(** The document [t] with component [i] of its padding set to [d]. *)
Definition set_padding (i : nat) (d : dec) (t : json) : option json :=
  match t with
  | JObj fs =>
      match alookup "basePdf" fs with
      | Some (JObj bfs) =>
          match alookup "padding" bfs with
          | Some (JArr ps) =>
              if i <? length ps then
                Some (JObj (aset "basePdf"
                  (JObj (aset "padding" (JArr (<[i := JNum d]> ps)) bfs)) fs))
              else None
          | _ => None
          end
      | _ => None
      end
  | _ => None
  end.

(** ** Values and cells made after a given heap

    With respect to a heap [h0]: a value is new when it is no reference
    into [h0]; a cell is new when it holds new values only; a heap
    extends [h0] when it is [h0] followed by new cells.  A computation is
    confined when, started in a heap that extends [h0], it ends in one,
    and every result satisfies [P]. *)

Definition new_value (h0 : heap) (v : value) : Prop :=
  match v with
  | VRef l => length h0 <= l
  | _ => True
  end.

Definition new_cell (h0 : heap) (c : cell) : Prop :=
  match c with
  | CObj ps => Forall (fun p => new_value h0 (snd p)) ps
  | CArr vs => Forall (new_value h0) vs
  end.

Definition extends (h0 h : heap) : Prop :=
  exists ext, h = h0 ++ ext /\ Forall (new_cell h0) ext.

Definition confined {A} (h0 : heap) (m : M A) (P : A -> Prop) : Prop :=
  forall h, extends h0 h ->
    extends h0 (fst (m h)) /\ forall a, snd (m h) = Ok a -> P a.

(** ** Fields of a page *)

(** An element that can be repositioned: an object whose [position] is
    an object. *)
Definition movable (t : json) : bool :=
  match t with
  | JObj fs =>
      match alookup "position" fs with
      | Some (JObj _) => true
      | _ => false
      end
  | _ => false
  end.

(** [t] with [position.y] set to [y]. *)
Definition moved (y : dec) (t : json) : json :=
  match t with
  | JObj fs =>
      match alookup "position" fs with
      | Some (JObj pfs) =>
          JObj (aset "position" (JObj (aset "y" (JNum y) pfs)) fs)
      | _ => t
      end
  | _ => t
  end.

(** [t] with [content] set to the string [s]. *)
Definition set_content (s : string) (t : json) : json :=
  match t with
  | JObj fs => JObj (aset "content" (JStr s) fs)
  | _ => t
  end.

Definition prim_value (t : json) : option value :=
  match t with
  | JNull => Some VNull
  | JBool b => Some (VBool b)
  | JNum d => Some (VNum (Fin d))
  | JStr s => Some (VStr s)
  | _ => None
  end.

(** What [el.content] evaluates to, for an object [el] whose content, if
    it has one, is not an array or object. *)
Definition content_value (t : json) : option value :=
  match t with
  | JObj fs =>
      match alookup "content" fs with
      | None => Some VUndef
      | Some c => prim_value c
      end
  | _ => None
  end.

Definition content_val (t : json) : value := default VUndef (content_value t).

(** [el.type === "text"] *)
Definition is_text (t : json) : bool :=
  match t with
  | JObj fs =>
      match alookup "type" fs with
      | Some (JStr s) => String.eqb s "text"
      | _ => false
      end
  | _ => false
  end.

Definition aupd {A} (k : string) (f : A -> A) (l : list (string * A))
  : list (string * A) :=
  match alookup k l with
  | Some x => aset k (f x) l
  | None => l
  end.

(** A sequence of writes [obj[k] = x], in order. *)
Definition awrites {A} (l : list (string * A)) (ws : list (string * A))
  : list (string * A) :=
  foldl (fun acc w => aset (fst w) (snd w) acc) l ws.

Definition field (k : string) (fs : list (string * json)) : json :=
  default JNull (alookup k fs).

Definition footer_ys (fromY : dec) : list dec :=
  [ fromY; plus fromY 16; plus fromY 14; plus fromY 25 ].

Definition header_ys (fromY : dec) : list dec :=
  [ fromY; plus fromY 10; dec_add fromY (Dec 124 1); plus fromY 5;
    plus fromY 33; plus fromY 35; plus fromY 41; plus fromY 55;
    plus fromY 59; plus fromY 59; plus fromY 67 ].

(** [field28], ..., [field114] *)
Definition hr_keys : list string :=
  map (fun i => ("field" +:+ nat_to_string (28 + i))%string)
      (seq 0 (115 - 28)).

(** The fields [keys] moved to the heights [ys], one after the other. *)
Definition move_all (keys : list string) (ys : list dec)
  (fs : list (string * json)) : list (string * json) :=
  foldl (fun acc ky => aupd (fst ky) (moved (snd ky)) acc) fs (zip keys ys).

(** ** The sample table *)

Definition row_tree (i : nat) : json :=
  JArr (<[3 := JStr (nat_to_string i)]> (map JStr row)).

Definition table_tree (rows : nat) : list json := map row_tree (seq 0 rows).

Definition chunk_text (ts : list json) : value := VStr (stringify 0 (JArr ts)).

(** ** The result of the pagination branch

    For a first page with the fields [fs] (its footers already at their
    page-1 heights): the members of additional page [n], and the writes
    to [inputs] that the turn [pageI] of the loop makes. *)

Definition keyed {A} (n : nat) (part : string) (xs : list A)
  : list (string * A) :=
  imap (fun i x => (page_key n part (i + 1), x)) xs.

Definition page_entries (n : nat) (fs : list (string * json))
  : list (string * json) :=
  keyed n "header_el"
    (zip_with moved (header_ys (dec_of_Z 10))
       (map (fun k => field k fs) header_keys))
  ++ keyed n "footer_el"
       (zip_with moved (footer_ys (dec_of_Z 215))
          (map (fun k => field k fs) footer_keys))
  ++ keyed n "table_hr"
       (map (fun k => moved (dec_of_Z 90) (field k fs)) hr_keys).

Definition extra_page (n : nat) (fs : list (string * json)) : json :=
  JObj (awrites [] (page_entries n fs)).

Definition chunk_writes (total : nat) (chunk : list json)
  (fs : list (string * json)) (pageI : nat) : list (string * value) :=
  [ (page_key (pageI + 1) "header_el" 11, chunk_text chunk);
    (page_key (pageI + 1) "header_el" 7, content_val (field "period" fs));
    (page_key (pageI + 1) "header_el" 10,
     content_val (field "table_period" fs));
    (page_key (pageI + 1) "footer_el" 4,
     VStr (page_label (pageI + 1) total)) ].

Definition page_writes (total : nat) (rest : list json)
  (fs : list (string * json)) (pageI : nat) : list (string * value) :=
  chunk_writes total
    (take PAGE_2_TABLE_ROWS_MAX
       (drop (PAGE_2_TABLE_ROWS_MAX * (pageI - 1)) rest))
    fs pageI.

(** The number of additional pages. *)
Definition pages_for (rows : nat) : nat :=
  ceil_div (rows - PAGE_1_TABLE_ROWS_MAX) PAGE_2_TABLE_ROWS_MAX.

Definition page1_y : dec :=
  dec_of_Z (277 - 21 * (Z.of_nat PAGE_1_TABLE_ROWS_MAX - 1)).

(** The first page when the extra pages are copied from it, and at the
    end of the branch. *)
Definition page1_moved (fs : list (string * json)) : list (string * json) :=
  move_all footer_keys (footer_ys page1_y) fs.

Definition page1_paginated (rows : nat) (fs : list (string * json))
  : list (string * json) :=
  aupd "pages" (set_content (page_label 1 (pages_for rows + 1)))
       (page1_moved fs).

Definition paginated_inputs (rows : nat) (fs : list (string * json))
  : list (string * value) :=
  let table := table_tree rows in
  let rest := drop PAGE_1_TABLE_ROWS_MAX table in
  awrites []
    ([("table"%string, chunk_text (take PAGE_1_TABLE_ROWS_MAX table))]
     ++ concat (map (page_writes (pages_for rows + 1) rest (page1_moved fs))
                    (seq 1 (pages_for rows)))
     ++ [("pages"%string, VStr (page_label 1 (pages_for rows + 1)))]).

Definition paginated_schemas (rows : nat) (pages : list json) : list json :=
  match pages with
  | JObj fs :: others =>
      JObj (page1_paginated rows fs)
      :: map (fun pageI => extra_page (pageI + 1) (page1_moved fs))
             (seq 1 (pages_for rows))
      ++ drop (pages_for rows) others
  | _ => pages
  end.

Definition paginated_template (rows : nat) (t : json) : json :=
  match t with
  | JObj tfs =>
      match alookup "schemas" tfs with
      | Some (JArr pages) =>
          JObj (aset "schemas" (JArr (paginated_schemas rows pages)) tfs)
      | _ => t
      end
  | _ => t
  end.

(** The writes of the loop over the text fields of a page. *)
Definition text_writes (ins : list (string * value))
  (fs : list (string * json)) : list (string * value) :=
  foldl (fun acc kt =>
           if is_text (snd kt) then aset (fst kt) (content_val (snd kt)) acc
           else acc) ins fs.

(** ** Templates the pagination branch completes on

    The first page is an object that holds the header and footer
    elements and [field28] to [field114], all movable; no member of it is
    [null]; the content of [period], of [table_period] and of every text
    field is absent or not an array or object. *)

Definition page_ok (fs : list (string * json)) : bool :=
  forallb (fun k => movable (field k fs))
          (header_keys ++ footer_keys ++ hr_keys)
  && bool_decide (is_Some (content_value (field "period" fs)))
  && bool_decide (is_Some (content_value (field "table_period" fs)))
  && forallb (fun kt =>
        match snd kt with
        | JNull => false
        | t => if is_text t then bool_decide (is_Some (content_value t))
               else true
        end) fs.

(** What the loop over the additional pages needs of the first page. *)
Definition page_ready (fs : list (string * json)) : Prop :=
  Forall (fun k => movable (field k fs) = true)
         (header_keys ++ footer_keys ++ hr_keys)
  /\ is_Some (content_value (field "period" fs))
  /\ is_Some (content_value (field "table_period" fs)).

Definition first_page (t : json) : option (list (string * json)) :=
  match t with
  | JObj tfs =>
      match alookup "schemas" tfs with
      | Some (JArr (JObj fs :: _)) => Some fs
      | _ => None
      end
  | _ => None
  end.

Definition template_ok (t : json) : bool :=
  match first_page t with
  | Some fs => page_ok fs
  | None => false
  end.

(** What the loop over the text fields needs of a member of the page. *)
Definition text_ready (t : json) : Prop :=
  t <> JNull /\ (is_text t = true -> is_Some (content_value t)).

(** The schema pages of a template. *)
Definition schemas_of (t : json) : option (list json) :=
  match t with
  | JObj tfs =>
      match alookup "schemas" tfs with
      | Some (JArr pages) => Some pages
      | _ => None
      end
  | _ => None
  end.

(** Member [k] of an object. *)
Definition member (k : string) (t : json) : option json :=
  match t with
  | JObj fs => alookup k fs
  | _ => None
  end.

(** ** The result of the branch for a table of at most four rows *)

Definition short_y (rows : nat) : dec :=
  dec_of_Z (277 - 21 * (Z.of_nat rows - 1)).

Definition short_page1 (rows : nat) (fs : list (string * json))
  : list (string * json) :=
  move_all footer_keys (footer_ys (short_y rows)) fs.

Definition short_inputs (rows : nat) : list (string * value) :=
  awrites [] [ ("table"%string, chunk_text (table_tree rows));
               ("pages"%string, VStr "Page 1 of 1") ].

Definition short_template (rows : nat) (t : json) : json :=
  match t with
  | JObj tfs =>
      match alookup "schemas" tfs with
      | Some (JArr (JObj fs :: others)) =>
          JObj (aset "schemas" (JArr (JObj (short_page1 rows fs) :: others))
                  tfs)
      | _ => t
      end
  | _ => t
  end.

(** * The invariant of the loop over the additional pages *)

Section invariant.
Context `{!gen_heapGS loc cell Σ}.

(** The state between two turns of the loop over the additional pages,
    after [j] turns. *)
Definition pages_inv (rows : nat) (sfs : list (string * json))
  (lt : loc) (tps : list (string * value)) (ls lsch : loc)
  (sps : list (string * value)) (ovs : list value) (li ltd : loc) (j : nat)
  : iProp Σ :=
  (lt ↦ CObj tps ∗ lsch ↦ CObj sps ∗ are_fields (page1_moved sfs) sps
   ∗ li ↦ CObj
       (awrites
          [("table"%string,
            chunk_text (take PAGE_1_TABLE_ROWS_MAX (table_tree rows)))]
          (concat (map (page_writes (pages_for rows + 1)
                          (drop PAGE_1_TABLE_ROWS_MAX (table_tree rows))
                          (page1_moved sfs))
                       (seq 1 j))))
   ∗ (∃ nvs, ⌜length nvs = j⌝
        ∗ ls ↦ CArr (VRef lsch :: nvs ++ drop j ovs)
        ∗ are_trees (map (fun pageI =>
                            extra_page (pageI + 1) (page1_moved sfs))
                         (seq 1 j)) nvs)
   ∗ (∃ tvs, ltd ↦ CArr tvs
        ∗ are_trees (drop (PAGE_2_TABLE_ROWS_MAX * j)
                       (drop PAGE_1_TABLE_ROWS_MAX (table_tree rows)))
                    tvs))%I.
End invariant.

(** * Documents on which a handler fails *)

(** [template.basePdf.padding], if the document has one. *)
Definition padding_slot (t : json) : option json :=
  member "basePdf" t ≫= member "padding".

(** The padding is something an index can be assigned to: an array or
    an object. *)
Definition padding_assignable (t : json) : bool :=
  match padding_slot t with
  | Some (JArr _) | Some (JObj _) => true
  | _ => false
  end.

(** The document has no [schemas], or an empty [schemas] array, or
    [null] as its first page. *)
Definition lacks_first_page (t : json) : bool :=
  match member "schemas" t with
  | None | Some (JArr []) | Some (JArr (JNull :: _)) => true
  | _ => false
  end.

(** The page as main.ts starts it on an empty store. *)
Definition blank_app (BLANK_PDF : json) : app := fst (startup BLANK_PDF ∅).

(** A property name that is neither [length] nor an index. *)
Definition plain_key (k : string) : bool :=
  negb (String.eqb k "length") && negb (bool_decide (is_Some (index_of_key k))).

(** The three families of generated keys. *)
Definition page_parts : list string :=
  [ "header_el"; "footer_el"; "table_hr" ]%string.

(** The family and index of every member of an additional page, in the
    order in which the loop writes them. *)
Definition page_slots : list (string * nat) :=
  map (fun i => ("header_el"%string, i + 1)) (seq 0 11)
  ++ map (fun i => ("footer_el"%string, i + 1)) (seq 0 4)
  ++ map (fun i => ("table_hr"%string, i + 1)) (seq 0 87).

(** The rows of the table that go to the page at index [pageI]. *)
Definition page_rows (rows pageI : nat) : list json :=
  match pageI with
  | O => take PAGE_1_TABLE_ROWS_MAX (table_tree rows)
  | S j =>
      take PAGE_2_TABLE_ROWS_MAX
        (drop (PAGE_2_TABLE_ROWS_MAX * j)
           (drop PAGE_1_TABLE_ROWS_MAX (table_tree rows)))
  end.

(** * Start-up on a stored document *)

Definition is_number (t : json) : bool :=
  match t with
  | JNum _ => true
  | _ => false
  end.

(** The padding of the document is an array that starts with four
    numbers. *)
Definition padding_numbers (t : json) : bool :=
  match padding_of t with
  | Some ps => (4 <=? length ps) && forallb is_number (take 4 ps)
  | None => false
  end.

(** A computation that leaves the heap as it is and throws nothing but
    a [TypeError]. *)
Definition reads_only {A} (m : M A) : Prop :=
  forall h, exists r, m h = (h, r) /\ forall e, r = Throw e -> e = TypeError.

(** * A value as the serializer shows it

    [is_shown t v] owns the cells of a value [v] of which
    [JSON.stringify] prints the tree [t]: like [is_tree], but a number
    may be [NaN] or an infinity, which the serializer prints as [null],
    and need not be in normal form. *)

Definition shown_primitive (v : value) : option json :=
  match v with
  | VNull => Some JNull
  | VBool b => Some (JBool b)
  | VNum x => num_json false x
  | VStr s => Some (JStr s)
  | _ => None
  end.

Section shown.
Context `{!gen_heapGS loc cell Σ}.

Fixpoint is_shown (t : json) (v : value) {struct t} : iProp Σ :=
  match t with
  | JArr ts =>
      ∃ l vs, ⌜v = VRef l⌝ ∗ l ↦ CArr vs ∗
        (fix go (ts : list json) (vs : list value) : iProp Σ :=
           match ts, vs with
           | [], [] => True
           | t :: ts', v :: vs' => is_shown t v ∗ go ts' vs'
           | _, _ => False
           end) ts vs
  | JObj fs =>
      ∃ l ps, ⌜v = VRef l⌝ ∗ l ↦ CObj ps ∗
        (fix go (fs : list (string * json)) (ps : list (string * value))
           : iProp Σ :=
           match fs, ps with
           | [], [] => True
           | (k, t) :: fs', (k', v) :: ps' =>
               ⌜k = k'⌝ ∗ is_shown t v ∗ go fs' ps'
           | _, _ => False
           end) fs ps
  | _ => ⌜shown_primitive v = Some t⌝
  end%I.

Definition are_shown (ts : list json) (vs : list value) : iProp Σ :=
  ([∗ list] t; v ∈ ts; vs, is_shown t v)%I.

Definition are_shown_fields (fs : list (string * json))
  (ps : list (string * value)) : iProp Σ :=
  ([∗ list] f; p ∈ fs; ps, ⌜f.1 = p.1⌝ ∗ is_shown f.2 p.2)%I.
End shown.

(** * Properties of the JSON layer *)

(** ** Digits *)

Lemma N_of_digit_char d : (d < 10)%N -> N_of_ascii (digit_char d) = (48 + d)%N.
Proof. intros Hd. unfold digit_char. apply N_ascii_embedding. lia. Qed.

Lemma is_digit_digit_char d : (d < 10)%N -> is_digit (digit_char d) = true.
Proof.
  intros Hd. unfold is_digit. rewrite N_of_digit_char //.
  apply andb_true_intro. split; apply N.leb_le; lia.
Qed.

Lemma digit_val_digit_char d : (d < 10)%N -> digit_val (digit_char d) = d.
Proof. intros Hd. unfold digit_val. rewrite N_of_digit_char //. lia. Qed.

Lemma mod10_lt n : (n mod 10 < 10)%N.
Proof. apply N.mod_lt. lia. Qed.

Lemma scan_digit_char acc cnt d tl :
  (d < 10)%N ->
  scan_digits acc cnt (digit_char d :: tl)
  = scan_digits (10 * acc + d) (S cnt) tl.
Proof.
  intros Hd. simpl. rewrite is_digit_digit_char // digit_val_digit_char //.
Qed.

Lemma scan_fixed w : forall n tl acc cnt,
  scan_digits acc cnt (pr_fixed w n tl)
  = scan_digits (acc * 10 ^ N.of_nat w + n mod 10 ^ N.of_nat w)
                (cnt + w) tl.
Proof.
  induction w as [|w IH]; intros n tl acc cnt.
  - simpl. rewrite N.mod_1_r. f_equal; [lia | lia].
  - cbn [pr_fixed]. rewrite IH scan_digit_char; last apply mod10_lt.
    rewrite Nat2N.inj_succ N.pow_succ_r'.
    rewrite (N.Div0.mod_mul_r n 10 (10 ^ N.of_nat w)).
    f_equal; lia.
Qed.

(** The first character of a numeral, and what scanning it yields. *)
Lemma pr_digits_scan fuel : forall n tl,
  (n < 2 ^ N.of_nat fuel)%N ->
  exists c r w,
    pr_digits fuel n tl = c :: r /\ is_digit c = true
    /\ (n = 0%N -> c = "0"%char /\ r = tl)
    /\ (n <> 0%N -> c <> "0"%char)
    /\ forall acc cnt,
         scan_digits acc cnt (c :: r)
         = scan_digits (acc * 10 ^ N.of_nat w + n) (cnt + w) tl.
Proof.
  assert (Hone : forall n tl, (n < 10)%N ->
    exists c r w,
      digit_char (n mod 10) :: tl = c :: r /\ is_digit c = true
      /\ (n = 0%N -> c = "0"%char /\ r = tl)
      /\ (n <> 0%N -> c <> "0"%char)
      /\ forall acc cnt,
           scan_digits acc cnt (c :: r)
           = scan_digits (acc * 10 ^ N.of_nat w + n) (cnt + w) tl).
  { intros n tl Hn. rewrite N.mod_small //.
    exists (digit_char n), tl, 1%nat. split; [done|].
    split; [by apply is_digit_digit_char|]. split; [by intros ->|]. split.
    - intros Hn0 Hc. apply (f_equal N_of_ascii) in Hc.
      rewrite N_of_digit_char // in Hc. simpl in Hc. lia.
    - intros acc cnt. rewrite scan_digit_char //. f_equal; lia. }
  induction fuel as [|f IH]; intros n tl Hn.
  - simpl. apply Hone. simpl in Hn. lia.
  - cbn [pr_digits]. destruct (N.ltb_spec n 10) as [Hlt|Hge]; [by apply Hone|].
    destruct (IH (n / 10)%N (digit_char (n mod 10) :: tl))
      as (c & r & w & Heq & Hc & _ & Hnz & Hscan).
    { rewrite Nat2N.inj_succ N.pow_succ_r' in Hn.
      apply N.Div0.div_lt_upper_bound. lia. }
    exists c, r, (S w). split; [done|]. split; [done|].
    split; [intros ->; lia|]. split.
    { intros _. apply Hnz. intros H0.
      pose proof (N.Div0.div_mod n 10). pose proof (mod10_lt n). lia. }
    intros acc cnt. rewrite Hscan scan_digit_char; last apply mod10_lt.
    rewrite Nat2N.inj_succ N.pow_succ_r'.
    pose proof (N.Div0.div_mod n 10). f_equal; lia.
Qed.

Lemma pr_N_scan n tl :
  exists c r w,
    pr_N n tl = c :: r /\ is_digit c = true
    /\ (n = 0%N -> c = "0"%char /\ r = tl)
    /\ (n <> 0%N -> c <> "0"%char)
    /\ forall acc cnt,
         scan_digits acc cnt (c :: r)
         = scan_digits (acc * 10 ^ N.of_nat w + n) (cnt + w) tl.
Proof.
  apply pr_digits_scan. destruct (decide (n = 0%N)) as [->|Hn]; [done|].
  rewrite Nat2N.inj_succ N2Nat.id. apply N.log2_spec. lia.
Qed.

(** ** Number tokens *)

Ltac ascii_cases c :=
  let b0 := fresh in let b1 := fresh in let b2 := fresh in
  let b3 := fresh in let b4 := fresh in let b5 := fresh in
  let b6 := fresh in let b7 := fresh in
  destruct c as [b0 b1 b2 b3 b4 b5 b6 b7];
  destruct b0, b1, b2, b3, b4, b5, b6, b7.

Lemma scan_follow acc cnt tl :
  follow tl = true -> scan_digits acc cnt tl = (acc, cnt, tl).
Proof.
  destruct tl as [|c tl]; [done|]. intros H.
  ascii_cases c; try discriminate H; reflexivity.
Qed.

Lemma parse_frac_follow tl :
  follow tl = true -> parse_frac tl = Some (0%N, O, tl).
Proof.
  destruct tl as [|c tl]; [done|]. intros H.
  ascii_cases c; try discriminate H; reflexivity.
Qed.

Lemma parse_exp_follow tl :
  follow tl = true -> parse_exp tl = Some (0%Z, tl).
Proof.
  destruct tl as [|c tl]; [done|]. intros H.
  ascii_cases c; try discriminate H; reflexivity.
Qed.

Lemma strip_minus_digit c r :
  is_digit c = true -> strip_minus (c :: r) = (false, c :: r).
Proof. intros H. ascii_cases c; try discriminate H; reflexivity. Qed.

Lemma parse_exp_dot c r :
  is_digit c = true -> parse_exp (c :: r) = Some (0%Z, c :: r).
Proof. intros H. ascii_cases c; try discriminate H; reflexivity. Qed.

Lemma parse_int_pr_N n tl :
  match tl with c :: _ => is_digit c = false | [] => True end ->
  parse_int (pr_N n tl) = Some (n, tl).
Proof.
  intros Htl.
  destruct (pr_N_scan n tl) as (c & r & w & -> & Hc & H0 & Hnz & Hscan).
  unfold parse_int. destruct (decide (n = 0%N)) as [->|Hn].
  - destruct H0 as [-> ->]; done.
  - specialize (Hnz Hn). destruct (Ascii.eqb_spec c "0"%char) as [|_]; [done|].
    rewrite Hc. specialize (Hscan 0%N O). simpl in Hscan. rewrite Hc in Hscan.
    rewrite Hscan N.mul_0_l N.add_0_l.
    assert (scan_digits n w tl = (n, w, tl)) as ->; [|done].
    destruct tl as [|c' tl]; [done|]. simpl. by rewrite Htl.
Qed.

Lemma dec_norm_canon m k :
  dec_canon (Dec m k) = true -> dec_norm m k = Dec m k.
Proof.
  destruct k as [|k]; [done|]. unfold dec_canon. simpl.
  by destruct (m mod 10 =? 0)%Z.
Qed.

Lemma parse_number_pr d tl :
  dec_canon d = true -> follow tl = true ->
  parse_number (pr_dec d tl) = Some (d, tl).
Proof.
  intros Hcan Htl. destruct d as [z k]. unfold pr_dec. cbn [dmant dscale].
  set (m := Z.abs_N z). set (p := (10 ^ N.of_nat k)%N).
  set (frac := match k with
               | O => tl
               | S _ => "."%char :: pr_fixed k (m mod p) tl
               end).
  assert (Hp : (0 < p)%N) by (unfold p; apply N.neq_0_lt_0, N.pow_nonzero; lia).
  assert (Hfrac0 : match frac with c :: _ => is_digit c = false | [] => True end).
  { unfold frac. destruct k; [|done]. destruct tl as [|c tl]; [done|].
    ascii_cases c; try discriminate Htl; reflexivity. }
  assert (Hint : parse_int (pr_N (m / p) frac) = Some ((m / p)%N, frac))
    by by apply parse_int_pr_N.
  assert (Hfr : parse_frac frac = Some ((m mod p)%N, k, tl)).
  { unfold frac. destruct k as [|k]; [|].
    - rewrite parse_frac_follow //. unfold p.
      change (N.of_nat 0) with 0%N. by rewrite N.pow_0_r N.mod_1_r.
    - unfold parse_frac. rewrite scan_fixed scan_follow //.
      simpl. fold p. rewrite N.Div0.mod_mod. done. }
  assert (Hstrip : exists neg,
    strip_minus (if (z <? 0)%Z then "-"%char :: pr_N (m / p) frac
                 else pr_N (m / p) frac) = (neg, pr_N (m / p) frac)
    /\ (if neg then - Z.of_N m else Z.of_N m)%Z = z).
  { destruct (Z.ltb_spec z 0).
    - exists true. split; [done|]. unfold m. lia.
    - exists false. split; [|unfold m; lia].
      destruct (pr_N_scan (m / p) frac) as (c & r & w & -> & Hc & _).
      by apply strip_minus_digit. }
  destruct Hstrip as (neg & Hstrip & Hz).
  unfold parse_number. rewrite Hstrip Hint Hfr parse_exp_follow //.
  assert ((m / p * 10 ^ N.of_nat k + m mod p)%N = m) as ->.
  { fold p. pose proof (N.Div0.div_mod m p). lia. }
  unfold dec_of_parts. rewrite Hz. f_equal. f_equal.
  destruct k as [|k].
  - simpl. f_equal. lia.
  - replace (Z.of_nat (S k) <=? 0)%Z with false by (symmetry; apply Z.leb_gt; lia).
    replace (Z.to_nat (Z.of_nat (S k) - 0)) with (S k) by lia.
    by apply dec_norm_canon.
Qed.

Lemma pr_dec_first d tl :
  exists c r, pr_dec d tl = c :: r /\ (is_digit c = true \/ c = "-"%char).
Proof.
  unfold pr_dec.
  match goal with |- context [pr_N ?n ?f] =>
    destruct (pr_N_scan n f) as (c & r & w & Heq & Hc & _) end.
  destruct (dmant d <? 0)%Z.
  - eexists _, _. split; [done|]. by right.
  - rewrite Heq. exists c, r. split; [done|]. by left.
Qed.

Lemma head_ok_digit c : is_digit c = true \/ c = "-"%char -> head_ok c = true.
Proof.
  intros [Hc | ->]; [|done]. ascii_cases c; try discriminate Hc; reflexivity.
Qed.

Lemma pr_dec_head d tl :
  exists c r, pr_dec d tl = c :: r /\ head_ok c = true.
Proof.
  destruct (pr_dec_first d tl) as (c & r & Heq & Hc).
  exists c, r. split; [done|]. by apply head_ok_digit.
Qed.

(** ** String literals *)

Lemma parse_chars_char c rest :
  parse_chars (pr_char c rest) = cons_char c (parse_chars rest).
Proof. ascii_cases c; reflexivity. Qed.

Lemma parse_chars_pr s tl :
  parse_chars (pr_chars s ("034"%char :: tl)) = Some (s, tl).
Proof.
  induction s as [|c s IH]; [done|]. cbn [pr_chars].
  by rewrite parse_chars_char IH.
Qed.

(** ** White space *)

Lemma skip_ws_spaces k s : skip_ws (replicate k " "%char ++ s) = skip_ws s.
Proof. induction k as [|k IH]; [done|]. simpl. exact IH. Qed.

Lemma skip_ws_newline gap lvl s :
  skip_ws (pr_newline gap lvl s) = skip_ws s.
Proof. destruct gap; [done|]. simpl. apply skip_ws_spaces. Qed.

Lemma skip_ws_head c r : head_ok c = true -> skip_ws (c :: r) = c :: r.
Proof. intros H. ascii_cases c; try discriminate H; reflexivity. Qed.

(** ** Induction on trees *)

Lemma json_ind' (P : json -> Prop) :
  P JNull -> (forall b, P (JBool b)) -> (forall d, P (JNum d)) ->
  (forall s, P (JStr s)) ->
  (forall l, Forall P l -> P (JArr l)) ->
  (forall l, Forall (fun p => P (snd p)) l -> P (JObj l)) ->
  forall t, P t.
Proof.
  intros Hnull Hbool Hnum Hstr Harr Hobj.
  fix IH 1. intros [| b | d | s | l | l].
  - exact Hnull.
  - apply Hbool.
  - apply Hnum.
  - apply Hstr.
  - apply Harr. induction l as [|x l IHl]; constructor; [apply IH | exact IHl].
  - apply Hobj. induction l as [|[k x] l IHl]; constructor;
      [apply IH | exact IHl].
Qed.

(** ** The printer, one layer at a time *)

Lemma pr_value_arr gap lvl x xs tl :
  pr_value gap lvl (JArr (x :: xs)) tl
  = "["%char :: pr_newline gap (S lvl)
      (pr_value gap (S lvl) x (pr_elems gap lvl xs tl)).
Proof.
  cbn [pr_value]. do 3 f_equal.
  induction xs as [|y ys IH]; [done|]. cbn [pr_elems]. by rewrite <- IH.
Qed.

Lemma pr_value_obj gap lvl k x fs tl :
  pr_value gap lvl (JObj ((k, x) :: fs)) tl
  = "{"%char :: pr_newline gap (S lvl) (pr_string k (pr_colon gap
      (pr_value gap (S lvl) x (pr_members gap lvl fs tl)))).
Proof.
  cbn [pr_value]. do 5 f_equal.
  induction fs as [|[k' y] gs IH]; [done|]. cbn [pr_members]. by rewrite <- IH.
Qed.

Lemma pr_value_head gap lvl t tl :
  exists c r, pr_value gap lvl t tl = c :: r /\ head_ok c = true.
Proof.
  destruct t as [| [] | d | s | [|x xs] | [|[k x] fs]];
    try (by eexists _, _).
  apply pr_dec_head.
Qed.

Lemma follow_newline gap lvl c tl :
  follow (c :: tl) = true -> follow (pr_newline gap lvl (c :: tl)) = true.
Proof. by destruct gap. Qed.

Lemma follow_pr_elems gap lvl ys tl : follow (pr_elems gap lvl ys tl) = true.
Proof. destruct ys; [by apply follow_newline | done]. Qed.

Lemma follow_pr_members gap lvl gs tl :
  follow (pr_members gap lvl gs tl) = true.
Proof. destruct gs as [|[k y] gs]; [by apply follow_newline | done]. Qed.

(** ** The parser on printed text *)

Lemma parse_value_ws n s s' :
  skip_ws s = skip_ws s' -> parse_value n s = parse_value n s'.
Proof. intros H. destruct n; [done|]. cbn [parse_value]. by rewrite H. Qed.

Lemma parse_value_newline n gap lvl s :
  parse_value n (pr_newline gap lvl s) = parse_value n s.
Proof. apply parse_value_ws, skip_ws_newline. Qed.

Lemma peek_close_value close gap lvl lvl' t tl :
  close = "]"%char \/ close = "}"%char ->
  peek_close close (pr_newline gap lvl (pr_value gap lvl' t tl)) = None.
Proof.
  intros Hclose. unfold peek_close. rewrite skip_ws_newline.
  destruct (pr_value_head gap lvl' t tl) as (c & r & -> & Hc).
  rewrite skip_ws_head //.
  destruct Hclose as [-> | ->]; ascii_cases c; try discriminate Hc; reflexivity.
Qed.

Lemma peek_close_string close gap lvl k tl :
  close = "]"%char \/ close = "}"%char ->
  peek_close close (pr_newline gap lvl (pr_string k tl)) = None.
Proof.
  intros Hclose. unfold peek_close. rewrite skip_ws_newline.
  by destruct Hclose as [-> | ->].
Qed.

Lemma parse_sep_close close gap lvl tl :
  close = "]"%char \/ close = "}"%char ->
  parse_sep close (pr_newline gap lvl (close :: tl)) = Some (SepClose, tl).
Proof.
  intros Hclose. unfold parse_sep. rewrite skip_ws_newline.
  by destruct Hclose as [-> | ->].
Qed.

Lemma parse_sep_comma close tl :
  parse_sep close (","%char :: tl) = Some (SepComma, tl).
Proof. done. Qed.

Lemma parse_key_pr gap lvl k tl :
  exists r, parse_key (pr_newline gap lvl (pr_string k (pr_colon gap tl)))
            = Some (k, r) /\ skip_ws r = skip_ws tl.
Proof.
  unfold parse_key. rewrite skip_ws_newline. unfold pr_string.
  cbn [skip_ws is_ws]. rewrite parse_chars_pr.
  destruct gap; cbn; eauto.
Qed.

Lemma aset_fresh {A} k (x : A) l :
  k ∉ map fst l -> aset k x l = l ++ [(k, x)].
Proof.
  induction l as [|[k' y] l IH]; [done|]. cbn. intros Hk.
  apply not_elem_of_cons in Hk as [Hne Hk].
  destruct (String.eqb_spec k k'); [done|]. by rewrite IH.
Qed.

Lemma wf_json_arr x xs :
  wf_json (JArr (x :: xs)) = true ->
  wf_json x = true /\ wf_json (JArr xs) = true.
Proof. cbn. intros H. by apply andb_prop in H. Qed.

Lemma wf_json_obj k x fs :
  wf_json (JObj ((k, x) :: fs)) = true ->
  (k ∉ map fst fs) /\ wf_json x = true /\ wf_json (JObj fs) = true.
Proof.
  cbn. intros H. apply andb_prop in H as [Hnd H].
  apply andb_prop in H as [Hx Hfs]. apply bool_decide_eq_true in Hnd.
  apply NoDup_cons in Hnd as [Hk Hnd]. split; [done|]. split; [done|].
  apply andb_true_intro. split; [by apply bool_decide_eq_true | done].
Qed.

Lemma parse_elems_pr gap lvl tl xs :
  Forall roundtrips xs ->
  forall x acc m,
    roundtrips x ->
    S (json_size x) + list_sum (map (fun y => S (json_size y)) xs) <= m ->
    wf_json (JArr (x :: xs)) = true ->
    parse_elems m acc (pr_newline gap (S lvl)
      (pr_value gap (S lvl) x (pr_elems gap lvl xs tl)))
    = Some (JArr (acc ++ x :: xs), tl).
Proof.
  induction 1 as [|y ys Hy Hys IH]; intros x acc m Hx Hm Hwf;
    (destruct m as [|m]; [lia|]);
    apply wf_json_arr in Hwf as [Hwx Hwxs]; cbn [parse_elems];
    unfold list_sum in *; cbn in Hm.
  - rewrite parse_value_newline Hx; [|lia|done|apply follow_pr_elems].
    cbn [pr_elems]. by rewrite parse_sep_close; [|left].
  - rewrite parse_value_newline Hx; [|lia|done|apply follow_pr_elems].
    cbn [pr_elems]. rewrite parse_sep_comma IH; [|done|cbn; lia|done].
    by rewrite -app_assoc.
Qed.

Lemma parse_members_pr gap lvl tl fs :
  Forall (fun p => roundtrips (snd p)) fs ->
  forall k x acc m,
    roundtrips x ->
    S (json_size x)
      + list_sum (map (fun p => S (json_size (snd p))) fs) <= m ->
    wf_json (JObj ((k, x) :: fs)) = true ->
    NoDup (map fst acc ++ k :: map fst fs) ->
    parse_members m acc (pr_newline gap (S lvl) (pr_string k
      (pr_colon gap (pr_value gap (S lvl) x (pr_members gap lvl fs tl)))))
    = Some (JObj (acc ++ (k, x) :: fs), tl).
Proof.
  induction 1 as [|[k' y] gs Hy Hgs IH]; intros k x acc m Hx Hm Hwf Hnd;
    (destruct m as [|m]; [lia|]);
    apply wf_json_obj in Hwf as (Hk & Hwx & Hwfs); cbn [parse_members];
    unfold list_sum in *; cbn in Hm;
    assert (Hfresh : k ∉ map fst acc)
      by (apply NoDup_app in Hnd as (_ & Hnd & _); intros Hin;
          apply (Hnd _ Hin); left).
  - destruct (parse_key_pr gap (S lvl) k (pr_value gap (S lvl) x
      (pr_members gap lvl [] tl))) as (r & -> & Hr).
    rewrite (parse_value_ws _ _ _ Hr) Hx;
      [|lia|done|apply follow_pr_members].
    cbn [pr_members]. rewrite parse_sep_close; [|by right].
    by rewrite aset_fresh.
  - destruct (parse_key_pr gap (S lvl) k (pr_value gap (S lvl) x
      (pr_members gap lvl ((k', y) :: gs) tl))) as (r & -> & Hr).
    rewrite (parse_value_ws _ _ _ Hr) Hx;
      [|lia|done|apply follow_pr_members].
    cbn [pr_members]. rewrite parse_sep_comma aset_fresh //.
    cbn [snd] in Hy. rewrite IH; [|done|cbn; lia|done|].
    + by rewrite -app_assoc.
    + rewrite map_app. cbn. by rewrite -app_assoc.
Qed.

Lemma parse_value_pr t : roundtrips t.
Proof.
  induction t as [| b | d | s | l IHl | l IHl] using json_ind';
    intros gap lvl n tl Hn Hwf Htl;
    (destruct n as [|n]; [cbn in Hn; lia|]).
  - done.
  - by destruct b.
  - cbn [pr_value]. destruct (pr_dec_first d tl) as (c & r & Heq & Hc).
    cbn [parse_value]. rewrite Heq skip_ws_head; [|by apply head_ok_digit].
    assert (parse_number (c :: r) = Some (d, tl)) as Hnum
      by (rewrite -Heq; by apply parse_number_pr).
    destruct Hc as [Hc | ->]; [|by rewrite Hnum].
    ascii_cases c; try discriminate Hc; by rewrite Hnum.
  - cbn. by rewrite parse_chars_pr.
  - destruct l as [|x xs]; [done|]. rewrite pr_value_arr.
    cbn [parse_value skip_ws is_ws]. rewrite peek_close_value; [|by left].
    apply Forall_cons in IHl as [Hx Hxs].
    rewrite (parse_elems_pr gap lvl tl xs Hxs x [] n Hx); [done| |done].
    unfold list_sum in *. cbn in Hn. lia.
  - destruct l as [|[k x] fs]; [done|]. rewrite pr_value_obj.
    cbn [parse_value skip_ws is_ws]. rewrite peek_close_string; [|by right].
    apply Forall_cons in IHl as [Hx Hxs]. cbn [snd] in Hx.
    rewrite (parse_members_pr gap lvl tl fs Hxs k x [] n Hx); [done| |done|].
    + unfold list_sum in *. cbn in Hn. lia.
    + cbn. cbn in Hwf. apply andb_prop in Hwf as [Hnd _].
      by apply bool_decide_eq_true in Hnd.
Qed.

(** ** Enough fuel: a printed tree is at least as long as its size *)

Lemma pr_digits_length f : forall n tl,
  length tl < length (pr_digits f n tl).
Proof.
  induction f as [|f IH]; intros n tl; cbn [pr_digits]; [cbn; lia|].
  destruct (n <? 10)%N; [cbn; lia|].
  specialize (IH (n / 10)%N (digit_char (n mod 10) :: tl)). cbn in IH. lia.
Qed.

Lemma pr_fixed_length w : forall n tl, length tl <= length (pr_fixed w n tl).
Proof.
  induction w as [|w IH]; intros n tl; cbn [pr_fixed]; [lia|].
  specialize (IH (n / 10)%N (digit_char (n mod 10) :: tl)). cbn in IH. lia.
Qed.

Lemma pr_dec_length d tl : length tl < length (pr_dec d tl).
Proof.
  unfold pr_dec, pr_N.
  match goal with |- context [pr_digits ?f ?n ?fr] =>
    pose proof (pr_digits_length f n fr) as H; set (body := pr_digits f n fr) in *
  end.
  assert (length tl <= length
    (match dscale d with
     | O => tl
     | S _ => "."%char :: pr_fixed (dscale d)
                (Z.abs_N (dmant d) mod 10 ^ N.of_nat (dscale d)) tl
     end)).
  { destruct (dscale d) as [|k]; [lia|]. cbn [length].
    match goal with |- context [pr_fixed ?w ?n tl] =>
      pose proof (pr_fixed_length w n tl) end. lia. }
  destruct (dmant d <? 0)%Z; cbn [length]; lia.
Qed.

Lemma pr_char_length c tl : length tl < length (pr_char c tl).
Proof. unfold pr_char. repeat case_match; cbn [length]; lia. Qed.

Lemma pr_chars_length s tl : length tl <= length (pr_chars s tl).
Proof.
  induction s as [|c s IH]; cbn [pr_chars]; [lia|].
  pose proof (pr_char_length c (pr_chars s tl)). lia.
Qed.

Lemma pr_string_length s tl : S (length tl) < length (pr_string s tl).
Proof.
  unfold pr_string. cbn [length].
  pose proof (pr_chars_length s ("034"%char :: tl)) as H. cbn in H. lia.
Qed.

Lemma pr_newline_length gap lvl tl :
  length tl <= length (pr_newline gap lvl tl).
Proof. destruct gap; cbn; [lia|]. rewrite length_app. lia. Qed.

Lemma pr_colon_length gap tl : length tl < length (pr_colon gap tl).
Proof. destruct gap; cbn; lia. Qed.

Lemma pr_value_length t : forall gap lvl tl,
  json_size t + length tl <= length (pr_value gap lvl t tl).
Proof.
  induction t as [| b | d | s | l IHl | l IHl] using json_ind';
    intros gap lvl tl.
  - cbn. lia.
  - destruct b; cbn; lia.
  - cbn [pr_value json_size]. pose proof (pr_dec_length d tl). lia.
  - cbn [pr_value json_size]. pose proof (pr_string_length s tl). lia.
  - destruct l as [|x xs]; [cbn; lia|]. rewrite pr_value_arr.
    apply Forall_cons in IHl as [Hx Hxs].
    assert (Hel : list_sum (map (fun y => S (json_size y)) xs) + S (length tl)
                  <= length (pr_elems gap lvl xs tl)).
    { clear Hx. induction Hxs as [|y ys Hy Hys IH]; cbn [pr_elems].
      - pose proof (pr_newline_length gap lvl ("]"%char :: tl)) as H.
        cbn in H. cbn. lia.
      - unfold list_sum in *. cbn [List.map foldr length].
        pose proof (pr_newline_length gap (S lvl)
          (pr_value gap (S lvl) y (pr_elems gap lvl ys tl))).
        pose proof (Hy gap (S lvl) (pr_elems gap lvl ys tl)). lia. }
    cbn [length json_size List.map]. unfold list_sum in *. cbn [foldr].
    pose proof (pr_newline_length gap (S lvl)
      (pr_value gap (S lvl) x (pr_elems gap lvl xs tl))).
    pose proof (Hx gap (S lvl) (pr_elems gap lvl xs tl)). lia.
  - destruct l as [|[k x] fs]; [cbn; lia|]. rewrite pr_value_obj.
    apply Forall_cons in IHl as [Hx Hxs]. cbn [snd] in Hx.
    assert (Hel : list_sum (map (fun p => S (json_size (snd p))) fs)
                  + S (length tl)
                  <= length (pr_members gap lvl fs tl)).
    { clear Hx. induction Hxs as [|[k' y] ys Hy Hys IH]; cbn [pr_members].
      - pose proof (pr_newline_length gap lvl ("}"%char :: tl)) as H.
        cbn in H. cbn. lia.
      - unfold list_sum in *. cbn [List.map foldr length snd]. cbn [snd] in Hy.
        match goal with |- context [pr_newline ?g ?l ?s] =>
          pose proof (pr_newline_length g l s) end.
        match goal with |- context [pr_string ?a ?s] =>
          pose proof (pr_string_length a s) end.
        match goal with |- context [pr_colon ?g ?s] =>
          pose proof (pr_colon_length g s) end.
        pose proof (Hy gap (S lvl) (pr_members gap lvl ys tl)). lia. }
    cbn [length json_size List.map snd]. unfold list_sum in *. cbn [foldr].
    match goal with |- context [pr_newline ?g ?l ?s] =>
      pose proof (pr_newline_length g l s) end.
    match goal with |- context [pr_string ?a ?s] =>
      pose proof (pr_string_length a s) end.
    match goal with |- context [pr_colon ?g ?s] =>
      pose proof (pr_colon_length g s) end.
    pose proof (Hx gap (S lvl) (pr_members gap lvl fs tl)). lia.
Qed.

(** ** [JSON.parse] after [JSON.stringify] *)

Lemma parse_stringify gap t :
  wf_json t = true -> parse (stringify gap t) = Some t.
Proof.
  intros Hwf. unfold parse, stringify.
  rewrite list_ascii_of_string_of_list_ascii parse_value_pr //.
  pose proof (pr_value_length t gap 0 []) as H. cbn [length] in H. lia.
Qed.

(** * Properties of the object store *)

Lemma dec_canon_norm m k : dec_canon (dec_norm m k) = true.
Proof.
  revert m. induction k as [|k IH]; intros m; [done|]. cbn [dec_norm].
  destruct (m mod 10 =? 0)%Z eqn:Hm; [apply IH|].
  unfold dec_canon. cbn. by rewrite Hm.
Qed.

Lemma dec_canon_plus d z : dec_canon (plus d z) = true.
Proof. apply dec_canon_norm. Qed.

(** ** Reading trees *)

Lemma elems_json_Forall2 (f : value -> option json) strict ts vs :
  Forall2 (fun t v => f v = Some t /\ v <> VUndef) ts vs ->
  elems_json f strict vs = Some ts.
Proof.
  induction 1 as [|t v ts vs [Hf Hv] _ IH]; [done|]. cbn [elems_json].
  rewrite IH. by destruct v; rewrite ?Hf.
Qed.

Lemma members_json_Forall2 (f : value -> option json) strict
  (fs : list (string * json)) (ps : list (string * value)) :
  Forall2 (fun t p => t.1 = p.1 /\ f p.2 = Some t.2 /\ p.2 <> VUndef) fs ps ->
  members_json f strict ps = Some fs.
Proof.
  induction 1 as [|[k t] [k' v] fs ps (Hk & Hf & Hv) _ IH]; [done|].
  cbn in Hk, Hf, Hv. subst k'. cbn [members_json].
  rewrite IH. by destruct v; rewrite ?Hf.
Qed.

Lemma elems_json_inv (f : value -> option json) vs ts :
  elems_json f true vs = Some ts ->
  Forall2 (fun t v => f v = Some t /\ v <> VUndef) ts vs.
Proof.
  revert ts. induction vs as [|v vs IH]; intros ts H; cbn in H.
  - injection H as <-. constructor.
  - destruct v; try discriminate H;
      (match type of H with
       | match ?a with _ => _ end = _ => destruct a as [t|] eqn:Ht; [|done]
       end);
      (destruct (elems_json f true vs) as [ts'|]; [|done]);
      injection H as <-; constructor; auto.
Qed.

Lemma members_json_inv (f : value -> option json) ps
  (fs : list (string * json)) :
  members_json f true ps = Some fs ->
  Forall2 (fun t p => t.1 = p.1 /\ f p.2 = Some t.2 /\ p.2 <> VUndef) fs ps.
Proof.
  revert fs. induction ps as [|[k v] ps IH]; intros fs H; cbn in H.
  - injection H as <-. constructor.
  - destruct v; try discriminate H;
      (match type of H with
       | match ?a with _ => _ end = _ => destruct a as [t|] eqn:Ht; [|done]
       end);
      (destruct (members_json f true ps) as [fs'|]; [|done]);
      injection H as <-; constructor; auto.
Qed.

(** A value that is a tree exactly is serialized as that tree. *)
Lemma to_json_strict_lossy n : forall h v t,
  to_json true n h v = Some t -> to_json false n h v = Some t.
Proof.
  induction n as [|n IH]; intros h v t H.
  - destruct v as [| | b | [d| |b] | s | l]; try done.
    cbn in H |- *. destruct (dec_canon d) eqn:Hd; [|done].
    injection H as <-. destruct d as [m k]. by rewrite dec_norm_canon.
  - destruct v as [| | b | [d| |b] | s | l]; try done.
    + cbn in H |- *. destruct (dec_canon d) eqn:Hd; [|done].
      injection H as <-. destruct d as [m k]. by rewrite dec_norm_canon.
    + cbn [to_json] in H |- *. destruct (h !! l) as [[ps|vs]|]; [| |done].
      * cbn [andb] in H |- *.
        destruct (negb (bool_decide (NoDup (map fst ps)))); [done|].
        destruct (members_json (to_json true n h) true ps) as [fs|] eqn:Hm;
          [|done].
        injection H as <-. apply members_json_inv in Hm.
        erewrite members_json_Forall2; [done|].
        eapply Forall2_impl; [exact Hm|]. intros ?? (?&?&?). auto.
      * destruct (elems_json (to_json true n h) true vs) as [ts|] eqn:Hm;
          [|done].
        injection H as <-. apply elems_json_inv in Hm.
        erewrite elems_json_Forall2; [done|].
        eapply Forall2_impl; [exact Hm|]. intros ?? (?&?). auto.
Qed.

Lemma to_json_strict_wf n : forall h v t,
  to_json true n h v = Some t -> wf_json t = true.
Proof.
  induction n as [|n IH]; intros h v t H.
  - destruct v as [| | b | [d| |b] | s | l]; try done;
      cbn in H; try (by injection H as <-).
    destruct (dec_canon d) eqn:Hd; [|done]. by injection H as <-.
  - destruct v as [| | b | [d| |b] | s | l]; try done;
      cbn [to_json num_json] in H; try (by injection H as <-).
    + destruct (dec_canon d) eqn:Hd; [|done]. by injection H as <-.
    + destruct (h !! l) as [[ps|vs]|]; [| |done].
      * cbn [andb] in H.
        destruct (bool_decide (NoDup (map fst ps))) eqn:Hnd; [|done].
        cbn [negb] in H.
        destruct (members_json (to_json true n h) true ps) as [fs|] eqn:Hm;
          [|done].
        injection H as <-. apply members_json_inv in Hm. cbn [wf_json].
        apply andb_true_intro. split.
        -- apply bool_decide_eq_true. apply bool_decide_eq_true in Hnd.
           replace (map fst fs) with (map fst ps); [done|]. clear -Hm.
           induction Hm as [|?? ?? (?&_)]; [done|]. cbn. by f_equal.
        -- clear Hnd. induction Hm as [|?? ?? (_ & Ht & _) _ IHm]; [done|].
           cbn. by rewrite (IH _ _ _ Ht) IHm.
      * destruct (elems_json (to_json true n h) true vs) as [ts|] eqn:Hm;
          [|done].
        injection H as <-. apply elems_json_inv in Hm. cbn [wf_json].
        induction Hm as [|?? ?? (Ht & _) _ IHm]; [done|].
        cbn. by rewrite (IH _ _ _ Ht) IHm.
Qed.

Lemma json_of_wf h v t : json_of h v = Some t -> wf_json t = true.
Proof. apply to_json_strict_wf. Qed.

Lemma json_of_lossy h v t :
  json_of h v = Some t -> to_json false (S (length h)) h v = Some t.
Proof. apply to_json_strict_lossy. Qed.

(** The deepest element of a list. *)
Lemma max_list_witness {A} (f : A -> nat) (l : list A) :
  l <> [] -> exists i x, l !! i = Some x /\ f x = max_list (map f l).
Proof.
  induction l as [|x l IH]; [done|]. intros _.
  destruct l as [|y l].
  - exists 0, x. split; [done|]. cbn. lia.
  - destruct IH as (i & z & Hi & Hz); [done|].
    change (max_list (map f (x :: y :: l)))
      with (f x `max` max_list (map f (y :: l))).
    destruct (le_lt_dec (f x) (max_list (map f (y :: l)))).
    + exists (S i), z. split; [done|]. lia.
    + exists 0, x. split; [done|]. lia.
Qed.

(** ** Association lists *)

Lemma aset_keys {A} k (x : A) l :
  alookup k l <> None -> map fst (aset k x l) = map fst l.
Proof.
  induction l as [|[k' y] l IH]; [done|]. cbn.
  destruct (String.eqb_spec k k'); [done|]. intros H. cbn. by rewrite IH.
Qed.

Lemma aset_keys_snoc {A} k (x : A) l :
  alookup k l = None -> map fst (aset k x l) = map fst l ++ [k].
Proof.
  induction l as [|[k' y] l IH]; [done|]. cbn.
  destruct (String.eqb_spec k k'); [done|]. intros H. cbn. by rewrite IH.
Qed.

Lemma alookup_None_keys {A} k (l : list (string * A)) :
  alookup k l = None <-> (k ∉ map fst l).
Proof.
  induction l as [|[k' y] l IH]; cbn.
  - split; [intros _; apply not_elem_of_nil | done].
  - destruct (String.eqb_spec k k') as [->|Hne].
    + split; [done|]. intros H. exfalso. apply H. left.
    + rewrite IH. rewrite not_elem_of_cons. tauto.
Qed.

Lemma aset_NoDup {A} k (x : A) l :
  NoDup (map fst l) -> NoDup (map fst (aset k x l)).
Proof.
  intros Hnd. destruct (alookup k l) eqn:Hk.
  - rewrite aset_keys //. by rewrite Hk.
  - rewrite aset_keys_snoc //. apply NoDup_app. split; [done|].
    split; [|apply NoDup_singleton].
    intros k' Hin ->%list_elem_of_singleton.
    by apply alookup_None_keys in Hk.
Qed.

Lemma alookup_aset_eq {A} k (x : A) l : alookup k (aset k x l) = Some x.
Proof.
  induction l as [|[k' y] l IH]; cbn; [by rewrite String.eqb_refl|].
  destruct (String.eqb_spec k k') as [->|Hne]; cbn.
  - by rewrite String.eqb_refl.
  - by destruct (String.eqb_spec k k').
Qed.

Lemma alookup_aset_ne {A} k k' (x : A) l :
  k <> k' -> alookup k' (aset k x l) = alookup k' l.
Proof.
  intros Hne. induction l as [|[k0 y] l IH]; cbn.
  - destruct (String.eqb_spec k' k); [by subst|done].
  - destruct (String.eqb_spec k k0) as [->|Hne0]; cbn.
    + by destruct (String.eqb_spec k' k0); [subst|].
    + by rewrite IH.
Qed.

Lemma aset_aset {A} k (x y : A) l : aset k x (aset k y l) = aset k x l.
Proof.
  induction l as [|[k' z] l IH]; cbn; [by rewrite String.eqb_refl|].
  destruct (String.eqb_spec k k') as [->|Hne]; cbn.
  - by rewrite String.eqb_refl.
  - destruct (String.eqb_spec k k'); [done|]. by rewrite IH.
Qed.

(** ** A tree read in a heap is read the same in an extension of it *)

Lemma to_json_extend n : forall h ext v t n',
  to_json true n h v = Some t -> n <= n' ->
  to_json true n' (h ++ ext) v = Some t.
Proof.
  induction n as [|n IH]; intros h ext v t n' H Hn.
  - destruct v as [| | b | [d| |b] | s | l]; try done; by destruct n'.
  - destruct n' as [|n']; [lia|].
    destruct v as [| | b | [d| |b] | s | l]; try done.
    cbn [to_json] in H |- *. destruct (h !! l) as [c|] eqn:Hl; [|done].
    rewrite (lookup_app_l_Some _ _ _ _ Hl). destruct c as [ps|vs].
    + destruct (true && negb (bool_decide (NoDup (map fst ps)))); [done|].
      destruct (members_json (to_json true n h) true ps) as [fs|] eqn:Hm;
        [|done].
      apply members_json_inv in Hm.
      erewrite members_json_Forall2; [done|].
      eapply Forall2_impl; [exact Hm|]. intros ?? (?&?&?).
      split; [done|]. split; [|done]. apply IH; [done|lia].
    + destruct (elems_json (to_json true n h) true vs) as [ts|] eqn:Hm;
        [|done].
      apply elems_json_inv in Hm.
      erewrite elems_json_Forall2; [done|].
      eapply Forall2_impl; [exact Hm|]. intros ?? (?&?).
      split; [|done]. apply IH; [done|lia].
Qed.

Lemma json_of_extend h ext v t :
  json_of h v = Some t -> json_of (h ++ ext) v = Some t.
Proof.
  intros H. unfold json_of. eapply to_json_extend; [exact H|].
  rewrite length_app. lia.
Qed.

(** * Rules of the logic *)

Lemma heap_map_lookup (h : heap) (l : loc) : heap_map h !! l = h !! l.
Proof. unfold heap_map. by rewrite lookup_map_seq_0. Qed.

Lemma heap_map_snoc (h : heap) (c : cell) :
  heap_map (h ++ [c]) = <[length h := c]> (heap_map h).
Proof. unfold heap_map. by rewrite map_seq_snoc. Qed.

Lemma heap_map_insert (h : heap) (l : loc) (c : cell) :
  is_Some (h !! l) -> heap_map (<[l := c]> h) = <[l := c]> (heap_map h).
Proof.
  intros Hl. unfold heap_map. apply lookup_lt_is_Some in Hl.
  by rewrite map_seq_insert.
Qed.

Section rules.
Context `{!gen_heapGS loc cell Σ}.
Implicit Types (l : loc) (c : cell) (h : heap).

Lemma wp_wand {A} (m : M A) (Φ Ψ : result A -> iProp Σ) :
  wp m Φ -∗ (∀ r, Φ r -∗ Ψ r) -∗ wp m Ψ.
Proof.
  iIntros "Hwp HΦ" (h) "Hh". iMod ("Hwp" with "Hh") as "[$ H]".
  by iApply "HΦ".
Qed.

Lemma wps_wand {A} (m : M A) (Φ Ψ : A -> iProp Σ) :
  wps m Φ -∗ (∀ a, Φ a -∗ Ψ a) -∗ wps m Ψ.
Proof.
  iIntros "Hwp HΦ". iApply (wp_wand with "Hwp").
  iIntros (r) "(%a & -> & H)". iExists a. iSplit; [done|]. by iApply "HΦ".
Qed.

Lemma wps_frame {A} (m : M A) (Φ : A -> iProp Σ) (R : iProp Σ) :
  R -∗ wps m Φ -∗ wps m (fun a => R ∗ Φ a)%I.
Proof.
  iIntros "HR Hwp". iApply (wps_wand with "Hwp"). iIntros (a) "$". done.
Qed.

Lemma wps_ret {A} (a : A) (Φ : A -> iProp Σ) : Φ a -∗ wps (mret a) Φ.
Proof.
  iIntros "HΦ" (h) "Hh !>". iSplitL "Hh"; [done|]. iExists a. by iFrame.
Qed.

Lemma wps_bind {A B} (m : M A) (f : A -> M B) (Φ : B -> iProp Σ) :
  wps m (fun a => wps (f a) Φ) -∗ wps (m ≫= f) Φ.
Proof.
  iIntros "Hwp" (h) "Hh". iMod ("Hwp" with "Hh") as "[Hh (%a & %Ha & Hf)]".
  unfold mbind, M_bind. destruct (m h) as [h' r]. simpl in *. subst r.
  by iApply "Hf".
Qed.

Lemma wps_load l c (Φ : cell -> iProp Σ) :
  l ↦ c -∗ (l ↦ c -∗ Φ c) -∗ wps (load l) Φ.
Proof.
  iIntros "Hl HΦ" (h) "Hh".
  iDestruct (gen_heap_valid with "Hh Hl") as %Hl.
  rewrite heap_map_lookup in Hl. unfold load. rewrite Hl /=.
  iModIntro. iSplitL "Hh"; [done|]. iExists c. iSplit; [done|].
  by iApply "HΦ".
Qed.

Lemma wps_store l c c' (Φ : unit -> iProp Σ) :
  l ↦ c -∗ (l ↦ c' -∗ Φ tt) -∗ wps (store l c') Φ.
Proof.
  iIntros "Hl HΦ" (h) "Hh".
  iDestruct (gen_heap_valid with "Hh Hl") as %Hl.
  rewrite heap_map_lookup in Hl.
  iMod (gen_heap_update _ _ _ c' with "Hh Hl") as "[Hh Hl]".
  unfold store. simpl. rewrite heap_map_insert; [|by eexists].
  iModIntro. iSplitL "Hh"; [done|]. iExists tt. iSplit; [done|].
  by iApply "HΦ".
Qed.

Lemma wps_alloc c (Φ : loc -> iProp Σ) :
  (∀ l, l ↦ c -∗ Φ l) -∗ wps (alloc c) Φ.
Proof.
  iIntros "HΦ" (h) "Hh". unfold alloc. simpl. rewrite heap_map_snoc.
  iMod (gen_heap_alloc _ (length h) c with "Hh") as "(Hh & Hl & _)".
  { rewrite heap_map_lookup. apply lookup_ge_None. lia. }
  iModIntro. iSplitL "Hh"; [done|]. iExists (length h). iSplit; [done|].
  by iApply "HΦ".
Qed.

(** Two owned cells are two cells. *)
Lemma cell_at_ne l1 l2 c1 c2 : l1 ↦ c1 -∗ l2 ↦ c2 -∗ ⌜l1 ≠ l2⌝.
Proof. iIntros "H1 H2". iApply (pointsto_ne with "H1 H2"). Qed.

Lemma cell_at_lookup h l c :
  gen_heap_interp (heap_map h) -∗ l ↦ c -∗ ⌜h !! l = Some c⌝.
Proof.
  iIntros "Hh Hl". iDestruct (gen_heap_valid with "Hh Hl") as %Hl.
  by rewrite heap_map_lookup in Hl.
Qed.

(** Owned cells are distinct and inside the heap, so there are at most
    as many as the heap is long. *)
Lemma owned_cells_bound h (ls : list loc) :
  gen_heap_interp (heap_map h) -∗
  ([∗ list] l ∈ ls, ∃ c, l ↦ c) -∗ ⌜length ls <= length h⌝.
Proof.
  iIntros "Hh Hls".
  iAssert ⌜NoDup ls ∧ ∀ l, l ∈ ls -> l < length h⌝%I as %[Hnd Hin].
  { iInduction ls as [|l ls IH]; [iPureIntro; split; [constructor|set_solver]|].
    iDestruct "Hls" as "[(%c & Hl) Hls]".
    iDestruct (cell_at_lookup with "Hh Hl") as %Hl.
    iAssert ⌜l ∉ ls⌝%I as %Hnotin.
    { iIntros (Hin). apply list_elem_of_lookup in Hin as [i Hi].
      iDestruct (big_sepL_lookup _ _ i with "Hls") as "(%c' & Hl')"; [done|].
      iDestruct (cell_at_ne with "Hl Hl'") as %Hne. done. }
    iDestruct ("IH" with "Hh Hls") as %[Hnd Hin]. iPureIntro. split.
    - by constructor.
    - intros l' [->|Hl']%elem_of_cons; [|by apply Hin].
      by apply lookup_lt_Some in Hl. }
  iPureIntro.
  assert (ls ⊆+ seq 0 (length h)) as Hsub.
  { apply NoDup_submseteq; [done|]. intros l Hl. apply elem_of_seq.
    specialize (Hin l Hl). lia. }
  apply submseteq_length in Hsub. by rewrite length_seq in Hsub.
Qed.
End rules.

(** From a proof in the logic to a fact about the run. *)
Lemma wps_adequacy {A} (m : M A) (h : heap) (φ : heap -> A -> Prop) :
  (forall (Hheap : gen_heapGS loc cell heapΣ),
     ([∗ map] l ↦ c ∈ heap_map h, l ↦ c) ⊢
     wps m (fun a => ∀ h', gen_heap_interp (heap_map h') -∗ ⌜φ h' a⌝)%I) ->
  exists a, (m h).2 = Ok a /\ φ (m h).1 a.
Proof.
  intros Hwp.
  apply (pure_soundness (PROP := iPropI heapΣ)).
  apply uPred.bupd_soundness; [apply _|].
  iMod (gen_heap_init (heap_map h)) as (Hheap) "(Hh & Hcells & _)".
  iPoseProof (Hwp Hheap with "Hcells") as "Hwp".
  iMod ("Hwp" with "Hh") as "[Hh (%a & %Ha & HΦ)]".
  iDestruct ("HΦ" with "Hh") as %Hφ. iModIntro. iPureIntro. eauto.
Qed.

(** * Trees in the heap *)

Lemma alloc_tree_arr l h :
  alloc_tree (JArr l) h
  = (vs ← alloc_elems l; a ← alloc (CArr vs); mret (VRef a)) h.
Proof.
  cbn [alloc_tree].
  match goal with |- mbind _ (?go l) h = _ =>
    assert (Hgo : forall l h, go l h = alloc_elems l h) end.
  { clear. induction l as [|x l IH]; intros h; [done|]. cbn [alloc_elems].
    unfold mbind, M_bind. destruct (alloc_tree x h) as [h' [v|e]]; [|done].
    by rewrite IH. }
  unfold mbind, M_bind. by rewrite Hgo.
Qed.

Lemma alloc_tree_obj l h :
  alloc_tree (JObj l) h
  = (ps ← alloc_members l; a ← alloc (CObj ps); mret (VRef a)) h.
Proof.
  cbn [alloc_tree].
  match goal with |- mbind _ (?go l) h = _ =>
    assert (Hgo : forall l h, go l h = alloc_members l h) end.
  { clear. induction l as [|[k x] l IH]; intros h; [done|].
    cbn [alloc_members]. unfold mbind, M_bind.
    destruct (alloc_tree x h) as [h' [v|e]]; [|done]. by rewrite IH. }
  unfold mbind, M_bind. by rewrite Hgo.
Qed.

Section trees.
Context `{!gen_heapGS loc cell Σ}.
Implicit Types (l : loc) (c : cell) (h : heap) (t : json) (v : value).

Lemma is_tree_arr ts v :
  is_tree (JArr ts) v ⊣⊢
  ∃ l vs, ⌜v = VRef l⌝ ∗ l ↦ CArr vs ∗ are_trees ts vs.
Proof.
  cbn [is_tree]. f_equiv. intros l. f_equiv. intros vs. do 2 f_equiv.
  unfold are_trees. revert vs.
  induction ts as [|t ts IH]; intros [|v' vs]; cbn; try done.
  by rewrite IH.
Qed.

Lemma is_tree_obj fs v :
  is_tree (JObj fs) v ⊣⊢
  ∃ l ps, ⌜v = VRef l ∧ NoDup (map fst fs)⌝ ∗ l ↦ CObj ps ∗ are_fields fs ps.
Proof.
  cbn [is_tree]. f_equiv. intros l. f_equiv. intros ps. do 2 f_equiv.
  unfold are_fields. revert ps.
  induction fs as [|[k t] fs IH]; intros [|[k' v'] ps]; cbn; try done.
  by rewrite IH assoc.
Qed.

(** Pure facts about every element, from a fact about each tree. *)
Lemma are_trees_pure (P : json -> value -> Prop) (R : iProp Σ) ts vs :
  Forall (fun t => forall v, R -∗ is_tree t v -∗ ⌜P t v⌝) ts ->
  R -∗ are_trees ts vs -∗ ⌜Forall2 P ts vs⌝.
Proof.
  intros Hts. iIntros "HR Hts". unfold are_trees.
  iInduction Hts as [|t ts Ht Hts IH] forall (vs).
  - iDestruct (big_sepL2_nil_inv_l with "Hts") as %->. iPureIntro. constructor.
  - iDestruct (big_sepL2_cons_inv_l with "Hts") as (v vs' ->) "[Ht Hts]".
    iDestruct (Ht with "HR Ht") as %HP.
    iDestruct ("IH" with "HR Hts") as %HPs. iPureIntro. by constructor.
Qed.

Lemma are_fields_pure (P : json -> value -> Prop) (R : iProp Σ) fs ps :
  Forall (fun f => forall v, R -∗ is_tree f.2 v -∗ ⌜P f.2 v⌝) fs ->
  R -∗ are_fields fs ps -∗
  ⌜Forall2 (fun f p => f.1 = p.1 /\ P f.2 p.2) fs ps⌝.
Proof.
  intros Hfs. iIntros "HR Hfs". unfold are_fields.
  iInduction Hfs as [|f fs Hf Hfs IH] forall (ps).
  - iDestruct (big_sepL2_nil_inv_l with "Hfs") as %->. iPureIntro. constructor.
  - iDestruct (big_sepL2_cons_inv_l with "Hfs") as (p ps' ->) "[[%Hk Hf] Hfs]".
    iDestruct (Hf with "HR Hf") as %HP.
    iDestruct ("IH" with "HR Hfs") as %HPs. iPureIntro. by constructor.
Qed.

Lemma are_fields_keys fs ps : are_fields fs ps -∗ ⌜map fst ps = map fst fs⌝.
Proof.
  iIntros "Hfs".
  iDestruct (are_fields_pure (fun _ _ => True) True%I with "[//] Hfs") as %H.
  { apply Forall_forall. by iIntros (???) "_ _". }
  iPureIntro. induction H as [|???? [? _]]; [done|]. cbn. by f_equal.
Qed.

Lemma is_tree_not_undef t v : is_tree t v -∗ ⌜v <> VUndef⌝.
Proof.
  destruct t; cbn [is_tree];
    [iIntros (->) | iIntros (->) | iIntros ([-> _]) | iIntros (->)
    | iIntros "(%&%&->&_)" | iIntros "(%&%&[-> _]&_)"]; done.
Qed.

Lemma is_tree_wf t : forall v, is_tree t v -∗ ⌜wf_json t = true⌝.
Proof.
  induction t as [| b | d | s | ts IH | fs IH] using json_ind'; intros v.
  - by iIntros "_".
  - by iIntros "_".
  - by iIntros ([_ ?]).
  - by iIntros "_".
  - rewrite is_tree_arr. iIntros "(%l & %vs & -> & _ & Hts)".
    iDestruct (are_trees_pure (fun t _ => wf_json t = true) True%I
      with "[//] Hts") as %H.
    { eapply Forall_impl; [exact IH|]. iIntros (t Ht v) "_ H". by iApply Ht. }
    iPureIntro. cbn. clear -H.
    induction H as [|???? Hx _ IHl]; [done|]. cbn. by rewrite Hx IHl.
  - rewrite is_tree_obj. iIntros "(%l & %ps & [-> %Hnd] & _ & Hfs)".
    iDestruct (are_fields_pure (fun t _ => wf_json t = true) True%I
      with "[//] Hfs") as %H.
    { eapply Forall_impl; [exact IH|]. iIntros (t Ht v) "_ H". by iApply Ht. }
    iPureIntro. cbn. rewrite bool_decide_eq_true_2 //. cbn.
    clear -H.
    induction H as [|???? [_ Hx] _ IHl]; [done|]. cbn. by rewrite Hx IHl.
Qed.

(** What the heap holds below an owned tree. *)
Lemma is_tree_to_json h t : forall v,
  gen_heap_interp (heap_map h) -∗ is_tree t v -∗
  ⌜forall strict n, json_depth t <= n -> to_json strict n h v = Some t⌝.
Proof.
  induction t as [| b | d | s | ts IH | fs IH] using json_ind'; intros v.
  - iIntros "_ ->". iPureIntro. by intros ? [|?].
  - iIntros "_ ->". iPureIntro. by intros ? [|?].
  - iIntros "_ [-> %Hd]". iPureIntro.
    intros [] [|?] _; cbn; rewrite ?Hd //; destruct d;
      by rewrite dec_norm_canon.
  - iIntros "_ ->". iPureIntro. by intros ? [|?].
  - rewrite is_tree_arr. iIntros "Hh (%l & %vs & -> & Hl & Hts)".
    iDestruct (cell_at_lookup with "Hh Hl") as %Hl.
    iDestruct (are_trees_pure (fun t v =>
        v <> VUndef /\ forall strict n, json_depth t <= n ->
          to_json strict n h v = Some t) with "Hh Hts") as %H.
    { eapply Forall_impl; [exact IH|]. iIntros (t Ht v) "Hh Ht".
      iDestruct (is_tree_not_undef with "Ht") as %?.
      iDestruct (Ht with "Hh Ht") as %?. done. }
    iPureIntro. intros strict [|n] Hn; cbn in Hn; [lia|].
    cbn [to_json]. rewrite Hl (elems_json_Forall2 _ _ ts) //.
    clear Hl IH. induction H as [|t v ts vs [Hv Ht] _ IHl]; constructor;
      change (max_list (map json_depth (t :: ts)))
        with (json_depth t `max` max_list (map json_depth ts)) in Hn.
    + split; [|done]. apply Ht. clear -Hn. lia.
    + apply IHl. clear -Hn. lia.
  - rewrite is_tree_obj. iIntros "Hh (%l & %ps & [-> %Hnd] & Hl & Hfs)".
    iDestruct (cell_at_lookup with "Hh Hl") as %Hl.
    iDestruct (are_fields_keys with "Hfs") as %Hkeys.
    iDestruct (are_fields_pure (fun t v =>
        v <> VUndef /\ forall strict n, json_depth t <= n ->
          to_json strict n h v = Some t) with "Hh Hfs") as %H.
    { eapply Forall_impl; [exact IH|]. iIntros (t Ht v) "Hh Ht".
      iDestruct (is_tree_not_undef with "Ht") as %?.
      iDestruct (Ht with "Hh Ht") as %?. done. }
    iPureIntro. intros strict [|n] Hn; cbn in Hn; [lia|].
    cbn [to_json]. rewrite Hl Hkeys bool_decide_eq_true_2 //.
    rewrite andb_false_r (members_json_Forall2 _ _ fs) //.
    clear Hl Hkeys Hnd IH.
    induction H as [|f p fs ps (Hk & Hv & Ht) _ IHl]; constructor;
      change (max_list (map (fun p => json_depth p.2) (f :: fs)))
        with (json_depth f.2 `max`
              max_list (map (fun p => json_depth p.2) fs)) in Hn.
    + split; [done|]. split; [|done]. apply Ht. clear -Hn. lia.
    + apply IHl. clear -Hn. lia.
Qed.

(** The deepest path of an owned tree, as owned cells. *)
Lemma is_tree_path t : forall v,
  is_tree t v -∗
  ∃ ls : list loc, ⌜length ls = json_depth t⌝ ∗ [∗ list] l ∈ ls, ∃ c, l ↦ c.
Proof.
  induction t as [| b | d | s | ts IH | fs IH] using json_ind'; intros v;
    try (iIntros "_"; iExists []; by iSplit).
  - rewrite is_tree_arr. iIntros "(%l & %vs & -> & Hl & Hts)".
    destruct (decide (ts = [])) as [->|Hne].
    { iExists [l]. iSplit; [done|]. cbn. iSplit; [|done]. by iExists _. }
    destruct (max_list_witness json_depth ts Hne) as (i & t & Hi & Hmax).
    iDestruct (big_sepL2_length with "Hts") as %Hlen.
    destruct (lookup_lt_is_Some_2 vs i) as [v Hv].
    { rewrite -Hlen. by eapply lookup_lt_Some. }
    iDestruct (big_sepL2_lookup _ _ _ i with "Hts") as "Ht"; [done..|].
    rewrite Forall_lookup in IH. iDestruct (IH _ _ Hi with "Ht") as (ls Hls) "Hls".
    iExists (l :: ls). iSplit; [iPureIntro; cbn; lia|].
    cbn. iFrame "Hls". by iExists _.
  - rewrite is_tree_obj. iIntros "(%l & %ps & [-> %Hnd] & Hl & Hfs)".
    destruct (decide (fs = [])) as [->|Hne].
    { iExists [l]. iSplit; [done|]. cbn. iSplit; [|done]. by iExists _. }
    destruct (max_list_witness (fun p => json_depth p.2) fs Hne)
      as (i & f & Hi & Hmax).
    iDestruct (big_sepL2_length with "Hfs") as %Hlen.
    destruct (lookup_lt_is_Some_2 ps i) as [p Hp].
    { rewrite -Hlen. by eapply lookup_lt_Some. }
    iDestruct (big_sepL2_lookup _ _ _ i with "Hfs") as "[_ Ht]"; [done..|].
    rewrite Forall_lookup in IH. iDestruct (IH _ _ Hi with "Ht") as (ls Hls) "Hls".
    iExists (l :: ls). iSplit; [iPureIntro; cbn; lia|].
    cbn. iFrame "Hls". by iExists _.
Qed.

Lemma is_tree_depth h t v :
  gen_heap_interp (heap_map h) -∗ is_tree t v -∗ ⌜json_depth t <= length h⌝.
Proof.
  iIntros "Hh Ht". iDestruct (is_tree_path with "Ht") as (ls <-) "Hls".
  iApply (owned_cells_bound with "Hh Hls").
Qed.

Lemma is_tree_json_of h t v :
  gen_heap_interp (heap_map h) -∗ is_tree t v -∗ ⌜json_of h v = Some t⌝.
Proof.
  iIntros "Hh Ht". iDestruct (is_tree_to_json with "Hh Ht") as %H.
  iDestruct (is_tree_depth with "Hh Ht") as %Hd.
  iPureIntro. apply H. lia.
Qed.

Lemma wps_ext {A} (m m' : M A) (Φ : A -> iProp Σ) :
  (forall h, m h = m' h) -> wps m' Φ -∗ wps m Φ.
Proof. intros Heq. iIntros "Hwp" (h). rewrite Heq. iApply "Hwp". Qed.

(** ** [JSON.parse], [JSON.stringify], [copyOBJ] *)

Lemma wps_alloc_tree t : forall (Φ : value -> iProp Σ),
  wf_json t = true ->
  (∀ v, is_tree t v -∗ Φ v) -∗ wps (alloc_tree t) Φ.
Proof.
  induction t as [| b | d | s | ts IH | fs IH] using json_ind';
    intros Φ Hwf; iIntros "HΦ".
  - iApply wps_ret. by iApply "HΦ".
  - iApply wps_ret. by iApply "HΦ".
  - iApply wps_ret. by iApply "HΦ".
  - iApply wps_ret. by iApply "HΦ".
  - iApply (wps_ext _ _ _ (alloc_tree_arr ts)). iApply wps_bind.
    iAssert (∀ Ψ, (∀ vs, are_trees ts vs -∗ Ψ vs) -∗
               wps (alloc_elems ts) Ψ)%I as "Helems".
    { clear Φ. iIntros (Ψ) "HΨ".
      iInduction ts as [|t ts IHts] forall (Ψ).
      - iApply wps_ret. iApply "HΨ". by unfold are_trees.
      - apply Forall_cons in IH as [Ht Hts].
        apply wf_json_arr in Hwf as [Hwt Hwts].
        cbn [alloc_elems]. iApply wps_bind. iApply (Ht _ Hwt).
        iIntros (v) "Hv". iApply wps_bind.
        iApply ("IHts" $! Hts Hwts). iIntros (vs) "Hvs".
        iApply wps_ret. iApply "HΨ". unfold are_trees.
        rewrite big_sepL2_cons. iFrame. }
    iApply "Helems". iIntros (vs) "Hvs". iApply wps_bind.
    iApply wps_alloc. iIntros (l) "Hl". iApply wps_ret. iApply "HΦ".
    rewrite is_tree_arr. iExists l, vs. by iFrame.
  - iApply (wps_ext _ _ _ (alloc_tree_obj fs)). iApply wps_bind.
    assert (Hnd : NoDup (map fst fs)).
    { cbn in Hwf. apply andb_prop in Hwf as [Hnd _].
      by apply bool_decide_eq_true in Hnd. }
    iAssert (∀ Ψ, (∀ ps, are_fields fs ps -∗ Ψ ps) -∗
               wps (alloc_members fs) Ψ)%I as "Hmembers".
    { clear Φ Hnd. iIntros (Ψ) "HΨ".
      iInduction fs as [|[k t] fs IHfs] forall (Ψ).
      - iApply wps_ret. iApply "HΨ". by unfold are_fields.
      - apply Forall_cons in IH as [Ht Hts].
        apply wf_json_obj in Hwf as (_ & Hwt & Hwts).
        cbn [alloc_members]. iApply wps_bind. iApply (Ht _ Hwt).
        iIntros (v) "Hv". iApply wps_bind.
        iApply ("IHfs" $! Hts Hwts). iIntros (ps) "Hps".
        iApply wps_ret. iApply "HΨ". unfold are_fields.
        rewrite big_sepL2_cons. by iFrame. }
    iApply "Hmembers". iIntros (ps) "Hps". iApply wps_bind.
    iApply wps_alloc. iIntros (l) "Hl". iApply wps_ret. iApply "HΦ".
    rewrite is_tree_obj. iExists l, ps. by iFrame.
Qed.

Lemma wps_parse text t (Φ : value -> iProp Σ) :
  parse text = Some t -> wf_json t = true ->
  (∀ v, is_tree t v -∗ Φ v) -∗ wps (JSON_parse text) Φ.
Proof.
  intros Hp Hwf. unfold JSON_parse. rewrite Hp. by apply wps_alloc_tree.
Qed.

Lemma wps_stringify gap t v (Φ : string -> iProp Σ) :
  is_tree t v -∗ (is_tree t v -∗ Φ (stringify gap t)) -∗
  wps (JSON_stringify gap v) Φ.
Proof.
  iIntros "Ht HΦ" (h) "Hh".
  iDestruct (is_tree_not_undef with "Ht") as %Hv.
  iDestruct (is_tree_to_json with "Hh Ht") as %Hj.
  iDestruct (is_tree_depth with "Hh Ht") as %Hd.
  unfold JSON_stringify. rewrite (Hj false (S (length h))); [|lia].
  iModIntro. destruct v; try done; (iSplitL "Hh"; [done|]);
    iExists _; (iSplit; [done|]); by iApply "HΦ".
Qed.

Lemma wps_copyOBJ t v (Φ : value -> iProp Σ) :
  is_tree t v -∗ (∀ v', is_tree t v -∗ is_tree t v' -∗ Φ v') -∗
  wps (copyOBJ v) Φ.
Proof.
  iIntros "Ht HΦ". iDestruct (is_tree_wf with "Ht") as %Hwf.
  unfold copyOBJ. iApply wps_bind.
  iApply (wps_stringify with "Ht"). iIntros "Ht".
  iApply (wps_parse _ t); [by apply parse_stringify|done|].
  iIntros (v') "Hv'". iApply ("HΦ" with "Ht Hv'").
Qed.
End trees.

(** * Rules for property access *)

Section access.
Context `{!gen_heapGS loc cell Σ}.
Implicit Types (l : loc) (c : cell) (h : heap) (t : json) (v : value).

Lemma wps_throw_False {A} (e : exn) (Φ : A -> iProp Σ) :
  False -∗ wps (throw e) Φ.
Proof. iIntros "[]". Qed.

Lemma wps_get_prop l ps k (Φ : value -> iProp Σ) :
  l ↦ CObj ps -∗ (l ↦ CObj ps -∗ Φ (default VUndef (alookup k ps))) -∗
  wps (get_prop (VRef l) k) Φ.
Proof.
  iIntros "Hl HΦ". unfold get_prop. iApply wps_bind.
  iApply (wps_load with "Hl"). iIntros "Hl". iApply wps_ret.
  by iApply "HΦ".
Qed.

Lemma wps_set_prop l ps k x (Φ : unit -> iProp Σ) :
  l ↦ CObj ps -∗ (l ↦ CObj (aset k x ps) -∗ Φ tt) -∗
  wps (set_prop (VRef l) k x) Φ.
Proof.
  iIntros "Hl HΦ". unfold set_prop. iApply wps_bind.
  iApply (wps_load with "Hl"). iIntros "Hl".
  iApply (wps_store with "Hl"). iIntros "Hl". by iApply "HΦ".
Qed.

Lemma wps_get_index_prop l vs k (Φ : value -> iProp Σ) :
  l ↦ CArr vs -∗ (l ↦ CArr vs -∗ Φ (array_prop vs k)) -∗
  wps (get_prop (VRef l) k) Φ.
Proof.
  iIntros "Hl HΦ". unfold get_prop. iApply wps_bind.
  iApply (wps_load with "Hl"). iIntros "Hl". iApply wps_ret. by iApply "HΦ".
Qed.

Lemma wps_get_index l vs i (Φ : value -> iProp Σ) :
  l ↦ CArr vs -∗ (l ↦ CArr vs -∗ Φ (default VUndef (vs !! i))) -∗
  wps (get_index (VRef l) i) Φ.
Proof.
  iIntros "Hl HΦ". unfold get_index. iApply wps_bind.
  iApply (wps_load with "Hl"). iIntros "Hl". iApply wps_ret.
  by iApply "HΦ".
Qed.

Lemma wps_set_index l vs i x (Φ : unit -> iProp Σ) :
  l ↦ CArr vs -∗ (l ↦ CArr (list_set i x vs) -∗ Φ tt) -∗
  wps (set_index (VRef l) i x) Φ.
Proof.
  iIntros "Hl HΦ". unfold set_index. iApply wps_bind.
  iApply (wps_load with "Hl"). iIntros "Hl".
  iApply (wps_store with "Hl"). iIntros "Hl". by iApply "HΦ".
Qed.

Lemma wps_array_length l vs (Φ : nat -> iProp Σ) :
  l ↦ CArr vs -∗ (l ↦ CArr vs -∗ Φ (length vs)) -∗
  wps (array_length (VRef l)) Φ.
Proof.
  iIntros "Hl HΦ". unfold array_length. iApply wps_bind.
  iApply (wps_load with "Hl"). iIntros "Hl". iApply wps_ret.
  by iApply "HΦ".
Qed.

Lemma wps_splice l vs n (Φ : value -> iProp Σ) :
  l ↦ CArr vs -∗
  (∀ l', l ↦ CArr (drop n vs) -∗ l' ↦ CArr (take n vs) -∗ Φ (VRef l')) -∗
  wps (splice (VRef l) n) Φ.
Proof.
  iIntros "Hl HΦ". unfold splice. iApply wps_bind.
  iApply (wps_load with "Hl"). iIntros "Hl". iApply wps_bind.
  iApply (wps_store with "Hl"). iIntros "Hl". iApply wps_bind.
  iApply wps_alloc. iIntros (l') "Hl'". iApply wps_ret.
  iApply ("HΦ" with "Hl Hl'").
Qed.

Lemma wps_object_entries l ps (Φ : list (string * value) -> iProp Σ) :
  l ↦ CObj ps -∗ (l ↦ CObj ps -∗ Φ ps) -∗ wps (object_entries (VRef l)) Φ.
Proof.
  iIntros "Hl HΦ". unfold object_entries. iApply wps_bind.
  iApply (wps_load with "Hl"). iIntros "Hl". iApply wps_ret.
  by iApply "HΦ".
Qed.

(** ** Loops *)

Lemma wps_mapM_ix {A B} (f : nat -> A -> M B)
  (I : nat -> list B -> iProp Σ) (l : list A) (i0 : nat) :
  (forall i x ys, l !! i = Some x -> length ys = i ->
     I i ys ⊢ wps (f (i0 + i) x) (fun y => I (S i) (ys ++ [y]))) ->
  I 0 [] ⊢ wps (mapM_ix f i0 l)
             (fun ys => ⌜length ys = length l⌝ ∗ I (length l) ys).
Proof.
  revert I i0. induction l as [|x l IH]; intros I i0 Hf.
  - iIntros "HI". iApply wps_ret. by iFrame.
  - iIntros "HI". cbn [mapM_ix]. iApply wps_bind.
    iPoseProof (Hf 0 x [] with "HI") as "Hx"; [done..|].
    rewrite Nat.add_0_r. iApply (wps_wand with "Hx").
    iIntros (y) "HI". iApply wps_bind.
    iPoseProof (IH (fun i ys => I (S i) (y :: ys)) (S i0) with "HI") as "Hl".
    { intros i x' ys Hi Hlen.
      replace (S i0 + i) with (i0 + S i) by lia.
      apply (Hf (S i) x' (y :: ys)); [done|]. cbn. by rewrite Hlen. }
    iApply (wps_wand with "Hl"). iIntros (ys) "[%Hlen HI]".
    iApply wps_ret. iFrame. iPureIntro. cbn. by rewrite Hlen.
Qed.

Lemma wps_iterM {A} (f : A -> M unit) (I : nat -> iProp Σ) (l : list A) :
  (forall i x, l !! i = Some x -> I i ⊢ wps (f x) (fun _ => I (S i))) ->
  I 0 ⊢ wps (iterM f l) (fun _ => I (length l)).
Proof.
  revert I. induction l as [|x l IH]; intros I Hf.
  - iIntros "HI". by iApply wps_ret.
  - iIntros "HI". cbn [iterM]. iApply wps_bind.
    iPoseProof (Hf 0 x with "HI") as "Hx"; [done|].
    iApply (wps_wand with "Hx"). iIntros (_) "HI".
    iApply (IH (fun i => I (S i)) with "HI").
    intros i x' Hi. by apply (Hf (S i)).
Qed.

(** ** Members of an owned object *)

Lemma are_fields_borrow fs : forall ps k t,
  alookup k fs = Some t ->
  are_fields fs ps -∗
  ∃ v, ⌜alookup k ps = Some v⌝ ∗ is_tree t v ∗
       (∀ t', is_tree t' v -∗ are_fields (aset k t' fs) ps).
Proof.
  unfold are_fields.
  induction fs as [|[k0 t0] fs IH]; intros ps k t Hk; [done|].
  iIntros "Hfs".
  iDestruct (big_sepL2_cons_inv_l with "Hfs")
    as ([k0' v0] ps' ->) "[[%Hk0 Ht0] Hfs]".
  cbn in Hk0. subst k0'. cbn in Hk |- *.
  destruct (String.eqb_spec k k0) as [->|Hne].
  - injection Hk as ->. iExists v0. iSplit; [done|]. iFrame "Ht0".
    iIntros (t') "Ht'". cbn. by iFrame.
  - iDestruct (IH _ _ _ Hk with "Hfs") as (v Hv) "[Ht Hclose]".
    iExists v. iSplit; [done|]. iFrame "Ht".
    iIntros (t') "Ht'". cbn. iFrame "Ht0". iSplit; [done|].
    by iApply "Hclose".
Qed.

Lemma are_fields_aset fs : forall ps k t v,
  are_fields fs ps -∗ is_tree t v -∗ are_fields (aset k t fs) (aset k v ps).
Proof.
  unfold are_fields.
  induction fs as [|[k0 t0] fs IH]; intros ps k t v; iIntros "Hfs Ht".
  - iDestruct (big_sepL2_nil_inv_l with "Hfs") as %->. cbn. by iFrame.
  - iDestruct (big_sepL2_cons_inv_l with "Hfs")
      as ([k0' v0] ps' ->) "[[%Hk0 Ht0] Hfs]".
    cbn in Hk0. subst k0'. cbn.
    destruct (String.eqb_spec k k0) as [->|Hne]; cbn.
    + by iFrame.
    + iFrame "Ht0". iSplit; [done|]. iApply (IH with "Hfs Ht").
Qed.

(** Reading a member of an owned object: the member, the cell, and the
    way back once the member holds a tree again. *)
Lemma is_tree_obj_borrow fs k t v :
  alookup k fs = Some t ->
  is_tree (JObj fs) v -∗
  ∃ l ps v', ⌜v = VRef l ∧ alookup k ps = Some v'⌝ ∗ l ↦ CObj ps ∗
    is_tree t v' ∗
    (∀ t', l ↦ CObj ps -∗ is_tree t' v' -∗ is_tree (JObj (aset k t' fs)) v).
Proof.
  intros Hk. rewrite is_tree_obj.
  iIntros "(%l & %ps & [-> %Hnd] & Hl & Hfs)".
  iDestruct (are_fields_borrow with "Hfs") as (v' Hv') "[Ht Hclose]"; [done|].
  iExists l, ps, v'. iSplit; [done|]. iFrame "Hl Ht".
  iIntros (t') "Hl Ht'". rewrite is_tree_obj. iExists l, ps.
  iFrame "Hl". iSplit.
  - iPureIntro. split; [done|]. rewrite aset_keys //. by rewrite Hk.
  - by iApply "Hclose".
Qed.

Lemma is_tree_arr_borrow ts i t v :
  ts !! i = Some t ->
  is_tree (JArr ts) v -∗
  ∃ l vs v', ⌜v = VRef l ∧ vs !! i = Some v'⌝ ∗ l ↦ CArr vs ∗
    is_tree t v' ∗
    (∀ t', l ↦ CArr vs -∗ is_tree t' v' -∗ is_tree (JArr (<[i := t']> ts)) v).
Proof.
  intros Hi. rewrite is_tree_arr.
  iIntros "(%l & %vs & -> & Hl & Hts)". unfold are_trees.
  iDestruct (big_sepL2_length with "Hts") as %Hlen.
  destruct (lookup_lt_is_Some_2 vs i) as [v' Hv'].
  { rewrite -Hlen. by eapply lookup_lt_Some. }
  iDestruct (big_sepL2_insert_acc _ _ _ i with "Hts") as "[Ht Hclose]";
    [done..|].
  iExists l, vs, v'. iSplit; [done|]. iFrame "Hl Ht".
  iIntros (t') "Hl Ht'". rewrite is_tree_arr. iExists l, vs.
  iFrame "Hl". iSplit; [done|].
  iSpecialize ("Hclose" $! t' v' with "Ht'").
  by rewrite (list_insert_id vs i v').
Qed.
End access.

(** * From the logic to runs of the handlers *)

Section old_cells.
Context `{!gen_heapGS loc cell Σ}.

Lemma old_cells_kept h h' :
  gen_heap_interp (heap_map h') -∗
  ([∗ map] l ↦ c ∈ heap_map h, l ↦ c) -∗ ⌜cells_kept h h'⌝.
Proof.
  iIntros "Hh Hold" (l c Hl).
  iDestruct (big_sepM_lookup _ _ l c with "Hold") as "Hl".
  { by rewrite heap_map_lookup. }
  iApply (cell_at_lookup with "Hh Hl").
Qed.
End old_cells.

(** A computation verified without any cell of the heap it starts in
    returns, satisfies its postcondition and leaves those cells alone. *)
Lemma wps_run {A} (m : M A) (h : heap) (φ : heap -> A -> Prop) :
  (forall (Hheap : gen_heapGS loc cell heapΣ),
     ⊢ wps m (fun a => ∀ h', gen_heap_interp (heap_map h') -∗ ⌜φ h' a⌝)%I) ->
  exists a h', m h = (h', Ok a) /\ φ h' a /\ cells_kept h h'.
Proof.
  intros Hwp.
  destruct (wps_adequacy m h (fun h' a => φ h' a /\ cells_kept h h'))
    as (a & Ha & Hφ & Hkept).
  { intros Hheap. iIntros "Hold".
    iPoseProof (Hwp Hheap) as "Hwp".
    iApply (wps_wand with "Hwp"). iIntros (a) "HΦ". iIntros (h') "Hh".
    iDestruct (old_cells_kept with "Hh Hold") as %Hkept.
    iDestruct ("HΦ" with "Hh") as %Hφ. done. }
  exists a, (m h).1. split; [|done]. destruct (m h) as [h' r]. cbn in *.
  by subst r.
Qed.

Lemma alloc_tree_run t h :
  wf_json t = true ->
  exists v h', alloc_tree t h = (h', Ok v) /\ json_of h' v = Some t
               /\ cells_kept h h'.
Proof.
  intros Hwf. apply (wps_run (alloc_tree t) h (fun h' v => json_of h' v = Some t)).
  intros Hheap. iApply wps_alloc_tree; [done|].
  iIntros (v) "Hv". iIntros (h') "Hh". iApply (is_tree_json_of with "Hh Hv").
Qed.

(** ** The snapshot of the designer's document *)

Lemma getTemplateJSONString_run st t :
  doc_json st t ->
  getTemplateJSONString st (app_heap st) = (app_heap st, Ok (stringify 2 t)).
Proof.
  intros Hdoc. unfold getTemplateJSONString, JSON_stringify.
  rewrite (json_of_lossy _ _ _ Hdoc). unfold doc_json in Hdoc.
  by destruct (designer_template st).
Qed.

Lemma snapshot_run {B} st t (k : value -> M B) :
  doc_json st t ->
  (text ← getTemplateJSONString st; templateJSON ← JSON_parse text;
   k templateJSON) (app_heap st)
  = (templateJSON ← alloc_tree t; k templateJSON) (app_heap st).
Proof.
  intros Hdoc. unfold mbind at 1, M_bind at 1.
  rewrite (getTemplateJSONString_run _ _ Hdoc). unfold JSON_parse.
  by rewrite parse_stringify; [|by eapply json_of_wf].
Qed.

Lemma stringify_nonempty gap t :
  wf_json t = true -> stringify gap t <> ""%string.
Proof.
  intros Hwf Hs. pose proof (parse_stringify gap t Hwf) as Hp.
  rewrite Hs in Hp. discriminate Hp.
Qed.

Lemma getTemplateJSON_run {B} st t (k : value -> M B) :
  doc_json st t ->
  (template ← getTemplateJSON st; k template) (app_heap st)
  = (template ← alloc_tree t; k template) (app_heap st).
Proof.
  intros Hdoc. unfold getTemplateJSON, mbind, M_bind.
  rewrite (getTemplateJSONString_run _ _ Hdoc). unfold JSON_parse.
  by rewrite parse_stringify; [|by eapply json_of_wf].
Qed.

Lemma dec_canon_of_parts neg m k e : dec_canon (dec_of_parts neg m k e) = true.
Proof. unfold dec_of_parts. case_match; apply dec_canon_norm. Qed.

Lemma parseFloat_canon s d : parseFloat s = Fin d -> dec_canon d = true.
Proof.
  unfold parseFloat. intros H. repeat case_match; try discriminate H;
    injection H as <-; apply dec_canon_of_parts.
Qed.

(** ** The padding inputs *)

Section padding.
Context `{!gen_heapGS loc cell Σ}.

Lemma wps_set_padding i d t t' v (Φ : value -> iProp Σ) :
  set_padding i d t = Some t' -> dec_canon d = true ->
  is_tree t v -∗ (is_tree t' v -∗ Φ v) -∗
  wps (basePdf ← get_prop v "basePdf";
       padding ← get_prop basePdf "padding";
       _ ← set_index padding i (VNum (Fin d));
       mret v) Φ.
Proof.
  intros Hset Hd. iIntros "Ht HΦ". unfold set_padding in Hset.
  destruct t as [| | | | |fs]; try done.
  destruct (alookup "basePdf" fs) as [[| | | | |bfs]|] eqn:Hb; try done.
  destruct (alookup "padding" bfs) as [[| | | |ps|]|] eqn:Hp; try done.
  destruct (Nat.ltb_spec i (length ps)) as [Hi|]; [|done].
  injection Hset as <-.
  iDestruct (is_tree_obj_borrow _ _ _ _ Hb with "Ht")
    as (l cs vb [-> Hvb]) "(Hl & Hbase & Hclose)".
  iApply wps_bind. iApply (wps_get_prop with "Hl"). iIntros "Hl".
  rewrite Hvb /=.
  iDestruct (is_tree_obj_borrow _ _ _ _ Hp with "Hbase")
    as (lb bcs vp [-> Hvp]) "(Hlb & Hpad & Hcloseb)".
  iApply wps_bind. iApply (wps_get_prop with "Hlb"). iIntros "Hlb".
  rewrite Hvp /=.
  iDestruct (is_tree_arr with "Hpad") as (lp pvs ->) "[Hlp Hps]".
  unfold are_trees.
  iDestruct (big_sepL2_length with "Hps") as %Hlen.
  iApply wps_bind. iApply (wps_set_index with "Hlp"). iIntros "Hlp".
  iApply wps_ret. iApply "HΦ". iApply ("Hclose" with "Hl").
  iApply ("Hcloseb" with "Hlb"). rewrite is_tree_arr.
  iExists lp, _. iFrame "Hlp". iSplit; [done|].
  unfold list_set. destruct (Nat.ltb_spec i (length pvs)) as [_|]; [|lia].
  destruct (lookup_lt_is_Some_2 ps i Hi) as [t0 Ht0].
  destruct (lookup_lt_is_Some_2 pvs i) as [v0 Hv0]; [lia|].
  iDestruct (big_sepL2_insert_acc _ _ _ i with "Hps") as "[_ Hins]"; [done..|].
  iApply ("Hins" $! (JNum d) (VNum (Fin d))). done.
Qed.
End padding.

Lemma padding_change_run i input_value d st t t' :
  doc_json st t -> parseFloat input_value = Fin d ->
  set_padding i d t = Some t' ->
  exists st',
    padding_change i input_value st = (st', Ok tt)
    /\ doc_json st' t'
    /\ cells_kept (app_heap st) (app_heap st')
    /\ localStorage st' = localStorage st
    /\ console st' = console st.
Proof.
  intros Hdoc Hpf Hset. pose proof (parseFloat_canon _ _ Hpf) as Hd.
  unfold padding_change, run. rewrite (getTemplateJSON_run st t _ Hdoc) Hpf.
  match goal with |- context [mbind ?k (alloc_tree t) (app_heap st)] =>
    destruct (wps_run (mbind k (alloc_tree t)) (app_heap st)
      (fun h' v => json_of h' v = Some t')) as (v & h' & Hrun & Hv & Hkept)
  end.
  { intros Hheap. iApply wps_bind. iApply wps_alloc_tree.
    { by eapply json_of_wf. }
    iIntros (v) "Hv". iApply (wps_set_padding with "Hv"); [done..|].
    iIntros "Hv". iIntros (h') "Hh". iApply (is_tree_json_of with "Hh Hv"). }
  rewrite Hrun. eexists. split; [done|]. by destruct st.
Qed.

(** * Fields of a page: lookups after moves *)

Lemma movable_inv t :
  movable t = true ->
  exists fs pfs, t = JObj fs /\ alookup "position" fs = Some (JObj pfs).
Proof.
  destruct t as [| | | | |fs]; try done. cbn.
  destruct (alookup "position" fs) as [[| | | | |pfs]|] eqn:Hp; try done.
  by exists fs, pfs.
Qed.

Lemma field_movable k fs :
  movable (field k fs) = true ->
  exists t, alookup k fs = Some t /\ movable t = true.
Proof.
  unfold field. destruct (alookup k fs) as [t|]; [|done]. by exists t.
Qed.

Lemma aset_same {A} k (x : A) l : alookup k l = Some x -> aset k x l = l.
Proof.
  induction l as [|[k' y] l IH]; [done|]. cbn.
  destruct (String.eqb k k'); [by intros [= ->]|]. intros H. by rewrite IH.
Qed.

Lemma movable_moved y t : movable t = true -> movable (moved y t) = true.
Proof.
  intros (fs & pfs & -> & Hp)%movable_inv. cbn. rewrite Hp. cbn.
  by rewrite alookup_aset_eq.
Qed.

Lemma moved_moved y y' t : moved y' (moved y t) = moved y' t.
Proof.
  destruct t as [| | | | |fs]; try done. cbn.
  destruct (alookup "position" fs) as [[| | | | |pfs]|] eqn:Hp;
    cbn; rewrite ?Hp; try done.
  by rewrite alookup_aset_eq !aset_aset.
Qed.

Lemma content_value_moved y t : content_value (moved y t) = content_value t.
Proof.
  destruct t as [| | | | |fs]; try done. cbn.
  destruct (alookup "position" fs) as [[| | | | |pfs]|] eqn:Hp; try done.
  cbn. by rewrite alookup_aset_ne.
Qed.

Lemma is_text_moved y t : is_text (moved y t) = is_text t.
Proof.
  destruct t as [| | | | |fs]; try done. cbn.
  destruct (alookup "position" fs) as [[| | | | |pfs]|] eqn:Hp; try done.
  cbn. by rewrite alookup_aset_ne.
Qed.

Lemma is_text_set_content s t : is_text (set_content s t) = is_text t.
Proof. destruct t; try done. cbn. by rewrite alookup_aset_ne. Qed.

Lemma alookup_aupd_eq {A} k (f : A -> A) l :
  alookup k (aupd k f l) = f <$> alookup k l.
Proof.
  unfold aupd. destruct (alookup k l) as [x|] eqn:Hk; cbn; [|done].
  apply alookup_aset_eq.
Qed.

Lemma alookup_aupd_ne {A} k k' (f : A -> A) l :
  k <> k' -> alookup k' (aupd k f l) = alookup k' l.
Proof.
  intros Hne. unfold aupd. destruct (alookup k l); [|done].
  by apply alookup_aset_ne.
Qed.

Lemma field_aupd_eq k f fs :
  f JNull = JNull -> field k (aupd k f fs) = f (field k fs).
Proof.
  intros Hf. unfold field. rewrite alookup_aupd_eq.
  by destruct (alookup k fs).
Qed.

Lemma field_aupd_ne k k' f fs : k <> k' -> field k' (aupd k f fs) = field k' fs.
Proof. intros Hne. unfold field. by rewrite alookup_aupd_ne. Qed.

Lemma aupd_keys {A} k (f : A -> A) l : map fst (aupd k f l) = map fst l.
Proof.
  unfold aupd. destruct (alookup k l) eqn:Hk; [|done].
  apply aset_keys. by rewrite Hk.
Qed.

Lemma move_all_keys keys ys fs : map fst (move_all keys ys fs) = map fst fs.
Proof.
  unfold move_all. revert fs.
  induction (zip keys ys) as [|[k y] l IH]; intros fs; [done|]. cbn.
  by rewrite IH aupd_keys.
Qed.

(** A field outside [keys] is not affected by moving [keys]. *)
Lemma alookup_move_all_ne keys ys k fs :
  k ∉ keys -> alookup k (move_all keys ys fs) = alookup k fs.
Proof.
  unfold move_all. revert ys fs.
  induction keys as [|k' keys IH]; intros [|y ys] fs Hk; try done.
  apply not_elem_of_cons in Hk as [Hne Hk].
  cbn [zip zip_with foldl fst snd]. rewrite IH; [|done].
  by apply alookup_aupd_ne.
Qed.

Lemma field_move_all_ne keys ys k fs :
  k ∉ keys -> field k (move_all keys ys fs) = field k fs.
Proof. intros Hk. unfold field. by rewrite alookup_move_all_ne. Qed.

Lemma movable_aupd k k' y fs :
  movable (field k fs) = true ->
  movable (field k (aupd k' (moved y) fs)) = true.
Proof.
  intros Hk. destruct (decide (k' = k)) as [->|Hne].
  - rewrite field_aupd_eq; [|done]. by apply movable_moved.
  - by rewrite field_aupd_ne.
Qed.

Lemma dec_canon_add a b : dec_canon (dec_add a b) = true.
Proof. apply dec_canon_norm. Qed.

Lemma hr_keys_lookup i :
  i < 115 - 28 ->
  hr_keys !! i = Some ("field" +:+ nat_to_string (28 + i))%string.
Proof.
  intros Hi. unfold hr_keys. change (map ?f ?l) with (f <$> l).
  by rewrite list_lookup_fmap lookup_seq_lt.
Qed.

Lemma table_tree_S rows : table_tree (S rows) = table_tree rows ++ [row_tree rows].
Proof. unfold table_tree. by rewrite seq_S map_app. Qed.

Lemma table_tree_length rows : length (table_tree rows) = rows.
Proof. unfold table_tree. by rewrite length_map length_seq. Qed.

(** Moving keeps every field movable. *)
Lemma movable_move_all keys ys k fs :
  movable (field k fs) = true -> movable (field k (move_all keys ys fs)) = true.
Proof.
  unfold move_all. revert fs.
  induction (zip keys ys) as [|[k' y] l IH]; intros fs Hk; [done|]. cbn.
  apply IH. by apply movable_aupd.
Qed.

(** A property of the members that every update keeps. *)
Lemma Forall_aset {A} (P : string * A -> Prop) k x l :
  (forall k', P (k', x)) -> Forall P l -> Forall P (aset k x l).
Proof.
  intros Hx. induction 1 as [|[k' y] r Hy Hr IH]; cbn.
  - by constructor.
  - destruct (String.eqb k k'); constructor; auto.
Qed.

Lemma alookup_Forall {A} (P : string * A -> Prop) k x l :
  Forall P l -> alookup k l = Some x -> exists k', P (k', x).
Proof.
  induction 1 as [|[k' y] r Hy Hr IH]; [done|]. cbn.
  destruct (String.eqb k k'); [intros [= <-]; eauto|done].
Qed.

Lemma Forall_aupd (P : json -> Prop) k f (fs : list (string * json)) :
  (forall t, P t -> P (f t)) ->
  Forall (fun kt => P (snd kt)) fs ->
  Forall (fun kt => P (snd kt)) (aupd k f fs).
Proof.
  intros Hf Hfs. unfold aupd. destruct (alookup k fs) as [t|] eqn:Hk; [|done].
  apply Forall_aset; [|done]. intros k0. cbn. apply Hf.
  by destruct (alookup_Forall _ _ _ _ Hfs Hk) as [k' Ht].
Qed.

Lemma Forall_move_all (P : json -> Prop) keys ys fs :
  (forall y t, P t -> P (moved y t)) ->
  Forall (fun kt => P (snd kt)) fs ->
  Forall (fun kt => P (snd kt)) (move_all keys ys fs).
Proof.
  intros Hf. unfold move_all. revert fs.
  induction (zip keys ys) as [|[k y] l IH]; intros fs Hfs; [done|]. cbn.
  apply IH. apply Forall_aupd; [apply Hf|done].
Qed.

Lemma awrites_app {A} (l : list (string * A)) ws ws' :
  awrites l (ws ++ ws') = awrites (awrites l ws) ws'.
Proof. apply foldl_app. Qed.

Lemma awrites_NoDup {A} (l : list (string * A)) ws :
  NoDup (map fst l) -> NoDup (map fst (awrites l ws)).
Proof.
  revert l. induction ws as [|w ws IH]; intros l Hl; [done|]. cbn.
  apply IH. by apply aset_NoDup.
Qed.

Lemma text_writes_snoc ins fs k t :
  text_writes ins (fs ++ [(k, t)])
  = if is_text t then aset k (content_val t) (text_writes ins fs)
    else text_writes ins fs.
Proof. unfold text_writes. by rewrite foldl_app. Qed.

(** Writing past the end of an array whose first [S j] elements are
    settled. *)
Lemma list_set_next x v (a r : list value) :
  list_set (S (length a)) x (v :: a ++ drop (length a) r)
  = v :: (a ++ [x]) ++ drop (S (length a)) r.
Proof.
  unfold list_set. cbn [length]. rewrite length_app length_drop.
  destruct (Nat.ltb_spec (S (length a)) (S (length a + (length r - length a))))
    as [Hlt|Hge].
  - cbn. f_equal. rewrite insert_app_r_alt; [|lia]. rewrite Nat.sub_diag.
    rewrite -assoc. f_equal.
    destruct (drop (length a) r) as [|y r'] eqn:Hd.
    { apply (f_equal length) in Hd. rewrite length_drop in Hd. cbn in Hd. lia. }
    cbn. f_equal.
    change (S (length a)) with (1 + length a). rewrite Nat.add_comm.
    by rewrite -drop_drop Hd.
  - rewrite !drop_ge; [|lia..]. rewrite !app_nil_r.
    replace (S (length a) - S (length a + (length r - length a))) with 0 by lia.
    done.
Qed.

(** ** What [page_ok] provides *)

Lemma text_ready_moved y t : text_ready t -> text_ready (moved y t).
Proof.
  intros [Hn Hc]. split.
  - destruct t as [| | | | |fs]; try done. cbn.
    by destruct (alookup "position" fs) as [[| | | | |?]|].
  - by rewrite is_text_moved content_value_moved.
Qed.

Lemma text_ready_set_content s t : text_ready t -> text_ready (set_content s t).
Proof.
  intros [Hn Hc]. split; [by destruct t|].
  rewrite is_text_set_content. destruct t as [| | | | |fs]; try done.
  intros _. cbn. by rewrite alookup_aset_eq.
Qed.

Lemma page_ok_inv fs :
  page_ok fs = true ->
  Forall (fun k => movable (field k fs) = true)
         (header_keys ++ footer_keys ++ hr_keys)
  /\ is_Some (content_value (field "period" fs))
  /\ is_Some (content_value (field "table_period" fs))
  /\ Forall (fun kt => text_ready (snd kt)) fs.
Proof.
  unfold page_ok. intros H.
  apply andb_true_iff in H as [H Htext].
  apply andb_true_iff in H as [H Htp%bool_decide_eq_true].
  apply andb_true_iff in H as [Hmov Hp%bool_decide_eq_true].
  rewrite forallb_forall in Hmov. rewrite forallb_forall in Htext.
  split; [|split; [done|split; [done|]]].
  - apply Forall_forall. intros k Hk. apply Hmov. by apply list_elem_of_In.
  - apply Forall_forall. intros [k t] Hkt%list_elem_of_In.
    specialize (Htext _ Hkt). cbn [snd] in *.
    split; [intros ->; discriminate Htext|]. intros Ht.
    assert (Hb : bool_decide (is_Some (content_value t)) = true).
    { destruct t; try done; by rewrite Ht in Htext. }
    by apply bool_decide_eq_true in Hb.
Qed.

Lemma page_ready_moved fs :
  page_ok fs = true -> page_ready (page1_moved fs).
Proof.
  intros (Hmov & Hp & Htp & _)%page_ok_inv. unfold page_ready, page1_moved.
  split; [|split].
  - eapply Forall_impl; [exact Hmov|]. intros k. apply movable_move_all.
  - rewrite field_move_all_ne; [done|]. unfold footer_keys.
    rewrite !not_elem_of_cons. repeat split; try done. apply not_elem_of_nil.
  - rewrite field_move_all_ne; [done|]. unfold footer_keys.
    rewrite !not_elem_of_cons. repeat split; try done. apply not_elem_of_nil.
Qed.

Lemma text_ready_paginated rows fs :
  page_ok fs = true ->
  Forall (fun kt => text_ready (snd kt)) (page1_paginated rows fs).
Proof.
  intros (_ & _ & _ & Htext)%page_ok_inv. unfold page1_paginated, page1_moved.
  apply (Forall_aupd text_ready); [apply text_ready_set_content|].
  apply (Forall_move_all text_ready); [apply text_ready_moved|done].
Qed.

Lemma page1_paginated_keys rows fs :
  map fst (page1_paginated rows fs) = map fst fs.
Proof.
  unfold page1_paginated, page1_moved. by rewrite aupd_keys move_all_keys.
Qed.

Lemma wf_json_members fs :
  wf_json (JObj fs) = true ->
  NoDup (map fst fs) /\ Forall (fun p => wf_json (snd p) = true) fs.
Proof.
  cbn. intros [Hnd Hfs]%andb_prop.
  split; [by apply bool_decide_eq_true in Hnd|].
  rewrite forallb_forall in Hfs. apply Forall_forall.
  intros p Hp%list_elem_of_In. by apply Hfs.
Qed.

Lemma first_page_NoDup t sfs :
  wf_json t = true -> first_page t = Some sfs -> NoDup (map fst sfs).
Proof.
  intros Hwf Hfirst. unfold first_page in Hfirst.
  destruct t as [| | | | |tfs]; try done.
  destruct (alookup "schemas" tfs)
    as [[| | | |[|[| | | | |sfs'] others]|]|] eqn:Hsch; try done.
  injection Hfirst as ->.
  apply wf_json_members in Hwf as [_ Hwf].
  destruct (alookup_Forall _ _ _ _ Hwf Hsch) as [k Hpages]. cbn in Hpages.
  apply andb_prop in Hpages as [Hpage _].
  by apply wf_json_members in Hpage as [Hnd _].
Qed.

(** ** The expanded document *)

Lemma schemas_of_first_page t sfs others :
  schemas_of t = Some (JObj sfs :: others) -> first_page t = Some sfs.
Proof.
  unfold schemas_of, first_page. destruct t as [| | | | |tfs]; try done.
  destruct (alookup "schemas" tfs) as [[| | | |pages|]|]; try done.
  by intros [= ->].
Qed.

Lemma schemas_of_paginated rows t pages :
  schemas_of t = Some pages ->
  schemas_of (paginated_template rows t) = Some (paginated_schemas rows pages).
Proof.
  unfold schemas_of, paginated_template.
  destruct t as [| | | | |tfs]; try done.
  destruct (alookup "schemas" tfs) as [[| | | |pages'|]|] eqn:Hs; try done.
  intros [= ->]. by rewrite alookup_aset_eq.
Qed.

(** The members of the template other than [schemas] stay. *)
Lemma paginated_template_frame rows t k :
  k <> "schemas"%string ->
  match t, paginated_template rows t with
  | JObj tfs, JObj tfs' => alookup k tfs' = alookup k tfs
  | _, _ => True
  end.
Proof.
  intros Hk. unfold paginated_template. destruct t as [| | | | |tfs]; try done.
  destruct (alookup "schemas" tfs) as [[| | | |pages'|]|] eqn:Hs; try done.
  by rewrite alookup_aset_ne.
Qed.

Ltac field_step :=
  first [ rewrite field_aupd_eq; [|done] | rewrite field_aupd_ne; [|done] ].

(** The footers of the first page after their move. *)
Lemma footers_page1_moved sfs :
  map (fun k => field k (page1_moved sfs)) footer_keys
  = zip_with moved (footer_ys page1_y) (map (fun k => field k sfs) footer_keys).
Proof.
  unfold page1_moved, move_all.
  cbn [map zip zip_with footer_keys footer_ys foldl fst snd].
  by repeat field_step.
Qed.

Lemma field_page1_moved_other sfs k :
  k ∉ footer_keys -> field k (page1_moved sfs) = field k sfs.
Proof. apply field_move_all_ne. Qed.

Lemma not_footer_key k :
  forallb (fun k' => negb (String.eqb k k')) footer_keys = true ->
  k ∉ footer_keys.
Proof.
  intros H Hin. rewrite forallb_forall in H.
  apply list_elem_of_In, H in Hin. by rewrite String.eqb_refl in Hin.
Qed.

(** An additional page in terms of the first page as it was. *)
Lemma page_entries_original n sfs :
  page_entries n (page1_moved sfs) = page_entries n sfs.
Proof.
  unfold page_entries. f_equal; [|f_equal].
  - f_equal. f_equal. apply map_ext_in. intros k Hk.
    apply field_page1_moved_other, not_footer_key.
    revert k Hk. apply forallb_forall. vm_compute; reflexivity.
  - f_equal. rewrite footers_page1_moved.
    cbn [map footer_keys footer_ys zip_with]. by rewrite !moved_moved.
  - f_equal. apply map_ext_in. intros k Hk. f_equal.
    apply field_page1_moved_other, not_footer_key.
    revert k Hk. apply forallb_forall. vm_compute; reflexivity.
Qed.

Lemma extra_page_original n sfs :
  extra_page n (page1_moved sfs) = extra_page n sfs.
Proof. unfold extra_page. by rewrite page_entries_original. Qed.

(** For the pages that 35 rows give, the keys of a page are distinct:
    the page has exactly the members written. *)
Lemma extra_page_members pageI fs :
  1 <= pageI <= 5 -> extra_page (pageI + 1) fs = JObj (page_entries (pageI + 1) fs).
Proof.
  intros H.
  assert (pageI = 1 \/ pageI = 2 \/ pageI = 3 \/ pageI = 4 \/ pageI = 5)
    as [->|[->|[->|[->| ->]]]] by lia; vm_compute; reflexivity.
Qed.

(** ** The value map of 35 rows *)

Lemma page1_content_moved k sfs :
  k ∉ footer_keys ->
  content_val (field k (page1_moved sfs)) = content_val (field k sfs).
Proof. intros Hk. by rewrite field_page1_moved_other. Qed.

Lemma inputs_35_table sfs :
  alookup "table" (paginated_inputs 35 sfs)
  = Some (chunk_text (take PAGE_1_TABLE_ROWS_MAX (table_tree 35))).
Proof. vm_compute; reflexivity. Qed.

Lemma inputs_35_pages sfs :
  alookup "pages" (paginated_inputs 35 sfs) = Some (VStr "Page 1 of 6").
Proof. vm_compute; reflexivity. Qed.

Lemma inputs_35_page sfs pageI :
  1 <= pageI <= 5 ->
  alookup (page_key (pageI + 1) "header_el" 11) (paginated_inputs 35 sfs)
  = Some (chunk_text
            (take PAGE_2_TABLE_ROWS_MAX
               (drop (PAGE_2_TABLE_ROWS_MAX * (pageI - 1))
                  (drop PAGE_1_TABLE_ROWS_MAX (table_tree 35)))))
  /\ alookup (page_key (pageI + 1) "header_el" 7) (paginated_inputs 35 sfs)
     = Some (content_val (field "period" (page1_moved sfs)))
  /\ alookup (page_key (pageI + 1) "header_el" 10) (paginated_inputs 35 sfs)
     = Some (content_val (field "table_period" (page1_moved sfs)))
  /\ alookup (page_key (pageI + 1) "footer_el" 4) (paginated_inputs 35 sfs)
     = Some (VStr (page_label (pageI + 1) 6)).
Proof.
  intros H.
  assert (pageI = 1 \/ pageI = 2 \/ pageI = 3 \/ pageI = 4 \/ pageI = 5)
    as [->|[->|[->|[->| ->]]]] by lia; vm_compute; repeat split.
Qed.

(** ** What a move and a new content leave alone *)

Lemma member_moved_ne y e k :
  k <> "position"%string -> member k (moved y e) = member k e.
Proof.
  intros Hk. destruct e as [| | | | |fs]; try done. cbn.
  destruct (alookup "position" fs) as [[| | | | |pfs]|] eqn:Hp; try done.
  cbn. by rewrite alookup_aset_ne.
Qed.

Lemma member_moved_position y e k :
  k <> "y"%string ->
  member "position" (moved y e) ≫= member k
  = member "position" e ≫= member k.
Proof.
  intros Hk. destruct e as [| | | | |fs]; try done. cbn.
  destruct (alookup "position" fs) as [[| | | | |pfs]|] eqn:Hp;
    cbn; rewrite ?Hp; try done.
  rewrite alookup_aset_eq. cbn. by rewrite alookup_aset_ne.
Qed.

Lemma member_moved_y y e :
  movable e = true ->
  member "position" (moved y e) ≫= member "y" = Some (JNum y).
Proof.
  intros (fs & pfs & -> & Hp)%movable_inv. cbn. rewrite Hp. cbn.
  rewrite alookup_aset_eq. cbn. by rewrite alookup_aset_eq.
Qed.

Lemma member_set_content_ne s e k :
  k <> "content"%string -> member k (set_content s e) = member k e.
Proof.
  intros Hk. destruct e as [| | | | |fs]; try done. cbn.
  by rewrite alookup_aset_ne.
Qed.

Lemma member_set_content s e :
  movable e = true -> member "content" (set_content s e) = Some (JStr s).
Proof.
  intros (fs & pfs & -> & Hp)%movable_inv. cbn. by rewrite alookup_aset_eq.
Qed.

(** ** The loop over the text fields, read by key *)

Lemma text_writes_cons ins k t fs :
  text_writes ins ((k, t) :: fs)
  = text_writes (if is_text t then aset k (content_val t) ins else ins) fs.
Proof. done. Qed.

Lemma alookup_text_writes_None k fs : forall ins,
  alookup k fs = None -> alookup k (text_writes ins fs) = alookup k ins.
Proof.
  induction fs as [|[k' t] fs IH]; intros ins Hk; [done|].
  cbn in Hk. destruct (String.eqb_spec k k') as [->|Hne]; [done|].
  rewrite text_writes_cons IH; [|done].
  destruct (is_text t); [|done]. by rewrite alookup_aset_ne.
Qed.

(** A text field gives its content, whatever the key held before; any
    other key keeps what it held. *)
Lemma alookup_text_writes k fs : forall ins,
  NoDup (map fst fs) ->
  alookup k (text_writes ins fs)
  = match alookup k fs with
    | Some t => if is_text t then Some (content_val t) else alookup k ins
    | None => alookup k ins
    end.
Proof.
  induction fs as [|[k' t] fs IH]; intros ins Hnd; [done|].
  apply NoDup_cons in Hnd as [Hk' Hnd]. rewrite text_writes_cons. cbn.
  destruct (String.eqb_spec k k') as [->|Hne].
  - rewrite alookup_text_writes_None; [|by apply alookup_None_keys].
    destruct (is_text t); [|done]. by rewrite alookup_aset_eq.
  - rewrite IH; [|done]. destruct (alookup k fs) as [t'|];
      destruct (is_text t); try done; by rewrite alookup_aset_ne.
Qed.


Lemma footers_moved y sfs :
  map (fun k => field k (move_all footer_keys (footer_ys y) sfs)) footer_keys
  = zip_with moved (footer_ys y) (map (fun k => field k sfs) footer_keys).
Proof.
  unfold move_all.
  cbn [map zip zip_with footer_keys footer_ys foldl fst snd].
  by repeat field_step.
Qed.

Lemma move_all_text_ready keys ys fs :
  Forall (fun kt => text_ready (snd kt)) fs ->
  Forall (fun kt => text_ready (snd kt)) (move_all keys ys fs).
Proof. apply (Forall_move_all text_ready), text_ready_moved. Qed.


Lemma alookup_moved_pages y sfs :
  movable (field "pages" sfs) = true ->
  alookup "pages" (move_all footer_keys (footer_ys y) sfs)
  = Some (moved (plus y 25) (field "pages" sfs)).
Proof.
  intros Hmov. pose proof (footers_moved y sfs) as H.
  cbn [map zip_with footer_keys footer_ys] in H. injection H as _ _ _ H.
  pose proof (movable_moved (plus y 25) _ Hmov) as Hm.
  rewrite -H in Hm. apply field_movable in Hm as (t & Ht & _).
  rewrite Ht. f_equal. rewrite -H. unfold field.
  fold footer_keys. change (footer_ys y)
    with [y; plus y 16; plus y 14; plus y 25] in Ht.
  by rewrite Ht.
Qed.


Lemma content_val_set_content s e :
  movable e = true -> content_val (set_content s e) = VStr s.
Proof.
  intros (fs & pfs & -> & _)%movable_inv. unfold content_val. cbn.
  by rewrite alookup_aset_eq.
Qed.

(** ** The value map of 35 rows after the loop over the text fields *)

Lemma final_35_pages sfs :
  NoDup (map fst sfs) -> movable (field "pages" sfs) = true ->
  alookup "pages"
    (text_writes (paginated_inputs 35 sfs) (page1_paginated 35 sfs))
  = Some (VStr "Page 1 of 6").
Proof.
  intros Hnd Hmov.
  rewrite alookup_text_writes; [|by rewrite page1_paginated_keys].
  unfold page1_paginated at 1. rewrite alookup_aupd_eq.
  unfold page1_moved. rewrite alookup_moved_pages; [|done]. cbn [fmap option_fmap option_map].
  rewrite is_text_set_content content_val_set_content;
    [|by apply movable_moved].
  destruct (is_text _); [done|apply inputs_35_pages].
Qed.

(** A key that is not a member of the first page holds after the loop
    what the pagination gave it. *)
Lemma final_35_other sfs k :
  alookup k sfs = None ->
  alookup k (text_writes (paginated_inputs 35 sfs) (page1_paginated 35 sfs))
  = alookup k (paginated_inputs 35 sfs).
Proof.
  intros Hk. apply alookup_text_writes_None.
  apply alookup_None_keys. rewrite page1_paginated_keys.
  by apply alookup_None_keys.
Qed.

(** * Confinement: the handlers write to new cells only *)

Section confinement.
Variable h0 : heap.

Lemma extends_refl : extends h0 h0.
Proof. exists []. by rewrite app_nil_r. Qed.

Lemma extends_kept h : extends h0 h -> cells_kept h0 h.
Proof. intros (ext & -> & _) l c Hl. by apply lookup_app_l_Some. Qed.

Lemma new_value_default (o : option value) :
  (forall v, o = Some v -> new_value h0 v) -> new_value h0 (default VUndef o).
Proof. destruct o; cbn; [auto|done]. Qed.

Lemma new_value_alookup k ps :
  Forall (fun p => new_value h0 (snd p)) ps ->
  new_value h0 (default VUndef (alookup k ps)).
Proof.
  intros Hps. apply new_value_default. intros v Hv.
  induction Hps as [|[k' x] ps Hx _ IH]; [done|]. cbn in Hv.
  destruct (String.eqb k k'); [by injection Hv as <-|auto].
Qed.

Lemma new_value_lookup i vs :
  Forall (new_value h0) vs -> new_value h0 (default VUndef (vs !! i)).
Proof.
  intros Hvs. apply new_value_default. intros v Hv.
  by eapply Forall_lookup_1.
Qed.

Lemma new_value_el_at vs i :
  Forall (new_value h0) vs -> new_value h0 (el_at vs i).
Proof.
  intros Hvs. unfold el_at. revert i.
  induction Hvs as [|v vs Hv _ IH]; intros [|i]; cbn; auto.
Qed.

Lemma new_cell_aset k x ps :
  new_value h0 x -> Forall (fun p => new_value h0 (snd p)) ps ->
  Forall (fun p => new_value h0 (snd p)) (aset k x ps).
Proof.
  intros Hx Hps. induction Hps as [|[k' y] ps Hy Hps IH]; cbn.
  - by constructor.
  - destruct (String.eqb k k'); constructor; auto.
Qed.

Lemma new_cell_list_set i x vs :
  new_value h0 x -> Forall (new_value h0) vs ->
  Forall (new_value h0) (list_set i x vs).
Proof.
  intros Hx Hvs. unfold list_set. case_match.
  - by apply Forall_insert.
  - apply Forall_app. split; [done|]. apply Forall_app. split.
    + by apply Forall_replicate.
    + by constructor.
Qed.

(** ** Rules *)

Lemma confined_ret {A} (a : A) (P : A -> Prop) : P a -> confined h0 (mret a) P.
Proof. intros Ha h Hh. split; [done|]. by intros a' [= <-]. Qed.

Lemma confined_throw {A} (e : exn) (P : A -> Prop) : confined h0 (throw e) P.
Proof. intros h Hh. split; [done|]. by intros a' [=]. Qed.

Lemma confined_bind {A B} (m : M A) (f : A -> M B) (Q : A -> Prop)
  (P : B -> Prop) :
  confined h0 m Q -> (forall a, Q a -> confined h0 (f a) P) ->
  confined h0 (m ≫= f) P.
Proof.
  intros Hm Hf h Hh. destruct (Hm h Hh) as [Hh' HQ].
  unfold mbind, M_bind. destruct (m h) as [h' [a|e]]; cbn in *.
  - by apply Hf; [apply HQ|].
  - split; [done|]. by intros a' [=].
Qed.

Lemma confined_mono {A} (m : M A) (P Q : A -> Prop) :
  confined h0 m P -> (forall a, P a -> Q a) -> confined h0 m Q.
Proof. intros Hm HPQ h Hh. destruct (Hm h Hh) as [? HP]. split; auto. Qed.

Lemma confined_load l : length h0 <= l -> confined h0 (load l) (new_cell h0).
Proof.
  intros Hl h (ext & -> & Hext). unfold load. cbn beta.
  case_match eqn:Hc; cbn.
  - split; [by exists ext|]. intros a [= <-].
    rewrite lookup_app_r // in Hc. by eapply Forall_lookup_1.
  - split; [by exists ext|]. by intros a [=].
Qed.

Lemma confined_store l c :
  length h0 <= l -> new_cell h0 c -> confined h0 (store l c) (fun _ => True).
Proof.
  intros Hl Hc h (ext & -> & Hext). unfold store. cbn. split; [|done].
  exists (<[l - length h0 := c]> ext). split.
  - by rewrite insert_app_r_alt.
  - by apply Forall_insert.
Qed.

Lemma confined_alloc c :
  new_cell h0 c -> confined h0 (alloc c) (fun l => length h0 <= l).
Proof.
  intros Hc h (ext & -> & Hext). unfold alloc. cbn. split.
  - exists (ext ++ [c]). split; [by rewrite app_assoc|].
    apply Forall_app. split; [done|]. by constructor.
  - intros a [= <-]. rewrite length_app. lia.
Qed.

Lemma confined_stringify gap v :
  confined h0 (JSON_stringify gap v) (fun _ => True).
Proof.
  intros h Hh. unfold JSON_stringify. cbn beta.
  destruct v; try (cbn; split; [done|done]);
    destruct (to_json _ _ _ _); cbn; split; done.
Qed.

Lemma confined_mapM_ix {A B} (f : nat -> A -> M B) (P : B -> Prop) l : forall i,
  (forall i x, x ∈ l -> confined h0 (f i x) P) ->
  confined h0 (mapM_ix f i l) (Forall P).
Proof.
  induction l as [|x l IH]; intros i Hf; cbn [mapM_ix].
  - by apply confined_ret.
  - eapply confined_bind; [apply Hf; left|]. intros y Hy.
    eapply confined_bind; [apply IH; intros; apply Hf; by right|].
    intros ys Hys. apply confined_ret. by constructor.
Qed.

Lemma confined_iterM {A} (f : A -> M unit) l :
  (forall x, x ∈ l -> confined h0 (f x) (fun _ => True)) ->
  confined h0 (iterM f l) (fun _ => True).
Proof.
  induction l as [|x l IH]; intros Hf; cbn [iterM].
  - by apply confined_ret.
  - eapply confined_bind; [apply Hf; left|]. intros _ _.
    apply IH. intros. apply Hf. by right.
Qed.

Lemma confined_alloc_tree t : confined h0 (alloc_tree t) (new_value h0).
Proof.
  induction t as [| b | d | s | ts IH | fs IH] using json_ind';
    try by apply confined_ret.
  - cbn [alloc_tree]. eapply confined_bind.
    + instantiate (1 := Forall (new_value h0)).
      induction IH as [|t ts Ht _ IHts]; [by apply confined_ret|].
      eapply confined_bind; [exact Ht|]. intros v Hv.
      eapply confined_bind; [exact IHts|]. intros vs Hvs.
      apply confined_ret. by constructor.
    + intros vs Hvs. eapply confined_bind; [by apply confined_alloc|].
      intros l Hl. by apply confined_ret.
  - cbn [alloc_tree]. eapply confined_bind.
    + instantiate (1 := Forall (fun p => new_value h0 (snd p))).
      induction IH as [|[k t] fs Ht _ IHfs]; [by apply confined_ret|].
      eapply confined_bind; [exact Ht|]. intros v Hv.
      eapply confined_bind; [exact IHfs|]. intros ps Hps.
      apply confined_ret. by constructor.
    + intros ps Hps. eapply confined_bind; [by apply confined_alloc|].
      intros l Hl. by apply confined_ret.
Qed.

Lemma confined_parse text : confined h0 (JSON_parse text) (new_value h0).
Proof.
  unfold JSON_parse. destruct (parse text);
    [apply confined_alloc_tree | apply confined_throw].
Qed.

Lemma confined_copyOBJ v : confined h0 (copyOBJ v) (new_value h0).
Proof.
  unfold copyOBJ. eapply confined_bind; [apply confined_stringify|].
  intros text _. apply confined_parse.
Qed.

Lemma confined_get_prop v k :
  new_value h0 v -> confined h0 (get_prop v k) (new_value h0).
Proof.
  intros Hv. unfold get_prop. destruct v as [| | b | n | s | l];
    try apply confined_throw; try by apply confined_ret.
  - repeat case_match; apply confined_ret; try done.
    unfold string_at. by case_match.
  - eapply confined_bind; [by apply confined_load|].
    intros [ps|vs] Hc; apply confined_ret.
    + by apply new_value_alookup.
    + unfold array_prop. repeat case_match; try done.
      by apply new_value_lookup.
Qed.

Lemma confined_get_index v i :
  new_value h0 v -> confined h0 (get_index v i) (new_value h0).
Proof.
  intros Hv. unfold get_index. destruct v as [| | b | n | s | l];
    try apply confined_throw; try by apply confined_ret.
  - apply confined_ret. unfold string_at. by case_match.
  - eapply confined_bind; [by apply confined_load|].
    intros [ps|vs] Hc; apply confined_ret.
    + by apply new_value_alookup.
    + by apply new_value_lookup.
Qed.

Lemma confined_set_prop v k x :
  new_value h0 v -> new_value h0 x ->
  confined h0 (set_prop v k x) (fun _ => True).
Proof.
  intros Hv Hx. unfold set_prop. destruct v as [| | b | n | s | l];
    try apply confined_throw.
  eapply confined_bind; [by apply confined_load|].
  intros [ps|vs] Hc; [|apply confined_throw].
  apply confined_store; [done|]. by apply new_cell_aset.
Qed.

Lemma confined_set_index v i x :
  new_value h0 v -> new_value h0 x ->
  confined h0 (set_index v i x) (fun _ => True).
Proof.
  intros Hv Hx. unfold set_index. destruct v as [| | b | n | s | l];
    try apply confined_throw.
  eapply confined_bind; [by apply confined_load|].
  intros [ps|vs] Hc; (apply confined_store; [done|]).
  - by apply new_cell_aset.
  - by apply new_cell_list_set.
Qed.

Lemma confined_array_length v :
  new_value h0 v -> confined h0 (array_length v) (fun _ => True).
Proof.
  intros Hv. unfold array_length. destruct v as [| | b | n | s | l];
    try apply confined_throw.
  eapply confined_bind; [by apply confined_load|].
  intros [ps|vs] Hc; [apply confined_throw | by apply confined_ret].
Qed.

Lemma confined_splice v n :
  new_value h0 v -> confined h0 (splice v n) (new_value h0).
Proof.
  intros Hv. unfold splice. destruct v as [| | b | x | s | l];
    try apply confined_throw.
  eapply confined_bind; [by apply confined_load|].
  intros [ps|vs] Hc; [apply confined_throw|].
  eapply confined_bind.
  { apply confined_store; [done|]. by apply Forall_drop. }
  intros _ _. eapply confined_bind.
  { apply confined_alloc. by apply Forall_take. }
  intros a Ha. by apply confined_ret.
Qed.

Lemma confined_array_map (f : nat -> value -> M value) v :
  new_value h0 v ->
  (forall i x, new_value h0 x -> confined h0 (f i x) (new_value h0)) ->
  confined h0 (array_map f v) (new_value h0).
Proof.
  intros Hv Hf. unfold array_map. destruct v as [| | b | x | s | l];
    try apply confined_throw.
  eapply confined_bind; [by apply confined_load|].
  intros [ps|vs] Hc; [apply confined_throw|].
  eapply confined_bind.
  { apply confined_mapM_ix. intros i x Hx. apply Hf.
    cbn in Hc. by eapply Forall_forall in Hc. }
  intros rs Hrs. eapply confined_bind; [by apply confined_alloc|].
  intros a Ha. by apply confined_ret.
Qed.

Lemma confined_object_entries v :
  new_value h0 v ->
  confined h0 (object_entries v) (Forall (fun p => new_value h0 (snd p))).
Proof.
  intros Hv. unfold object_entries. destruct v as [| | b | n | s | l];
    try apply confined_throw; try by apply confined_ret.
  - apply confined_ret. generalize 0.
    induction s as [|c s IH]; intros i; cbn; constructor; auto.
  - eapply confined_bind; [by apply confined_load|].
    intros [ps|vs] Hc; apply confined_ret; [done|].
    cbn in Hc. apply Forall_forall. intros [k x] Hin.
    apply elem_of_lookup_imap in Hin as (i & y & [= -> ->] & Hy).
    by eapply Forall_lookup_1.
Qed.

Lemma confined_mapM_ix_new {B} (f : nat -> value -> M B) (P : B -> Prop) l i :
  Forall (new_value h0) l ->
  (forall i x, new_value h0 x -> confined h0 (f i x) P) ->
  confined h0 (mapM_ix f i l) (Forall P).
Proof.
  intros Hl Hf. apply confined_mapM_ix. intros j x Hx. apply Hf.
  by eapply Forall_forall in Hl.
Qed.

(** ** The handlers *)

Ltac confined_side :=
  intros; cbn;
  first [ eassumption | done | by apply new_value_el_at
        | by apply Forall_replicate ].

Ltac confined_rule :=
  first [ apply confined_get_prop | apply confined_get_index
        | apply confined_set_prop | apply confined_set_index
        | apply confined_array_length | apply confined_splice
        | apply confined_copyOBJ | apply confined_stringify
        | apply confined_parse | apply confined_alloc_tree
        | apply confined_alloc | apply confined_object_entries ].

Ltac confined_go :=
  repeat first
    [ apply confined_ret; confined_side
    | apply confined_throw
    | eapply confined_bind; [ | intros ? ? ]
    | eapply confined_mono; [ confined_rule; confined_side | confined_side ] ].

Lemma confined_set_y el y :
  new_value h0 el -> confined h0 (set_y el y) (fun _ => True).
Proof. intros Hel. unfold set_y. confined_go. Qed.

Lemma confined_setFooterPositions fromY els :
  Forall (new_value h0) els ->
  confined h0 (setFooterPositions fromY els) (fun _ => True).
Proof.
  intros Hels. unfold setFooterPositions.
  repeat (eapply confined_bind;
    [apply confined_set_y; by apply new_value_el_at | intros _ _]).
  apply confined_set_y. by apply new_value_el_at.
Qed.

Lemma confined_setHeaderPositions fromY els :
  Forall (new_value h0) els ->
  confined h0 (setHeaderPositions fromY els) (fun _ => True).
Proof.
  intros Hels. unfold setHeaderPositions.
  repeat (eapply confined_bind;
    [apply confined_set_y; by apply new_value_el_at | intros _ _]).
  apply confined_set_y. by apply new_value_el_at.
Qed.

Lemma confined_set_page_field templateJSON pageI key x :
  new_value h0 templateJSON -> new_value h0 x ->
  confined h0 (set_page_field templateJSON pageI key x) (fun _ => True).
Proof. intros Ht Hx. unfold set_page_field. confined_go. Qed.

Lemma confined_make_tableData rows :
  confined h0 (make_tableData rows) (new_value h0).
Proof.
  unfold make_tableData.
  eapply confined_bind.
  { apply confined_alloc. cbn. repeat constructor. }
  intros r Hr. eapply confined_bind.
  { apply confined_alloc. cbn. by apply Forall_replicate. }
  intros filled Hfilled. apply confined_array_map; [done|].
  intros i x Hx. confined_go.
Qed.

Lemma confined_add_page templateJSON schema inputs tableData
  headerElements footerElements pagesLength pageI :
  new_value h0 templateJSON -> new_value h0 schema -> new_value h0 inputs ->
  new_value h0 tableData ->
  Forall (new_value h0) headerElements ->
  Forall (new_value h0) footerElements ->
  confined h0 (add_page templateJSON schema inputs tableData headerElements
                 footerElements pagesLength pageI) (fun _ => True).
Proof.
  intros Ht Hs Hi Htd Hhe Hfe. unfold add_page.
  eapply confined_bind; [by apply confined_splice|]. intros next Hnext.
  eapply confined_bind; [by apply confined_get_prop|]. intros schemas Hsch.
  eapply confined_bind; [apply confined_alloc; constructor|]. intros o Ho.
  eapply confined_bind; [by apply confined_set_index|]. intros _ _.
  eapply confined_bind.
  { apply confined_mapM_ix_new; [done|]. intros i el Hel.
    instantiate (1 := new_value h0).
    eapply confined_bind; [apply confined_copyOBJ|]. intros copy Hcopy.
    eapply confined_bind; [by apply confined_set_page_field|]. intros _ _.
    by apply confined_ret. }
  intros nextHeader Hnh. eapply confined_bind.
  { apply confined_mapM_ix_new; [done|]. intros i el Hel.
    instantiate (1 := new_value h0).
    eapply confined_bind; [apply confined_copyOBJ|]. intros copy Hcopy.
    eapply confined_bind; [by apply confined_set_page_field|]. intros _ _.
    by apply confined_ret. }
  intros nextFooter Hnf. eapply confined_bind.
  { apply confined_mapM_ix. intros i [] _.
    instantiate (1 := new_value h0).
    eapply confined_bind; [by apply confined_get_prop|]. intros fld Hfld.
    eapply confined_bind; [apply confined_copyOBJ|]. intros hr Hhr.
    eapply confined_bind; [by apply confined_set_y|]. intros _ _.
    eapply confined_bind; [by apply confined_set_page_field|]. intros _ _.
    by apply confined_ret. }
  intros hrs Hhrs.
  eapply confined_bind; [apply confined_stringify|]. intros text _.
  eapply confined_bind; [by apply confined_set_prop|]. intros _ _.
  eapply confined_bind; [by apply confined_get_prop|]. intros period Hp.
  eapply confined_bind; [by apply confined_get_prop|]. intros pc Hpc.
  eapply confined_bind; [by apply confined_set_prop|]. intros _ _.
  eapply confined_bind; [by apply confined_get_prop|]. intros tperiod Htp.
  eapply confined_bind; [by apply confined_get_prop|]. intros tpc Htpc.
  eapply confined_bind; [by apply confined_set_prop|]. intros _ _.
  eapply confined_bind; [by apply confined_set_prop|]. intros _ _.
  eapply confined_bind; [by apply confined_setHeaderPositions|]. intros _ _.
  by apply confined_setFooterPositions.
Qed.

Lemma confined_fill_pages rows templateJSON :
  new_value h0 templateJSON ->
  confined h0 (fill_pages rows templateJSON)
    (fun r => new_value h0 (fst r) /\ new_value h0 (snd r)).
Proof.
  intros Ht. unfold fill_pages.
  eapply confined_bind; [by apply confined_get_prop|]. intros schemas Hsch.
  eapply confined_bind; [by apply confined_get_index|]. intros schema Hs.
  eapply confined_bind; [apply confined_alloc; constructor|]. intros i Hi.
  eapply confined_bind; [apply confined_make_tableData|]. intros td Htd.
  eapply confined_bind.
  { apply confined_mapM_ix. intros j k _. by apply confined_get_prop. }
  intros he Hhe. eapply confined_bind.
  { apply confined_mapM_ix. intros j k _. by apply confined_get_prop. }
  intros fe Hfe.
  eapply confined_bind; [by apply confined_array_length|]. intros len _.
  eapply confined_bind; [|intros _ _; by apply confined_ret].
  instantiate (1 := fun _ => True). case_match.
  - eapply confined_bind; [by apply confined_splice|]. intros first Hfirst.
    eapply confined_bind; [apply confined_stringify|]. intros text _.
    eapply confined_bind; [by apply confined_set_prop|]. intros _ _.
    eapply confined_bind; [by apply confined_setFooterPositions|]. intros _ _.
    eapply confined_bind; [by apply confined_array_length|]. intros len' _.
    eapply confined_bind.
    { apply confined_iterM. intros pageI _. by apply confined_add_page. }
    intros _ _.
    eapply confined_bind; [by apply confined_get_prop|]. intros pages Hpages.
    eapply confined_bind; [by apply confined_set_prop|]. intros _ _.
    by apply confined_set_prop.
  - eapply confined_bind; [apply confined_stringify|]. intros text _.
    eapply confined_bind; [by apply confined_set_prop|]. intros _ _.
    eapply confined_bind; [by apply confined_setFooterPositions|]. intros _ _.
    by apply confined_set_prop.
Qed.

Lemma confined_copy_text_fields schema inputs :
  new_value h0 schema -> new_value h0 inputs ->
  confined h0 (copy_text_fields schema inputs) (fun _ => True).
Proof.
  intros Hs Hi. unfold copy_text_fields.
  eapply confined_bind; [by apply confined_object_entries|].
  intros entries Hentries. apply confined_iterM. intros [key el] Hin.
  eapply Forall_forall in Hentries; [|exact Hin]. cbn in Hentries.
  eapply confined_bind; [by apply confined_get_prop|]. intros type _.
  case_match; [|by apply confined_ret].
  eapply confined_bind; [by apply confined_get_prop|]. intros content Hc.
  by apply confined_set_prop.
Qed.
End confinement.

Lemma confined_paginate rows st :
  confined (app_heap st) (paginate rows st)
    (fun r => new_value (app_heap st) (fst (fst r))
              /\ new_value (app_heap st) (snd (fst r))
              /\ new_value (app_heap st) (snd r)).
Proof.
  unfold paginate, getTemplateJSONString.
  eapply confined_bind; [apply confined_stringify|]. intros text _.
  eapply confined_bind; [apply confined_parse|]. intros templateJSON Ht.
  eapply confined_bind; [by apply confined_fill_pages|].
  intros [schema inputs] [Hs Hi]. cbn in Hs, Hi. by apply confined_ret.
Qed.

(** The body of the generate handler is confined to the cells it makes
    itself: it reads the heap it starts in only to serialize the
    designer's document. *)
Lemma confined_generate_fill rows st :
  confined (app_heap st) (generate_fill rows st)
    (fun r => new_value (app_heap st) (fst r)
              /\ new_value (app_heap st) (snd r)).
Proof.
  unfold generate_fill.
  eapply confined_bind; [apply confined_paginate|].
  intros [[templateJSON schema] inputs] (Ht & Hs & Hi). cbn in Ht, Hs, Hi.
  eapply confined_bind; [by apply confined_copy_text_fields|]. intros _ _.
  by apply confined_ret.
Qed.

(** * Rules for the steps of the generate handler *)

Section fill_rules.
Context `{!gen_heapGS loc cell Σ}.

(** [el.position.y = y] *)
Lemma wps_set_y t v y (Φ : unit -> iProp Σ) :
  movable t = true -> dec_canon y = true ->
  is_tree t v -∗ (is_tree (moved y t) v -∗ Φ tt) -∗ wps (set_y v y) Φ.
Proof.
  intros (fs & pfs & -> & Hp)%movable_inv Hy. iIntros "Ht HΦ".
  unfold set_y, moved. rewrite Hp.
  iDestruct (is_tree_obj_borrow _ _ _ _ Hp with "Ht")
    as (l ps vp [-> Hvp]) "(Hl & Hpos & Hclose)".
  iApply wps_bind. iApply (wps_get_prop with "Hl"). iIntros "Hl".
  rewrite Hvp. cbn [default].
  iDestruct (is_tree_obj with "Hpos") as (lp pps [-> Hnd]) "[Hlp Hpfs]".
  iApply (wps_set_prop with "Hlp"). iIntros "Hlp".
  iApply "HΦ".
  iApply ("Hclose" $! (JObj (aset "y" (JNum y) pfs)) with "Hl").
  rewrite is_tree_obj. iExists lp, _. iFrame "Hlp". iSplit.
  { iPureIntro. split; [done|]. by apply aset_NoDup. }
  iApply (are_fields_aset with "Hpfs"). by iPureIntro.
Qed.

(** A member of an object, lent and given back as it was. *)
Lemma are_fields_access fs ps k t :
  alookup k fs = Some t ->
  are_fields fs ps -∗
  ∃ v, ⌜alookup k ps = Some v⌝ ∗ is_tree t v ∗
       (is_tree t v -∗ are_fields fs ps).
Proof.
  intros Hk. iIntros "Hfs".
  iDestruct (are_fields_borrow _ _ _ _ Hk with "Hfs") as (v Hv) "[Ht Hclose]".
  iExists v. iSplit; [done|]. iFrame "Ht". iIntros "Ht".
  iSpecialize ("Hclose" with "Ht"). by rewrite aset_same.
Qed.

Lemma are_fields_absent fs ps k :
  alookup k fs = None -> are_fields fs ps -∗ ⌜alookup k ps = None⌝.
Proof.
  intros Hk. iIntros "Hfs". iDestruct (are_fields_keys with "Hfs") as %Hkeys.
  iPureIntro. apply alookup_None_keys. rewrite Hkeys.
  by apply alookup_None_keys.
Qed.

(** [schema[k].position.y = y] for a member [k] of a page. *)
Lemma wps_set_y_field fs ps k y (Φ : unit -> iProp Σ) :
  movable (field k fs) = true -> dec_canon y = true ->
  are_fields fs ps -∗
  (are_fields (aupd k (moved y) fs) ps -∗ Φ tt) -∗
  wps (set_y (default VUndef (alookup k ps)) y) Φ.
Proof.
  intros (t & Hk & Ht)%field_movable Hy. iIntros "Hfs HΦ".
  iDestruct (are_fields_borrow _ _ _ _ Hk with "Hfs") as (v Hv) "[Hv Hclose]".
  rewrite Hv. cbn [default]. iApply (wps_set_y with "Hv"); [done..|]. iIntros "Hv".
  iApply "HΦ". unfold aupd. rewrite Hk. by iApply "Hclose".
Qed.

(** [el.content], for an element whose content is absent or not an array
    or object. *)
Lemma wps_get_content t v c (Φ : value -> iProp Σ) :
  content_value t = Some c ->
  is_tree t v -∗ (is_tree t v -∗ Φ c) -∗ wps (get_prop v "content") Φ.
Proof.
  intros Hc. iIntros "Ht HΦ". destruct t as [| | | | |fs]; try done.
  cbn in Hc. destruct (alookup "content" fs) as [tc|] eqn:Hk.
  - iDestruct (is_tree_obj_borrow _ _ _ _ Hk with "Ht")
      as (l ps vc [-> Hvc]) "(Hl & Hcont & Hclose)".
    iApply (wps_get_prop with "Hl"). iIntros "Hl". rewrite Hvc. cbn [default].
    iAssert ⌜vc = c⌝%I as %->.
    { destruct tc; cbn in Hc; try done; injection Hc as <-;
        by iDestruct "Hcont" as %?; destruct_and?. }
    iApply "HΦ". iSpecialize ("Hclose" with "Hl Hcont").
    by rewrite aset_same.
  - injection Hc as <-.
    iDestruct (is_tree_obj with "Ht") as (l ps [-> Hnd]) "[Hl Hfs]".
    iDestruct (are_fields_absent _ _ _ Hk with "Hfs") as %Hps.
    iApply (wps_get_prop with "Hl"). iIntros "Hl". rewrite Hps. cbn [default].
    iApply "HΦ". rewrite is_tree_obj. iExists l, ps. by iFrame.
Qed.

(** [el.type === "text"], for an element that is not [null]. *)
Lemma wps_get_type t v (Φ : value -> iProp Σ) :
  t <> JNull ->
  is_tree t v -∗
  (∀ r, ⌜strict_eq_str r "text" = is_text t⌝ -∗ is_tree t v -∗ Φ r) -∗
  wps (get_prop v "type") Φ.
Proof.
  intros Hnull. iIntros "Ht HΦ". destruct t as [|b|d|s|ts|fs]; try done.
  - iDestruct "Ht" as %->. iApply wps_ret. by iApply "HΦ".
  - iDestruct "Ht" as %[-> Hd]. iApply wps_ret. by iApply "HΦ".
  - iDestruct "Ht" as %->. iApply wps_ret. by iApply "HΦ".
  - iDestruct (is_tree_arr with "Ht") as (l vs ->) "[Hl Hts]".
    iApply (wps_get_index_prop with "Hl"). iIntros "Hl".
    iApply ("HΦ" with "[%]"); [done|]. rewrite is_tree_arr.
    iExists l, vs. by iFrame.
  - destruct (alookup "type" fs) as [ty|] eqn:Hk.
    + iDestruct (is_tree_obj_borrow _ _ _ _ Hk with "Ht")
        as (l ps vt [-> Hvt]) "(Hl & Hty & Hclose)".
      iApply (wps_get_prop with "Hl"). iIntros "Hl". rewrite Hvt. cbn [default].
      iAssert ⌜strict_eq_str vt "text" = is_text (JObj fs)⌝%I as %Heq.
      { cbn. rewrite Hk. destruct ty as [|b|d|s|ts'|fs'].
        - by iDestruct "Hty" as %->.
        - by iDestruct "Hty" as %->.
        - by iDestruct "Hty" as %[-> _].
        - by iDestruct "Hty" as %->.
        - by iDestruct (is_tree_arr with "Hty") as (l' vs' ->) "_".
        - by iDestruct (is_tree_obj with "Hty") as (l' ps' [-> _]) "_". }
      iApply ("HΦ" with "[%]"); [done|]. iSpecialize ("Hclose" with "Hl Hty").
      by rewrite aset_same.
    + iDestruct (is_tree_obj with "Ht") as (l ps [-> Hnd]) "[Hl Hfs]".
      iDestruct (are_fields_absent _ _ _ Hk with "Hfs") as %Hps.
      iApply (wps_get_prop with "Hl"). iIntros "Hl". rewrite Hps. cbn [default].
      iApply ("HΦ" with "[%]"); [cbn; by rewrite Hk|]. rewrite is_tree_obj.
      iExists l, ps. by iFrame.
Qed.

(** A sequence of writes of trees into an object. *)
Lemma are_fields_awrites kts : forall kvs fs ps,
  are_fields fs ps -∗
  ([∗ list] kt; kv ∈ kts; kvs, ⌜kt.1 = kv.1⌝ ∗ is_tree kt.2 kv.2) -∗
  are_fields (awrites fs kts) (awrites ps kvs).
Proof.
  induction kts as [|[k t] kts IH]; intros [|[k' v] kvs] fs ps;
    iIntros "Hfs Hws"; try done.
  cbn. iDestruct "Hws" as "[[%Hk Ht] Hws]". cbn in Hk. subst k'.
  iApply (IH with "[Hfs Ht] Hws"). iApply (are_fields_aset with "Hfs Ht").
Qed.

(** [templateJSON.schemas[pageI][key] = x] *)
Lemma wps_set_page_field lt tps ls svs lo ops pageI key x
  (Φ : unit -> iProp Σ) :
  alookup "schemas" tps = Some (VRef ls) -> svs !! pageI = Some (VRef lo) ->
  lt ↦ CObj tps -∗ ls ↦ CArr svs -∗ lo ↦ CObj ops -∗
  (lt ↦ CObj tps -∗ ls ↦ CArr svs -∗ lo ↦ CObj (aset key x ops) -∗ Φ tt) -∗
  wps (set_page_field (VRef lt) pageI key x) Φ.
Proof.
  intros Hs Hp. iIntros "Hlt Hls Hlo HΦ". unfold set_page_field.
  iApply wps_bind. iApply (wps_get_prop with "Hlt"). iIntros "Hlt".
  rewrite Hs. cbn [default].
  iApply wps_bind. iApply (wps_get_index with "Hls"). iIntros "Hls".
  rewrite Hp. cbn [default].
  iApply (wps_set_prop with "Hlo"). iIntros "Hlo".
  iApply ("HΦ" with "Hlt Hls Hlo").
Qed.

Lemma wps_array_map f l es (Φ : value -> iProp Σ) :
  l ↦ CArr es -∗
  (l ↦ CArr es -∗
   wps (mapM_ix f 0 es) (fun rs => ∀ a, a ↦ CArr rs -∗ Φ (VRef a))) -∗
  wps (array_map f (VRef l)) Φ.
Proof.
  iIntros "Hl HΦ". unfold array_map. iApply wps_bind.
  iApply (wps_load with "Hl"). iIntros "Hl". iApply wps_bind.
  iApply (wps_wand with "[Hl HΦ]"); [by iApply "HΦ"|]. iIntros (rs) "HΦ".
  iApply wps_bind. iApply wps_alloc. iIntros (a) "Ha". iApply wps_ret.
  by iApply "HΦ".
Qed.

(** The sample table: [rows] copies of the row, each with its index as
    the fourth cell. *)
Lemma wps_make_tableData rows (Φ : value -> iProp Σ) :
  (∀ l vs, l ↦ CArr vs -∗ are_trees (table_tree rows) vs -∗ Φ (VRef l)) -∗
  wps (make_tableData rows) Φ.
Proof.
  iIntros "HΦ". unfold make_tableData.
  iApply wps_bind. iApply wps_alloc. iIntros (r) "Hr".
  iApply wps_bind. iApply wps_alloc. iIntros (filled) "Hfilled".
  iAssert (is_tree (JArr (map JStr row)) (VRef r)) with "[Hr]" as "Hrow".
  { rewrite is_tree_arr. iExists r, _. iFrame "Hr". iSplit; [done|].
    unfold are_trees, row. cbn. by repeat (iSplit; [done|]). }
  iApply (wps_array_map with "Hfilled"). iIntros "_".
  iApply (wps_wand with "[Hrow]").
  { iApply (wps_mapM_ix _
              (fun i ys => is_tree (JArr (map JStr row)) (VRef r)
                           ∗ are_trees (table_tree i) ys)%I
             with "[Hrow]"); [|iFrame "Hrow"; by unfold are_trees].
    intros i x ys Hx%lookup_replicate_1 Hlen. destruct Hx as [-> Hi].
    iIntros "[Hrow Hys]". cbn [Nat.add].
    iApply wps_bind. iApply (wps_copyOBJ with "Hrow").
    iIntros (copy) "Hrow Hcopy".
    iDestruct (is_tree_arr with "Hcopy") as (l vs ->) "[Hl Hvs]".
    iDestruct (big_sepL2_length with "Hvs") as %Hvs.
    iApply wps_bind. iApply (wps_set_index with "Hl"). iIntros "Hl".
    iApply wps_ret. iFrame "Hrow". rewrite table_tree_S.
    iApply (big_sepL2_snoc with "[$Hys Hl Hvs]").
    unfold row_tree. rewrite is_tree_arr. iExists l, _. iFrame "Hl".
    iSplit; [done|]. unfold list_set.
    destruct (Nat.ltb_spec 3 (length vs)) as [_|Hge];
      [|rewrite -Hvs in Hge; cbn in Hge; lia].
    destruct (lookup_lt_is_Some_2 vs 3) as [v0 Hv0];
      [rewrite -Hvs; cbn; lia|].
    iDestruct (big_sepL2_insert_acc _ _ _ 3 with "Hvs") as "[_ Hins]";
      [done..|].
    iApply ("Hins" $! (JStr (nat_to_string i)) (VStr (nat_to_string i))).
    done. }
  iIntros (rs) "[%Hlen [_ Hrs]]". iIntros (a) "Ha".
  rewrite length_replicate. iApply ("HΦ" with "Ha Hrs").
Qed.

(** [[schema.k1, schema.k2, ...]] *)
Lemma wps_get_props l ps keys : forall i (Φ : list value -> iProp Σ),
  l ↦ CObj ps -∗
  (l ↦ CObj ps -∗ Φ (map (fun k => default VUndef (alookup k ps)) keys)) -∗
  wps (mapM_ix (fun _ k => get_prop (VRef l) k) i keys) Φ.
Proof.
  induction keys as [|k keys IH]; intros i Φ; iIntros "Hl HΦ"; cbn.
  - iApply wps_ret. by iApply "HΦ".
  - iApply wps_bind. iApply (wps_get_prop with "Hl"). iIntros "Hl".
    iApply wps_bind. iApply (IH with "Hl"). iIntros "Hl".
    iApply wps_ret. by iApply "HΦ".
Qed.

(** The footers of a page, repositioned in place. *)
Lemma wps_setFooterPositions_page fs ps fromY (Φ : unit -> iProp Σ) :
  Forall (fun k => movable (field k fs) = true) footer_keys ->
  dec_canon fromY = true ->
  are_fields fs ps -∗
  (are_fields (move_all footer_keys (footer_ys fromY) fs) ps -∗ Φ tt) -∗
  wps (setFooterPositions fromY
         (map (fun k => default VUndef (alookup k ps)) footer_keys)) Φ.
Proof.
  intros Hmov Hy. iIntros "Hfs HΦ". unfold setFooterPositions.
  repeat (apply Forall_cons in Hmov as [? Hmov]).
  do 3 (iApply wps_bind;
        iApply (wps_set_y_field with "Hfs");
        [by repeat apply movable_aupd
        |first [done | apply dec_canon_add]|]; iIntros "Hfs").
  iApply (wps_set_y_field with "Hfs");
    [by repeat apply movable_aupd | apply dec_canon_add|].
  iIntros "Hfs". by iApply "HΦ".
Qed.

Lemma are_trees_split n ts vs :
  are_trees ts vs -∗
  are_trees (take n ts) (take n vs) ∗ are_trees (drop n ts) (drop n vs).
Proof.
  iIntros "Hts". iDestruct (big_sepL2_length with "Hts") as %Hlen.
  rewrite -{1}(take_drop n ts) -{1}(take_drop n vs). unfold are_trees.
  iDestruct (big_sepL2_app_inv with "Hts") as "[$ $]".
  left. rewrite !length_take. lia.
Qed.

Lemma are_trees_imap (key : nat -> string) ts : forall vs,
  are_trees ts vs -∗
  [∗ list] kt; kv ∈ imap (fun i x => (key i, x)) ts;
                    imap (fun i x => (key i, x)) vs,
    ⌜kt.1 = kv.1⌝ ∗ is_tree kt.2 kv.2.
Proof.
  revert key. induction ts as [|t ts IH]; intros key [|v vs];
    iIntros "Hts"; try done.
  cbn. iDestruct "Hts" as "[$ Hts]". iSplit; [done|].
  iApply (IH (key ∘ S) with "Hts").
Qed.

Lemma are_trees_keyed n part ts vs :
  are_trees ts vs -∗
  [∗ list] kt; kv ∈ keyed n part ts; keyed n part vs,
    ⌜kt.1 = kv.1⌝ ∗ is_tree kt.2 kv.2.
Proof. apply (are_trees_imap (fun i => page_key n part (i + 1))). Qed.

(** The elements named [keys] of a page, lent one at a time. *)
Lemma are_fields_elems fs ps keys i el t :
  Forall (fun k => movable (field k fs) = true) keys ->
  map (fun k => default VUndef (alookup k ps)) keys !! i = Some el ->
  map (fun k => field k fs) keys !! i = Some t ->
  are_fields fs ps ⊢ is_tree t el ∗ (is_tree t el -∗ are_fields fs ps).
Proof.
  intros Hmov Hel Ht. change (map ?f ?l) with (f <$> l) in Hel, Ht.
  rewrite list_lookup_fmap in Hel. rewrite list_lookup_fmap in Ht.
  destruct (keys !! i) as [k|] eqn:Hk; [|done]. cbn in Hel, Ht.
  injection Hel as <-. injection Ht as <-.
  destruct (field_movable k fs) as (t & Hkt & _).
  { by eapply (proj1 (Forall_lookup _ _) Hmov). }
  iIntros "Hfs".
  iDestruct (are_fields_access _ _ _ _ Hkt with "Hfs") as (v Hv) "[Ht Hclose]".
  unfold field. rewrite Hkt Hv. cbn. iFrame.
Qed.

(** The loop that copies the header (or footer) elements into the new
    page: the copies are entered under their keys, in order. *)
Lemma wps_copy_elems (R : iProp Σ) part els ts lt tps ls svs lo ops
  pageI pageN (Φ : list value -> iProp Σ) :
  alookup "schemas" tps = Some (VRef ls) -> svs !! pageI = Some (VRef lo) ->
  length ts = length els ->
  (forall i el t, els !! i = Some el -> ts !! i = Some t ->
     R ⊢ is_tree t el ∗ (is_tree t el -∗ R)) ->
  R -∗ lt ↦ CObj tps -∗ ls ↦ CArr svs -∗ lo ↦ CObj ops -∗
  (∀ ys, ⌜length ys = length els⌝ -∗ R -∗ lt ↦ CObj tps -∗ ls ↦ CArr svs -∗
         lo ↦ CObj (awrites ops (keyed pageN part ys)) -∗
         are_trees ts ys -∗ Φ ys) -∗
  wps (mapM_ix (fun i el =>
         copy ← copyOBJ el;
         _ ← set_page_field (VRef lt) pageI (page_key pageN part (i + 1)) copy;
         mret copy) 0 els) Φ.
Proof.
  intros Hs Hp Hlen Hacc. iIntros "HR Hlt Hls Hlo HΦ".
  iApply (wps_wand with "[HR Hlt Hls Hlo]").
  { iApply (wps_mapM_ix _
              (fun i ys => R ∗ lt ↦ CObj tps ∗ ls ↦ CArr svs
                           ∗ lo ↦ CObj (awrites ops (keyed pageN part ys))
                           ∗ are_trees (take i ts) ys)%I
             with "[HR Hlt Hls Hlo]");
      [|iFrame; by unfold are_trees].
    intros i el ys Hel Hys. iIntros "(HR & Hlt & Hls & Hlo & Hys)".
    cbn [Nat.add].
    destruct (lookup_lt_is_Some_2 ts i) as [t Ht].
    { rewrite Hlen. by eapply lookup_lt_Some. }
    iDestruct (Hacc _ _ _ Hel Ht with "HR") as "[Hel Hclose]".
    iApply wps_bind. iApply (wps_copyOBJ with "Hel").
    iIntros (copy) "Hel Hcopy". iSpecialize ("Hclose" with "Hel").
    iApply wps_bind.
    iApply (wps_set_page_field with "Hlt Hls Hlo"); [done..|].
    iIntros "Hlt Hls Hlo". iApply wps_ret. iFrame "Hclose Hlt Hls".
    rewrite (take_S_r _ _ _ Ht). iSplitL "Hlo".
    - unfold keyed. rewrite imap_app awrites_app. cbn.
      by rewrite Nat.add_0_r Hys.
    - iApply (big_sepL2_snoc with "[$Hys $Hcopy]"). }
  iIntros (ys) "(%Hys & HR & Hlt & Hls & Hlo & Hts)".
  rewrite -Hlen firstn_all.
  iApply ("HΦ" with "[%] HR Hlt Hls Hlo Hts"). by rewrite Hlen.
Qed.

(** The loop that copies [field28] to [field114] at height 90 into the
    new page. *)
Lemma wps_copy_hrs fs lsch sps lt tps ls svs lo ops pageI pageN
  (Φ : list value -> iProp Σ) :
  alookup "schemas" tps = Some (VRef ls) -> svs !! pageI = Some (VRef lo) ->
  Forall (fun k => movable (field k fs) = true) hr_keys ->
  lsch ↦ CObj sps -∗ are_fields fs sps -∗
  lt ↦ CObj tps -∗ ls ↦ CArr svs -∗ lo ↦ CObj ops -∗
  (∀ ys, lsch ↦ CObj sps -∗ are_fields fs sps -∗
         lt ↦ CObj tps -∗ ls ↦ CArr svs -∗
         lo ↦ CObj (awrites ops (keyed pageN "table_hr" ys)) -∗
         are_trees (map (fun k => moved (dec_of_Z 90) (field k fs)) hr_keys)
                   ys -∗ Φ ys) -∗
  wps (mapM_ix (fun i (_ : unit) =>
         fld ← get_prop (VRef lsch) ("field" +:+ nat_to_string (28 + i));
         hr ← copyOBJ fld;
         _ ← set_y hr (dec_of_Z 90);
         _ ← set_page_field (VRef lt) pageI
               (page_key pageN "table_hr" (i + 1)) hr;
         mret hr) 0 (replicate (115 - 28) tt)) Φ.
Proof.
  intros Hs Hp Hmov. iIntros "Hlsch Hfs Hlt Hls Hlo HΦ".
  iApply (wps_wand with "[Hlsch Hfs Hlt Hls Hlo]").
  { iApply (wps_mapM_ix _
              (fun i ys => lsch ↦ CObj sps ∗ are_fields fs sps
                 ∗ lt ↦ CObj tps ∗ ls ↦ CArr svs
                 ∗ lo ↦ CObj (awrites ops (keyed pageN "table_hr" ys))
                 ∗ are_trees (map (fun k => moved (dec_of_Z 90) (field k fs))
                                (take i hr_keys)) ys)%I
             with "[Hlsch Hfs Hlt Hls Hlo]");
      [|iFrame; by unfold are_trees].
    intros i [] ys [_ Hi]%lookup_replicate_1 Hys.
    iIntros "(Hlsch & Hfs & Hlt & Hls & Hlo & Hys)". cbn [Nat.add].
    pose proof (hr_keys_lookup i Hi) as Hk.
    destruct (field_movable _ fs
                (proj1 (Forall_lookup _ _) Hmov _ _ Hk)) as (t & Hkt & Ht).
    iDestruct (are_fields_access _ _ _ _ Hkt with "Hfs")
      as (v Hv) "[Hel Hclose]".
    iApply wps_bind. iApply (wps_get_prop with "Hlsch"). iIntros "Hlsch".
    rewrite Hv. cbn [default].
    iApply wps_bind. iApply (wps_copyOBJ with "Hel").
    iIntros (hr) "Hel Hhr". iSpecialize ("Hclose" with "Hel").
    iApply wps_bind. iApply (wps_set_y with "Hhr"); [done..|]. iIntros "Hhr".
    iApply wps_bind.
    iApply (wps_set_page_field with "Hlt Hls Hlo"); [done..|].
    iIntros "Hlt Hls Hlo". iApply wps_ret. iFrame "Hlsch Hclose Hlt Hls".
    rewrite (take_S_r _ _ _ Hk) map_app. iSplitL "Hlo".
    - unfold keyed. rewrite imap_app awrites_app. cbn.
      by rewrite Nat.add_0_r Hys.
    - iApply (big_sepL2_snoc with "[$Hys Hhr]"). cbn.
      unfold field. by rewrite Hkt. }
  iIntros (ys) "(%Hys & Hlsch & Hfs & Hlt & Hls & Hlo & Hts)".
  rewrite length_replicate.
  replace (take (115 - 28) hr_keys) with hr_keys by (by vm_compute).
  iApply ("HΦ" with "Hlsch Hfs Hlt Hls Hlo Hts").
Qed.

Ltac set_y_step H :=
  iApply (wps_set_y with H);
  [done | first [done | apply dec_canon_add] |]; iIntros H.

(** The copies of the footers and of the headers, repositioned. *)
Lemma wps_setFooterPositions ts vs fromY (Φ : unit -> iProp Σ) :
  length ts = 4 -> Forall (fun t => movable t = true) ts ->
  dec_canon fromY = true ->
  are_trees ts vs -∗
  (are_trees (zip_with moved (footer_ys fromY) ts) vs -∗ Φ tt) -∗
  wps (setFooterPositions fromY vs) Φ.
Proof.
  intros Hlen Hmov Hy. iIntros "Hts HΦ".
  iDestruct (big_sepL2_length with "Hts") as %Hvs. rewrite Hlen in Hvs.
  do 5 (destruct ts as [|? ts]; try done).
  do 5 (destruct vs as [|? vs]; try done).
  repeat (apply Forall_cons in Hmov as [? Hmov]).
  unfold are_trees, setFooterPositions. cbn [el_at nth].
  iDestruct "Hts" as "(H0 & H1 & H2 & H3 & _)".
  iApply wps_bind. set_y_step "H0". iApply wps_bind. set_y_step "H1".
  iApply wps_bind. set_y_step "H2". set_y_step "H3".
  iApply "HΦ". cbn. iFrame.
Qed.

Lemma wps_setHeaderPositions ts vs fromY (Φ : unit -> iProp Σ) :
  length ts = 11 -> Forall (fun t => movable t = true) ts ->
  dec_canon fromY = true ->
  are_trees ts vs -∗
  (are_trees (zip_with moved (header_ys fromY) ts) vs -∗ Φ tt) -∗
  wps (setHeaderPositions fromY vs) Φ.
Proof.
  intros Hlen Hmov Hy. iIntros "Hts HΦ".
  iDestruct (big_sepL2_length with "Hts") as %Hvs. rewrite Hlen in Hvs.
  do 12 (destruct ts as [|? ts]; try done).
  do 12 (destruct vs as [|? vs]; try done).
  repeat (apply Forall_cons in Hmov as [? Hmov]).
  unfold are_trees, setHeaderPositions. cbn [el_at nth].
  iDestruct "Hts"
    as "(H0 & H1 & H2 & H3 & H4 & H5 & H6 & H7 & H8 & H9 & H10 & _)".
  iApply wps_bind. set_y_step "H0". iApply wps_bind. set_y_step "H1".
  iApply wps_bind. set_y_step "H2". iApply wps_bind. set_y_step "H3".
  iApply wps_bind. set_y_step "H4". iApply wps_bind. set_y_step "H5".
  iApply wps_bind. set_y_step "H6". iApply wps_bind. set_y_step "H7".
  iApply wps_bind. set_y_step "H8". iApply wps_bind. set_y_step "H9".
  set_y_step "H10".
  iApply "HΦ". cbn. iFrame.
Qed.

(** [schema[k].content], for a member whose content is absent or not an
    array or object. *)
Lemma field_content_access fs ps k :
  is_Some (content_value (field k fs)) ->
  are_fields fs ps -∗
  ∃ t v, ⌜alookup k ps = Some v
          ∧ content_value t = Some (content_val (field k fs))⌝ ∗
    is_tree t v ∗ (is_tree t v -∗ are_fields fs ps).
Proof.
  intros [c Hc]. iIntros "Hfs". unfold content_val. rewrite Hc.
  unfold field in *. destruct (alookup k fs) as [t|] eqn:Hk; [|done].
  iDestruct (are_fields_access _ _ _ _ Hk with "Hfs") as (v Hv) "[Ht Hclose]".
  iExists t, v. by iFrame.
Qed.

Lemma lookup_settled {A} (v x : A) a r :
  (v :: (a ++ [x]) ++ r) !! S (length a) = Some x.
Proof.
  cbn. rewrite lookup_app_l; [|rewrite length_app; cbn; lia].
  by rewrite lookup_app_r // Nat.sub_diag.
Qed.

(** One turn of the loop over the additional pages: the new page is
    entered behind the pages made so far, the next seven rows leave the
    table, four entries go to [inputs]; the first page is only read. *)
Lemma wps_add_page fs lsch sps lt tps ls nvs ovs li ins ltd tvs rest
  pagesLength (Φ : unit -> iProp Σ) :
  alookup "schemas" tps = Some (VRef ls) -> page_ready fs ->
  lt ↦ CObj tps -∗
  ls ↦ CArr (VRef lsch :: nvs ++ drop (length nvs) ovs) -∗
  lsch ↦ CObj sps -∗ are_fields fs sps -∗ li ↦ CObj ins -∗
  ltd ↦ CArr tvs -∗ are_trees rest tvs -∗
  (∀ vo, lt ↦ CObj tps -∗
     ls ↦ CArr (VRef lsch :: (nvs ++ [vo]) ++ drop (S (length nvs)) ovs) -∗
     is_tree (extra_page (S (length nvs) + 1) fs) vo -∗
     lsch ↦ CObj sps -∗ are_fields fs sps -∗
     li ↦ CObj (awrites ins
                  (chunk_writes (pagesLength + 1)
                     (take PAGE_2_TABLE_ROWS_MAX rest) fs (S (length nvs)))) -∗
     ltd ↦ CArr (drop PAGE_2_TABLE_ROWS_MAX tvs) -∗
     are_trees (drop PAGE_2_TABLE_ROWS_MAX rest)
               (drop PAGE_2_TABLE_ROWS_MAX tvs) -∗ Φ tt) -∗
  wps (add_page (VRef lt) (VRef lsch) (VRef li) (VRef ltd)
         (map (fun k => default VUndef (alookup k sps)) header_keys)
         (map (fun k => default VUndef (alookup k sps)) footer_keys)
         pagesLength (S (length nvs))) Φ.
Proof.
  intros Hs (Hmov & Hperiod & Htperiod).
  apply Forall_app in Hmov as [Hhead Hmov].
  apply Forall_app in Hmov as [Hfoot Hhr].
  iIntros "Hlt Hls Hlsch Hfs Hli Hltd Hrest HΦ". unfold add_page.
  iDestruct (are_trees_split PAGE_2_TABLE_ROWS_MAX with "Hrest")
    as "[Hchunk Hrest]".
  iApply wps_bind. iApply (wps_splice with "Hltd").
  iIntros (lnext) "Hltd Hlnext".
  iApply wps_bind. iApply (wps_get_prop with "Hlt"). iIntros "Hlt".
  rewrite Hs. cbn [default].
  iApply wps_bind. iApply wps_alloc. iIntros (lo) "Hlo".
  iApply wps_bind. iApply (wps_set_index with "Hls"). iIntros "Hls".
  rewrite list_set_next.
  pose proof (lookup_settled (VRef lsch) (VRef lo) nvs
                (drop (S (length nvs)) ovs)) as Hpage.
  iApply wps_bind.
  iApply (wps_copy_elems (are_fields fs sps) "header_el" _
            (map (fun k => field k fs) header_keys)
           with "Hfs Hlt Hls Hlo"); [done..| |].
  { intros i el t Hel Ht.
    exact (are_fields_elems fs sps header_keys i el t Hhead Hel Ht). }
  iIntros (hs Hhs) "Hfs Hlt Hls Hlo Hhs".
  iApply wps_bind.
  iApply (wps_copy_elems (are_fields fs sps) "footer_el" _
            (map (fun k => field k fs) footer_keys)
           with "Hfs Hlt Hls Hlo"); [done..| |].
  { intros i el t Hel Ht.
    exact (are_fields_elems fs sps footer_keys i el t Hfoot Hel Ht). }
  iIntros (fts Hfts) "Hfs Hlt Hls Hlo Hfts".
  iApply wps_bind.
  iApply (wps_copy_hrs with "Hlsch Hfs Hlt Hls Hlo"); [done..|].
  iIntros (hrs) "Hlsch Hfs Hlt Hls Hlo Hhrs".
  iApply wps_bind.
  iApply (wps_stringify _ (JArr (take PAGE_2_TABLE_ROWS_MAX rest))
           with "[Hlnext Hchunk]").
  { rewrite is_tree_arr. iExists lnext, _. by iFrame. }
  iIntros "_".
  iApply wps_bind. iApply (wps_set_prop with "Hli"). iIntros "Hli".
  iDestruct (field_content_access _ _ _ Hperiod with "Hfs")
    as (tp vp [Hvp Hcp]) "[Hp Hclose]".
  iApply wps_bind. iApply (wps_get_prop with "Hlsch"). iIntros "Hlsch".
  rewrite Hvp. cbn [default].
  iApply wps_bind. iApply (wps_get_content with "Hp"); [done|]. iIntros "Hp".
  iSpecialize ("Hclose" with "Hp").
  iApply wps_bind. iApply (wps_set_prop with "Hli"). iIntros "Hli".
  iDestruct (field_content_access _ _ _ Htperiod with "Hclose")
    as (ttp vtp [Hvtp Hctp]) "[Htp Hclose]".
  iApply wps_bind. iApply (wps_get_prop with "Hlsch"). iIntros "Hlsch".
  rewrite Hvtp. cbn [default].
  iApply wps_bind. iApply (wps_get_content with "Htp"); [done|].
  iIntros "Htp". iSpecialize ("Hclose" with "Htp").
  iApply wps_bind. iApply (wps_set_prop with "Hli"). iIntros "Hli".
  iApply wps_bind. iApply (wps_set_prop with "Hli"). iIntros "Hli".
  iApply wps_bind.
  iApply (wps_setHeaderPositions with "Hhs"); [done| |done|].
  { by apply Forall_map. }
  iIntros "Hhs".
  iApply (wps_setFooterPositions with "Hfts"); [done| |done|].
  { by apply Forall_map. }
  iIntros "Hfts".
  rewrite Hhs Hfts.
  iApply ("HΦ" $! (VRef lo) with "Hlt Hls [Hlo Hhs Hfts Hhrs] Hlsch Hclose Hli
                                  Hltd Hrest").
  unfold extra_page. rewrite is_tree_obj. iExists lo, _. iFrame "Hlo".
  iSplit; [iPureIntro; split; [done|]; apply awrites_NoDup; constructor|].
  rewrite -!awrites_app. iApply (are_fields_awrites with "[]").
  { by unfold are_fields. }
  unfold page_entries.
  iApply (big_sepL2_app with "[Hhs]"); [by iApply are_trees_keyed|].
  iApply (big_sepL2_app with "[Hfts]"); [by iApply are_trees_keyed|].
  by iApply are_trees_keyed.
Qed.

(** [el.content = s] *)
Lemma wps_set_content fs ps k s (Φ : unit -> iProp Σ) :
  movable (field k fs) = true ->
  are_fields fs ps -∗
  (are_fields (aupd k (set_content s) fs) ps -∗ Φ tt) -∗
  wps (set_prop (default VUndef (alookup k ps)) "content" (VStr s)) Φ.
Proof.
  intros (t & Hk & (efs & pfs & -> & _)%movable_inv)%field_movable.
  iIntros "Hfs HΦ".
  iDestruct (are_fields_borrow _ _ _ _ Hk with "Hfs") as (v Hv) "[Hv Hclose]".
  rewrite Hv. cbn [default].
  iDestruct (is_tree_obj with "Hv") as (l eps [-> Hnd]) "[Hl Hefs]".
  iApply (wps_set_prop with "Hl"). iIntros "Hl". iApply "HΦ".
  unfold aupd. rewrite Hk. iApply "Hclose". cbn [set_content].
  rewrite is_tree_obj. iExists l, _. iFrame "Hl". iSplit.
  { iPureIntro. split; [done|]. by apply aset_NoDup. }
  iApply (are_fields_aset with "Hefs"). by iPureIntro.
Qed.

(** The loop over the entries of the page: every text field gives its
    content to [inputs]. *)
Lemma wps_copy_text_fields fs lsch sps li ins (Φ : unit -> iProp Σ) :
  Forall (fun kt => text_ready (snd kt)) fs ->
  lsch ↦ CObj sps -∗ are_fields fs sps -∗ li ↦ CObj ins -∗
  (lsch ↦ CObj sps -∗ are_fields fs sps -∗
   li ↦ CObj (text_writes ins fs) -∗ Φ tt) -∗
  wps (copy_text_fields (VRef lsch) (VRef li)) Φ.
Proof.
  intros Hready. iIntros "Hlsch Hfs Hli HΦ". unfold copy_text_fields.
  iDestruct (big_sepL2_length with "Hfs") as %Hlen.
  iApply wps_bind. iApply (wps_object_entries with "Hlsch"). iIntros "Hlsch".
  iApply (wps_wand with "[Hfs Hli]").
  { iApply (wps_iterM _
              (fun i => are_fields fs sps
                        ∗ li ↦ CObj (text_writes ins (take i fs)))%I
             with "[Hfs Hli]"); [|by iFrame].
    intros i [key el] Hel. iIntros "[Hfs Hli]".
    destruct (lookup_lt_is_Some_2 fs i) as [[k t] Hkt].
    { rewrite Hlen. by eapply lookup_lt_Some. }
    destruct (proj1 (Forall_lookup _ _) Hready _ _ Hkt) as [Hnull Hcontent].
    cbn in Hnull, Hcontent.
    iDestruct (big_sepL2_lookup_acc _ _ _ i with "Hfs")
      as "[[%Hk Ht] Hclose]"; [done..|].
    cbn in Hk. subst key. cbn [snd].
    rewrite (take_S_r _ _ _ Hkt) text_writes_snoc.
    iApply wps_bind. iApply (wps_get_type with "Ht"); [done|].
    iIntros (r Hr) "Ht". rewrite Hr.
    destruct (is_text t) eqn:Htext.
    - destruct Hcontent as [c Hc]; [done|].
      iApply wps_bind. iApply (wps_get_content with "Ht"); [done|].
      iIntros "Ht". iApply (wps_set_prop with "Hli"). iIntros "Hli".
      unfold content_val. rewrite Hc. iFrame "Hli". iApply "Hclose".
      by iFrame.
    - iApply wps_ret. iFrame "Hli". iApply "Hclose". by iFrame. }
  iIntros ([]) "[Hfs Hli]". rewrite -Hlen firstn_all.
  iApply ("HΦ" with "Hlsch Hfs Hli").
Qed.
End fill_rules.

(** * The pagination branch on a template that fulfils [page_ok] *)

Section fill_pages.
Context `{!gen_heapGS loc cell Σ}.

Lemma pages_inv_step rows sfs lt tps ls lsch sps ovs li ltd j :
  alookup "schemas" tps = Some (VRef ls) -> page_ok sfs = true ->
  pages_inv rows sfs lt tps ls lsch sps ovs li ltd j ⊢
  wps (add_page (VRef lt) (VRef lsch) (VRef li) (VRef ltd)
         (map (fun k => default VUndef (alookup k sps)) header_keys)
         (map (fun k => default VUndef (alookup k sps)) footer_keys)
         (pages_for rows) (S j))
      (fun _ => pages_inv rows sfs lt tps ls lsch sps ovs li ltd (S j)).
Proof.
  intros Hs Hok. pose proof (page_ready_moved _ Hok) as Hready.
  iIntros "(Hlt & Hlsch & Hfs & Hli & Hnew & Htd)".
  iDestruct "Hnew" as (nvs <-) "[Hls Hnvs]".
  iDestruct "Htd" as (tvs) "[Hltd Hrest]".
  iApply (wps_add_page with "Hlt Hls Hlsch Hfs Hli Hltd Hrest"); [done..|].
  iIntros (vo) "Hlt Hls Hvo Hlsch Hfs Hli Hltd Hrest".
  unfold pages_inv. iFrame "Hlt Hlsch Hfs".
  rewrite !seq_S !map_app concat_app awrites_app. cbn [map concat].
  rewrite app_nil_r. unfold page_writes.
  replace (1 + length nvs - 1) with (length nvs) by lia.
  change (1 + length nvs) with (S (length nvs)). iFrame "Hli".
  iSplitR "Hltd Hrest".
  - iExists (nvs ++ [vo]). rewrite length_app. iFrame "Hls".
    iSplit; [iPureIntro; cbn; lia|].
    iApply (big_sepL2_snoc with "[$Hnvs $Hvo]").
  - iExists _. iFrame "Hltd". rewrite drop_drop.
    replace (PAGE_2_TABLE_ROWS_MAX * S (length nvs))
      with (PAGE_2_TABLE_ROWS_MAX * length nvs + PAGE_2_TABLE_ROWS_MAX)
      by lia.
    done.
Qed.

(** The branch for a table of more than four rows.  The continuation
    receives the first page, opened, and [inputs]; closing the page again
    gives the expanded document. *)
Lemma wps_fill_pages rows t sfs v (Φ : value * value -> iProp Σ) :
  first_page t = Some sfs -> page_ok sfs = true ->
  PAGE_1_TABLE_ROWS_MAX < rows ->
  is_tree t v -∗
  (∀ lsch sps li,
     lsch ↦ CObj sps -∗ are_fields (page1_paginated rows sfs) sps -∗
     li ↦ CObj (paginated_inputs rows sfs) -∗
     (lsch ↦ CObj sps -∗ are_fields (page1_paginated rows sfs) sps -∗
      is_tree (paginated_template rows t) v) -∗
     Φ (VRef lsch, VRef li)) -∗
  wps (fill_pages rows v) Φ.
Proof.
  intros Hfirst Hok Hrows. iIntros "Ht HΦ".
  destruct (page_ok_inv _ Hok) as (Hmov & _ & _ & _).
  apply Forall_app in Hmov as [_ Hmov].
  apply Forall_app in Hmov as [Hfoot _].
  unfold first_page in Hfirst. destruct t as [| | | | |tfs]; try done.
  destruct (alookup "schemas" tfs)
    as [[| | | |[|[| | | | |sfs'] others]|]|] eqn:Hsch; try done.
  injection Hfirst as ->.
  unfold paginated_template. rewrite Hsch. cbn [paginated_schemas].
  iDestruct (is_tree_obj_borrow _ _ _ _ Hsch with "Ht")
    as (lt tps vs [-> Hvs]) "(Hlt & Hpages & Hclose)".
  iDestruct (is_tree_arr with "Hpages") as (ls svs ->) "[Hls Hsvs]".
  iDestruct (big_sepL2_cons_inv_l with "Hsvs")
    as (vsch ovs ->) "[Hpage Hothers]".
  iDestruct (is_tree_obj with "Hpage") as (lsch sps [-> Hnd]) "[Hlsch Hfs]".
  unfold fill_pages.
  iApply wps_bind. iApply (wps_get_prop with "Hlt"). iIntros "Hlt".
  rewrite Hvs. cbn [default].
  iApply wps_bind. iApply (wps_get_index with "Hls"). iIntros "Hls".
  change ((VRef lsch :: ovs) !! 0) with (Some (VRef lsch)). cbn [default].
  iApply wps_bind. iApply wps_alloc. iIntros (li) "Hli".
  iApply wps_bind. iApply wps_make_tableData. iIntros (ltd tvs) "Hltd Htable".
  iDestruct (big_sepL2_length with "Htable") as %Htvs.
  rewrite table_tree_length in Htvs.
  iApply wps_bind. iApply (wps_get_props with "Hlsch"). iIntros "Hlsch".
  iApply wps_bind. iApply (wps_get_props with "Hlsch"). iIntros "Hlsch".
  iApply wps_bind. iApply (wps_array_length with "Hltd"). iIntros "Hltd".
  rewrite -Htvs.
  destruct (Nat.ltb_spec PAGE_1_TABLE_ROWS_MAX rows) as [_|]; [|lia].
  iApply wps_bind.
  iDestruct (are_trees_split PAGE_1_TABLE_ROWS_MAX with "Htable")
    as "[Hfirst Hrest]".
  iApply wps_bind. iApply (wps_splice with "Hltd").
  iIntros (lfirst) "Hltd Hlfirst".
  iApply wps_bind.
  iApply (wps_stringify _
            (JArr (take PAGE_1_TABLE_ROWS_MAX (table_tree rows)))
           with "[Hlfirst Hfirst]").
  { rewrite is_tree_arr. iExists lfirst, _. by iFrame. }
  iIntros "_".
  iApply wps_bind. iApply (wps_set_prop with "Hli"). iIntros "Hli".
  iApply wps_bind.
  iApply (wps_setFooterPositions_page with "Hfs"); [done..|]. iIntros "Hfs".
  change (move_all _ _ sfs) with (page1_moved sfs).
  iApply wps_bind. iApply (wps_array_length with "Hltd"). iIntros "Hltd".
  rewrite length_drop -Htvs.
  change (ceil_div _ _) with (pages_for rows).
  iApply wps_bind.
  iApply (wps_wand with "[Hlt Hls Hlsch Hfs Hli Hltd Hrest]").
  { iApply (wps_iterM _
              (pages_inv rows sfs lt tps ls lsch sps ovs li ltd)
             with "[Hlt Hls Hlsch Hfs Hli Hltd Hrest]").
    - intros j x [-> Hj]%lookup_seq. by apply pages_inv_step.
    - unfold pages_inv. iFrame "Hlt Hlsch Hfs Hli". iSplitL "Hls".
      + iExists []. iFrame "Hls". iSplit; [done|]. by unfold are_trees.
      + iExists _. iFrame "Hltd". by rewrite Nat.mul_0_r. }
  iIntros ([]) "(Hlt & Hlsch & Hfs & Hli & Hnew & _)". rewrite length_seq.
  iDestruct "Hnew" as (nvs Hnvs) "[Hls Hnvs]".
  iApply wps_bind. iApply (wps_get_prop with "Hlsch"). iIntros "Hlsch".
  iApply wps_bind. iApply (wps_set_prop with "Hli"). iIntros "Hli".
  iApply (wps_set_content with "Hfs").
  { apply movable_move_all.
    by apply (proj1 (Forall_lookup _ _) Hfoot 3 "pages"%string). }
  iIntros "Hfs". iApply wps_ret.
  iApply ("HΦ" with "Hlsch Hfs [Hli] [-]").
  - unfold paginated_inputs. by rewrite !awrites_app.
  - iIntros "Hlsch Hfs". iApply ("Hclose" with "Hlt"). rewrite is_tree_arr.
    iExists ls, _. iFrame "Hls". iSplit; [done|].
    iDestruct (are_trees_split (pages_for rows) with "Hothers")
      as "[_ Hothers]".
    unfold are_trees. rewrite big_sepL2_cons. iSplitL "Hlsch Hfs".
    + rewrite is_tree_obj. iExists lsch, sps. iFrame "Hlsch Hfs".
      iPureIntro. split; [done|]. by rewrite page1_paginated_keys.
    + iApply (big_sepL2_app with "Hnvs Hothers").
Qed.

(** The branch for a table of at most four rows: no page is added. *)
Lemma wps_fill_pages_short rows t sfs v (Φ : value * value -> iProp Σ) :
  first_page t = Some sfs ->
  Forall (fun k => movable (field k sfs) = true) footer_keys ->
  rows <= PAGE_1_TABLE_ROWS_MAX ->
  is_tree t v -∗
  (∀ lsch sps li,
     lsch ↦ CObj sps -∗ are_fields (short_page1 rows sfs) sps -∗
     li ↦ CObj (short_inputs rows) -∗
     (lsch ↦ CObj sps -∗ are_fields (short_page1 rows sfs) sps -∗
      is_tree (short_template rows t) v) -∗
     Φ (VRef lsch, VRef li)) -∗
  wps (fill_pages rows v) Φ.
Proof.
  intros Hfirst Hfoot Hrows. iIntros "Ht HΦ".
  unfold first_page in Hfirst. destruct t as [| | | | |tfs]; try done.
  destruct (alookup "schemas" tfs)
    as [[| | | |[|[| | | | |sfs'] others]|]|] eqn:Hsch; try done.
  injection Hfirst as ->.
  unfold short_template. rewrite Hsch.
  iDestruct (is_tree_obj_borrow _ _ _ _ Hsch with "Ht")
    as (lt tps vs [-> Hvs]) "(Hlt & Hpages & Hclose)".
  iDestruct (is_tree_arr with "Hpages") as (ls svs ->) "[Hls Hsvs]".
  iDestruct (big_sepL2_cons_inv_l with "Hsvs")
    as (vsch ovs ->) "[Hpage Hothers]".
  iDestruct (is_tree_obj with "Hpage") as (lsch sps [-> Hnd]) "[Hlsch Hfs]".
  unfold fill_pages.
  iApply wps_bind. iApply (wps_get_prop with "Hlt"). iIntros "Hlt".
  rewrite Hvs. cbn [default].
  iApply wps_bind. iApply (wps_get_index with "Hls"). iIntros "Hls".
  change ((VRef lsch :: ovs) !! 0) with (Some (VRef lsch)). cbn [default].
  iApply wps_bind. iApply wps_alloc. iIntros (li) "Hli".
  iApply wps_bind. iApply wps_make_tableData. iIntros (ltd tvs) "Hltd Htable".
  iDestruct (big_sepL2_length with "Htable") as %Htvs.
  rewrite table_tree_length in Htvs.
  iApply wps_bind. iApply (wps_get_props with "Hlsch"). iIntros "Hlsch".
  iApply wps_bind. iApply (wps_get_props with "Hlsch"). iIntros "Hlsch".
  iApply wps_bind. iApply (wps_array_length with "Hltd"). iIntros "Hltd".
  rewrite -Htvs.
  destruct (Nat.ltb_spec PAGE_1_TABLE_ROWS_MAX rows) as [|_]; [lia|].
  iApply wps_bind. iApply wps_bind.
  iApply (wps_stringify _ (JArr (table_tree rows)) with "[Hltd Htable]").
  { rewrite is_tree_arr. iExists ltd, _. by iFrame. }
  iIntros "_".
  iApply wps_bind. iApply (wps_set_prop with "Hli"). iIntros "Hli".
  iApply wps_bind.
  iApply (wps_setFooterPositions_page with "Hfs"); [done..|]. iIntros "Hfs".
  iApply (wps_set_prop with "Hli"). iIntros "Hli". iApply wps_ret.
  iApply ("HΦ" with "Hlsch Hfs Hli"). iIntros "Hlsch Hfs".
  iApply ("Hclose" with "Hlt"). rewrite is_tree_arr.
  iExists ls, _. iFrame "Hls". iSplit; [done|].
  unfold are_trees. rewrite big_sepL2_cons. iFrame "Hothers".
  rewrite is_tree_obj. iExists lsch, sps. iFrame "Hlsch Hfs".
  iPureIntro. split; [done|]. unfold short_page1. by rewrite move_all_keys.
Qed.
End fill_pages.

(** * Runs of the generate handler on a template that fulfils [page_ok] *)

Lemma page_json_of `{!gen_heapGS loc cell Σ} h fs l ps :
  NoDup (map fst fs) ->
  gen_heap_interp (heap_map h) -∗ l ↦ CObj ps -∗ are_fields fs ps -∗
  ⌜json_of h (VRef l) = Some (JObj fs)⌝.
Proof.
  intros Hnd. iIntros "Hh Hl Hfs".
  iApply (is_tree_json_of with "Hh"). rewrite is_tree_obj.
  iExists l, ps. by iFrame.
Qed.

(** The pagination routine, for a table of more than four rows: it
    returns; the snapshot reads as the expanded document, its first page
    as [page1_paginated]; [inputs] holds [paginated_inputs]. *)
Lemma paginate_run rows st t sfs :
  doc_json st t -> first_page t = Some sfs -> page_ok sfs = true ->
  PAGE_1_TABLE_ROWS_MAX < rows ->
  exists templateJSON lsch li h',
    paginate rows st (app_heap st)
    = (h', Ok (templateJSON, VRef lsch, VRef li))
    /\ json_of h' templateJSON = Some (paginated_template rows t)
    /\ json_of h' (VRef lsch) = Some (JObj (page1_paginated rows sfs))
    /\ h' !! li = Some (CObj (paginated_inputs rows sfs))
    /\ cells_kept (app_heap st) h'.
Proof.
  intros Hdoc Hfirst Hok Hrows.
  pose proof (json_of_wf _ _ _ Hdoc) as Hwf.
  destruct (wps_run
    (templateJSON ← alloc_tree t;
     '(schema, inputs) ← fill_pages rows templateJSON;
     mret (templateJSON, schema, inputs))
    (app_heap st)
    (fun h' a => exists lsch li,
       a = (a.1.1, VRef lsch, VRef li)
       /\ json_of h' a.1.1 = Some (paginated_template rows t)
       /\ json_of h' (VRef lsch) = Some (JObj (page1_paginated rows sfs))
       /\ h' !! li = Some (CObj (paginated_inputs rows sfs))))
    as (a & h' & Hrun & (lsch & li & Ha & Ht & Hs & Hi) & Hkept).
  { intros Hheap. iApply wps_bind. iApply wps_alloc_tree; [done|].
    iIntros (v) "Ht". iApply wps_bind.
    iApply (wps_fill_pages with "Ht"); [done..|].
    iIntros (lsch sps li) "Hlsch Hfs Hli Hclose". iApply wps_ret.
    iIntros (h') "Hh".
    iDestruct (cell_at_lookup with "Hh Hli") as %Hli.
    iDestruct (page_json_of with "Hh Hlsch Hfs") as %Hpage.
    { rewrite page1_paginated_keys. by eapply first_page_NoDup. }
    iSpecialize ("Hclose" with "Hlsch Hfs").
    iDestruct (is_tree_json_of with "Hh Hclose") as %Htpl.
    iPureIntro. by exists lsch, li. }
  exists a.1.1, lsch, li, h'. unfold paginate.
  rewrite (snapshot_run st t
             (fun templateJSON =>
                '(schema, inputs) ← fill_pages rows templateJSON;
                mret (templateJSON, schema, inputs)) Hdoc).
  by rewrite Hrun -Ha.
Qed.

Lemma M_bind_assoc {A B C} (m : M A) (g : A -> M B) (f : B -> M C) h :
  ((m ≫= g) ≫= f) h = (m ≫= (fun x => g x ≫= f)) h.
Proof.
  unfold mbind, M_bind. by destruct (m h) as [h1 [a|e]].
Qed.

Lemma M_bind_ext {A B} (m : M A) (f g : A -> M B) h :
  (forall a h', f a h' = g a h') -> (m ≫= f) h = (m ≫= g) h.
Proof.
  intros Hfg. unfold mbind, M_bind. by destruct (m h) as [h1 [a|e]].
Qed.

(** The handler up to the call of the generator, for a table of more
    than four rows: after the pagination, the text fields of the first
    page give their contents to [inputs]. *)
Lemma generate_fill_run rows st t sfs :
  doc_json st t -> first_page t = Some sfs -> page_ok sfs = true ->
  PAGE_1_TABLE_ROWS_MAX < rows ->
  exists templateJSON li h',
    generate_fill rows st (app_heap st) = (h', Ok (templateJSON, VRef li))
    /\ json_of h' templateJSON = Some (paginated_template rows t)
    /\ h' !! li
       = Some (CObj (text_writes (paginated_inputs rows sfs)
                       (page1_paginated rows sfs)))
    /\ cells_kept (app_heap st) h'.
Proof.
  intros Hdoc Hfirst Hok Hrows.
  pose proof (json_of_wf _ _ _ Hdoc) as Hwf.
  destruct (wps_run
    (templateJSON ← alloc_tree t;
     '(schema, inputs) ← fill_pages rows templateJSON;
     _ ← copy_text_fields schema inputs;
     mret (templateJSON, inputs))
    (app_heap st)
    (fun h' a => exists li,
       a = (a.1, VRef li)
       /\ json_of h' a.1 = Some (paginated_template rows t)
       /\ h' !! li
          = Some (CObj (text_writes (paginated_inputs rows sfs)
                          (page1_paginated rows sfs)))))
    as (a & h' & Hrun & (li & Ha & Ht & Hi) & Hkept).
  { intros Hheap. iApply wps_bind. iApply wps_alloc_tree; [done|].
    iIntros (v) "Ht". iApply wps_bind.
    iApply (wps_fill_pages with "Ht"); [done..|].
    iIntros (lsch sps li) "Hlsch Hfs Hli Hclose". iApply wps_bind.
    iApply (wps_copy_text_fields with "Hlsch Hfs Hli").
    { by apply text_ready_paginated. }
    iIntros "Hlsch Hfs Hli". iApply wps_ret. iIntros (h') "Hh".
    iDestruct (cell_at_lookup with "Hh Hli") as %Hli.
    iSpecialize ("Hclose" with "Hlsch Hfs").
    iDestruct (is_tree_json_of with "Hh Hclose") as %Htpl.
    iPureIntro. by exists li. }
  exists a.1, li, h'. rewrite -Ha -Hrun. split; [|done].
  unfold generate_fill, paginate.
  rewrite M_bind_assoc.
  etrans; [apply M_bind_ext; intros text h0; apply M_bind_assoc|].
  rewrite (snapshot_run st t _ Hdoc).
  apply M_bind_ext. intros templateJSON h1. rewrite M_bind_assoc.
  apply M_bind_ext. by intros [schema inputs] h2.
Qed.

(** The same, for the click handler. *)
Lemma generate_click_run rows st t sfs :
  doc_json st t -> first_page t = Some sfs -> page_ok sfs = true ->
  PAGE_1_TABLE_ROWS_MAX < rows ->
  exists st' templateJSON li,
    generate_click_rows rows st = (st', Ok tt)
    /\ generated st' = generated st ++ [(templateJSON, VRef li)]
    /\ json_of (app_heap st') templateJSON = Some (paginated_template rows t)
    /\ app_heap st' !! li
       = Some (CObj (text_writes (paginated_inputs rows sfs)
                       (page1_paginated rows sfs)))
    /\ console st' = console st.
Proof.
  intros Hdoc Hfirst Hok Hrows.
  destruct (generate_fill_run rows st t sfs Hdoc Hfirst Hok Hrows)
    as (templateJSON & li & h' & Hrun & Ht & Hi & _).
  unfold generate_click_rows, run. rewrite Hrun.
  by exists (call_generate templateJSON (VRef li) (with_heap h' st)),
    templateJSON, li.
Qed.

(** The sample table as main.ts builds it. *)
Lemma make_tableData_run rows h :
  exists v h',
    make_tableData rows h = (h', Ok v)
    /\ json_of h' v = Some (JArr (table_tree rows))
    /\ cells_kept h h'.
Proof.
  destruct (wps_run (make_tableData rows) h
              (fun h' v => json_of h' v = Some (JArr (table_tree rows))))
    as (v & h' & Hrun & Hv & Hkept).
  { intros Hheap. iApply wps_make_tableData. iIntros (l vs) "Hl Hvs".
    iIntros (h') "Hh". iApply (is_tree_json_of with "Hh").
    rewrite is_tree_arr. iExists l, vs. by iFrame. }
  by exists v, h'.
Qed.

(** The handler for a table of at most four rows: the snapshot with the
    footers of its first page moved, and the value map after the loop
    over the text fields. *)
Lemma generate_click_short_run rows st t sfs :
  doc_json st t -> first_page t = Some sfs -> page_ok sfs = true ->
  rows <= PAGE_1_TABLE_ROWS_MAX ->
  exists st' templateJSON li,
    generate_click_rows rows st = (st', Ok tt)
    /\ generated st' = generated st ++ [(templateJSON, VRef li)]
    /\ json_of (app_heap st') templateJSON = Some (short_template rows t)
    /\ app_heap st' !! li
       = Some (CObj (text_writes (short_inputs rows) (short_page1 rows sfs)))
    /\ console st' = console st.
Proof.
  intros Hdoc Hfirst Hok Hrows.
  pose proof (json_of_wf _ _ _ Hdoc) as Hwf.
  destruct (page_ok_inv _ Hok) as (Hmov & _ & _ & Htext).
  apply Forall_app in Hmov as [_ Hmov].
  apply Forall_app in Hmov as [Hfoot _].
  destruct (wps_run
    (templateJSON ← alloc_tree t;
     '(schema, inputs) ← fill_pages rows templateJSON;
     _ ← copy_text_fields schema inputs;
     mret (templateJSON, inputs))
    (app_heap st)
    (fun h' a => exists li,
       a = (a.1, VRef li)
       /\ json_of h' a.1 = Some (short_template rows t)
       /\ h' !! li
          = Some (CObj (text_writes (short_inputs rows)
                          (short_page1 rows sfs)))))
    as (a & h' & Hrun & (li & Ha & Ht & Hi) & Hkept).
  { intros Hheap. iApply wps_bind. iApply wps_alloc_tree; [done|].
    iIntros (v) "Ht". iApply wps_bind.
    iApply (wps_fill_pages_short with "Ht"); [done..|].
    iIntros (lsch sps li) "Hlsch Hfs Hli Hclose". iApply wps_bind.
    iApply (wps_copy_text_fields with "Hlsch Hfs Hli").
    { by apply move_all_text_ready. }
    iIntros "Hlsch Hfs Hli". iApply wps_ret. iIntros (h') "Hh".
    iDestruct (cell_at_lookup with "Hh Hli") as %Hli.
    iSpecialize ("Hclose" with "Hlsch Hfs").
    iDestruct (is_tree_json_of with "Hh Hclose") as %Htpl.
    iPureIntro. by exists li. }
  assert (Hfill : generate_fill rows st (app_heap st) = (h', Ok (a.1, VRef li))).
  { rewrite -Ha -Hrun. unfold generate_fill, paginate.
    rewrite M_bind_assoc.
    etrans; [apply M_bind_ext; intros text h0; apply M_bind_assoc|].
    rewrite (snapshot_run st t _ Hdoc).
    apply M_bind_ext. intros templateJSON h1. rewrite M_bind_assoc.
    apply M_bind_ext. by intros [schema inputs] h2. }
  unfold generate_click_rows, run. rewrite Hfill.
  by exists (call_generate a.1 (VRef li) (with_heap h' st)), a.1, li.
Qed.

(** * The properties of the specification *)

(** ** Import and export *)

(** C5.  Exporting the designer's document (pretty-printed JSON, written
    to a file) and importing the exported text leaves the designer with a
    document that is the same JSON tree as before. *)
Theorem export_import_roundtrip (st : app) (t : json) :
  doc_json st t ->
  exists text st1 st2,
    download_click true st = (st1, Ok tt)
    /\ saved_files st1 = saved_files st ++ [text]
    /\ text = stringify 2 t
    /\ parse text = Some t
    /\ upload_onload text st1 = (st2, Ok tt)
    /\ doc_json st2 t
    /\ console st2 = console st.
Proof.
  intros Hdoc. pose proof (json_of_wf _ _ _ Hdoc) as Hwf.
  destruct (alloc_tree_run t (app_heap st) Hwf) as (v & h' & Hrun & Hv & _).
  exists (stringify 2 t), (write_file (stringify 2 t) st),
    (designer_updateTemplate v (with_heap h' (write_file (stringify 2 t) st))).
  unfold download_click, upload_onload, run.
  rewrite (getTemplateJSONString_run _ _ Hdoc).
  assert (with_heap (app_heap st) st = st) as -> by by destruct st.
  destruct (String.eqb_spec (stringify 2 t) "") as [He|_];
    [by apply stringify_nonempty in He|].
  unfold JSON_parse. rewrite parse_stringify //. cbn [write_file app_heap].
  rewrite Hrun. done.
Qed.

Lemma export_import_roundtrip_witness :
  doc_json sample_app sample_template
  /\ exists text st1 st2,
       download_click true sample_app = (st1, Ok tt)
       /\ saved_files st1 = saved_files sample_app ++ [text]
       /\ text = stringify 2 sample_template
       /\ parse text = Some sample_template
       /\ upload_onload text st1 = (st2, Ok tt)
       /\ doc_json st2 sample_template
       /\ console st2 = console sample_app.
Proof.
  assert (H : doc_json sample_app sample_template) by (vm_compute; reflexivity).
  split; [exact H | exact (export_import_roundtrip sample_app sample_template H)].
Defined.

(** C6.  When the text of an uploaded file is not valid JSON, the upload
    handler returns normally, the designer's document and the heap are
    what they were, and the only trace is the logged parse error (no
    trace at all for an empty file, which the handler ignores). *)
Theorem upload_invalid_json (text : string) (st : app) :
  parse text = None ->
  exists st',
    upload_onload text st = (st', Ok tt)
    /\ designer_template st' = designer_template st
    /\ app_heap st' = app_heap st
    /\ localStorage st' = localStorage st
    /\ console st' = console st ++
         (if String.eqb text "" then [] else ["JSON Parsing Error:"%string]).
Proof.
  intros Hp. unfold upload_onload.
  destruct (String.eqb text "").
  - exists st. by rewrite app_nil_r.
  - unfold run, JSON_parse. rewrite Hp. cbn. eexists. split; [done|].
    by destruct st.
Qed.

Lemma upload_invalid_json_witness :
  parse "{ schemas: oops" = None
  /\ exists st',
       upload_onload "{ schemas: oops" sample_app = (st', Ok tt)
       /\ designer_template st' = designer_template sample_app
       /\ app_heap st' = app_heap sample_app
       /\ localStorage st' = localStorage sample_app
       /\ console st' = console sample_app ++ ["JSON Parsing Error:"%string].
Proof.
  assert (H : parse "{ schemas: oops" = None) by reflexivity.
  split; [exact H | exact (upload_invalid_json _ sample_app H)].
Defined.

(** ** The padding inputs *)

(** C7.  When the document's base-document reference holds a padding
    tuple of four components, a change event of the top input with the
    value 12 leaves the designer with the same document except that
    component 0 of the padding is 12. *)
Theorem padding_top_change (st : app) (t a b c e : json) :
  doc_json st t ->
  padding_of t = Some [a; b; c; e] ->
  exists st' t',
    padding_change 0 "12" st = (st', Ok tt)
    /\ doc_json st' t'
    /\ set_padding 0 (dec_of_Z 12) t = Some t'
    /\ padding_of t' = Some [num 12; b; c; e].
Proof.
  intros Hdoc Hpad.
  assert (exists t', set_padding 0 (dec_of_Z 12) t = Some t'
                     /\ padding_of t' = Some [num 12; b; c; e])
    as (t' & Hset & Hpad').
  { unfold padding_of in Hpad. unfold set_padding.
    destruct t as [| | | | |fs]; try done.
    destruct (alookup "basePdf" fs) as [[| | | | |bfs]|] eqn:Hb; try done.
    destruct (alookup "padding" bfs) as [[| | | |ps|]|] eqn:Hp; try done.
    injection Hpad as ->. eexists. split; [done|]. cbn.
    by rewrite !alookup_aset_eq. }
  destruct (padding_change_run 0 "12" (dec_of_Z 12) st t t' Hdoc eq_refl Hset)
    as (st' & Hrun & Hdoc' & _).
  by exists st', t'.
Qed.

Lemma padding_top_change_witness :
  doc_json sample_app sample_template
  /\ padding_of sample_template = Some [num 0; num 5; num 0; num 5]
  /\ exists st' t',
       padding_change 0 "12" sample_app = (st', Ok tt)
       /\ doc_json st' t'
       /\ set_padding 0 (dec_of_Z 12) sample_template = Some t'
       /\ padding_of t' = Some [num 12; num 5; num 0; num 5].
Proof.
  assert (H : doc_json sample_app sample_template) by (vm_compute; reflexivity).
  assert (Hp : padding_of sample_template = Some [num 0; num 5; num 0; num 5])
    by reflexivity.
  split; [exact H|]. split; [exact Hp|].
  exact (padding_top_change sample_app sample_template _ _ _ _ H Hp).
Defined.

(** ** Autosave *)

(** C8 with the presence of the key as the condition does not hold: when
    the store holds the key [autosave] with the empty string, the key is
    present and the checkbox starts unchecked. *)
Lemma autosave_present_but_unchecked :
  ~ (autosave_checked
       (fst (startup JNull {[ "autosave"%string := ""%string ]})) = true
     <-> is_Some (({[ "autosave"%string := ""%string ]} : gmap string string)
                  !! "autosave"%string)).
Proof.
  intros [_ H]. assert (Hfalse : false = true); [|discriminate Hfalse].
  apply H. by eexists.
Qed.

(** C8, amended.  After a start-up that completes, the checkbox is
    checked exactly when the store holds a non-empty string under
    [autosave]; while it is checked, a change event of the widget stores
    the text of the current document under [template]; while it is
    unchecked, a change event of the widget changes nothing. *)
Theorem autosave_mirror :
  (forall BLANK_PDF ls st,
     startup BLANK_PDF ls = (st, Ok tt) ->
     autosave_checked st = true
     <-> exists s, ls !! "autosave"%string = Some s /\ s <> ""%string)
  /\ (forall st t,
        doc_json st t -> autosave_checked st = true ->
        onChangeTemplate st
        = (with_localStorage
             (<["template"%string := stringify 2 t]> (localStorage st)) st,
           Ok tt)
        /\ parse (stringify 2 t) = Some t)
  /\ (forall st, autosave_checked st = false -> onChangeTemplate st = (st, Ok tt)).
Proof.
  split; [|split].
  - intros BLANK_PDF ls st. unfold startup.
    destruct (run _ _) as [st1 [v|e]]; [|done]. unfold run at 1.
    destruct (padding_inputs_init v _) as [h [texts|e]]; [|done].
    intros [= <-]. cbn.
    unfold autosave_initial. destruct (ls !! "autosave"%string) as [s|].
    + destruct (String.eqb_spec s "") as [->|Hne]; cbn.
      * split; [done|]. by intros (s & [= <-] & Hs).
      * split; [eauto|done].
    + split; [done|]. by intros (s & [=] & _).
  - intros st t Hdoc Hchecked. split.
    + unfold onChangeTemplate, saveTemplate, run. rewrite Hchecked.
      rewrite (getTemplateJSONString_run _ _ Hdoc).
      by assert (with_heap (app_heap st) st = st) as -> by by destruct st.
    + apply parse_stringify. by eapply json_of_wf.
  - intros st Hunchecked. unfold onChangeTemplate. by rewrite Hunchecked.
Qed.

Lemma autosave_mirror_witness :
  let st := fst (autosave_change true sample_app) in
  doc_json st sample_template /\ autosave_checked st = true
  /\ onChangeTemplate st
     = (with_localStorage
          (<["template"%string := stringify 2 sample_template]>
             (localStorage st)) st,
        Ok tt).
Proof.
  assert (H : doc_json (fst (autosave_change true sample_app)) sample_template)
    by (vm_compute; reflexivity).
  split; [exact H|]. split; [reflexivity|].
  exact (proj1 (proj1 (proj2 autosave_mirror) _ _ H eq_refl)).
Defined.

(** ** The generate button: the snapshot *)

(** C4.  The generate handler returns normally and leaves the designer's
    document alone: the designer holds the same reference, every cell of
    the heap the handler started in is unchanged (the heap is only
    extended, by cells that refer to no older cell), so the document
    reads as the same tree; what goes to the generator is made of new
    cells only. *)
Theorem generate_works_on_snapshot (st : app) :
  exists st',
    generate_click st = (st', Ok tt)
    /\ designer_template st' = designer_template st
    /\ extends (app_heap st) (app_heap st')
    /\ (forall t, doc_json st t -> doc_json st' t)
    /\ (generated st' = generated st
        \/ exists templateJSON inputs,
             generated st' = generated st ++ [(templateJSON, inputs)]
             /\ new_value (app_heap st) templateJSON
             /\ new_value (app_heap st) inputs).
Proof.
  unfold generate_click, generate_click_rows, run.
  destruct (confined_generate_fill 35 st (app_heap st)) as [Hext Hnew];
    [apply extends_refl|].
  destruct (generate_fill 35 st (app_heap st)) as [h' r]. cbn in Hext, Hnew.
  assert (Hdoc : forall t st',
    app_heap st' = h' -> designer_template st' = designer_template st ->
    doc_json st t -> doc_json st' t).
  { intros t st' Hh Hd Hdoc. unfold doc_json. rewrite Hh Hd.
    destruct Hext as (ext & -> & _). by apply json_of_extend. }
  destruct r as [[templateJSON inputs]|e]; eexists; (split; [done|]); cbn.
  - split; [done|]. split; [done|]. split; [by intros; eapply Hdoc|].
    right. exists templateJSON, inputs. split; [done|].
    exact (Hnew (templateJSON, inputs) eq_refl).
  - split; [done|]. split; [done|]. split; [by intros; eapply Hdoc|].
    by left.
Qed.

Lemma generate_works_on_snapshot_witness :
  doc_json sample_app sample_template
  /\ exists st',
       generate_click sample_app = (st', Ok tt)
       /\ designer_template st' = designer_template sample_app
       /\ doc_json st' sample_template.
Proof.
  assert (H : doc_json sample_app sample_template) by (vm_compute; reflexivity).
  split; [exact H|].
  destruct (generate_works_on_snapshot sample_app)
    as (st' & Hrun & Hd & _ & Hdoc & _).
  exists st'. split; [exact Hrun|]. split; [exact Hd|]. exact (Hdoc _ H).
Defined.

(** ** The generate button: pagination *)

(** C1.  With the 35 rows that main.ts builds, on a document whose first
    page fulfils [page_ok] and which has at most six pages: the
    pagination routine returns; ceil((35 - 4) / 7) = 5 pages are added
    behind the first, which makes six; the first page's [pages] label
    and the [pages] value read [Page 1 of 6], and the value for the
    page-count label of the additional page [n] reads [Page n of 6], for
    [n] from 2 to 6.  The handler then gives this document to the
    generator, with a value map where [pages] still reads [Page 1 of 6]
    and every key that is not a member of the first page holds what the
    pagination gave it. *)
Theorem pagination_page_count (st : app) (t : json)
  (sfs : list (string * json)) (others : list json) :
  doc_json st t ->
  schemas_of t = Some (JObj sfs :: others) ->
  page_ok sfs = true ->
  length others <= 5 ->
  ceil_div (35 - PAGE_1_TABLE_ROWS_MAX) PAGE_2_TABLE_ROWS_MAX = 5
  /\ exists templateJSON lsch li h' t' page1 extra ins,
       paginate 35 st (app_heap st)
       = (h', Ok (templateJSON, VRef lsch, VRef li))
       /\ json_of h' templateJSON = Some t'
       /\ json_of h' (VRef lsch) = Some (JObj page1)
       /\ h' !! li = Some (CObj ins)
       /\ schemas_of t' = Some (JObj page1 :: extra)
       /\ extra = map (fun pageI => extra_page (pageI + 1) sfs) (seq 1 5)
       /\ length (JObj page1 :: extra) = 6
       /\ member "content" (field "pages" page1) = Some (JStr "Page 1 of 6")
       /\ alookup "pages" ins = Some (VStr "Page 1 of 6")
       /\ (forall n, 2 <= n <= 6 ->
             alookup (page_key n "footer_el" 4) ins
             = Some (VStr ("Page " +:+ nat_to_string n +:+ " of 6")))
       /\ exists st' generated_template li' ins',
            generate_click st = (st', Ok tt)
            /\ generated st' = generated st ++ [(generated_template, VRef li')]
            /\ json_of (app_heap st') generated_template = Some t'
            /\ app_heap st' !! li' = Some (CObj ins')
            /\ alookup "pages" ins' = Some (VStr "Page 1 of 6")
            /\ forall k, alookup k sfs = None ->
                 alookup k ins' = alookup k ins.
Proof.
  intros Hdoc Hsch Hok Hlen. split; [reflexivity|].
  pose proof (schemas_of_first_page _ _ _ Hsch) as Hfirst.
  destruct (paginate_run 35 st t sfs Hdoc Hfirst Hok)
    as (templateJSON & lsch & li & h' & Hrun & Ht & Hs & Hi & _).
  { unfold PAGE_1_TABLE_ROWS_MAX. lia. }
  exists templateJSON, lsch, li, h', (paginated_template 35 t),
    (page1_paginated 35 sfs),
    (map (fun pageI => extra_page (pageI + 1) sfs) (seq 1 5)),
    (paginated_inputs 35 sfs).
  do 4 (split; [done|]). split; [|split; [done|split; [done|]]].
  - rewrite (schemas_of_paginated 35 _ _ Hsch). cbn [paginated_schemas].
    change (pages_for 35) with 5. rewrite drop_ge; [|done].
    rewrite app_nil_r.
    by rewrite (map_ext _ _ (fun pageI => extra_page_original (pageI + 1) sfs)).
  - split; [|split; [apply inputs_35_pages|]].
    + unfold page1_paginated. rewrite field_aupd_eq; [|done].
      apply member_set_content, movable_move_all.
      destruct (page_ok_inv _ Hok) as (Hmov & _).
      by apply (proj1 (Forall_lookup _ _) Hmov 14).
    + split.
      { intros n Hn.
        destruct (inputs_35_page sfs (n - 1)) as (_ & _ & _ & Hlabel); [lia|].
        replace (n - 1 + 1) with n in Hlabel by lia. exact Hlabel. }
      destruct (generate_click_run 35 st t sfs Hdoc Hfirst Hok)
        as (st' & generated_template & li' & Hclick & Hgen & Ht' & Hi' & _).
      { unfold PAGE_1_TABLE_ROWS_MAX. lia. }
      exists st', generated_template, li',
        (text_writes (paginated_inputs 35 sfs) (page1_paginated 35 sfs)).
      do 4 (split; [done|]). split; [|apply final_35_other].
      apply final_35_pages.
      * eapply first_page_NoDup; [|done]. by eapply json_of_wf.
      * destruct (page_ok_inv _ Hok) as (Hmov & _).
        by apply (proj1 (Forall_lookup _ _) Hmov 14).
Qed.

Lemma pagination_page_count_witness :
  exists templateJSON lsch li h' t' page1 extra ins,
    paginate 35 sample_app (app_heap sample_app)
    = (h', Ok (templateJSON, VRef lsch, VRef li))
    /\ json_of h' templateJSON = Some t'
    /\ json_of h' (VRef lsch) = Some (JObj page1)
    /\ h' !! li = Some (CObj ins)
    /\ schemas_of t' = Some (JObj page1 :: extra)
    /\ extra = map (fun pageI => extra_page (pageI + 1) sample_fields) (seq 1 5)
    /\ length (JObj page1 :: extra) = 6
    /\ member "content" (field "pages" page1) = Some (JStr "Page 1 of 6")
    /\ alookup "pages" ins = Some (VStr "Page 1 of 6")
    /\ (forall n, 2 <= n <= 6 ->
          alookup (page_key n "footer_el" 4) ins
          = Some (VStr ("Page " +:+ nat_to_string n +:+ " of 6")))
    /\ exists st' generated_template li' ins',
         generate_click sample_app = (st', Ok tt)
         /\ generated st'
            = generated sample_app ++ [(generated_template, VRef li')]
         /\ json_of (app_heap st') generated_template = Some t'
         /\ app_heap st' !! li' = Some (CObj ins')
         /\ alookup "pages" ins' = Some (VStr "Page 1 of 6")
         /\ forall k, alookup k sample_fields = None ->
              alookup k ins' = alookup k ins.
Proof.
  apply (pagination_page_count sample_app sample_template sample_fields []).
  - vm_compute; reflexivity.
  - reflexivity.
  - vm_compute; reflexivity.
  - cbn; lia.
Defined.

(** C3.  With the 35 rows of main.ts, on a document whose first page
    fulfils [page_ok]: the page at index [pageI], for [pageI] from 1 to
    5, is page [n = pageI + 1]; its members are exactly, in this order,
    the 11 header elements of the first page under
    [page_n_header_el_1..11] at the heights 10, 20, 22.4, 15, 43, 45, 51,
    65, 69, 69, 77, its 4 footer elements under [page_n_footer_el_1..4]
    at the heights 215, 231, 229, 240, and [field28] to [field114] under
    [page_n_table_hr_1..87] at height 90, each otherwise as on the first
    page.  The value map holds, under the key of the copied table
    element, the JSON text of the next seven rows (or of those left),
    under the keys of the copied period and table-period labels the
    contents of the originals, and the text [Page n of 6] under the key
    of the copied page-count label. *)
Theorem extra_page_contents (st : app) (t : json)
  (sfs : list (string * json)) (others : list json) :
  doc_json st t ->
  schemas_of t = Some (JObj sfs :: others) ->
  page_ok sfs = true ->
  header_ys (dec_of_Z 10)
  = [ dec_of_Z 10; dec_of_Z 20; Dec 224 1; dec_of_Z 15; dec_of_Z 43;
      dec_of_Z 45; dec_of_Z 51; dec_of_Z 65; dec_of_Z 69; dec_of_Z 69;
      dec_of_Z 77 ]
  /\ footer_ys (dec_of_Z 215)
     = [ dec_of_Z 215; dec_of_Z 231; dec_of_Z 229; dec_of_Z 240 ]
  /\ length header_keys = 11 /\ length footer_keys = 4
  /\ length hr_keys = 87
  /\ exists templateJSON lsch li h' t' pages ins,
       paginate 35 st (app_heap st)
       = (h', Ok (templateJSON, VRef lsch, VRef li))
       /\ json_of h' templateJSON = Some t'
       /\ schemas_of t' = Some pages
       /\ h' !! li = Some (CObj ins)
       /\ forall pageI, 1 <= pageI <= 5 ->
            pages !! pageI
            = Some (JObj
                (keyed (pageI + 1) "header_el"
                   (zip_with moved (header_ys (dec_of_Z 10))
                      (map (fun k => field k sfs) header_keys))
                 ++ keyed (pageI + 1) "footer_el"
                      (zip_with moved (footer_ys (dec_of_Z 215))
                         (map (fun k => field k sfs) footer_keys))
                 ++ keyed (pageI + 1) "table_hr"
                      (map (fun k => moved (dec_of_Z 90) (field k sfs))
                           hr_keys)))
            /\ alookup (page_key (pageI + 1) "header_el" 11) ins
               = Some (VStr (stringify 0 (JArr
                   (take 7 (drop (7 * (pageI - 1))
                              (drop 4 (table_tree 35)))))))
            /\ alookup (page_key (pageI + 1) "header_el" 7) ins
               = Some (content_val (field "period" sfs))
            /\ alookup (page_key (pageI + 1) "header_el" 10) ins
               = Some (content_val (field "table_period" sfs))
            /\ alookup (page_key (pageI + 1) "footer_el" 4) ins
               = Some (VStr ("Page " +:+ nat_to_string (pageI + 1)
                             +:+ " of 6")).
Proof.
  intros Hdoc Hsch Hok. do 5 (split; [reflexivity|]).
  pose proof (schemas_of_first_page _ _ _ Hsch) as Hfirst.
  destruct (paginate_run 35 st t sfs Hdoc Hfirst Hok)
    as (templateJSON & lsch & li & h' & Hrun & Ht & Hs & Hi & _).
  { unfold PAGE_1_TABLE_ROWS_MAX. lia. }
  exists templateJSON, lsch, li, h', (paginated_template 35 t),
    (paginated_schemas 35 (JObj sfs :: others)), (paginated_inputs 35 sfs).
  do 2 (split; [done|]). split; [by apply schemas_of_paginated|].
  split; [done|]. intros pageI HpageI. split.
  - cbn [paginated_schemas]. change (pages_for 35) with 5.
    rewrite lookup_cons_ne_0; [|lia]. rewrite lookup_app_l; [|cbn; lia].
    change (map ?f ?l) with (f <$> l) at 1.
    rewrite list_lookup_fmap lookup_seq_lt; [|lia]. cbn [fmap option_fmap option_map].
    replace (1 + pred pageI) with pageI by lia.
    by rewrite extra_page_original extra_page_members.
  - destruct (inputs_35_page sfs pageI HpageI) as (Hc & Hp & Htp & Hl).
    split; [exact Hc|]. split; [|split; [|exact Hl]].
    + rewrite Hp. rewrite page1_content_moved; [done|].
      by apply not_footer_key.
    + rewrite Htp. rewrite page1_content_moved; [done|].
      by apply not_footer_key.
Qed.

Lemma extra_page_contents_witness :
  exists templateJSON lsch li h' t' pages ins,
    paginate 35 sample_app (app_heap sample_app)
    = (h', Ok (templateJSON, VRef lsch, VRef li))
    /\ json_of h' templateJSON = Some t'
    /\ schemas_of t' = Some pages
    /\ h' !! li = Some (CObj ins)
    /\ alookup (page_key 2 "header_el" 7) ins
       = Some (VStr "01.05.2024 - 31.05.2024")
    /\ alookup (page_key 6 "footer_el" 4) ins = Some (VStr "Page 6 of 6").
Proof.
  destruct (extra_page_contents sample_app sample_template sample_fields [])
    as (_ & _ & _ & _ & _ & templateJSON & lsch & li & h' & t' & pages & ins
        & Hrun & Ht & Hs & Hi & Hpages).
  - vm_compute; reflexivity.
  - reflexivity.
  - vm_compute; reflexivity.
  - exists templateJSON, lsch, li, h', t', pages, ins.
    do 4 (split; [assumption|]). split.
    + destruct (Hpages 1 ltac:(lia)) as (_ & _ & H & _). exact H.
    + destruct (Hpages 5 ltac:(lia)) as (_ & _ & _ & _ & H). exact H.
Defined.

(** C9.  The table that main.ts builds has 35 rows.  On a document whose
    first page fulfils [page_ok], the pagination routine hands them out
    in six chunks of 4, 7, 7, 7, 7 and 3 rows: the first under [table],
    chunk [pageI] under the key of the table element copied to the page
    at index [pageI]; each value is a JSON text that parses back to its
    chunk; the chunks, in page order, concatenate to the table. *)
Theorem pagination_partitions_rows (st : app) (t : json)
  (sfs : list (string * json)) (others : list json) :
  doc_json st t ->
  schemas_of t = Some (JObj sfs :: others) ->
  page_ok sfs = true ->
  (forall h, exists v h',
     make_tableData 35 h = (h', Ok v)
     /\ json_of h' v = Some (JArr (table_tree 35)))
  /\ length (table_tree 35) = 35
  /\ exists templateJSON lsch li h' ins chunks,
       paginate 35 st (app_heap st)
       = (h', Ok (templateJSON, VRef lsch, VRef li))
       /\ h' !! li = Some (CObj ins)
       /\ map length chunks = [4; 7; 7; 7; 7; 3]
       /\ concat chunks = table_tree 35
       /\ forall pageI chunk,
            chunks !! pageI = Some chunk ->
            exists text,
              alookup (if pageI is 0 then "table"%string
                       else page_key (pageI + 1) "header_el" 11) ins
              = Some (VStr text)
              /\ parse text = Some (JArr chunk).
Proof.
  intros Hdoc Hsch Hok. split; [|split; [apply table_tree_length|]].
  { intros h. destruct (make_tableData_run 35 h) as (v & h' & Hrun & Hv & _).
    by exists v, h'. }
  pose proof (schemas_of_first_page _ _ _ Hsch) as Hfirst.
  destruct (paginate_run 35 st t sfs Hdoc Hfirst Hok)
    as (templateJSON & lsch & li & h' & Hrun & Ht & Hs & Hi & _).
  { unfold PAGE_1_TABLE_ROWS_MAX. lia. }
  exists templateJSON, lsch, li, h', (paginated_inputs 35 sfs),
    (take 4 (table_tree 35)
     :: map (fun pageI => take 7 (drop (7 * (pageI - 1))
                                    (drop 4 (table_tree 35))))
            (seq 1 5)).
  do 2 (split; [done|]). split; [vm_compute; reflexivity|].
  split; [vm_compute; reflexivity|]. intros pageI chunk Hchunk.
  assert (Hwf : wf_json (JArr chunk) = true).
  { apply list_elem_of_lookup_2 in Hchunk. revert chunk Hchunk.
    apply Forall_forall. repeat constructor; vm_compute; reflexivity. }
  exists (stringify 0 (JArr chunk)). split; [|by apply parse_stringify].
  destruct pageI as [|pageI].
  - injection Hchunk as <-. apply inputs_35_table.
  - cbn [lookup list_lookup] in Hchunk.
    change (map ?f ?l) with (f <$> l) in Hchunk.
    apply list_lookup_fmap_Some in Hchunk as (i & -> & [-> Hi']%lookup_seq).
    destruct (inputs_35_page sfs (1 + pageI)) as (Hc & _); [lia|].
    exact Hc.
Qed.

Lemma pagination_partitions_rows_witness :
  exists templateJSON lsch li h' ins chunks,
    paginate 35 sample_app (app_heap sample_app)
    = (h', Ok (templateJSON, VRef lsch, VRef li))
    /\ h' !! li = Some (CObj ins)
    /\ map length chunks = [4; 7; 7; 7; 7; 3]
    /\ concat chunks = table_tree 35.
Proof.
  destruct (pagination_partitions_rows sample_app sample_template
              sample_fields [])
    as (_ & _ & templateJSON & lsch & li & h' & ins & chunks
        & Hrun & Hi & Hlen & Hcat & _).
  - vm_compute; reflexivity.
  - reflexivity.
  - vm_compute; reflexivity.
  - exists templateJSON, lsch, li, h', ins, chunks.
    exact (conj Hrun (conj Hi (conj Hlen Hcat))).
Defined.

(** C10.  On a document whose first page fulfils [page_ok], the generate
    handler returns and hands the expanded snapshot to the generator.
    Its first page has the members of the original first page, in the
    same order; every member other than the four footer elements is as
    it was, the 11 header elements among them; the footer elements
    [footer_el_1..3] are as they were except for the heights 214, 230 and
    228; [pages] is as it was except for the height 239 and the content
    [Page 1 of 6].  A move changes nothing of an element but [y] in its
    position, a new content nothing but the content. *)
Theorem first_page_frame (st : app) (t : json)
  (sfs : list (string * json)) (others : list json) :
  doc_json st t ->
  schemas_of t = Some (JObj sfs :: others) ->
  page_ok sfs = true ->
  (exists st' templateJSON inputs t' page1 others',
     generate_click st = (st', Ok tt)
     /\ generated st' = generated st ++ [(templateJSON, inputs)]
     /\ json_of (app_heap st') templateJSON = Some t'
     /\ schemas_of t' = Some (JObj page1 :: others')
     /\ map fst page1 = map fst sfs
     /\ (forall k, k ∉ footer_keys -> alookup k page1 = alookup k sfs)
     /\ Forall (fun k => alookup k page1 = alookup k sfs) header_keys
     /\ map (fun k => field k page1) footer_keys
        = [ moved (dec_of_Z 214) (field "footer_el_1" sfs);
            moved (dec_of_Z 230) (field "footer_el_2" sfs);
            moved (dec_of_Z 228) (field "footer_el_3" sfs);
            set_content "Page 1 of 6"
              (moved (dec_of_Z 239) (field "pages" sfs)) ])
  /\ (forall y e k, k <> "position"%string ->
        member k (moved y e) = member k e)
  /\ (forall y e k, k <> "y"%string ->
        member "position" (moved y e) ≫= member k
        = member "position" e ≫= member k)
  /\ (forall s e k, k <> "content"%string ->
        member k (set_content s e) = member k e).
Proof.
  intros Hdoc Hsch Hok.
  split; [|split; [exact member_moved_ne|split;
                   [exact member_moved_position|exact member_set_content_ne]]].
  pose proof (schemas_of_first_page _ _ _ Hsch) as Hfirst.
  destruct (generate_click_run 35 st t sfs Hdoc Hfirst Hok)
    as (st' & templateJSON & li & Hrun & Hgen & Ht & _).
  { unfold PAGE_1_TABLE_ROWS_MAX. lia. }
  assert (Hother : forall k, k ∉ footer_keys ->
            alookup k (page1_paginated 35 sfs) = alookup k sfs).
  { intros k Hk. unfold page1_paginated, page1_moved.
    rewrite alookup_aupd_ne; [by apply alookup_move_all_ne|].
    intros <-. apply Hk. unfold footer_keys. rewrite !elem_of_cons. tauto. }
  exists st', templateJSON, (VRef li), (paginated_template 35 t),
    (page1_paginated 35 sfs),
    (map (fun pageI => extra_page (pageI + 1) (page1_moved sfs))
         (seq 1 (pages_for 35)) ++ drop (pages_for 35) others).
  do 3 (split; [done|]). split; [by rewrite (schemas_of_paginated 35 _ _ Hsch)|].
  split; [apply page1_paginated_keys|]. split; [exact Hother|]. split.
  - apply Forall_forall. intros k Hk. apply Hother, not_footer_key.
    revert k Hk. apply Forall_forall. repeat constructor.
  - unfold page1_paginated, page1_moved, move_all.
    cbn [map zip zip_with footer_keys footer_ys foldl fst snd].
    by repeat field_step.
Qed.

Lemma first_page_frame_witness :
  exists st' templateJSON inputs t' page1 others',
    generate_click sample_app = (st', Ok tt)
    /\ generated st' = generated sample_app ++ [(templateJSON, inputs)]
    /\ json_of (app_heap st') templateJSON = Some t'
    /\ schemas_of t' = Some (JObj page1 :: others')
    /\ map fst page1 = map fst sample_fields.
Proof.
  destruct (first_page_frame sample_app sample_template sample_fields [])
    as [(st' & templateJSON & inputs & t' & page1 & others'
         & Hrun & Hgen & Ht & Hs & Hkeys & _) _].
  - vm_compute; reflexivity.
  - reflexivity.
  - vm_compute; reflexivity.
  - exists st', templateJSON, inputs, t', page1, others'.
    exact (conj Hrun (conj Hgen (conj Ht (conj Hs Hkeys)))).
Defined.

(** ** The generate button: a table of at most four rows *)




(** * Rules for runs that throw *)

Lemma json_null_cases (t : json) : t = JNull \/ t <> JNull.
Proof. destruct t; auto. Qed.

Section throw_rules.
Context `{!gen_heapGS loc cell Σ}.

Lemma wp_throws {A} (m : M A) (e : exn) (Φ : result A -> iProp Σ) :
  (forall h, m h = (h, Throw e)) -> Φ (Throw e) -∗ wp m Φ.
Proof.
  intros Hm. iIntros "HΦ" (h) "Hh". rewrite Hm. iModIntro. by iFrame.
Qed.

Lemma wp_bind_ok {A B} (m : M A) (f : A -> M B) (Φ : result B -> iProp Σ) :
  wps m (fun a => wp (f a) Φ) -∗ wp (m ≫= f) Φ.
Proof.
  iIntros "Hwp" (h) "Hh". iMod ("Hwp" with "Hh") as "[Hh (%a & %Ha & Hf)]".
  unfold mbind, M_bind. destruct (m h) as [h' r]. simpl in *. subst r.
  by iApply "Hf".
Qed.

Lemma wp_bind {A B} (m : M A) (f : A -> M B) (Φ : result B -> iProp Σ) :
  wp m (fun r => match r with
                 | Ok a => wp (f a) Φ
                 | Throw e => Φ (Throw e)
                 end) -∗
  wp (m ≫= f) Φ.
Proof.
  iIntros "Hwp" (h) "Hh". iMod ("Hwp" with "Hh") as "[Hh Hf]".
  unfold mbind, M_bind. destruct (m h) as [h' [a|e]]; simpl.
  - by iApply "Hf".
  - iModIntro. iFrame.
Qed.

(** Reading a member of a value that is a tree. *)
Lemma wps_get_member t v k t' (Φ : value -> iProp Σ) :
  member k t = Some t' ->
  is_tree t v -∗ (∀ v', is_tree t' v' -∗ Φ v') -∗ wps (get_prop v k) Φ.
Proof.
  intros Hk. iIntros "Ht HΦ". destruct t as [| | | | |fs]; try done.
  cbn in Hk.
  iDestruct (is_tree_obj_borrow _ _ _ _ Hk with "Ht")
    as (l ps v' [-> Hv']) "(Hl & Ht' & _)".
  iApply (wps_get_prop with "Hl"). iIntros "_". rewrite Hv'. cbn [default].
  by iApply "HΦ".
Qed.

Lemma wps_get_no_member t v k (Φ : value -> iProp Σ) :
  member k t = None -> t <> JNull -> plain_key k = true ->
  is_tree t v -∗ Φ VUndef -∗ wps (get_prop v k) Φ.
Proof.
  intros Hk Hnull Hplain. iIntros "Ht HΦ".
  apply andb_prop in Hplain as [Hlen Hix]. apply negb_true_iff in Hlen.
  apply negb_true_iff, bool_decide_eq_false in Hix.
  assert (Hnone : index_of_key k = None).
  { destruct (index_of_key k); [|done]. by destruct Hix. }
  destruct t as [|b|d|s|ts|fs]; try done.
  - iDestruct "Ht" as %->. by iApply wps_ret.
  - iDestruct "Ht" as %[-> Hd]. by iApply wps_ret.
  - iDestruct "Ht" as %->. unfold get_prop. rewrite Hlen Hnone.
    by iApply wps_ret.
  - iDestruct (is_tree_arr with "Ht") as (l vs ->) "[Hl Hts]".
    iApply (wps_get_index_prop with "Hl"). iIntros "_".
    unfold array_prop. by rewrite Hlen Hnone.
  - iDestruct (is_tree_obj with "Ht") as (l ps [-> Hnd]) "[Hl Hfs]".
    iDestruct (are_fields_absent _ _ _ Hk with "Hfs") as %Hps.
    iApply (wps_get_prop with "Hl"). iIntros "_". by rewrite Hps.
Qed.

(** A value that is a tree but no array and no object is a primitive. *)
Lemma is_tree_primitive t v :
  match t with JArr _ | JObj _ => False | _ => True end ->
  is_tree t v -∗
  ⌜match v with VNull | VBool _ | VNum _ | VStr _ => True | _ => False end⌝.
Proof.
  intros Ht. iIntros "Hv". destruct t as [|b|d|s|ts|fs]; try done.
  - by iDestruct "Hv" as %->.
  - by iDestruct "Hv" as %->.
  - by iDestruct "Hv" as %[-> _].
  - by iDestruct "Hv" as %->.
Qed.
End throw_rules.

(** From a proof in the logic to a fact about a run, whatever its
    outcome. *)
Lemma wp_run {A} (m : M A) (h : heap) (φ : heap -> result A -> Prop) :
  (forall (Hheap : gen_heapGS loc cell heapΣ),
     ⊢ wp m (fun r => ∀ h', gen_heap_interp (heap_map h') -∗ ⌜φ h' r⌝)%I) ->
  φ (m h).1 (m h).2 /\ cells_kept h (m h).1.
Proof.
  intros Hwp.
  apply (pure_soundness (PROP := iPropI heapΣ)).
  apply uPred.bupd_soundness; [apply _|].
  iMod (gen_heap_init (heap_map h)) as (Hheap) "(Hh & Hcells & _)".
  iPoseProof (Hwp Hheap) as "Hwp".
  iMod ("Hwp" with "Hh") as "[Hh HΦ]".
  iDestruct (old_cells_kept with "Hh Hcells") as %Hkept.
  iDestruct ("HΦ" with "Hh") as %Hφ. iModIntro. iPureIntro. done.
Qed.

(** A heap that keeps the cells of [h] reads every tree of [h] as it
    was. *)
Lemma cells_kept_prefix h h' : cells_kept h h' -> h' = h ++ drop (length h) h'.
Proof.
  intros Hkept. rewrite -{1}(take_drop (length h) h'). f_equal.
  apply list_eq. intros i. destruct (decide (i < length h)) as [Hlt|Hge].
  - rewrite lookup_take_lt; [|done].
    destruct (lookup_lt_is_Some_2 h i Hlt) as [c Hc].
    by rewrite Hc (Hkept _ _ Hc).
  - rewrite (lookup_ge_None_2 h); [|lia].
    apply lookup_ge_None_2. rewrite length_take. lia.
Qed.

Lemma cells_kept_json_of h h' v t :
  cells_kept h h' -> json_of h v = Some t -> json_of h' v = Some t.
Proof.
  intros Hkept Hv. rewrite (cells_kept_prefix _ _ Hkept).
  by apply json_of_extend.
Qed.

(** The body of the generate handler, from the snapshot on. *)
Lemma bind_assoc_M {A B C} (m : M A) (g : A -> M B) (f : B -> M C) h :
  ((m ≫= g) ≫= f) h = (m ≫= (fun x => g x ≫= f)) h.
Proof. unfold mbind, M_bind. by destruct (m h) as [h1 [a|e]]. Qed.

Lemma bind_ext_M {A B} (m : M A) (f g : A -> M B) h :
  (forall a h', f a h' = g a h') -> (m ≫= f) h = (m ≫= g) h.
Proof. intros Hfg. unfold mbind, M_bind. by destruct (m h) as [h1 [a|e]]. Qed.

Lemma generate_fill_snapshot rows st t :
  doc_json st t ->
  generate_fill rows st (app_heap st)
  = (templateJSON ← alloc_tree t;
     '(schema, inputs) ← fill_pages rows templateJSON;
     _ ← copy_text_fields schema inputs;
     mret (templateJSON, inputs)) (app_heap st).
Proof.
  intros Hdoc. unfold generate_fill, paginate.
  rewrite bind_assoc_M.
  etrans; [apply bind_ext_M; intros text h0; apply bind_assoc_M|].
  rewrite (snapshot_run st t _ Hdoc).
  apply bind_ext_M. intros templateJSON h1. rewrite bind_assoc_M.
  apply bind_ext_M. by intros [schema inputs] h2.
Qed.

(** * The value map, key by key *)

(** What the loop over the text fields reads of a member: whether it is
    a text field, and its content. *)
Lemma alookup_aupd_proj {B} (g : json -> B) k k' f fs :
  (forall t, g (f t) = g t) ->
  g <$> alookup k (aupd k' f fs) = g <$> alookup k fs.
Proof.
  intros Hg. destruct (String.eqb_spec k' k) as [->|Hne].
  - rewrite alookup_aupd_eq. destruct (alookup k fs); cbn; [|done].
    by rewrite Hg.
  - by rewrite alookup_aupd_ne.
Qed.

Lemma alookup_move_all_proj {B} (g : json -> B) keys ys k fs :
  (forall y t, g (moved y t) = g t) ->
  g <$> alookup k (move_all keys ys fs) = g <$> alookup k fs.
Proof.
  intros Hg. unfold move_all. revert fs.
  induction (zip keys ys) as [|[k' y] l IH]; intros fs; [done|]. cbn.
  rewrite IH. apply alookup_aupd_proj, Hg.
Qed.

Lemma text_view_moved y t :
  (is_text (moved y t), content_val (moved y t)) = (is_text t, content_val t).
Proof. unfold content_val. by rewrite is_text_moved content_value_moved. Qed.

(** The keys of a sequence of writes. *)
Lemma awrites_keys {A} (ws : list (string * A)) : forall l k,
  k ∈ map fst (awrites l ws) -> k ∈ map fst l \/ k ∈ map fst ws.
Proof.
  induction ws as [|[k' x] ws IH]; intros l k Hk; [by left|].
  cbn in Hk. apply IH in Hk as [Hk|Hk]; [|right; cbn; by right].
  destruct (alookup k' l) eqn:Hl.
  - left. rewrite aset_keys in Hk; [done|by rewrite Hl].
  - rewrite aset_keys_snoc in Hk; [|done].
    apply elem_of_app in Hk as [Hk|Hk]; [by left|].
    apply list_elem_of_singleton in Hk as ->. right. cbn. by left.
Qed.

(** The keys that the pagination branch writes to the value map. *)
Lemma paginated_inputs_keys rows sfs k :
  k ∈ map fst (paginated_inputs rows sfs) ->
  k = "table"%string \/ k = "pages"%string
  \/ exists n part i, k = page_key n part i.
Proof.
  unfold paginated_inputs. intros [Hk|Hk]%awrites_keys.
  { by apply elem_of_nil in Hk. }
  rewrite !map_app in Hk. cbn [map fst] in Hk.
  apply elem_of_app in Hk as [Hk|Hk].
  { apply list_elem_of_singleton in Hk. by left. }
  apply elem_of_app in Hk as [Hk|Hk].
  - right. right. change (map ?f ?l) with (f <$> l) in Hk.
    apply list_elem_of_fmap in Hk as ([k0 x] & -> & Hk).
    apply list_elem_of_In, in_concat in Hk as (ws & Hws & Hk).
    apply list_elem_of_In in Hk. apply in_map_iff in Hws as (pageI & <- & _).
    unfold page_writes, chunk_writes in Hk.
    repeat (apply elem_of_cons in Hk as [[= -> _]|Hk]; [by eauto|]).
    by apply elem_of_nil in Hk.
  - apply list_elem_of_singleton in Hk. right. by left.
Qed.

Lemma short_inputs_keys rows k :
  k ∈ map fst (short_inputs rows) -> k = "table"%string \/ k = "pages"%string.
Proof.
  unfold short_inputs. cbn.
  intros [->|[->|Hk%elem_of_nil]%elem_of_cons]%elem_of_cons; by auto.
Qed.

(** The value map after the loop over a page whose members show the loop
    what the members of [sfs] show, save for [pages]. *)
Lemma text_writes_view base page1 sfs :
  NoDup (map fst page1) ->
  (forall k, k <> "pages"%string ->
     (fun t => (is_text t, content_val t)) <$> alookup k page1
     = (fun t => (is_text t, content_val t)) <$> alookup k sfs) ->
  (forall k t, alookup k sfs = Some t -> is_text t = true ->
     k <> "pages"%string ->
     alookup k (text_writes base page1) = Some (content_val t))
  /\ (forall k, (forall t, alookup k sfs = Some t -> is_text t = false) ->
        k <> "pages"%string ->
        alookup k (text_writes base page1) = alookup k base).
Proof.
  intros Hnd Hview. split.
  - intros k t Hk Ht Hne. specialize (Hview k Hne). rewrite Hk in Hview.
    rewrite alookup_text_writes; [|done].
    destruct (alookup k page1) as [t'|]; [|done]. cbn in Hview.
    injection Hview as Ht' Hc. by rewrite Ht' Ht Hc.
  - intros k Hk Hne. specialize (Hview k Hne).
    rewrite alookup_text_writes; [|done].
    destruct (alookup k page1) as [t'|]; [|done].
    destruct (alookup k sfs) as [t|]; [|done]. cbn in Hview.
    injection Hview as Ht' Hc. by rewrite Ht' (Hk t eq_refl).
Qed.

(** * The generated keys *)

Lemma pr_digits_app fuel : forall n tl,
  pr_digits fuel n tl = pr_digits fuel n [] ++ tl.
Proof.
  induction fuel as [|f IH]; intros n tl; [done|]. cbn [pr_digits].
  destruct (n <? 10)%N; [done|].
  rewrite IH (IH _ [_]). by rewrite -assoc.
Qed.

Lemma pr_N_app n tl : pr_N n tl = pr_N n [] ++ tl.
Proof. apply pr_digits_app. Qed.

Lemma list_ascii_of_string_app (a b : string) :
  list_ascii_of_string (a +:+ b)
  = list_ascii_of_string a ++ list_ascii_of_string b.
Proof. induction a as [|c a IH]; [done|]. simpl. f_equal. exact IH. Qed.

(** A numeral at the head of a text is read back. *)
Lemma parse_int_nat_to_string n (s : string) :
  match s with String c _ => is_digit c = false | EmptyString => True end ->
  parse_int (list_ascii_of_string (nat_to_string n +:+ s))
  = Some (N.of_nat n, list_ascii_of_string s).
Proof.
  intros Hs. rewrite list_ascii_of_string_app. unfold nat_to_string.
  rewrite list_ascii_of_string_of_list_ascii -pr_N_app.
  apply parse_int_pr_N. by destruct s.
Qed.

Lemma list_ascii_of_string_inj (a b : string) :
  list_ascii_of_string a = list_ascii_of_string b -> a = b.
Proof.
  intros H. apply (f_equal string_of_list_ascii) in H.
  by rewrite !string_of_list_ascii_of_string in H.
Qed.

Lemma nat_to_string_head_inj n n' (s s' : string) :
  match s with String c _ => is_digit c = false | EmptyString => True end ->
  match s' with String c _ => is_digit c = false | EmptyString => True end ->
  (nat_to_string n +:+ s = nat_to_string n' +:+ s')%string ->
  n = n' /\ s = s'.
Proof.
  intros Hs Hs' H.
  apply (f_equal (fun x => parse_int (list_ascii_of_string x))) in H.
  rewrite !parse_int_nat_to_string in H; [|done..].
  injection H as Hn Hl. split; [by apply Nat2N.inj|].
  by apply list_ascii_of_string_inj.
Qed.

Lemma nat_to_string_inj n n' : nat_to_string n = nat_to_string n' -> n = n'.
Proof.
  intros H. destruct (nat_to_string_head_inj n n' "" "") as [Hn _]; try done.
  by rewrite H.
Qed.

Lemma append_inj_l (s a b : string) : (s +:+ a = s +:+ b)%string -> a = b.
Proof.
  induction s as [|c s IH]; [done|]. simpl. intros H. injection H as H.
  by apply IH.
Qed.

(** Two generated keys are equal only if they agree in page, family
    and index. *)
Lemma page_key_inj n n' part part' i i' :
  part ∈ page_parts -> part' ∈ page_parts ->
  page_key n part i = page_key n' part' i' ->
  n = n' /\ part = part' /\ i = i'.
Proof.
  intros Hp Hp' H. unfold page_key in H.
  apply (append_inj_l "page_") in H.
  apply nat_to_string_head_inj in H as [-> H]; [|done..].
  split; [done|]. apply (append_inj_l "_") in H.
  unfold page_parts in Hp, Hp'.
  repeat (apply elem_of_cons in Hp as [->|Hp]);
    try (by apply elem_of_nil in Hp);
    repeat (apply elem_of_cons in Hp' as [->|Hp']);
    try (by apply elem_of_nil in Hp');
    try (simpl in H; discriminate H);
    (split; [done|]);
    apply append_inj_l, (append_inj_l "_") in H;
    by apply nat_to_string_inj.
Qed.

Lemma page_key_not_table n part i : page_key n part i <> "table"%string.
Proof. unfold page_key. simpl. discriminate. Qed.

Lemma page_key_not_pages n part i : page_key n part i <> "pages"%string.
Proof. unfold page_key. simpl. discriminate. Qed.

(** ** Writes under distinct keys *)

Lemma awrites_fresh {A} (ws : list (string * A)) : forall l,
  NoDup (map fst (l ++ ws)) -> awrites l ws = l ++ ws.
Proof.
  induction ws as [|[k x] ws IH]; intros l Hnd; [by rewrite app_nil_r|].
  change (awrites l ((k, x) :: ws)) with (awrites (aset k x l) ws).
  rewrite aset_fresh.
  - rewrite IH -assoc //.
  - rewrite map_app in Hnd. apply NoDup_app in Hnd as (_ & Hl & _).
    intros Hk. apply (Hl k Hk). cbn. by left.
Qed.

Lemma alookup_NoDup_elem {A} (l : list (string * A)) k x :
  NoDup (map fst l) -> (k, x) ∈ l -> alookup k l = Some x.
Proof.
  induction l as [|[k' y] l IH]; intros Hnd Hin.
  { by apply elem_of_nil in Hin. }
  cbn in Hnd. apply NoDup_cons in Hnd as [Hk' Hnd]. cbn.
  apply elem_of_cons in Hin as [[= -> ->]|Hin].
  - by rewrite String.eqb_refl.
  - destruct (String.eqb_spec k k') as [->|_]; [|by apply IH].
    destruct Hk'. change (map ?f ?l) with (f <$> l).
    apply list_elem_of_fmap. by exists (k', x).
Qed.

Lemma NoDup_concat_map {A B} (f : A -> list B) (l : list A) :
  NoDup l ->
  (forall x, x ∈ l -> NoDup (f x)) ->
  (forall x y z, x ∈ l -> y ∈ l -> z ∈ f x -> z ∈ f y -> x = y) ->
  NoDup (concat (map f l)).
Proof.
  induction 1 as [|x l Hx Hl IH]; intros Hf Hdisj; [constructor|]. cbn.
  apply NoDup_app. split; [apply Hf; by left|]. split.
  - intros z Hz Hin. apply list_elem_of_In, in_concat in Hin as (zs & Hzs & Hin).
    apply in_map_iff in Hzs as (y & <- & Hy).
    apply list_elem_of_In in Hy, Hin.
    assert (x = y) as -> by (eapply Hdisj; [by left|by right|done..]).
    done.
  - apply IH.
    + intros y Hy. apply Hf. by right.
    + intros y y' z Hy Hy'. apply Hdisj; by right.
Qed.

(** ** The members of an additional page *)

Lemma page_entries_keys n fs :
  map fst (page_entries n fs)
  = map (fun slot => page_key n (fst slot) (snd slot)) page_slots.
Proof. reflexivity. Qed.

Lemma page_slots_NoDup : NoDup page_slots.
Proof. apply (bool_decide_unpack _). vm_compute. reflexivity. Qed.

Lemma page_slots_parts : Forall (fun slot => fst slot ∈ page_parts) page_slots.
Proof. apply (bool_decide_unpack _). vm_compute. reflexivity. Qed.

Lemma page_entries_NoDup n fs : NoDup (map fst (page_entries n fs)).
Proof.
  rewrite page_entries_keys. change (map ?f ?l) with (f <$> l).
  apply NoDup_fmap_2_strong; [|apply page_slots_NoDup].
  intros [p i] [p' i'] Hx Hy H. cbn in H.
  apply page_key_inj in H as (_ & -> & ->); [done|..].
  - exact (proj1 (Forall_forall _ _) page_slots_parts _ Hx).
  - exact (proj1 (Forall_forall _ _) page_slots_parts _ Hy).
Qed.

(** The keys of a page are distinct: the page has exactly the members
    written, in the order of the writes. *)
Lemma extra_page_entries n fs : extra_page n fs = JObj (page_entries n fs).
Proof.
  unfold extra_page. rewrite awrites_fresh; [done|]. apply page_entries_NoDup.
Qed.

(** ** The writes to the value map *)

Lemma page_writes_elem total rest fs pageI k x :
  (k, x) ∈ page_writes total rest fs pageI ->
  exists part i, part ∈ page_parts /\ k = page_key (pageI + 1) part i.
Proof.
  unfold page_writes, chunk_writes, page_parts. intros Hk.
  repeat (apply elem_of_cons in Hk as [[= -> _]|Hk];
          [eexists _, _; split; [|reflexivity];
           rewrite !elem_of_cons; by auto|]).
  by apply elem_of_nil in Hk.
Qed.

Lemma page_writes_NoDup total rest fs pageI :
  NoDup (map fst (page_writes total rest fs pageI)).
Proof.
  assert (Hparts : forall p, p ∈ ["header_el"; "footer_el"]%string ->
                             p ∈ page_parts).
  { intros p. unfold page_parts. rewrite !elem_of_cons. tauto. }
  assert (Hne : forall p i p' i',
            p ∈ ["header_el"; "footer_el"]%string ->
            p' ∈ ["header_el"; "footer_el"]%string ->
            (p, i) <> (p', i') ->
            page_key (pageI + 1) p i <> page_key (pageI + 1) p' i').
  { intros p i p' i' Hp Hp' Hd H.
    apply page_key_inj in H as (_ & -> & ->); auto. }
  unfold page_writes, chunk_writes. cbn [map fst].
  repeat (apply NoDup_cons; split;
          [rewrite !not_elem_of_cons; repeat split;
           try apply not_elem_of_nil;
           apply Hne; rewrite ?elem_of_cons; auto; discriminate|]).
  apply NoDup_singleton.
Qed.

Lemma paginated_writes_NoDup rows sfs :
  NoDup (map fst
    ([("table"%string,
       chunk_text (take PAGE_1_TABLE_ROWS_MAX (table_tree rows)))]
     ++ concat (map (page_writes (pages_for rows + 1)
                       (drop PAGE_1_TABLE_ROWS_MAX (table_tree rows))
                       (page1_moved sfs))
                    (seq 1 (pages_for rows)))
     ++ [("pages"%string, VStr (page_label 1 (pages_for rows + 1)))])).
Proof.
  set (W := page_writes _ _ _).
  assert (Hkeys : forall k, k ∈ map fst (concat (map W (seq 1 (pages_for rows))))
            -> exists pageI part i, part ∈ page_parts
                 /\ k = page_key (pageI + 1) part i).
  { intros k Hk. change (map ?f ?l) with (f <$> l) in Hk at 1.
    apply list_elem_of_fmap in Hk as ([k0 x] & -> & Hk).
    apply list_elem_of_In, in_concat in Hk as (ws & Hws & Hk).
    apply list_elem_of_In in Hk. apply in_map_iff in Hws as (pageI & <- & _).
    apply page_writes_elem in Hk as (part & i & Hp & ->). by eauto. }
  rewrite !map_app. cbn [map fst List.app]. apply NoDup_cons. split.
  { rewrite elem_of_app. intros [Hk|Hk].
    - apply Hkeys in Hk as (pageI & part & i & _ & Hk).
      by eapply page_key_not_table.
    - by apply list_elem_of_singleton in Hk. }
  apply NoDup_app. split; [|split; [|apply NoDup_singleton]].
  - rewrite concat_map map_map. apply NoDup_concat_map.
    + apply NoDup_seq.
    + intros pageI _. apply page_writes_NoDup.
    + intros x y z _ _ Hx Hy.
      change (map ?f ?l) with (f <$> l) in Hx, Hy.
      apply list_elem_of_fmap in Hx as ([k0 x0] & -> & Hx).
      apply list_elem_of_fmap in Hy as ([k1 x1] & Hk & Hy). cbn in Hk.
      subst k1. apply page_writes_elem in Hx as (part & i & Hp & ->).
      apply page_writes_elem in Hy as (part' & i' & Hp' & Hy).
      apply page_key_inj in Hy as (Hn & _); [lia|done..].
  - intros k Hk ->%list_elem_of_singleton.
    apply Hkeys in Hk as (pageI & part & i & _ & Hk).
    by eapply page_key_not_pages.
Qed.

(** What the pagination branch writes under a key is what the value map
    holds under it. *)
Lemma paginated_inputs_written rows sfs k x :
  (k, x) ∈ [("table"%string,
             chunk_text (take PAGE_1_TABLE_ROWS_MAX (table_tree rows)))]
           ++ concat (map (page_writes (pages_for rows + 1)
                             (drop PAGE_1_TABLE_ROWS_MAX (table_tree rows))
                             (page1_moved sfs))
                          (seq 1 (pages_for rows)))
           ++ [("pages"%string, VStr (page_label 1 (pages_for rows + 1)))] ->
  alookup k (paginated_inputs rows sfs) = Some x.
Proof.
  intros Hin. unfold paginated_inputs.
  rewrite awrites_fresh; [|apply paginated_writes_NoDup].
  apply alookup_NoDup_elem; [apply paginated_writes_NoDup|done].
Qed.

Lemma paginated_inputs_page rows sfs pageI k x :
  1 <= pageI <= pages_for rows ->
  (k, x) ∈ page_writes (pages_for rows + 1)
             (drop PAGE_1_TABLE_ROWS_MAX (table_tree rows))
             (page1_moved sfs) pageI ->
  alookup k (paginated_inputs rows sfs) = Some x.
Proof.
  intros HpageI Hin. apply paginated_inputs_written.
  apply elem_of_app. right. apply elem_of_app. left.
  apply list_elem_of_In, in_concat.
  exists (page_writes (pages_for rows + 1)
            (drop PAGE_1_TABLE_ROWS_MAX (table_tree rows))
            (page1_moved sfs) pageI).
  split.
  - apply in_map. apply in_seq. lia.
  - by apply list_elem_of_In.
Qed.

(** ** Chunks *)

Lemma chunks_concat {A} c (k : nat) : forall l : list A,
  length l <= c * k ->
  concat (map (fun j => take c (drop (c * j) l)) (seq 0 k)) = l.
Proof.
  induction k as [|k IH]; intros l Hl.
  { destruct l; [done|cbn in Hl; lia]. }
  cbn [seq map concat]. rewrite Nat.mul_0_r drop_0.
  rewrite -seq_shift map_map.
  rewrite -{3}(take_drop c l). f_equal.
  rewrite -(IH (drop c l)); [|rewrite length_drop; lia].
  f_equal. apply map_ext. intros j. rewrite drop_drop. do 2 f_equal. lia.
Qed.

Lemma ceil_div_7 a :
  a <= PAGE_2_TABLE_ROWS_MAX * ceil_div a PAGE_2_TABLE_ROWS_MAX
  /\ (0 < a ->
      PAGE_2_TABLE_ROWS_MAX * (ceil_div a PAGE_2_TABLE_ROWS_MAX - 1) < a).
Proof.
  unfold ceil_div, PAGE_2_TABLE_ROWS_MAX.
  pose proof (Nat.div_mod_eq (a + (7 - 1)) 7) as Hd.
  pose proof (Nat.mod_upper_bound (a + (7 - 1)) 7) as Hm. lia.
Qed.

(** The chunks of the pages, in page order, are the table; every page
    gets at least one row, the first at most four, the others at most
    seven. *)
Lemma page_rows_concat rows :
  PAGE_1_TABLE_ROWS_MAX < rows ->
  concat (map (page_rows rows) (seq 0 (S (pages_for rows)))) = table_tree rows.
Proof.
  intros Hrows. cbn [seq map concat]. rewrite -seq_shift map_map.
  cbn [page_rows].
  rewrite chunks_concat.
  - apply take_drop.
  - rewrite length_drop table_tree_length. apply ceil_div_7.
Qed.

Lemma page_rows_length rows pageI :
  PAGE_1_TABLE_ROWS_MAX < rows -> pageI <= pages_for rows ->
  1 <= length (page_rows rows pageI)
  <= (if pageI is O then PAGE_1_TABLE_ROWS_MAX else PAGE_2_TABLE_ROWS_MAX).
Proof.
  intros Hrows HpageI. destruct pageI as [|j]; cbn [page_rows].
  - rewrite length_take table_tree_length. unfold PAGE_1_TABLE_ROWS_MAX in *.
    lia.
  - rewrite length_take !length_drop table_tree_length.
    destruct (ceil_div_7 (rows - PAGE_1_TABLE_ROWS_MAX)) as [_ Hlast].
    fold (pages_for rows) in Hlast.
    unfold PAGE_1_TABLE_ROWS_MAX, PAGE_2_TABLE_ROWS_MAX in *. nia.
Qed.

(** * Rules for values that are no JSON trees *)

Section shown_rules.
Context `{!gen_heapGS loc cell Σ}.
Implicit Types (l : loc) (c : cell) (h : heap) (t : json) (v : value).

Lemma is_shown_arr ts v :
  is_shown (JArr ts) v ⊣⊢
  ∃ l vs, ⌜v = VRef l⌝ ∗ l ↦ CArr vs ∗ are_shown ts vs.
Proof.
  cbn [is_shown]. f_equiv. intros l. f_equiv. intros vs. do 2 f_equiv.
  unfold are_shown. revert vs.
  induction ts as [|t ts IH]; intros [|v' vs]; cbn; try done.
  by rewrite IH.
Qed.

Lemma is_shown_obj fs v :
  is_shown (JObj fs) v ⊣⊢
  ∃ l ps, ⌜v = VRef l⌝ ∗ l ↦ CObj ps ∗ are_shown_fields fs ps.
Proof.
  cbn [is_shown]. f_equiv. intros l. f_equiv. intros ps. do 2 f_equiv.
  unfold are_shown_fields. revert ps.
  induction fs as [|[k t] fs IH]; intros [|[k' v'] ps]; cbn; try done.
  by rewrite IH assoc.
Qed.

Lemma are_shown_pure (P : json -> value -> Prop) (R : iProp Σ) ts vs :
  Forall (fun t => forall v, R -∗ is_shown t v -∗ ⌜P t v⌝) ts ->
  R -∗ are_shown ts vs -∗ ⌜Forall2 P ts vs⌝.
Proof.
  intros Hts. iIntros "HR Hts". unfold are_shown.
  iInduction Hts as [|t ts Ht Hts IH] forall (vs).
  - iDestruct (big_sepL2_nil_inv_l with "Hts") as %->. iPureIntro. constructor.
  - iDestruct (big_sepL2_cons_inv_l with "Hts") as (v vs' ->) "[Ht Hts]".
    iDestruct (Ht with "HR Ht") as %HP.
    iDestruct ("IH" with "HR Hts") as %HPs. iPureIntro. by constructor.
Qed.

Lemma are_shown_fields_pure (P : json -> value -> Prop) (R : iProp Σ) fs ps :
  Forall (fun f => forall v, R -∗ is_shown f.2 v -∗ ⌜P f.2 v⌝) fs ->
  R -∗ are_shown_fields fs ps -∗
  ⌜Forall2 (fun f p => f.1 = p.1 /\ P f.2 p.2) fs ps⌝.
Proof.
  intros Hfs. iIntros "HR Hfs". unfold are_shown_fields.
  iInduction Hfs as [|f fs Hf Hfs IH] forall (ps).
  - iDestruct (big_sepL2_nil_inv_l with "Hfs") as %->. iPureIntro. constructor.
  - iDestruct (big_sepL2_cons_inv_l with "Hfs") as (p ps' ->) "[[%Hk Hf] Hfs]".
    iDestruct (Hf with "HR Hf") as %HP.
    iDestruct ("IH" with "HR Hfs") as %HPs. iPureIntro. by constructor.
Qed.

Lemma is_shown_not_undef t v : is_shown t v -∗ ⌜v <> VUndef⌝.
Proof.
  destruct t; cbn [is_shown];
    try (iIntros (H); iPureIntro; by intros ->);
    [iIntros "(%&%&->&_)" | iIntros "(%&%&->&_)"]; done.
Qed.

(** An owned tree is shown as itself. *)
Lemma is_tree_shown t : forall v, is_tree t v -∗ is_shown t v.
Proof.
  induction t as [| b | d | s | ts IH | fs IH] using json_ind'; intros v.
  - by iIntros (->).
  - by iIntros (->).
  - iIntros ([-> Hd]). iPureIntro. cbn. destruct d as [m k].
    by rewrite dec_norm_canon.
  - by iIntros (->).
  - rewrite is_tree_arr is_shown_arr. iIntros "(%l & %vs & -> & Hl & Hts)".
    iExists l, vs. iFrame "Hl". iSplit; [done|].
    unfold are_trees, are_shown.
    iInduction IH as [|t ts Ht Hts IHl] forall (vs).
    + by iDestruct (big_sepL2_nil_inv_l with "Hts") as %->.
    + iDestruct (big_sepL2_cons_inv_l with "Hts") as (v vs' ->) "[Ht Hts]".
      cbn. iSplitL "Ht"; [by iApply Ht|]. by iApply "IHl".
  - rewrite is_tree_obj is_shown_obj.
    iIntros "(%l & %ps & [-> _] & Hl & Hfs)".
    iExists l, ps. iFrame "Hl". iSplit; [done|].
    unfold are_fields, are_shown_fields.
    iInduction IH as [|f fs Hf Hfs IHl] forall (ps).
    + by iDestruct (big_sepL2_nil_inv_l with "Hfs") as %->.
    + iDestruct (big_sepL2_cons_inv_l with "Hfs")
        as (p ps' ->) "[[%Hk Hf] Hfs]".
      cbn. iSplitL "Hf"; [iSplit; [done|]; by iApply Hf|]. by iApply "IHl".
Qed.

(** What the serializer reads below a shown value. *)
Lemma is_shown_to_json h t : forall v,
  gen_heap_interp (heap_map h) -∗ is_shown t v -∗
  ⌜forall n, json_depth t <= n -> to_json false n h v = Some t⌝.
Proof.
  induction t as [| b | d | s | ts IH | fs IH] using json_ind'; intros v;
    try (iIntros "_ %Hp"; iPureIntro; intros n _;
         by destruct v, n; try discriminate Hp).
  - rewrite is_shown_arr. iIntros "Hh (%l & %vs & -> & Hl & Hts)".
    iDestruct (cell_at_lookup with "Hh Hl") as %Hl.
    iDestruct (are_shown_pure (fun t v =>
        v <> VUndef /\ forall n, json_depth t <= n ->
          to_json false n h v = Some t) with "Hh Hts") as %H.
    { eapply Forall_impl; [exact IH|]. iIntros (t Ht v) "Hh Ht".
      iDestruct (is_shown_not_undef with "Ht") as %?.
      iDestruct (Ht with "Hh Ht") as %?. done. }
    iPureIntro. intros [|n] Hn; cbn in Hn; [lia|].
    cbn [to_json]. rewrite Hl (elems_json_Forall2 _ _ ts) //.
    clear Hl IH. induction H as [|t v ts vs [Hv Ht] _ IHl]; constructor;
      change (max_list (map json_depth (t :: ts)))
        with (json_depth t `max` max_list (map json_depth ts)) in Hn.
    + split; [|done]. apply Ht. clear -Hn. lia.
    + apply IHl. clear -Hn. lia.
  - rewrite is_shown_obj. iIntros "Hh (%l & %ps & -> & Hl & Hfs)".
    iDestruct (cell_at_lookup with "Hh Hl") as %Hl.
    iDestruct (are_shown_fields_pure (fun t v =>
        v <> VUndef /\ forall n, json_depth t <= n ->
          to_json false n h v = Some t) with "Hh Hfs") as %H.
    { eapply Forall_impl; [exact IH|]. iIntros (t Ht v) "Hh Ht".
      iDestruct (is_shown_not_undef with "Ht") as %?.
      iDestruct (Ht with "Hh Ht") as %?. done. }
    iPureIntro. intros [|n] Hn; cbn in Hn; [lia|].
    cbn [to_json]. rewrite Hl. cbn [andb].
    rewrite (members_json_Forall2 _ _ fs) //.
    clear Hl IH.
    induction H as [|f p fs ps (Hk & Hv & Ht) _ IHl]; constructor;
      change (max_list (map (fun p => json_depth p.2) (f :: fs)))
        with (json_depth f.2 `max`
              max_list (map (fun p => json_depth p.2) fs)) in Hn.
    + split; [done|]. split; [|done]. apply Ht. clear -Hn. lia.
    + apply IHl. clear -Hn. lia.
Qed.

(** The deepest path of a shown value, as owned cells. *)
Lemma is_shown_path t : forall v,
  is_shown t v -∗
  ∃ ls : list loc, ⌜length ls = json_depth t⌝ ∗ [∗ list] l ∈ ls, ∃ c, l ↦ c.
Proof.
  induction t as [| b | d | s | ts IH | fs IH] using json_ind'; intros v;
    try (iIntros "_"; iExists []; by iSplit).
  - rewrite is_shown_arr. iIntros "(%l & %vs & -> & Hl & Hts)".
    destruct (decide (ts = [])) as [->|Hne].
    { iExists [l]. iSplit; [done|]. cbn. iSplit; [|done]. by iExists _. }
    destruct (max_list_witness json_depth ts Hne) as (i & t & Hi & Hmax).
    iDestruct (big_sepL2_length with "Hts") as %Hlen.
    destruct (lookup_lt_is_Some_2 vs i) as [v Hv].
    { rewrite -Hlen. by eapply lookup_lt_Some. }
    iDestruct (big_sepL2_lookup _ _ _ i with "Hts") as "Ht"; [done..|].
    rewrite Forall_lookup in IH.
    iDestruct (IH _ _ Hi with "Ht") as (ls Hls) "Hls".
    iExists (l :: ls). iSplit; [iPureIntro; cbn; lia|].
    cbn. iFrame "Hls". by iExists _.
  - rewrite is_shown_obj. iIntros "(%l & %ps & -> & Hl & Hfs)".
    destruct (decide (fs = [])) as [->|Hne].
    { iExists [l]. iSplit; [done|]. cbn. iSplit; [|done]. by iExists _. }
    destruct (max_list_witness (fun p => json_depth p.2) fs Hne)
      as (i & f & Hi & Hmax).
    iDestruct (big_sepL2_length with "Hfs") as %Hlen.
    destruct (lookup_lt_is_Some_2 ps i) as [p Hp].
    { rewrite -Hlen. by eapply lookup_lt_Some. }
    iDestruct (big_sepL2_lookup _ _ _ i with "Hfs") as "[_ Ht]"; [done..|].
    rewrite Forall_lookup in IH.
    iDestruct (IH _ _ Hi with "Ht") as (ls Hls) "Hls".
    iExists (l :: ls). iSplit; [iPureIntro; cbn; lia|].
    cbn. iFrame "Hls". by iExists _.
Qed.

(** [JSON.stringify] of a shown value prints its tree. *)
Lemma is_shown_stringify gap h t v :
  gen_heap_interp (heap_map h) -∗ is_shown t v -∗
  ⌜JSON_stringify gap v h = (h, Ok (stringify gap t))⌝.
Proof.
  iIntros "Hh Ht". iDestruct (is_shown_to_json with "Hh Ht") as %H.
  iDestruct (is_shown_not_undef with "Ht") as %Hv.
  iDestruct (is_shown_path with "Ht") as (ls Hls) "Hls".
  iDestruct (owned_cells_bound with "Hh Hls") as %Hd.
  iPureIntro. unfold JSON_stringify. rewrite H; [|lia]. by destruct v.
Qed.

Lemma are_shown_fields_borrow fs : forall ps k t,
  alookup k fs = Some t ->
  are_shown_fields fs ps -∗
  ∃ v, ⌜alookup k ps = Some v⌝ ∗ is_shown t v ∗
       (∀ t', is_shown t' v -∗ are_shown_fields (aset k t' fs) ps).
Proof.
  unfold are_shown_fields.
  induction fs as [|[k0 t0] fs IH]; intros ps k t Hk; [done|].
  iIntros "Hfs".
  iDestruct (big_sepL2_cons_inv_l with "Hfs")
    as ([k0' v0] ps' ->) "[[%Hk0 Ht0] Hfs]".
  cbn in Hk0. subst k0'. cbn in Hk |- *.
  destruct (String.eqb_spec k k0) as [->|Hne].
  - injection Hk as ->. iExists v0. iSplit; [done|]. iFrame "Ht0".
    iIntros (t') "Ht'". cbn. by iFrame.
  - iDestruct (IH _ _ _ Hk with "Hfs") as (v Hv) "[Ht Hclose]".
    iExists v. iSplit; [done|]. iFrame "Ht".
    iIntros (t') "Ht'". cbn. iFrame "Ht0". iSplit; [done|].
    by iApply "Hclose".
Qed.

Lemma is_shown_obj_borrow fs k t v :
  alookup k fs = Some t ->
  is_shown (JObj fs) v -∗
  ∃ l ps v', ⌜v = VRef l ∧ alookup k ps = Some v'⌝ ∗ l ↦ CObj ps ∗
    is_shown t v' ∗
    (∀ t', l ↦ CObj ps -∗ is_shown t' v' -∗ is_shown (JObj (aset k t' fs)) v).
Proof.
  intros Hk. rewrite is_shown_obj.
  iIntros "(%l & %ps & -> & Hl & Hfs)".
  iDestruct (are_shown_fields_borrow with "Hfs") as (v' Hv') "[Ht Hclose]";
    [done|].
  iExists l, ps, v'. iSplit; [done|]. iFrame "Hl Ht".
  iIntros (t') "Hl Ht'". rewrite is_shown_obj. iExists l, ps.
  iFrame "Hl". iSplit; [done|]. by iApply "Hclose".
Qed.

(** The body of the change handler of a padding input, for any number
    that [parseFloat] returns. *)
Lemma wps_show_padding i x tx fs bfs ps v (Φ : value -> iProp Σ) :
  alookup "basePdf" fs = Some (JObj bfs) ->
  alookup "padding" bfs = Some (JArr ps) ->
  i < length ps ->
  num_json false x = Some tx ->
  is_tree (JObj fs) v -∗
  (is_shown (JObj (aset "basePdf"
      (JObj (aset "padding" (JArr (<[i := tx]> ps)) bfs)) fs)) v -∗ Φ v) -∗
  wps (basePdf ← get_prop v "basePdf";
       padding ← get_prop basePdf "padding";
       _ ← set_index padding i (VNum x);
       mret v) Φ.
Proof.
  intros Hb Hp Hi Hx. iIntros "Ht HΦ".
  iDestruct (is_tree_shown with "Ht") as "Ht".
  iDestruct (is_shown_obj_borrow _ _ _ _ Hb with "Ht")
    as (l cs vb [-> Hvb]) "(Hl & Hbase & Hclose)".
  iApply wps_bind. iApply (wps_get_prop with "Hl"). iIntros "Hl".
  rewrite Hvb. cbn [default].
  iDestruct (is_shown_obj_borrow _ _ _ _ Hp with "Hbase")
    as (lb bcs vp [-> Hvp]) "(Hlb & Hpad & Hcloseb)".
  iApply wps_bind. iApply (wps_get_prop with "Hlb"). iIntros "Hlb".
  rewrite Hvp. cbn [default].
  iDestruct (is_shown_arr with "Hpad") as (lp pvs ->) "[Hlp Hps]".
  unfold are_shown.
  iDestruct (big_sepL2_length with "Hps") as %Hlen.
  iApply wps_bind. iApply (wps_set_index with "Hlp"). iIntros "Hlp".
  iApply wps_ret. iApply "HΦ". iApply ("Hclose" with "Hl").
  iApply ("Hcloseb" with "Hlb"). rewrite is_shown_arr.
  iExists lp, _. iFrame "Hlp". iSplit; [done|].
  unfold list_set. destruct (Nat.ltb_spec i (length pvs)) as [_|]; [|lia].
  destruct (lookup_lt_is_Some_2 ps i Hi) as [t0 Ht0].
  destruct (lookup_lt_is_Some_2 pvs i) as [v0 Hv0]; [lia|].
  iDestruct (big_sepL2_insert_acc _ _ _ i with "Hps") as "[_ Hins]"; [done..|].
  iApply ("Hins" $! tx (VNum x)).
  destruct x as [d| |neg]; cbn in Hx; injection Hx as <-; by cbn.
Qed.
End shown_rules.

(** The run of the handler: it returns, and the text that the designer's
    document gives from then on shows the number as the serializer
    does. *)
Lemma padding_change_shown_run i input_value tx st fs bfs ps :
  doc_json st (JObj fs) ->
  alookup "basePdf" fs = Some (JObj bfs) ->
  alookup "padding" bfs = Some (JArr ps) ->
  i < length ps ->
  num_json false (parseFloat input_value) = Some tx ->
  exists st',
    padding_change i input_value st = (st', Ok tt)
    /\ run (getTemplateJSONString st') st'
       = (st', Ok (stringify 2 (JObj (aset "basePdf"
            (JObj (aset "padding" (JArr (<[i := tx]> ps)) bfs)) fs))))
    /\ cells_kept (app_heap st) (app_heap st')
    /\ localStorage st' = localStorage st
    /\ console st' = console st.
Proof.
  intros Hdoc Hb Hp Hi Hx.
  unfold padding_change, run. rewrite (getTemplateJSON_run st _ _ Hdoc).
  match goal with |- context [mbind ?k (alloc_tree ?t) (app_heap st)] =>
    destruct (wps_run (mbind k (alloc_tree t)) (app_heap st)
      (fun h' v => JSON_stringify 2 v h'
         = (h', Ok (stringify 2 (JObj (aset "basePdf"
              (JObj (aset "padding" (JArr (<[i := tx]> ps)) bfs)) fs))))))
      as (v & h' & Hrun & Hv & Hkept)
  end.
  { intros Hheap. iApply wps_bind. iApply wps_alloc_tree.
    { by eapply json_of_wf. }
    iIntros (v) "Hv". iApply (wps_show_padding with "Hv"); [done..|].
    iIntros "Hv". iIntros (h') "Hh".
    iApply (is_shown_stringify with "Hh Hv"). }
  rewrite Hrun. eexists. split; [done|].
  unfold getTemplateJSONString. cbn. rewrite Hv. by destruct st.
Qed.

(** ** Well-formed trees after an update *)

Lemma wf_json_aset k x fs :
  wf_json (JObj fs) = true -> wf_json x = true ->
  wf_json (JObj (aset k x fs)) = true.
Proof.
  intros [Hnd Hfs]%wf_json_members Hx. cbn.
  apply andb_true_intro. split.
  - apply bool_decide_eq_true. by apply aset_NoDup.
  - apply forallb_forall. intros p Hp%list_elem_of_In. revert p Hp.
    apply Forall_forall. by apply Forall_aset.
Qed.

Lemma wf_json_insert i x ts :
  wf_json (JArr ts) = true -> wf_json x = true ->
  wf_json (JArr (<[i := x]> ts)) = true.
Proof.
  cbn. intros Hts Hx. revert i.
  induction ts as [|t ts IH]; intros i; [done|].
  cbn in Hts. apply andb_prop in Hts as [Ht Hts].
  destruct i as [|i]; cbn; [by rewrite Hx|]. by rewrite Ht IH.
Qed.

Lemma wf_json_alookup k fs t :
  wf_json (JObj fs) = true -> alookup k fs = Some t -> wf_json t = true.
Proof.
  intros [_ Hfs]%wf_json_members Hk.
  induction Hfs as [|[k' y] r Hy Hr IH]; [done|]. cbn in Hk.
  destruct (String.eqb k k'); [by injection Hk as <-|by apply IH].
Qed.

(** ** Computations that only read *)

Lemma reads_only_ret {A} (a : A) : reads_only (mret a).
Proof. intros h. exists (Ok a). by split. Qed.

Lemma reads_only_bind {A B} (m : M A) (f : A -> M B) :
  reads_only m -> (forall a, reads_only (f a)) -> reads_only (m ≫= f).
Proof.
  intros Hm Hf h. destruct (Hm h) as (r & Hr & He).
  unfold mbind, M_bind. rewrite Hr. destruct r as [a|e].
  - apply Hf.
  - exists (Throw e). split; [done|]. intros e' [= <-]. by apply He.
Qed.

Lemma reads_only_get_prop v k : reads_only (get_prop v k).
Proof.
  intros h. unfold get_prop, load, mbind, M_bind, mret, M_ret, throw.
  repeat case_match; simplify_eq; eexists; (split; [reflexivity|]);
    by intros ? [= <-].
Qed.

Lemma reads_only_get_index v i : reads_only (get_index v i).
Proof.
  intros h. unfold get_index, load, mbind, M_bind, mret, M_ret, throw.
  repeat case_match; simplify_eq; eexists; (split; [reflexivity|]);
    by intros ? [= <-].
Qed.

Lemma reads_only_toString v : reads_only (toString v).
Proof.
  intros h. unfold toString. case_match; eexists; (split; [reflexivity|]);
    by intros ? [= <-].
Qed.

Lemma reads_only_mapM_ix {A B} (f : nat -> A -> M B) l : forall i,
  (forall i x, reads_only (f i x)) -> reads_only (mapM_ix f i l).
Proof.
  induction l as [|x l IH]; intros i Hf; cbn [mapM_ix].
  - apply reads_only_ret.
  - apply reads_only_bind; [apply Hf|]. intros y.
    apply reads_only_bind; [by apply IH|]. intros ys. apply reads_only_ret.
Qed.

Lemma reads_only_padding_inputs_init v : reads_only (padding_inputs_init v).
Proof.
  unfold padding_inputs_init.
  apply reads_only_bind; [apply reads_only_get_prop|]. intros basePdf.
  apply reads_only_bind; [apply reads_only_get_prop|]. intros paddings.
  destruct (truthy paddings); [|apply reads_only_ret].
  apply reads_only_mapM_ix. intros i x.
  apply reads_only_bind; [apply reads_only_get_index|]. intros p.
  apply reads_only_toString.
Qed.

(** A loop of reading turns throws when one of its turns does. *)
Lemma mapM_ix_throws {A B} (f : nat -> A -> M B) h l : forall i j,
  (forall i x, reads_only (f i x)) ->
  j < length l ->
  (forall x, f (i + j) x h = (h, Throw TypeError)) ->
  mapM_ix f i l h = (h, Throw TypeError).
Proof.
  induction l as [|x l IH]; intros i j Hf Hj Hthrow; [cbn in Hj; lia|].
  cbn [mapM_ix]. unfold mbind, M_bind.
  destruct j as [|j].
  - replace (i + 0) with i in Hthrow by lia. by rewrite Hthrow.
  - destruct (Hf i x h) as (r & -> & He). destruct r as [y|e].
    + rewrite (IH (S i) j); [done|done|cbn in Hj; lia|].
      intros x'. replace (S i + j) with (i + S j) by lia. apply Hthrow.
    + by rewrite (He e eq_refl).
Qed.

Lemma mapM_ix_returns {A B} (f : nat -> A -> M B) h l : forall i,
  (forall j x, j < length l -> exists y, f (i + j) x h = (h, Ok y)) ->
  exists ys, mapM_ix f i l h = (h, Ok ys).
Proof.
  induction l as [|x l IH]; intros i Hf; cbn [mapM_ix]; [by eexists|].
  destruct (Hf 0 x) as [y Hy]; [cbn; lia|].
  replace (i + 0) with i in Hy by lia.
  destruct (IH (S i)) as [ys Hys].
  { intros j x' Hj. replace (S i + j) with (i + S j) by lia.
    apply Hf. cbn. lia. }
  unfold mbind, M_bind. rewrite Hy Hys. by eexists.
Qed.

(** ** Reading a document in the heap *)

Lemma to_json_obj_inv n h v fs :
  to_json true n h v = Some (JObj fs) ->
  exists n' l ps,
    n = S n' /\ v = VRef l /\ h !! l = Some (CObj ps)
    /\ Forall2 (fun t p => t.1 = p.1 /\ to_json true n' h p.2 = Some t.2
                           /\ p.2 <> VUndef) fs ps.
Proof.
  intros H. destruct v as [| | b | [d| |b] | s | l]; try by destruct n.
  - destruct n; cbn in H; by destruct (dec_canon d).
  - destruct n as [|n']; [done|]. cbn [to_json] in H.
    destruct (h !! l) as [[ps|vs]|] eqn:Hl; [| |done].
    + cbn [andb] in H.
      destruct (negb (bool_decide (NoDup (map fst ps)))); [done|].
      destruct (members_json (to_json true n' h) true ps) as [fs'|] eqn:Hm;
        [|done].
      injection H as <-. apply members_json_inv in Hm.
      by exists n', l, ps.
    + by destruct (elems_json (to_json true n' h) true vs).
Qed.

Lemma to_json_arr_inv n h v ts :
  to_json true n h v = Some (JArr ts) ->
  exists n' l vs,
    n = S n' /\ v = VRef l /\ h !! l = Some (CArr vs)
    /\ Forall2 (fun t v => to_json true n' h v = Some t /\ v <> VUndef) ts vs.
Proof.
  intros H. destruct v as [| | b | [d| |b] | s | l]; try by destruct n.
  - destruct n; cbn in H; by destruct (dec_canon d).
  - destruct n as [|n']; [done|]. cbn [to_json] in H.
    destruct (h !! l) as [[ps|vs]|] eqn:Hl; [| |done].
    + cbn [andb] in H.
      destruct (negb (bool_decide (NoDup (map fst ps)))); [done|].
      by destruct (members_json (to_json true n' h) true ps).
    + destruct (elems_json (to_json true n' h) true vs) as [ts'|] eqn:Hm;
        [|done].
      injection H as <-. apply elems_json_inv in Hm.
      by exists n', l, vs.
Qed.

Lemma to_json_num_inv n h v d :
  to_json true n h v = Some (JNum d) -> v = VNum (Fin d).
Proof.
  intros H. destruct v as [| | b | [d'| |b] | s | l]; try by destruct n.
  - destruct n; cbn in H; destruct (dec_canon d'); by simplify_eq.
  - destruct n as [|n']; [done|]. cbn [to_json] in H.
    destruct (h !! l) as [[ps|vs]|]; [| |done].
    + cbn [andb] in H.
      destruct (negb (bool_decide (NoDup (map fst ps)))); [done|].
      by destruct (members_json (to_json true n' h) true ps).
    + by destruct (elems_json (to_json true n' h) true vs).
Qed.

Lemma to_json_null_inv n h v :
  to_json true n h v = Some JNull -> v = VNull.
Proof.
  intros H. destruct v as [| | b | [d'| |b] | s | l]; try by destruct n.
  - destruct n; cbn in H; destruct (dec_canon d'); by simplify_eq.
  - destruct n as [|n']; [done|]. cbn [to_json] in H.
    destruct (h !! l) as [[ps|vs]|]; [| |done].
    + cbn [andb] in H.
      destruct (negb (bool_decide (NoDup (map fst ps)))); [done|].
      by destruct (members_json (to_json true n' h) true ps).
    + by destruct (elems_json (to_json true n' h) true vs).
Qed.

Lemma members_alookup (P : json -> value -> Prop) fs ps k t :
  Forall2 (fun f p => f.1 = p.1 /\ P f.2 p.2) fs ps ->
  alookup k fs = Some t ->
  exists v, alookup k ps = Some v /\ P t v.
Proof.
  induction 1 as [|[k1 t1] [k2 v2] fs ps [Hk HP] _ IH]; [done|].
  cbn in Hk, HP. subst k2. cbn.
  destruct (String.eqb k k1); [|done]. intros [= <-]. by exists v2.
Qed.

(** The padding array of a document in the heap, and what the
    initialisation of the padding inputs does on it. *)
Lemma padding_inputs_init_array h v t ps :
  json_of h v = Some t ->
  padding_of t = Some ps ->
  exists lp pvs n,
    h !! lp = Some (CArr pvs)
    /\ Forall2 (fun t v => to_json true n h v = Some t /\ v <> VUndef) ps pvs
    /\ padding_inputs_init v h
       = mapM_ix (fun i (_ : string) =>
                    p ← get_index (VRef lp) i; toString p) 0
           [ "padding-top"; "padding-right"; "padding-bottom";
             "padding-left" ]%string h.
Proof.
  intros Hv Hpad. unfold padding_of in Hpad.
  destruct t as [| | | | |fs]; try done.
  destruct (alookup "basePdf" fs) as [[| | | | |bfs]|] eqn:Hb; try done.
  destruct (alookup "padding" bfs) as [[| | | |ps'|]|] eqn:Hp; try done.
  injection Hpad as ->.
  apply to_json_obj_inv in Hv as (n1 & l & cs & _ & -> & Hl & Hfs).
  destruct (members_alookup
              (fun t v => to_json true n1 h v = Some t /\ v <> VUndef)
              _ _ _ _ Hfs Hb) as (vb & Hvb & Htb & _).
  apply to_json_obj_inv in Htb as (n2 & lb & bcs & _ & -> & Hlb & Hbfs).
  destruct (members_alookup
              (fun t v => to_json true n2 h v = Some t /\ v <> VUndef)
              _ _ _ _ Hbfs Hp) as (vp & Hvp & Htp & _).
  apply to_json_arr_inv in Htp as (n3 & lp & pvs & _ & -> & Hlp & Hps).
  exists lp, pvs, n3. do 2 (split; [done|]).
  unfold padding_inputs_init, get_prop at 1 2, load, mbind, M_bind,
    mret, M_ret.
  by rewrite Hl Hvb /= Hlb Hvp.
Qed.

Lemma padding_turn h lp pvs i :
  h !! lp = Some (CArr pvs) ->
  (p ← get_index (VRef lp) i; toString p) h
  = toString (default VUndef (pvs !! i)) h.
Proof.
  intros Hlp. unfold get_index, load, mbind, M_bind, mret, M_ret.
  by rewrite Hlp.
Qed.

Lemma padding_inputs_init_numbers h v t :
  json_of h v = Some t ->
  padding_numbers t = true ->
  exists texts, padding_inputs_init v h = (h, Ok texts).
Proof.
  intros Hv Hnum. unfold padding_numbers in Hnum.
  destruct (padding_of t) as [ps|] eqn:Hpad; [|done].
  apply andb_prop in Hnum as [Hlen Hnum]. apply Nat.leb_le in Hlen.
  destruct (padding_inputs_init_array _ _ _ _ Hv Hpad)
    as (lp & pvs & n & Hlp & Hps & ->).
  assert (Hturn : forall i, i < 4 ->
            exists s, (p ← get_index (VRef lp) i; toString p) h = (h, Ok s)).
  { intros i Hi. rewrite (padding_turn _ _ _ _ Hlp).
    destruct (lookup_lt_is_Some_2 ps i) as [ti Hti]; [lia|].
    destruct (Forall2_lookup_l _ _ _ _ _ Hps Hti) as (vi & Hvi & Hconv & _).
    assert (Hin : is_number ti = true).
    { rewrite forallb_forall in Hnum. apply Hnum.
      apply list_elem_of_In. apply (list_elem_of_lookup_2 _ i).
      by rewrite lookup_take_lt. }
    destruct ti; try done. apply to_json_num_inv in Hconv as ->.
    rewrite Hvi. by eexists. }
  apply mapM_ix_returns. intros j x Hj. apply Hturn. cbn in Hj. lia.
Qed.

Lemma padding_inputs_init_null h v t ps i :
  json_of h v = Some t ->
  padding_of t = Some ps ->
  i < 4 ->
  ps !! i = Some JNull ->
  padding_inputs_init v h = (h, Throw TypeError).
Proof.
  intros Hv Hpad Hi Hnull.
  destruct (padding_inputs_init_array _ _ _ _ Hv Hpad)
    as (lp & pvs & n & Hlp & Hps & ->).
  apply (mapM_ix_throws _ _ _ 0 i); [|cbn; lia|].
  - intros j x. apply reads_only_bind; [apply reads_only_get_index|].
    intros p. apply reads_only_toString.
  - intros _. cbn [Nat.add]. rewrite (padding_turn _ _ _ _ Hlp).
    destruct (Forall2_lookup_l _ _ _ _ _ Hps Hnull) as (vi & Hvi & Hconv & _).
    apply to_json_null_inv in Hconv as ->. by rewrite Hvi.
Qed.

(** ** Pages started from a stored document

    The designer gets the stored document in every case; the start of
    the page completes when the padding is an array that starts with
    four numbers, and ends in a [TypeError] when one of the first four
    components is [null]. *)
Lemma startup_stored BLANK_PDF ls t :
  wf_json t = true ->
  ls !! "template"%string = Some (stringify 2 t) ->
  exists st r,
    startup BLANK_PDF ls = (st, r)
    /\ doc_json st t
    /\ localStorage st = ls
    /\ autosave_checked st = autosave_initial ls
    /\ (r = Ok tt \/ r = Throw TypeError)
    /\ (padding_numbers t = true -> r = Ok tt)
    /\ (forall ps i, padding_of t = Some ps -> i < 4 ->
          ps !! i = Some JNull -> r = Throw TypeError).
Proof.
  intros Hwf Hls. unfold startup. rewrite Hls.
  destruct (String.eqb_spec (stringify 2 t) "") as [He|_];
    [by apply stringify_nonempty in He|].
  unfold JSON_parse. rewrite parse_stringify //.
  destruct (alloc_tree_run t [] Hwf) as (v & h' & Hrun & Hv & _).
  unfold run at 1. cbn [app_heap]. rewrite Hrun. unfold run.
  cbn [app_heap with_autosave designer_updateTemplate with_heap].
  destruct (reads_only_padding_inputs_init v h') as (r & Hr & He).
  rewrite Hr. destruct r as [texts|e].
  - eexists _, _. split; [reflexivity|]. cbn. do 3 (split; [done|]).
    split; [by left|]. split; [done|]. intros ps i Hpad Hi Hnull.
    rewrite (padding_inputs_init_null _ _ _ _ _ Hv Hpad Hi Hnull) in Hr.
    by injection Hr.
  - rewrite (He e eq_refl). eexists _, _. split; [reflexivity|]. cbn.
    do 3 (split; [done|]). split; [by right|]. split; [|done].
    intros Hnum.
    destruct (padding_inputs_init_numbers _ _ _ Hv Hnum) as [texts Ht].
    rewrite Ht in Hr. by injection Hr.
Qed.

(** * Further properties of main.ts *)

(** ** Save and reload *)

(** X1.  [saveTemplate] followed by a reload of the page: the save
    stores the pretty-printed document under [template] and touches
    neither the document nor any other key; the page that starts from
    that store gives the designer a document that is the same JSON
    tree, and its autosave checkbox is what the store said before the
    save.  The start of the page then fills the padding inputs: it
    completes when the padding of the document is an array that starts
    with four numbers, and otherwise either completes or ends in a
    [TypeError]. *)
Theorem save_then_reload (st : app) (t : json) :
  doc_json st t ->
  exists st1,
    save_click st = (st1, Ok tt)
    /\ designer_template st1 = designer_template st
    /\ app_heap st1 = app_heap st
    /\ localStorage st1
       = <["template"%string := stringify 2 t]> (localStorage st)
    /\ forall BLANK_PDF, exists st2 r,
         startup BLANK_PDF (localStorage st1) = (st2, r)
         /\ doc_json st2 t
         /\ localStorage st2 = localStorage st1
         /\ autosave_checked st2 = autosave_initial (localStorage st)
         /\ (r = Ok tt \/ r = Throw TypeError)
         /\ (padding_numbers t = true -> r = Ok tt).
Proof.
  intros Hdoc. pose proof (json_of_wf _ _ _ Hdoc) as Hwf.
  unfold save_click, saveTemplate, run.
  rewrite (getTemplateJSONString_run _ _ Hdoc).
  eexists. split; [reflexivity|]. cbn. do 3 (split; [done|]).
  intros BLANK_PDF.
  destruct (startup_stored BLANK_PDF
              (<["template"%string := stringify 2 t]> (localStorage st)) t Hwf)
    as (st2 & r & Hstart & Hdoc2 & Hls & Hauto & Hr & Hnum & _);
    [apply lookup_insert_eq|].
  exists st2, r. do 3 (split; [done|]). split; [|done].
  rewrite Hauto. unfold autosave_initial. by rewrite lookup_insert_ne.
Qed.

Lemma save_then_reload_witness :
  exists st1,
    save_click sample_app = (st1, Ok tt)
    /\ designer_template st1 = designer_template sample_app
    /\ app_heap st1 = app_heap sample_app
    /\ localStorage st1
       = <["template"%string := stringify 2 sample_template]>
           (localStorage sample_app)
    /\ forall BLANK_PDF, exists st2 r,
         startup BLANK_PDF (localStorage st1) = (st2, r)
         /\ doc_json st2 sample_template
         /\ localStorage st2 = localStorage st1
         /\ autosave_checked st2 = autosave_initial (localStorage sample_app)
         /\ (r = Ok tt \/ r = Throw TypeError)
         /\ (padding_numbers sample_template = true -> r = Ok tt).
Proof.
  apply (save_then_reload sample_app sample_template).
  vm_compute; reflexivity.
Defined.

(** X2.  A stored template that is not JSON text stops the start of the
    page: the [JSON.parse] at the top of main.ts throws, and nothing
    catches it. *)
Theorem startup_corrupt_store (BLANK_PDF : json) (ls : gmap string string)
  (s : string) :
  ls !! "template"%string = Some s ->
  s <> ""%string ->
  parse s = None ->
  exists st, startup BLANK_PDF ls = (st, Throw SyntaxError)
             /\ generated st = [] /\ localStorage st = ls.
Proof.
  intros Hs Hne Hp. unfold startup. rewrite Hs.
  destruct (String.eqb_spec s "") as [->|_]; [done|].
  unfold JSON_parse, run. rewrite Hp. cbn. by eexists.
Qed.

Lemma startup_corrupt_store_witness :
  exists st,
    startup JNull {[ "template"%string := "{ schemas: "%string ]}
    = (st, Throw SyntaxError)
    /\ generated st = []
    /\ localStorage st = {[ "template"%string := "{ schemas: "%string ]}.
Proof.
  apply (startup_corrupt_store JNull _ "{ schemas: ").
  - reflexivity.
  - discriminate.
  - reflexivity.
Defined.

(** ** The autosave checkbox *)

(** X3.  The change handler of the autosave checkbox stores the new
    setting so that a reload restores it: after the handler, the page
    that starts from the store shows the checkbox as the user left it.
    The handler touches no other key of the store and not the
    document. *)
Theorem autosave_toggle_persists (checked : bool) (st : app) :
  exists st',
    autosave_change checked st = (st', Ok tt)
    /\ autosave_checked st' = checked
    /\ autosave_initial (localStorage st') = checked
    /\ (forall k, k <> "autosave"%string ->
          localStorage st' !! k = localStorage st !! k)
    /\ designer_template st' = designer_template st
    /\ app_heap st' = app_heap st
    /\ forall BLANK_PDF st2,
         startup BLANK_PDF (localStorage st') = (st2, Ok tt) ->
         autosave_checked st2 = checked.
Proof.
  unfold autosave_change. cbn [with_autosave autosave_checked].
  assert (Hstart : forall ls BLANK_PDF st2,
            startup BLANK_PDF ls = (st2, Ok tt) ->
            autosave_checked st2 = autosave_initial ls).
  { intros ls BLANK_PDF st2. unfold startup.
    destruct (run _ _) as [st1 [v|e]]; [|done]. unfold run at 1.
    destruct (padding_inputs_init v _) as [h [texts|e]]; [|done].
    by intros [= <-]. }
  destruct checked; eexists; (split; [reflexivity|]); cbn.
  - assert (Hi : autosave_initial
                   (<["autosave"%string := "true"%string]> (localStorage st))
                 = true).
    { unfold autosave_initial. by rewrite lookup_insert_eq. }
    split; [done|]. split; [done|].
    split; [by intros k Hk; rewrite lookup_insert_ne|].
    do 2 (split; [done|]). intros BLANK_PDF st2 H.
    by rewrite (Hstart _ _ _ H).
  - assert (Hi : autosave_initial (delete "autosave"%string (localStorage st))
                 = false).
    { unfold autosave_initial. by rewrite lookup_delete_eq. }
    split; [done|]. split; [done|].
    split; [by intros k Hk; rewrite lookup_delete_ne|].
    do 2 (split; [done|]). intros BLANK_PDF st2 H.
    by rewrite (Hstart _ _ _ H).
Qed.

(** ** The padding inputs *)

(** X4.  The change handler of any of the four padding inputs, for any
    input text of which [parseFloat] reads a finite number [d]: when the
    document has a padding array and the input's position [i] is inside
    it, the designer receives a document that differs from the old one
    in component [i] of the padding only, which is [d].  Store and
    console stay as they are. *)
Theorem padding_change_component (i : nat) (input_value : string) (d : dec)
  (st : app) (t : json) (ps : list json) :
  doc_json st t ->
  padding_of t = Some ps ->
  i < length ps ->
  parseFloat input_value = Fin d ->
  exists st' t',
    padding_change i input_value st = (st', Ok tt)
    /\ doc_json st' t'
    /\ padding_of t' = Some (<[i := JNum d]> ps)
    /\ (forall k, k <> "basePdf"%string -> member k t' = member k t)
    /\ (forall k, k <> "padding"%string ->
          member "basePdf" t' ≫= member k = member "basePdf" t ≫= member k)
    /\ localStorage st' = localStorage st
    /\ console st' = console st.
Proof.
  intros Hdoc Hpad Hi Hd.
  assert (exists t', set_padding i d t = Some t'
            /\ padding_of t' = Some (<[i := JNum d]> ps)
            /\ (forall k, k <> "basePdf"%string -> member k t' = member k t)
            /\ (forall k, k <> "padding"%string ->
                  member "basePdf" t' ≫= member k
                  = member "basePdf" t ≫= member k))
    as (t' & Hset & Hpad' & Hout & Hin).
  { unfold padding_of in Hpad. unfold set_padding.
    destruct t as [| | | | |fs]; try done.
    destruct (alookup "basePdf" fs) as [[| | | | |bfs]|] eqn:Hb; try done.
    destruct (alookup "padding" bfs) as [[| | | |ps'|]|] eqn:Hp; try done.
    injection Hpad as ->.
    destruct (Nat.ltb_spec i (length ps)) as [_|]; [|lia].
    eexists. split; [done|]. cbn. rewrite !alookup_aset_eq. split; [done|].
    split.
    - intros k Hk. by rewrite alookup_aset_ne.
    - intros k Hk. cbn. rewrite Hb. cbn. by rewrite alookup_aset_ne. }
  destruct (padding_change_run i input_value d st t t' Hdoc Hd Hset)
    as (st' & Hrun & Hdoc' & _ & Hls & Hcon).
  by exists st', t'.
Qed.

Lemma padding_change_component_witness :
  exists st' t',
    padding_change 3 "7.5px" sample_app = (st', Ok tt)
    /\ doc_json st' t'
    /\ padding_of t' = Some [num 0; num 5; num 0; JNum (Dec 75 1)].
Proof.
  destruct (padding_change_component 3 "7.5px" (Dec 75 1) sample_app
              sample_template [num 0; num 5; num 0; num 5])
    as (st' & t' & Hrun & Hdoc & Hpad & _).
  - vm_compute; reflexivity.
  - reflexivity.
  - cbn; lia.
  - vm_compute; reflexivity.
  - exists st', t'. exact (conj Hrun (conj Hdoc Hpad)).
Defined.

(** ** The copy helper *)

(** X5.  [copyOBJ] of a value that is a JSON tree returns a deep copy:
    the result is the same tree, built from cells that did not exist
    before and that refer to no earlier cell, so the copy shares nothing
    with the original; every earlier cell is unchanged and the original
    is the tree it was.  [copyOBJ(undefined)] throws a [SyntaxError]
    (the text that [JSON.parse] receives is no JSON). *)
Theorem copyOBJ_deep_copy (h : heap) (v : value) (t : json) :
  json_of h v = Some t ->
  (exists v' h',
     copyOBJ v h = (h', Ok v')
     /\ json_of h' v' = Some t
     /\ json_of h' v = Some t
     /\ new_value h v'
     /\ extends h h')
  /\ copyOBJ VUndef h = (h, Throw SyntaxError).
Proof.
  intros Hv. split; [|reflexivity].
  pose proof (json_of_wf _ _ _ Hv) as Hwf.
  destruct (confined_copyOBJ h v h (extends_refl h)) as [Hext Hnew].
  destruct (alloc_tree_run t h Hwf) as (v' & h' & Hrun & Hv' & _).
  assert (Hcopy : copyOBJ v h = (h', Ok v')).
  { unfold copyOBJ, mbind, M_bind, JSON_stringify.
    rewrite (json_of_lossy _ _ _ Hv).
    destruct v; try done; unfold JSON_parse; by rewrite parse_stringify. }
  rewrite Hcopy in Hext, Hnew. cbn in Hext, Hnew.
  exists v', h'. split; [done|]. split; [done|].
  split; [|split; [by apply Hnew|done]].
  destruct Hext as (ext & -> & _). by apply json_of_extend.
Qed.

Lemma copyOBJ_deep_copy_witness :
  exists v' h',
    copyOBJ (designer_template sample_app) (app_heap sample_app) = (h', Ok v')
    /\ json_of h' v' = Some sample_template
    /\ json_of h' (designer_template sample_app) = Some sample_template
    /\ new_value (app_heap sample_app) v'
    /\ extends (app_heap sample_app) h'.
Proof.
  apply (copyOBJ_deep_copy (app_heap sample_app)
           (designer_template sample_app) sample_template).
  vm_compute; reflexivity.
Defined.

(** X6.  The change handler of a padding input on a document whose
    [basePdf.padding] is missing or is neither an array nor an object
    (a document without [basePdf], or with a [basePdf] that is a string):
    the assignment throws a [TypeError], which the handler does not
    catch; the designer keeps its document and nothing is stored or
    logged. *)
Theorem padding_change_without_padding (i : nat) (input_value : string)
  (st : app) (t : json) :
  doc_json st t ->
  padding_assignable t = false ->
  exists st',
    padding_change i input_value st = (st', Throw TypeError)
    /\ designer_template st' = designer_template st
    /\ doc_json st' t
    /\ localStorage st' = localStorage st
    /\ console st' = console st.
Proof.
  intros Hdoc Hno. pose proof (json_of_wf _ _ _ Hdoc) as Hwf.
  destruct (wp_run
    (template ← alloc_tree t;
     basePdf ← get_prop template "basePdf";
     padding ← get_prop basePdf "padding";
     _ ← set_index padding i (VNum (parseFloat input_value));
     mret template)
    (app_heap st) (fun h' r => r = Throw TypeError)) as [Hr Hkept].
  { intros Hheap. iApply wp_bind_ok. iApply wps_alloc_tree; [done|].
    iIntros (v) "Ht". unfold padding_assignable, padding_slot in Hno.
    destruct (member "basePdf" t) as [b|] eqn:Hb.
    - iApply wp_bind_ok. iApply (wps_get_member with "Ht"); [done|].
      iIntros (vb) "Hb". cbn in Hno.
      destruct (member "padding" b) as [p|] eqn:Hp.
      + iApply wp_bind_ok. iApply (wps_get_member with "Hb"); [done|].
        iIntros (vp) "Hp".
        iDestruct (is_tree_primitive with "Hp") as %Hprim; [by destruct p|].
        iApply wp_throws; [|by iIntros (h') "_"]. intros h. by destruct vp.
      + destruct (json_null_cases b) as [->|Hnull].
        * iDestruct "Hb" as %->. by iApply wp_throws; [|iIntros (h') "_"].
        * iApply wp_bind_ok. iApply (wps_get_no_member with "Hb"); [done..|].
          by iApply wp_throws; [|iIntros (h') "_"].
    - destruct (json_null_cases t) as [->|Hnull].
      + iDestruct "Ht" as %->. by iApply wp_throws; [|iIntros (h') "_"].
      + iApply wp_bind_ok. iApply (wps_get_no_member with "Ht"); [done..|].
        by iApply wp_throws; [|iIntros (h') "_"]. }
  unfold padding_change, run.
  rewrite (getTemplateJSON_run st t _ Hdoc).
  destruct ((_ ← alloc_tree t; _) (app_heap st)) as [h' r]. cbn in Hr, Hkept.
  subst r. eexists. split; [reflexivity|]. cbn. split; [done|].
  split; [by eapply cells_kept_json_of|done].
Qed.

Lemma padding_change_without_padding_witness :
  exists st',
    padding_change 0 "12" (blank_app (JStr "data:application/pdf;base64,"))
    = (st', Throw TypeError)
    /\ designer_template st'
       = designer_template (blank_app (JStr "data:application/pdf;base64,")).
Proof.
  destruct (padding_change_without_padding 0 "12"
              (blank_app (JStr "data:application/pdf;base64,"))
              (JObj [("basePdf"%string, JStr "data:application/pdf;base64,");
                     ("schemas"%string, JArr [])]))
    as (st' & Hrun & Hd & _).
  - vm_compute; reflexivity.
  - reflexivity.
  - exists st'. exact (conj Hrun Hd).
Defined.

(** ** The generate button on a document without a first page *)

(** X7.  The generate handler on a document that has no [schemas], an
    empty [schemas] array (the document of a page started on an empty
    store) or [null] as its first page: reading the header elements of
    the page throws, the handler catches, logs [PFD generation error:]
    and returns; the generator is not called and the designer keeps its
    document. *)
Theorem generate_without_first_page (st : app) (t : json) :
  doc_json st t ->
  lacks_first_page t = true ->
  exists st',
    generate_click st = (st', Ok tt)
    /\ console st' = console st ++ ["PFD generation error:"%string]
    /\ generated st' = generated st
    /\ designer_template st' = designer_template st
    /\ doc_json st' t
    /\ localStorage st' = localStorage st.
Proof.
  intros Hdoc Hno. pose proof (json_of_wf _ _ _ Hdoc) as Hwf.
  destruct (wp_run
    (templateJSON ← alloc_tree t;
     '(schema, inputs) ← fill_pages 35 templateJSON;
     _ ← copy_text_fields schema inputs;
     mret (templateJSON, inputs))
    (app_heap st) (fun h' r => r = Throw TypeError)) as [Hr Hkept].
  { intros Hheap. iApply wp_bind_ok. iApply wps_alloc_tree; [done|].
    iIntros (v) "Ht". unfold lacks_first_page in Hno.
    iApply wp_bind. unfold fill_pages.
    destruct (member "schemas" t) as [s|] eqn:Hs.
    - destruct s as [| | | |[|[| | | | |] pages]|]; try done.
      + iApply wp_bind_ok. iApply (wps_get_member with "Ht"); [done|].
        iIntros (vs) "Hs".
        iDestruct (is_tree_arr with "Hs") as (l vs' ->) "[Hl Hvs]".
        iDestruct (big_sepL2_nil_inv_l with "Hvs") as %->.
        iApply wp_bind_ok. iApply (wps_get_index with "Hl"). iIntros "_".
        iApply wp_bind_ok. iApply wps_alloc. iIntros (li) "_".
        iApply wp_bind_ok. iApply wps_make_tableData. iIntros (ltd tvs) "_ _".
        iApply wp_throws; [intros h; reflexivity|]. by iIntros (h') "_".
      + iApply wp_bind_ok. iApply (wps_get_member with "Ht"); [done|].
        iIntros (vs) "Hs".
        iDestruct (is_tree_arr with "Hs") as (l vs' ->) "[Hl Hvs]".
        iDestruct (big_sepL2_cons_inv_l with "Hvs")
          as (v0 vs0 ->) "[%Hv0 _]". subst v0.
        iApply wp_bind_ok. iApply (wps_get_index with "Hl"). iIntros "_".
        iApply wp_bind_ok. iApply wps_alloc. iIntros (li) "_".
        iApply wp_bind_ok. iApply wps_make_tableData. iIntros (ltd tvs) "_ _".
        iApply wp_throws; [intros h; reflexivity|]. by iIntros (h') "_".
    - destruct (json_null_cases t) as [->|Hnull].
      + iDestruct "Ht" as %->.
        iApply wp_throws; [intros h; reflexivity|]. by iIntros (h') "_".
      + iApply wp_bind_ok. iApply (wps_get_no_member with "Ht"); [done..|].
        iApply wp_throws; [intros h; reflexivity|]. by iIntros (h') "_". }
  unfold generate_click, generate_click_rows, run.
  rewrite (generate_fill_snapshot 35 st t Hdoc).
  destruct ((_ ← alloc_tree t; _) (app_heap st)) as [h' r]. cbn in Hr, Hkept.
  subst r. eexists. split; [reflexivity|]. cbn. do 3 (split; [done|]).
  split; [by eapply cells_kept_json_of|done].
Qed.

Lemma generate_without_first_page_witness :
  exists st',
    generate_click (blank_app JNull) = (st', Ok tt)
    /\ console st' = ["PFD generation error:"%string]
    /\ generated st' = [].
Proof.
  destruct (generate_without_first_page (blank_app JNull)
              (JObj [("basePdf"%string, JNull); ("schemas"%string, JArr [])]))
    as (st' & Hrun & Hcon & Hgen & _).
  - vm_compute; reflexivity.
  - reflexivity.
  - exists st'. exact (conj Hrun (conj Hcon Hgen)).
Defined.

(** ** The loop over the text fields *)

(** X8.  For a table of any length, on a document whose first page
    fulfils [page_ok]: in the value map that the generate handler gives
    to the generator, every text field of the first page other than
    [pages] has its own content under its own key, provided the key is
    not [__proto__] (an assignment to that key of an object literal
    stores no member); a key that is no text field of the first page
    holds nothing, unless it is [table], [pages] or one of the generated
    keys of the additional pages. *)
Theorem text_fields_reach_inputs (st : app) (t : json)
  (sfs : list (string * json)) (others : list json) (rows : nat) :
  doc_json st t ->
  schemas_of t = Some (JObj sfs :: others) ->
  page_ok sfs = true ->
  exists st' templateJSON li ins,
    generate_click_rows rows st = (st', Ok tt)
    /\ generated st' = generated st ++ [(templateJSON, VRef li)]
    /\ app_heap st' !! li = Some (CObj ins)
    /\ (forall k el, alookup k sfs = Some el -> is_text el = true ->
          k <> "pages"%string -> k <> "__proto__"%string ->
          alookup k ins = Some (content_val el))
    /\ (forall k, (forall el, alookup k sfs = Some el -> is_text el = false) ->
          k <> "table"%string -> k <> "pages"%string ->
          (forall n part i, k <> page_key n part i) ->
          alookup k ins = None).
Proof.
  intros Hdoc Hsch Hok.
  pose proof (schemas_of_first_page _ _ _ Hsch) as Hfirst.
  assert (Hnd : NoDup (map fst sfs)).
  { eapply first_page_NoDup; [|done]. by eapply json_of_wf. }
  destruct (Nat.le_gt_cases rows PAGE_1_TABLE_ROWS_MAX) as [Hrows|Hrows].
  - destruct (generate_click_short_run rows st t sfs Hdoc Hfirst Hok Hrows)
      as (st' & templateJSON & li & Hrun & Hgen & _ & Hi & _).
    destruct (text_writes_view (short_inputs rows) (short_page1 rows sfs) sfs)
      as [Htext Hother].
    { unfold short_page1. by rewrite move_all_keys. }
    { intros k _. apply alookup_move_all_proj, text_view_moved. }
    exists st', templateJSON, li,
      (text_writes (short_inputs rows) (short_page1 rows sfs)).
    do 3 (split; [done|]). split; [by intros k el Hk Ht Hp _; apply Htext|].
    intros k Hk Htable Hpages Hkeys. rewrite Hother; [|done..].
    apply alookup_None_keys. intros [->| ->]%short_inputs_keys; done.
  - destruct (generate_click_run rows st t sfs Hdoc Hfirst Hok Hrows)
      as (st' & templateJSON & li & Hrun & Hgen & _ & Hi & _).
    destruct (text_writes_view (paginated_inputs rows sfs)
                (page1_paginated rows sfs) sfs) as [Htext Hother].
    { by rewrite page1_paginated_keys. }
    { intros k Hk. unfold page1_paginated, page1_moved.
      rewrite alookup_aupd_ne; [|done].
      apply alookup_move_all_proj, text_view_moved. }
    exists st', templateJSON, li,
      (text_writes (paginated_inputs rows sfs) (page1_paginated rows sfs)).
    do 3 (split; [done|]). split; [by intros k el Hk Ht Hp _; apply Htext|].
    intros k Hk Htable Hpages Hkeys. rewrite Hother; [|done..].
    apply alookup_None_keys.
    intros [->|[->|(n & part & i & ->)]]%paginated_inputs_keys; try done.
    by eapply Hkeys.
Qed.

Lemma text_fields_reach_inputs_witness :
  exists st' templateJSON li ins,
    generate_click_rows 35 sample_app = (st', Ok tt)
    /\ generated st' = generated sample_app ++ [(templateJSON, VRef li)]
    /\ app_heap st' !! li = Some (CObj ins)
    /\ alookup "lunu_address" ins = Some (VStr "Lunu Solutions GmbH")
    /\ alookup "logo" ins = None.
Proof.
  destruct (text_fields_reach_inputs sample_app sample_template
              sample_fields [] 35)
    as (st' & templateJSON & li & ins & Hrun & Hgen & Hi & Htext & Hother).
  - vm_compute; reflexivity.
  - reflexivity.
  - vm_compute; reflexivity.
  - exists st', templateJSON, li, ins.
    refine (conj Hrun (conj Hgen (conj Hi (conj _ _)))).
    + apply (Htext "lunu_address"%string
               (sample_field "text" "Lunu Solutions GmbH" 120 5));
        [reflexivity|reflexivity|discriminate|discriminate].
    + apply (Hother "logo"%string).
      * intros el Hel. injection Hel as <-. reflexivity.
      * discriminate.
      * discriminate.
      * intros n part i. discriminate.
Defined.

(** ** The generated keys *)

(** X9.  The keys that the pagination loop generates for the members of
    the additional pages and for their values never collide: two of them
    are equal only if page number, family ([header_el], [footer_el] or
    [table_hr]) and index are equal, and none of them is [table] or
    [pages].  So no copy on a page replaces another, and no value in
    the map is overwritten by the loop. *)
Theorem generated_keys_distinct (n n' i i' : nat) (part part' : string) :
  part ∈ page_parts -> part' ∈ page_parts ->
  (page_key n part i = page_key n' part' i' ->
   n = n' /\ part = part' /\ i = i')
  /\ page_key n part i <> "table"%string
  /\ page_key n part i <> "pages"%string.
Proof.
  intros Hp Hp'. split; [by apply page_key_inj|].
  split; [apply page_key_not_table | apply page_key_not_pages].
Qed.

Lemma generated_keys_distinct_witness :
  (page_key 2 "header_el" 11 = page_key 21 "header_el" 1 ->
   2 = 21 /\ "header_el"%string = "header_el"%string /\ 11 = 1)
  /\ page_key 2 "header_el" 11 <> "table"%string
  /\ page_key 2 "header_el" 11 <> "pages"%string.
Proof.
  apply (generated_keys_distinct 2 21 11 1 "header_el" "header_el");
    unfold page_parts; rewrite elem_of_cons; by left.
Defined.

(** ** Pagination of a table of any length *)

(** X10.  For a table of any length above four rows, on a document
    whose first page fulfils [page_ok]: the pagination routine returns;
    behind the first page it writes ceil((rows - 4) / 7) pages, each
    with exactly the 11 + 4 + 87 keyed copies, and keeps the pages of
    the snapshot behind those; every page, the first included, gets at
    least one row and at most four (first page) or seven rows, as a JSON
    text under [table] or under the key of the copied table element;
    the chunks in page order are the table; the labels count the pages
    written. *)
Theorem pagination_any_length (st : app) (t : json)
  (sfs : list (string * json)) (others : list json) (rows : nat) :
  doc_json st t ->
  schemas_of t = Some (JObj sfs :: others) ->
  page_ok sfs = true ->
  4 < rows ->
  pages_for rows = ceil_div (rows - 4) 7
  /\ concat (map (page_rows rows) (seq 0 (S (pages_for rows))))
     = table_tree rows
  /\ exists templateJSON lsch li h' t' page1 ins,
       paginate rows st (app_heap st)
       = (h', Ok (templateJSON, VRef lsch, VRef li))
       /\ json_of h' templateJSON = Some t'
       /\ h' !! li = Some (CObj ins)
       /\ schemas_of t'
          = Some (JObj page1
                  :: map (fun pageI => JObj (page_entries (pageI + 1) sfs))
                         (seq 1 (pages_for rows))
                  ++ drop (pages_for rows) others)
       /\ alookup "pages" ins
          = Some (VStr (page_label 1 (pages_for rows + 1)))
       /\ forall pageI, pageI <= pages_for rows ->
            1 <= length (page_rows rows pageI)
              <= (if pageI is O then 4 else 7)
            /\ alookup (if pageI is O then "table"%string
                        else page_key (pageI + 1) "header_el" 11) ins
               = Some (VStr (stringify 0 (JArr (page_rows rows pageI))))
            /\ (1 <= pageI ->
                alookup (page_key (pageI + 1) "footer_el" 4) ins
                = Some (VStr (page_label (pageI + 1) (pages_for rows + 1)))
                /\ alookup (page_key (pageI + 1) "header_el" 7) ins
                   = Some (content_val (field "period" sfs))
                /\ alookup (page_key (pageI + 1) "header_el" 10) ins
                   = Some (content_val (field "table_period" sfs))).
Proof.
  intros Hdoc Hsch Hok Hrows. split; [reflexivity|].
  split; [by apply page_rows_concat|].
  pose proof (schemas_of_first_page _ _ _ Hsch) as Hfirst.
  destruct (paginate_run rows st t sfs Hdoc Hfirst Hok Hrows)
    as (templateJSON & lsch & li & h' & Hrun & Ht & Hs & Hi & _).
  exists templateJSON, lsch, li, h', (paginated_template rows t),
    (page1_paginated rows sfs), (paginated_inputs rows sfs).
  do 3 (split; [done|]). split; [|split].
  - rewrite (schemas_of_paginated rows _ _ Hsch). cbn [paginated_schemas].
    do 3 f_equal. apply map_ext. intros pageI.
    by rewrite extra_page_original extra_page_entries.
  - apply paginated_inputs_written. rewrite !elem_of_app. right. right.
    by apply list_elem_of_singleton.
  - intros pageI HpageI. split; [by apply page_rows_length|].
    destruct pageI as [|j].
    { split; [|lia]. apply paginated_inputs_written.
      rewrite elem_of_app. left. by apply list_elem_of_singleton. }
    assert (Hw : forall k x,
              (k, x) ∈ chunk_writes (pages_for rows + 1)
                         (page_rows rows (S j)) (page1_moved sfs) (S j) ->
              alookup k (paginated_inputs rows sfs) = Some x).
    { intros k x Hin. apply (paginated_inputs_page rows sfs (S j)); [lia|].
      unfold page_writes. replace (S j - 1) with j by lia. exact Hin. }
    unfold chunk_writes in Hw. split; [|intros _; split; [|split]].
    + apply Hw. by left.
    + apply Hw. do 3 right. by left.
    + rewrite -(page1_content_moved "period" sfs); [|by apply not_footer_key].
      apply Hw. right. by left.
    + rewrite -(page1_content_moved "table_period" sfs);
        [|by apply not_footer_key].
      apply Hw. do 2 right. by left.
Qed.

Lemma pagination_any_length_witness :
  pages_for 12 = ceil_div (12 - 4) 7
  /\ concat (map (page_rows 12) (seq 0 (S (pages_for 12)))) = table_tree 12
  /\ exists templateJSON lsch li h' t' page1 ins,
       paginate 12 sample_app (app_heap sample_app)
       = (h', Ok (templateJSON, VRef lsch, VRef li))
       /\ json_of h' templateJSON = Some t'
       /\ h' !! li = Some (CObj ins)
       /\ schemas_of t'
          = Some (JObj page1
                  :: map (fun pageI =>
                            JObj (page_entries (pageI + 1) sample_fields))
                         (seq 1 (pages_for 12))
                  ++ drop (pages_for 12) [])
       /\ alookup "pages" ins = Some (VStr (page_label 1 (pages_for 12 + 1))).
Proof.
  destruct (pagination_any_length sample_app sample_template sample_fields
              [] 12)
    as (Hk & Hcat & templateJSON & lsch & li & h' & t' & page1 & ins
        & Hrun & Ht & Hi & Hs & Hp & _).
  - vm_compute; reflexivity.
  - reflexivity.
  - vm_compute; reflexivity.
  - lia.
  - refine (conj Hk (conj Hcat _)).
    exists templateJSON, lsch, li, h', t', page1, ins.
    exact (conj Hrun (conj Ht (conj Hi (conj Hs Hp)))).
Defined.

(** ** A padding input without a number *)

(** X11.  The change handler of a padding input whose text has no
    number at its start or a number beyond the largest finite one (a
    cleared input; any text of which [parseFloat] gives [NaN] or an
    infinity): the handler returns and hands the designer a document
    that holds that value in the padding.  From then on the text of the
    document has [null] in that component and is otherwise the text of
    the old document, and that is what the save button stores.  A page
    started from that store gives the designer the document with [null]
    in the padding and then ends in a [TypeError], when it asks the
    [null] component for its text to fill the padding inputs. *)
Theorem padding_change_not_a_number (i : nat) (input_value : string)
  (st : app) (t : json) (ps : list json) :
  doc_json st t ->
  padding_of t = Some ps ->
  i < length ps ->
  i < 4 ->
  parseFloat input_value = NaN
  \/ (exists neg, parseFloat input_value = Inf neg) ->
  exists st' t',
    padding_change i input_value st = (st', Ok tt)
    /\ run (getTemplateJSONString st') st' = (st', Ok (stringify 2 t'))
    /\ padding_of t' = Some (<[i := JNull]> ps)
    /\ (forall k, k <> "basePdf"%string -> member k t' = member k t)
    /\ (forall k, k <> "padding"%string ->
          member "basePdf" t' ≫= member k = member "basePdf" t ≫= member k)
    /\ localStorage st' = localStorage st
    /\ console st' = console st
    /\ exists st2,
         save_click st' = (st2, Ok tt)
         /\ localStorage st2
            = <["template"%string := stringify 2 t']> (localStorage st)
         /\ forall BLANK_PDF, exists st3,
              startup BLANK_PDF (localStorage st2) = (st3, Throw TypeError)
              /\ doc_json st3 t'.
Proof.
  intros Hdoc Hpad Hi Hi4 Hnan. pose proof (json_of_wf _ _ _ Hdoc) as Hwf.
  assert (Hx : num_json false (parseFloat input_value) = Some JNull).
  { by destruct Hnan as [->|[neg ->]]. }
  unfold padding_of in Hpad.
  destruct t as [| | | | |fs]; try done.
  destruct (alookup "basePdf" fs) as [[| | | | |bfs]|] eqn:Hb; try done.
  destruct (alookup "padding" bfs) as [[| | | |ps'|]|] eqn:Hp; try done.
  injection Hpad as ->.
  destruct (padding_change_shown_run i input_value JNull st fs bfs ps
              Hdoc Hb Hp Hi Hx) as (st' & Hrun & Htext & _ & Hls & Hcon).
  assert (Hpad' :
    padding_of (JObj (aset "basePdf"
      (JObj (aset "padding" (JArr (<[i := JNull]> ps)) bfs)) fs))
    = Some (<[i := JNull]> ps)).
  { by cbn; rewrite !alookup_aset_eq. }
  exists st'. eexists. split; [exact Hrun|]. split; [exact Htext|].
  split; [exact Hpad'|].
  split; [by intros k Hk; cbn; rewrite alookup_aset_ne|].
  split.
  { intros k Hk. cbn. rewrite alookup_aset_eq Hb. cbn.
    by rewrite alookup_aset_ne. }
  do 2 (split; [done|]).
  unfold save_click, saveTemplate. rewrite Htext.
  eexists. split; [reflexivity|]. cbn [localStorage with_localStorage].
  rewrite Hls. split; [done|]. intros BLANK_PDF.
  assert (Hwf' : wf_json (JObj (aset "basePdf"
            (JObj (aset "padding" (JArr (<[i := JNull]> ps)) bfs)) fs))
          = true).
  { pose proof (wf_json_alookup _ _ _ Hwf Hb) as Hwfb.
    pose proof (wf_json_alookup _ _ _ Hwfb Hp) as Hwfp.
    apply wf_json_aset; [done|]. apply wf_json_aset; [done|].
    by apply wf_json_insert. }
  destruct (startup_stored BLANK_PDF
              (<["template"%string := stringify 2 (JObj (aset "basePdf"
                   (JObj (aset "padding" (JArr (<[i := JNull]> ps)) bfs)) fs))]>
                 (localStorage st)) _ Hwf')
    as (st3 & r & Hstart & Hdoc3 & _ & _ & _ & _ & Hnull);
    [apply lookup_insert_eq|].
  exists st3. split; [|done]. rewrite Hstart. f_equal.
  apply (Hnull _ i Hpad' Hi4). by apply list_lookup_insert_eq.
Qed.

Lemma padding_change_not_a_number_witness :
  exists st' t',
    padding_change 0 "" sample_app = (st', Ok tt)
    /\ run (getTemplateJSONString st') st' = (st', Ok (stringify 2 t'))
    /\ padding_of t' = Some [JNull; num 5; num 0; num 5].
Proof.
  destruct (padding_change_not_a_number 0 "" sample_app
              sample_template [num 0; num 5; num 0; num 5])
    as (st' & t' & Hrun & Htext & Hpad & _).
  - vm_compute; reflexivity.
  - reflexivity.
  - cbn; lia.
  - lia.
  - left. reflexivity.
  - exists st', t'. exact (conj Hrun (conj Htext Hpad)).
Defined.

(** ** Changes of the document under autosave *)

(** X12.  The checkbox decides what a change of the document does to
    the store.  After the box was ticked, the designer's change callback
    stores the document, and a page started from the store gives the
    designer that document and has a ticked box; its start completes
    when the padding of the document is an array that starts with four
    numbers, and otherwise either completes or ends in a [TypeError].
    After the box was unticked, the callback stores nothing: the store
    keeps the template it had, whatever the document is now. *)
Theorem change_under_autosave (checked : bool) (st : app) (t : json) :
  doc_json st t ->
  exists st1 st2,
    autosave_change checked st = (st1, Ok tt)
    /\ onChangeTemplate st1 = (st2, Ok tt)
    /\ designer_template st2 = designer_template st
    /\ app_heap st2 = app_heap st
    /\ localStorage st2 !! "template"%string
       = (if checked then Some (stringify 2 t)
          else localStorage st !! "template"%string)
    /\ (checked = true ->
        forall BLANK_PDF, exists st3 r,
          startup BLANK_PDF (localStorage st2) = (st3, r)
          /\ doc_json st3 t
          /\ autosave_checked st3 = true
          /\ (r = Ok tt \/ r = Throw TypeError)
          /\ (padding_numbers t = true -> r = Ok tt)).
Proof.
  intros Hdoc. pose proof (json_of_wf _ _ _ Hdoc) as Hwf.
  pose proof (getTemplateJSONString_run _ _ Hdoc) as Hs. clear Hdoc.
  destruct st as [h dv ls au co ge fi].
  unfold getTemplateJSONString in Hs. cbn [designer_template app_heap] in Hs.
  unfold autosave_change, onChangeTemplate, saveTemplate, run,
    getTemplateJSONString.
  destruct checked; (eexists; eexists; split; [reflexivity|]);
    unfold with_localStorage, with_autosave, with_heap;
    cbn [autosave_checked app_heap designer_template localStorage].
  - rewrite Hs. split; [reflexivity|].
    cbn [autosave_checked app_heap designer_template localStorage].
    do 2 (split; [reflexivity|]).
    split; [by rewrite lookup_insert_eq|]. intros _ BLANK_PDF.
    edestruct (startup_stored BLANK_PDF)
      as (st3 & r & Hstart & Hdoc3 & _ & Hauto & Hr & Hnum & _);
      [exact Hwf|apply lookup_insert_eq|].
    exists st3, r. split; [exact Hstart|]. split; [exact Hdoc3|].
    split; [|done].
    rewrite Hauto. unfold autosave_initial.
    rewrite lookup_insert_ne; [|done]. by rewrite lookup_insert_eq.
  - split; [reflexivity|].
    cbn [autosave_checked app_heap designer_template localStorage].
    do 2 (split; [reflexivity|]).
    split; [by rewrite lookup_delete_ne|done].
Qed.

Lemma change_under_autosave_witness :
  exists st1 st2,
    autosave_change true sample_app = (st1, Ok tt)
    /\ onChangeTemplate st1 = (st2, Ok tt)
    /\ localStorage st2 !! "template"%string
       = Some (stringify 2 sample_template).
Proof.
  destruct (change_under_autosave true sample_app sample_template)
    as (st1 & st2 & Hauto & Hchange & _ & _ & Hls & _).
  - vm_compute; reflexivity.
  - exists st1, st2. exact (conj Hauto (conj Hchange Hls)).
Defined.

(** ** The rows of the table *)

(** X13.  The table that the generate handler builds: [fill] puts one
    and the same row array into every slot, and the handler copies it
    before it writes the row number, so the rows do not share the
    write.  For any length, the result is an array of that many rows;
    row [i] is the sample row with the decimal numeral of [i] at index
    3; two positions never hold the same row; no cell that existed
    before is changed. *)
Theorem table_rows_are_copies (rows : nat) (h : heap) :
  exists v h' ts,
    make_tableData rows h = (h', Ok v)
    /\ json_of h' v = Some (JArr ts)
    /\ length ts = rows
    /\ (forall i, i < rows ->
          ts !! i
          = Some (JArr (map JStr (take 3 row)
                        ++ JStr (nat_to_string i)
                        :: map JStr (drop 4 row))))
    /\ (forall i j ti, ts !! i = Some ti -> ts !! j = Some ti -> i = j)
    /\ cells_kept h h'.
Proof.
  destruct (make_tableData_run rows h) as (v & h' & Hrun & Hv & Hkept).
  assert (Hrow : forall i ti,
            table_tree rows !! i = Some ti -> i < rows /\ ti = row_tree i).
  { intros i ti Hi. unfold table_tree in Hi.
    apply list_lookup_fmap_Some in Hi as (k & -> & Hk).
    apply lookup_seq in Hk as [-> Hlt]. done. }
  exists v, h', (table_tree rows). do 2 (split; [done|]).
  split; [by rewrite table_tree_length|]. split; [|split; [|done]].
  - intros i Hi. unfold table_tree. rewrite list_lookup_fmap.
    by rewrite lookup_seq_lt.
  - intros i j ti Hi Hj.
    destruct (Hrow _ _ Hi) as [_ ->]. destruct (Hrow _ _ Hj) as [_ Heq].
    unfold row_tree in Heq. cbn in Heq. injection Heq as Heq.
    by apply nat_to_string_inj.
Qed.
